(** * Ordonnancement: a CPM scheduler (src/main.py)

    Shallow embedding of the class [Ordonnancement]: graph construction
    from a task table, Kahn elimination with a depth-first circuit trace,
    ranks, earliest and latest calendars, and the enumeration of critical
    paths, followed by the properties of the specification; then the
    reading of the file, the menu of [main], and what the code guarantees
    beyond the specification.

    Modelling conventions.
    - Python integers are [Z]; indices produced by [range] are [nat].
    - A Python list is a [list]; [l !! i] reads it and [<[i:=x]> l] writes
      it.  Indexing a list with a value read from the task table follows
      Python: negative indices count from the end, anything else out of
      range raises [IndexError] ([py_index]).
    - The dictionary [self.tasks] is an association list in insertion
      order, which is the order Python iterates it in.
    - A call either returns, raises, or exceeds the recursion or iteration
      budget given to the model ([outcome]).  The two recursive functions
      [dfs] take the depth of recursion Python allows as an argument:
      exceeding it is Python's [RecursionError].
    - [float('inf')] is the constructor [Inf] of [ext].  Subtracting an
      integer from it converts the integer to a float, which raises
      [OverflowError] from [2**1024 - 2**970] on ([ext_sub]); comparing
      it with an integer raises nothing.
    - Printing is not modelled; what is read from the keyboard and from
      the file is an argument of the function that reads it. *)

From stdpp Require Import base option list strings.
From Stdlib Require Import ZArith Lia Sorted.


(** ** Outcomes of a call *)

Inductive exn : Type :=
  | KeyError (k : Z)
  | IndexError
  | TypeError
  | OverflowError.

Inductive outcome (A : Type) : Type :=
  | Ret (a : A)
  | Raise (e : exn)
  | OutOfFuel.
Arguments Ret {A} a.
Arguments Raise {A} e.
Arguments OutOfFuel {A}.

Definition obind {A B} (c : outcome A) (k : A -> outcome B) : outcome B :=
  match c with
  | Ret a => k a
  | Raise e => Raise e
  | OutOfFuel => OutOfFuel
  end.

Global Instance outcome_bind : MBind outcome := fun _ _ k c => obind c k.
Global Instance outcome_ret : MRet outcome := fun _ a => Ret a.

(** ** The task table *)

(** One entry of [self.tasks]: [(durée, [prédécesseurs])]. *)
Definition tache : Type := Z * list Z.
Definition table : Type := list (Z * tache).

(** [self.tasks[k]]; [None] stands for the [KeyError] of the caller. *)
Fixpoint tasks_get (t : table) (k : Z) : option tache :=
  match t with
  | [] => None
  | (k', v) :: t' => if Z.eqb k' k then Some v else tasks_get t' k
  end.

(** [k in self.tasks]. *)
Definition tasks_mem (t : table) (k : Z) : bool :=
  match tasks_get t k with Some _ => true | None => false end.

(** [for task in self.tasks]: the keys in insertion order. *)
Definition keys (t : table) : list Z := map fst t.

(** ** The object *)

(** The adjacency matrix: [None] where there is no arc. *)
Abbreviation matrice := (list (list (option Z))).

Record Ordonnancement : Type := mkOrdo {
  tasks : table;
  matrix : option matrice;
  n : nat;
  alpha : nat;
  omega : nat
}.

(** [__init__]. *)
Definition init : Ordonnancement :=
  {| tasks := []; matrix := None; n := 0; alpha := 0; omega := 0 |}.

(** The state [lire_fichier] leaves once the lines are parsed into the
    table [t]: [self.tasks = t], [self.n = len(t)], [self.omega = n + 1];
    the matrix of an earlier load stays until [construire_graphe]. *)
Definition charger (o : Ordonnancement) (t : table) : Ordonnancement :=
  {| tasks := t; matrix := matrix o; n := length t;
     alpha := alpha o; omega := length t + 1 |}.

(** ** lire_fichier *)

(** [self.tasks[k] = v]: the value of a key already present is replaced
    where the key stands, a new key goes to the end. *)
Fixpoint tasks_set (t : table) (k : Z) (v : tache) : table :=
  match t with
  | [] => [(k, v)]
  | (k', v') :: t' =>
      if Z.eqb k' k then (k', v) :: t' else (k', v') :: tasks_set t' k v
  end.

(** One line of the file as line 20 sees it: the integers
    [list(map(int, line.strip().split()))] yields, or [None] when [int]
    rejects one of the words ([ValueError]). *)
Definition ligne : Type := option (list Z).

(** What [open] and [readlines] give: the lines, or [None] when the file
    cannot be opened or read ([FileNotFoundError] and the like). *)
Definition fichier : Type := option (list ligne).

(** Lines 20-24 for one line; [None] is the [ValueError] of line 20 or the
    [IndexError] of [parts[0]] or [parts[1]]. *)
Definition lire_ligne (l : ligne) (t : table) : option table :=
  match l with
  | Some (task_num :: duration :: predecessors) =>
      Some (tasks_set t task_num (duration, predecessors))
  | _ => None
  end.

(** Lines 19-24: the table reached and whether the loop ran to its end;
    an exception leaves [self.tasks] as the lines before it made it. *)
Fixpoint lire_lignes (ls : list ligne) (t : table) : table * bool :=
  match ls with
  | [] => (t, true)
  | l :: ls' =>
      match lire_ligne l t with
      | Some t' => lire_lignes ls' t'
      | None => (t, false)
      end
  end.

(** Lines 12-34: the value returned and the object left.  Both handlers
    print and return [False]; [self.n] and [self.omega] are assigned only
    after the loop. *)
Definition lire_fichier (f : fichier) (o : Ordonnancement)
  : bool * Ordonnancement :=
  match f with
  | None => (false, o)
  | Some ls =>
      let r := lire_lignes ls [] in
      if r.2
      then (true, {| tasks := r.1; matrix := matrix o; n := length r.1;
                     alpha := alpha o; omega := length r.1 + 1 |})
      else (false, {| tasks := r.1; matrix := matrix o; n := n o;
                      alpha := alpha o; omega := omega o |})
  end.

(** The line that describes one entry of a table. *)
Definition ligne_de (e : Z * tache) : ligne := Some (e.1 :: e.2.1 :: e.2.2).

(** ** Python indexing *)

Definition py_index (len : nat) (i : Z) : option nat :=
  if (0 <=? i)%Z && (i <? Z.of_nat len)%Z then Some (Z.to_nat i)
  else if (- Z.of_nat len <=? i)%Z && (i <? 0)%Z
       then Some (Z.to_nat (Z.of_nat len + i))
       else None.

(** [m[i][j]] for [i], [j] drawn from [range(len(m))].  Every matrix the
    object holds is square ([construire_graphe_carre]), so the read is in
    range; outside it the model reads "no arc". *)
Definition cell (m : matrice) (i j : nat) : option Z :=
  match m !! i with
  | Some row => match row !! j with Some c => c | None => None end
  | None => None
  end.

(** [m[i][j] = v] with Python indices. *)
Definition set_cell (m : matrice) (i j : Z) (v : Z) : outcome matrice :=
  match py_index (length m) i with
  | None => Raise IndexError
  | Some a =>
      match m !! a with
      | None => Raise IndexError
      | Some row =>
          match py_index (length row) j with
          | None => Raise IndexError
          | Some b => Ret (<[a := <[b := Some v]> row]> m)
          end
      end
  end.

(** ** construire_graphe *)

(** Lines 47-49: arcs from alpha to the tasks without predecessors. *)
Fixpoint boucle_alpha (t : table) (a : nat) (ks : list Z) (m : matrice)
  : outcome matrice :=
  match ks with
  | [] => Ret m
  | task :: ks' =>
      match tasks_get t task with
      | None => Raise (KeyError task)
      | Some (_, []) =>
          m' ← set_cell m (Z.of_nat a) task 0%Z;
          boucle_alpha t a ks' m'
      | Some (_, _ :: _) => boucle_alpha t a ks' m
      end
  end.

(** Lines 54-55: the right-hand side [self.tasks[pred][0]] is evaluated
    before the target [self.matrix[pred][task]]. *)
Fixpoint boucle_preds (t : table) (task : Z) (preds : list Z) (m : matrice)
  : outcome matrice :=
  match preds with
  | [] => Ret m
  | pred :: ps =>
      match tasks_get t pred with
      | None => Raise (KeyError pred)
      | Some (d, _) =>
          m' ← set_cell m pred task d;
          boucle_preds t task ps m'
      end
  end.

(** Lines 52-55. *)
Fixpoint boucle_arcs (t : table) (ks : list Z) (m : matrice)
  : outcome matrice :=
  match ks with
  | [] => Ret m
  | task :: ks' =>
      match tasks_get t task with
      | None => Raise (KeyError task)
      | Some (_, preds) =>
          m' ← boucle_preds t task preds m;
          boucle_arcs t ks' m'
      end
  end.

Definition is_some {A} (x : option A) : bool :=
  match x with Some _ => true | None => false end.

(** Line 59. *)
Definition has_successor (m : matrice) (size i : nat) : bool :=
  existsb (fun j => is_some (cell m i j)) (seq 0 size).

(** Lines 58-61. *)
Fixpoint boucle_omega (t : table) (om size : nat) (rg : list nat) (m : matrice)
  : outcome matrice :=
  match rg with
  | [] => Ret m
  | i :: rg' =>
      let hs := has_successor m size i in
      if negb (Nat.eqb i om) && negb hs && tasks_mem t (Z.of_nat i) then
        match tasks_get t (Z.of_nat i) with
        | None => Raise (KeyError (Z.of_nat i))
        | Some (d, _) =>
            m' ← set_cell m (Z.of_nat i) (Z.of_nat om) d;
            boucle_omega t om size rg' m'
        end
      else boucle_omega t om size rg' m
  end.

(** Lines 36-61.  The matrix is allocated full of [None]; the loop of
    lines 42-44 writes [None] again over it. *)
Definition construire_graphe (o : Ordonnancement) : outcome Ordonnancement :=
  let size := n o + 2 in
  let m0 : matrice := replicate size (replicate size None) in
  m1 ← boucle_alpha (tasks o) (alpha o) (keys (tasks o)) m0;
  m2 ← boucle_arcs (tasks o) (keys (tasks o)) m1;
  m3 ← boucle_omega (tasks o) (omega o) size (seq 0 size) m2;
  Ret {| tasks := tasks o; matrix := Some m3; n := n o;
         alpha := alpha o; omega := omega o |}.

(** ** afficher_graphe *)

(** Lines 73-77: the triplets [(i, j, value)] of the arcs, rows then
    columns; the rest of [afficher_graphe] prints them. *)
Definition arcs (m : matrice) : list (nat * nat * Z) :=
  flat_map (fun i =>
    flat_map (fun j => match cell m i j with
                       | Some w => [(i, j, w)]
                       | None => []
                       end) (seq 0 (length m)))
    (seq 0 (length m)).

(** ** Adjacency lists and degrees *)

Definition edgeb (m : matrice) (i j : nat) : bool := is_some (cell m i j).

(** Lines 142-146 (and 220-224, 260-264): [adj[i].append(j)] and
    [in_degree[j] += 1] for every arc, rows then columns. *)
Definition ajoute (i j : nat) (st : list (list nat) * list Z)
  : list (list nat) * list Z :=
  (alter (fun l => l ++ [j]) i st.1, alter (fun d => (d + 1)%Z) j st.2).

Definition listes (m : matrice) : list (list nat) * list Z :=
  let size := length m in
  foldl (fun st i =>
           foldl (fun st j => if edgeb m i j then ajoute i j st else st)
                 st (seq 0 size))
        (replicate size [], replicate size 0%Z) (seq 0 size).

(** Lines 286-293: [rev_adj[j].append(i)] and [rev_in_degree[i] += 1]. *)
Definition listes_inverses (m : matrice) : list (list nat) * list Z :=
  let size := length m in
  foldl (fun st i =>
           foldl (fun st j => if edgeb m i j then ajoute j i st else st)
                 st (seq 0 size))
        (replicate size [], replicate size 0%Z) (seq 0 size).

(** ** Elimination of entry points (Kahn) *)

Section Kahn.
Context {A : Type}.
(** What the loop does to the values it carries: [visit] when a vertex
    leaves the queue, [relax] on each of its outgoing arcs. *)
Variable visit : nat -> A -> A.
Variable relax : nat -> nat -> A -> A.

Record kstate : Type := mkK {
  in_degree : list Z;
  queue : list nat;
  acc : A
}.

(** One turn of [for v in adj[u]]: the relaxation, [in_degree[v] -= 1],
    and [queue.append(v)] when the degree reaches zero. *)
Definition relache1 (u v : nat) (st : kstate) : kstate :=
  let deg := alter (fun d => (d - 1)%Z) v (in_degree st) in
  {| in_degree := deg;
     queue := if bool_decide (deg !! v = Some 0%Z)
              then queue st ++ [v] else queue st;
     acc := relax u v (acc st) |}.

Definition relacher (u : nat) (vs : list nat) (st : kstate) : kstate :=
  foldl (fun st v => relache1 u v st) st vs.

(** [while queue: u = queue.popleft(); ...]. *)
Fixpoint boucle_kahn (fuel : nat) (adj : list (list nat)) (st : kstate)
  : outcome kstate :=
  match queue st with
  | [] => Ret st
  | u :: q =>
      match fuel with
      | 0 => OutOfFuel
      | S fuel' =>
          boucle_kahn fuel' adj
            (relacher u (default [] (adj !! u))
               {| in_degree := in_degree st; queue := q;
                  acc := visit u (acc st) |})
      end
  end.

(** [deque([i for i in range(size) if in_degree[i] == 0])]. *)
Definition entrees (deg : list Z) : list nat :=
  filter (fun i => deg !! i = Some 0%Z) (seq 0 (length deg)).

(** The whole elimination: at most one turn per vertex is ever needed
    ([kahn_correct]), so the budget is the number of vertices. *)
Definition kahn (adj : list (list nat)) (deg : list Z) (a0 : A)
  : outcome kstate :=
  boucle_kahn (length deg) adj
    {| in_degree := deg; queue := entrees deg; acc := a0 |}.
End Kahn.

Arguments kstate : clear implicits.
Arguments mkK {A}.
Arguments in_degree {A}.
Arguments queue {A}.
Arguments acc {A}.

(** The same loop when the relaxation can raise (lines 297-305, where
    [late[u] - w] may be an operation on floats): the exception leaves the
    loop at once. *)
Section KahnExc.
Context {A : Type}.
Variable visit : nat -> A -> A.
Variable relax : nat -> nat -> A -> outcome A.

Definition relache1_exc (u v : nat) (st : kstate A) : outcome (kstate A) :=
  a ← relax u v (acc st);
  let deg := alter (fun d => (d - 1)%Z) v (in_degree st) in
  Ret {| in_degree := deg;
         queue := if bool_decide (deg !! v = Some 0%Z)
                  then queue st ++ [v] else queue st;
         acc := a |}.

Fixpoint relacher_exc (u : nat) (vs : list nat) (st : kstate A)
  : outcome (kstate A) :=
  match vs with
  | [] => Ret st
  | v :: vs' => st' ← relache1_exc u v st; relacher_exc u vs' st'
  end.

Fixpoint boucle_kahn_exc (fuel : nat) (adj : list (list nat)) (st : kstate A)
  : outcome (kstate A) :=
  match queue st with
  | [] => Ret st
  | u :: q =>
      match fuel with
      | 0 => OutOfFuel
      | S fuel' =>
          st' ← relacher_exc u (default [] (adj !! u))
                  {| in_degree := in_degree st; queue := q;
                     acc := visit u (acc st) |};
          boucle_kahn_exc fuel' adj st'
      end
  end.

Definition kahn_exc (adj : list (list nat)) (deg : list Z) (a0 : A)
  : outcome (kstate A) :=
  boucle_kahn_exc (length deg) adj
    {| in_degree := deg; queue := entrees deg; acc := a0 |}.
End KahnExc.

(** ** detecter_circuit *)

(** The values [dfs] and [detecter_circuit] return: [None], [False],
    [True], or a list of vertices. *)
Inductive py_val : Type :=
  | PNone
  | PFalse
  | PTrue
  | PList (l : list nat).

(** Truth value of [if x:]. *)
Definition truthy (v : py_val) : bool :=
  match v with
  | PNone | PFalse => false
  | PTrue => true
  | PList [] => false
  | PList (_ :: _) => true
  end.

Record dfs_state : Type := mkD {
  visited : list bool;
  on_stack : list bool;
  path : list nat
}.

(** [flags[i]] for [i] in range. *)
Definition lu (flags : list bool) (i : nat) : bool :=
  match flags !! i with Some b => b | None => false end.

(** [path[path.index(x):]]: the suffix of [path] from the first [x]. *)
Fixpoint depuis (x : nat) (p : list nat) : list nat :=
  match p with
  | [] => []
  | y :: p' => if Nat.eqb y x then p else depuis x p'
  end.

(** Lines 181-192, the body of [dfs(node)] after its three first
    statements; [rec] is the recursive call. *)
Fixpoint dfs_voisins (rec : nat -> dfs_state -> outcome (py_val * dfs_state))
    (node : nat) (vs : list nat) (st : dfs_state)
  : outcome (py_val * dfs_state) :=
  match vs with
  | [] =>
      Ret (PFalse, {| visited := visited st;
                      on_stack := <[node := false]> (on_stack st);
                      path := removelast (path st) |})
  | neighbor :: vs' =>
      if negb (lu (visited st) neighbor) then
        '(r, st') ← rec neighbor st;
        if truthy r then Ret (PTrue, st') else dfs_voisins rec node vs' st'
      else if lu (on_stack st) neighbor then
        Ret (PList (depuis neighbor (path st) ++ [neighbor]), st)
      else dfs_voisins rec node vs' st
  end.

(** Lines 176-192; [fuel] bounds the depth of the recursion. *)
Fixpoint dfs (fuel : nat) (adj : list (list nat)) (node : nat) (st : dfs_state)
  : outcome (py_val * dfs_state) :=
  match fuel with
  | 0 => OutOfFuel
  | S fuel' =>
      dfs_voisins (dfs fuel' adj) node (default [] (adj !! node))
        {| visited := <[node := true]> (visited st);
           on_stack := <[node := true]> (on_stack st);
           path := path st ++ [node] |}
  end.

(** Lines 194-200. *)
Fixpoint cherche (fuel : nat) (adj : list (list nat)) (nodes : list nat)
    (st : dfs_state) : outcome py_val :=
  match nodes with
  | [] => Ret (PList [])
  | node :: ns =>
      if negb (lu (visited st) node) then
        '(circuit, st') ← dfs fuel adj node st;
        if truthy circuit then Ret circuit else cherche fuel adj ns st'
      else cherche fuel adj ns st
  end.

(** What the elimination of [detecter_circuit] carries: [count] and
    [topo_order].  [count += 1] is written after the inner loop in the
    source; the inner loop does not read it. *)
Definition compte (u : nat) (a : nat * list nat) : nat * list nat :=
  (a.1 + 1, a.2 ++ [u]).

Definition elimination (m : matrice) : outcome (kstate (nat * list nat)%type) :=
  kahn compte (fun _ _ a => a) (listes m).1 (listes m).2 (0, []).

(** Lines 132-203; [fuel] is the depth of recursion Python allows to
    [dfs].  A depth of the number of vertices is always enough
    ([cherche_complet]). *)
Definition detecter_circuit (fuel : nat) (o : Ordonnancement) : outcome py_val :=
  match matrix o with
  | None => Raise TypeError
  | Some m =>
      let size := length m in
      st ← elimination m;
      if negb (Nat.eqb (acc st).1 size) then
        cherche fuel (listes m).1 (seq 0 size)
          {| visited := replicate size false;
             on_stack := replicate size false;
             path := [] |}
      else Ret PNone
  end.

(** ** verifier_proprietes *)

(** Lines 111-116: the [break] leaves the inner loop only and the flag
    stays set. *)
Definition has_negative (m : matrice) : bool :=
  let size := length m in
  foldl (fun h i =>
           if existsb (fun j => match cell m i j with
                                | Some w => (w <? 0)%Z
                                | None => false
                                end) (seq 0 size)
           then true else h)
        false (seq 0 size).

(** [not self.matrix]. *)
Definition sans_matrice (o : Ordonnancement) : bool :=
  match matrix o with
  | None | Some [] => true
  | Some (_ :: _) => false
  end.

(** Lines 102-130; [fuel] is the depth of recursion left to
    [detecter_circuit]. *)
Definition verifier_proprietes (fuel : nat) (o : Ordonnancement) : outcome bool :=
  if sans_matrice o then Ret false
  else
    let neg := match matrix o with Some m => has_negative m | None => false end in
    circuit ← detecter_circuit fuel o;
    Ret (negb neg && negb (truthy circuit)).

(** ** calculer_rangs *)

(** Lines 232-233. *)
Definition relax_rang (u v : nat) (ranks : list Z) : list Z :=
  match ranks !! v, ranks !! u with
  | Some rv, Some ru =>
      if (rv <? ru + 1)%Z then <[v := (ru + 1)%Z]> ranks else ranks
  | _, _ => ranks
  end.

(** Lines 205-242. *)
Definition calculer_rangs (o : Ordonnancement) : outcome (option (list Z)) :=
  if sans_matrice o then Ret None
  else
    match matrix o with
    | None => Ret None
    | Some m =>
        st ← kahn (fun _ a => a) relax_rang (listes m).1 (listes m).2
               (replicate (length m) 0%Z);
        Ret (Some (acc st))
    end.

(** ** calculer_calendriers *)

(** An integer or [float('inf')]. *)
Inductive ext : Type :=
  | Fin (z : Z)
  | Inf.

(** The integers Python converts to a float: [float(w)] raises
    [OverflowError] from [2**1024 - 2**970] on, the least integer that
    rounds to [2**1024]. *)
Definition borne_float : Z := (2 ^ 1024 - 2 ^ 970)%Z.

Definition flottant (w : Z) : bool := (Z.abs w <? borne_float)%Z.

(** [a - w] for an integer [w]: a subtraction of integers when [a] is
    one; when [a] is [float('inf')], [w] is converted to a float first,
    and the difference is [inf]. *)
Definition ext_sub (a : ext) (w : Z) : outcome ext :=
  match a with
  | Fin z => Ret (Fin (z - w))
  | Inf => if flottant w then Ret Inf else Raise OverflowError
  end.

(** [a > b]. *)
Definition ext_gt (a b : ext) : bool :=
  match a, b with
  | Fin x, Fin y => (y <? x)%Z
  | Inf, Fin _ => true
  | _, Inf => false
  end.

(** [a == 0]. *)
Definition ext_nul (a : ext) : bool :=
  match a with
  | Fin z => (z =? 0)%Z
  | Inf => false
  end.

(** [self.matrix[u][v] if self.matrix[u][v] is not None else 0]. *)
Definition weight (m : matrice) (u v : nat) : Z := default 0%Z (cell m u v).

(** Lines 272-273. *)
Definition relax_tot (m : matrice) (u v : nat) (early : list Z) : list Z :=
  match early !! v, early !! u with
  | Some ev, Some eu =>
      if (ev <? eu + weight m u v)%Z
      then <[v := (eu + weight m u v)%Z]> early else early
  | _, _ => early
  end.

(** Lines 301-302; [u] is the vertex leaving the queue of the reversed
    graph and [v] one of its predecessors in the graph. *)
Definition relax_tard (m : matrice) (u v : nat) (late : list ext)
  : outcome (list ext) :=
  match late !! v, late !! u with
  | Some lv, Some lu =>
      x ← ext_sub lu (weight m v u);
      Ret (if ext_gt lv x then <[v := x]> late else late)
  | _, _ => Ret late
  end.

(** Line 316: [[late[i] - early[i] for i in range(size)]], on two lists
    of [size] values. *)
Fixpoint marges (late : list ext) (early : list Z) : outcome (list ext) :=
  match late, early with
  | l :: late', e :: early' =>
      x ← ext_sub l e;
      xs ← marges late' early';
      Ret (x :: xs)
  | _, _ => Ret []
  end.

Definition calendriers : Type :=
  option (list Z) * option (list ext) * option (list ext).

(** Lines 244-321. *)
Definition calculer_calendriers (o : Ordonnancement) : outcome calendriers :=
  if sans_matrice o then Ret (None, None, None)
  else
    match matrix o with
    | None => Ret (None, None, None)
    | Some m =>
        let size := length m in
        st ← kahn (fun _ a => a) (relax_tot m) (listes m).1 (listes m).2
               (replicate size 0%Z);
        let early := acc st in
        match early !! omega o with
        | None => Raise IndexError
        | Some total_duration =>
            let late0 := <[omega o := Fin total_duration]> (replicate size Inf) in
            st' ← kahn_exc (fun _ a => a) (relax_tard m)
                    (listes_inverses m).1 (listes_inverses m).2 late0;
            let late := acc st' in
            margins ← marges late early;
            Ret (Some early, Some late, Some margins)
        end
    end.

(** ** trouver_chemins_critiques *)

(** Line 338: the test on one cell; [late[j]] and [early[i]] are read
    only when the arc exists. *)
Definition est_critique (m : matrice) (early : list Z) (late : list ext)
    (i j : nat) : outcome bool :=
  match cell m i j with
  | None => Ret false
  | Some w =>
      match late !! j, early !! i with
      | Some lj, Some ei =>
          d ← ext_sub lj ei;
          d' ← ext_sub d w;
          Ret (ext_nul d')
      | _, _ => Raise IndexError
      end
  end.

(** Lines 337-339, one row. *)
Fixpoint arcs_ligne (m : matrice) (early : list Z) (late : list ext)
    (i : nat) (js : list nat) (ce : list (nat * nat))
  : outcome (list (nat * nat)) :=
  match js with
  | [] => Ret ce
  | j :: js' =>
      b ← est_critique m early late i j;
      arcs_ligne m early late i js' (if (b : bool) then ce ++ [(i, j)] else ce)
  end.

(** Lines 336-339. *)
Fixpoint arcs_critiques (m : matrice) (early : list Z) (late : list ext)
    (rows : list nat) (ce : list (nat * nat)) : outcome (list (nat * nat)) :=
  match rows with
  | [] => Ret ce
  | i :: rows' =>
      ce' ← arcs_ligne m early late i (seq 0 (length m)) ce;
      arcs_critiques m early late rows' ce'
  end.

(** Lines 342-344. *)
Definition adj_critique (size : nat) (ce : list (nat * nat)) : list (list nat) :=
  foldl (fun adj '(u, v) => alter (fun l => l ++ [v]) u adj)
        (replicate size []) ce.

(** The two lists [dfs] works on: [path] and [paths]. *)
Definition pstate : Type := list nat * list (list nat).

(** Lines 353-354. *)
Fixpoint parcours (rec : nat -> pstate -> outcome pstate) (vs : list nat)
    (st : pstate) : outcome pstate :=
  match vs with
  | [] => Ret st
  | neighbor :: vs' =>
      st' ← rec neighbor st;
      parcours rec vs' st'
  end.

(** Lines 347-356; [fuel] bounds the depth of the recursion, which the
    source does not bound. *)
Fixpoint dfs_chemins (fuel : nat) (adj : list (list nat)) (om : nat)
    (node : nat) (st : pstate) : outcome pstate :=
  match fuel with
  | 0 => OutOfFuel
  | S fuel' =>
      let p := st.1 ++ [node] in
      st' ← (if Nat.eqb node om then Ret (p, st.2 ++ [p])
             else parcours (dfs_chemins fuel' adj om)
                    (default [] (adj !! node)) (p, st.2));
      Ret (removelast st'.1, st'.2)
  end.

(** Lines 323-368. *)
Definition trouver_chemins_critiques (fuel : nat) (o : Ordonnancement)
    (early : option (list Z)) (late : option (list ext))
  : outcome (option (list (list nat))) :=
  if sans_matrice o then Ret None
  else
    match matrix o, early, late with
    | Some m, Some early, Some late =>
        let size := length m in
        ce ← arcs_critiques m early late (seq 0 size) [];
        st ← dfs_chemins fuel (adj_critique size ce) (omega o) (alpha o) ([], []);
        Ret (Some st.2)
    | _, _, _ => Ret None
    end.

(** ** The whole computation *)

Record resultats : Type := mkR {
  r_rangs : option (list Z);
  r_calendriers : calendriers;
  r_chemins : option (list (list nat))
}.

(** Graph construction, ranks, calendars and critical paths, in the order
    of the menu (choices 1, 4, 5 and 6 of [main]). *)
Definition pipeline (fuel : nat) (o : Ordonnancement)
  : outcome (Ordonnancement * resultats) :=
  o' ← construire_graphe o;
  rangs ← calculer_rangs o';
  cal ← calculer_calendriers o';
  chemins ← trouver_chemins_critiques fuel o' cal.1.1 cal.1.2;
  Ret (o', {| r_rangs := rangs; r_calendriers := cal; r_chemins := chemins |}).

(** ** main *)

(** How a turn of the menu ends: back to the prompt with the object, or
    the end of the program (choice 8). *)
Inductive suite : Type :=
  | Encore (o : Ordonnancement)
  | Fini.

(** Lines 386-422, one turn of [while True]: [choix] is the answer to the
    prompt and [f] the file named at the second prompt of choice 1.  The
    functions called print their results ([afficher_graphe] does nothing
    else, and the values the others return are dropped at the end of the
    turn); an exception none of them catches ends the program.  [fuel] is
    the depth of recursion Python allows. *)
Definition tour (fuel : nat) (choix : string) (f : fichier) (o : Ordonnancement)
  : outcome suite :=
  if String.eqb choix "1" then
    let r := lire_fichier f o in
    if r.1 then o' ← construire_graphe r.2; Ret (Encore o')
    else Ret (Encore r.2)
  else if String.eqb choix "2" then Ret (Encore o)
  else if String.eqb choix "3" then
    _ ← verifier_proprietes fuel o; Ret (Encore o)
  else if String.eqb choix "4" then
    _ ← calculer_rangs o; Ret (Encore o)
  else if String.eqb choix "5" then
    _ ← calculer_calendriers o; Ret (Encore o)
  else if String.eqb choix "6" then
    cal ← calculer_calendriers o;
    _ ← trouver_chemins_critiques fuel o cal.1.1 cal.1.2;
    Ret (Encore o)
  else if String.eqb choix "7" then
    match tasks o with
    | [] => Ret (Encore o)
    | _ :: _ =>
        ok ← verifier_proprietes fuel o;
        if (ok : bool) then
          _ ← calculer_rangs o;
          cal ← calculer_calendriers o;
          _ ← trouver_chemins_critiques fuel o cal.1.1 cal.1.2;
          Ret (Encore o)
        else Ret (Encore o)
    end
  else if String.eqb choix "8" then Ret Fini
  else Ret (Encore o).

(** The loop over the answers typed so far: the object the program holds
    while it waits for the next answer, or [None] once it has ended. *)
Fixpoint boucle_menu (fuel : nat) (entrees : list (string * fichier))
    (o : Ordonnancement) : outcome (option Ordonnancement) :=
  match entrees with
  | [] => Ret (Some o)
  | (choix, f) :: entrees' =>
      s ← tour fuel choix f o;
      match s with
      | Encore o' => boucle_menu fuel entrees' o'
      | Fini => Ret None
      end
  end.

(** Lines 370-422. *)
Definition main (fuel : nat) (entrees : list (string * fichier))
  : outcome (option Ordonnancement) :=
  boucle_menu fuel entrees init.

(** ** Graph notions of the specification *)

(** There is an arc from [u] to [v]: [self.matrix[u][v] is not None]. *)
Definition arc (m : matrice) (u v : nat) : Prop := edgeb m u v = true.

(** A walk: each vertex of the list is joined to the next by [E]. *)
Fixpoint chemin (E : nat -> nat -> Prop) (p : list nat) : Prop :=
  match p with
  | u :: ((v :: _) as q) => E u v /\ chemin E q
  | _ => True
  end.

(** No walk of one arc or more comes back to its first vertex. *)
Definition sans_circuit (E : nat -> nat -> Prop) : Prop :=
  forall v q, ~ chemin E (v :: q ++ [v]).

Definition acyclique (m : matrice) : Prop := sans_circuit (arc m).

(** Every row is as long as the matrix has rows. *)
Definition carree (m : matrice) : Prop :=
  forall row, row ∈ m -> length row = length m.

(** Number of arcs of a walk. *)
Definition longueur (p : list nat) : nat := length p - 1.

(** [p] is a walk of [E] from [a] to [b]. *)
Definition chemin_de (E : nat -> nat -> Prop) (a b : nat) (p : list nat) : Prop :=
  chemin E p /\ head p = Some a /\ last p = Some b.

(** * Proofs *)

(** ** Walks and circuits *)

Section Chemins.
Variable E : nat -> nat -> Prop.

Lemma chemin_app_inv p q : chemin E (p ++ q) -> chemin E p /\ chemin E q.
Proof.
  induction p as [|u p IH]; simpl; [tauto|].
  destruct p as [|v p]; simpl in *.
  - destruct q; tauto.
  - intros [Huv H]. destruct (IH H). tauto.
Qed.

Lemma chemin_app p x q :
  chemin E (p ++ [x]) -> chemin E (x :: q) -> chemin E (p ++ x :: q).
Proof.
  induction p as [|u p IH]; simpl; [tauto|].
  destruct p as [|v p]; simpl in *; [tauto|].
  intros [Huv H] Hq. split; [done|]. by apply IH.
Qed.

Lemma chemin_snoc p u v :
  chemin E (p ++ [u]) -> E u v -> chemin E (p ++ [u; v]).
Proof. intros Hp Huv. apply chemin_app; [done|]. by split. Qed.

Lemma chemin_elem_source p u :
  chemin E (p ++ [u]) -> forall x, x ∈ p -> exists y, E x y.
Proof.
  induction p as [|a p IH]; intros Hp x Hx; [by apply elem_of_nil in Hx|].
  apply elem_of_cons in Hx as [->|Hx].
  - destruct p; simpl in Hp; destruct Hp; eauto.
  - apply IH; [|done]. destruct p; simpl in *; tauto.
Qed.

Lemma chemin_elem_but u p :
  chemin E (u :: p) -> forall x, x ∈ p -> exists y, E y x.
Proof.
  revert u. induction p as [|a p IH]; intros u Hp x Hx;
    [by apply elem_of_nil in Hx|].
  destruct Hp as [Hua Hp].
  apply elem_of_cons in Hx as [->|Hx]; [eauto|]. by apply (IH a).
Qed.

Lemma doublon (l : list nat) :
  ~ NoDup l -> exists l1 x l2 l3, l = l1 ++ x :: l2 ++ x :: l3.
Proof.
  induction l as [|a l IH]; intros Hnd.
  - destruct Hnd. constructor.
  - destruct (decide (a ∈ l)) as [Hin|Hnin].
    + apply list_elem_of_split in Hin as (l2 & l3 & ->).
      by exists [], a, l2, l3.
    + destruct IH as (l1 & x & l2 & l3 & ->).
      { intros Hl. apply Hnd. by constructor. }
      by exists (a :: l1), x, l2, l3.
Qed.

Lemma sans_circuit_NoDup p : sans_circuit E -> chemin E p -> NoDup p.
Proof.
  intros Hac Hp. destruct (decide (NoDup p)) as [|Hnd]; [done|].
  apply doublon in Hnd as (l1 & x & l2 & l3 & ->).
  apply chemin_app_inv in Hp as [_ Hp].
  replace (x :: l2 ++ x :: l3) with ((x :: l2 ++ [x]) ++ l3) in Hp
    by (simpl; by rewrite <- app_assoc).
  apply chemin_app_inv in Hp as [Hp _]. by apply Hac in Hp.
Qed.

Lemma NoDup_borne (size : nat) (l : list nat) :
  NoDup l -> (forall x, x ∈ l -> x < size) -> length l <= size.
Proof.
  intros Hnd Hl. transitivity (length (seq 0 size)); [|by rewrite length_seq].
  apply submseteq_length, NoDup_submseteq; [done|].
  intros x Hx. apply elem_of_seq. specialize (Hl x Hx). lia.
Qed.

(** Induction along the arcs of a finite graph without circuit: a property
    that holds of a vertex whenever it holds of its predecessors holds of
    every vertex. *)
Lemma sans_circuit_ind (size : nat) (P : nat -> Prop) :
  sans_circuit E ->
  (forall u v, E u v -> u < size /\ v < size) ->
  (forall v, (forall u, E u v -> P u) -> P v) ->
  forall v, P v.
Proof.
  intros Hac Hrange Hstep.
  assert (Hch : forall k v p,
    chemin E (v :: p) -> (forall x, x ∈ v :: p -> x < size) ->
    size < length (v :: p) + k -> P v).
  { induction k as [|k IH]; intros v p Hp Hlt Hlen.
    - pose proof (NoDup_borne size (v :: p) (sans_circuit_NoDup _ Hac Hp) Hlt).
      lia.
    - apply Hstep. intros u Huv. apply (IH u (v :: p)).
      + by split.
      + intros x Hx. apply elem_of_cons in Hx as [->|Hx]; [|by apply Hlt].
        by apply (Hrange _ _ Huv).
      + simpl in *. lia. }
  intros v. destruct (decide (v < size)) as [Hv|Hv].
  - apply (Hch size v []); [done| |simpl; lia].
    intros x Hx. apply list_elem_of_singleton in Hx. by subst.
  - apply Hstep. intros u Huv. apply Hrange in Huv. lia.
Qed.
End Chemins.

Lemma chemin_rev E p : chemin (flip E) p <-> chemin E (rev p).
Proof.
  induction p as [|u p IH]; [done|].
  destruct p as [|v p]; [done|].
  change (flip E u v /\ chemin (flip E) (v :: p) <-> chemin E (rev (u :: v :: p))).
  rewrite IH. simpl. rewrite <- app_assoc. simpl. split.
  - intros [Huv Hp]. by apply chemin_snoc.
  - intros Hp. split.
    + apply chemin_app_inv in Hp as [_ Hp]. by destruct Hp.
    + replace (rev p ++ [v; u]) with ((rev p ++ [v]) ++ [u]) in Hp
        by (by rewrite <- app_assoc).
      by apply chemin_app_inv in Hp as [Hp _].
Qed.

Lemma sans_circuit_flip E : sans_circuit E -> sans_circuit (flip E).
Proof.
  intros Hac v q Hp. apply chemin_rev in Hp.
  simpl in Hp. rewrite rev_app_distr in Hp. simpl in Hp.
  by apply (Hac v (rev q)).
Qed.

(** ** Lists *)

Lemma filter_iff_in {X} (P Q : X -> Prop) `{!forall x, Decision (P x)}
    `{!forall x, Decision (Q x)} (l : list X) :
  (forall x, x ∈ l -> P x <-> Q x) -> filter P l = filter Q l.
Proof.
  induction l as [|a l IH]; intros Hl; [done|].
  rewrite !filter_cons.
  rewrite IH by (intros x Hx; apply Hl; by right).
  pose proof (Hl a (list_elem_of_here a l)).
  repeat case_decide; tauto.
Qed.

Lemma filter_retire (P Q : nat -> Prop) `{!forall x, Decision (P x)}
    `{!forall x, Decision (Q x)} (l : list nat) (u : nat) :
  NoDup l -> u ∈ l -> P u -> (forall x, Q x <-> P x /\ x <> u) ->
  length (filter P l) = S (length (filter Q l)).
Proof.
  intros Hnd Hu HPu HQ. induction l as [|a l IH]; [by apply elem_of_nil in Hu|].
  apply NoDup_cons in Hnd as [Ha Hnd]. rewrite !filter_cons.
  destruct (decide (a = u)) as [->|Hau].
  - rewrite decide_True by done.
    rewrite (decide_False (P := Q u)) by (rewrite HQ; tauto).
    simpl. f_equal. f_equal. apply filter_iff_in.
    intros x Hx. rewrite HQ. assert (x <> u) by (by intros ->). tauto.
  - apply elem_of_cons in Hu as [->|Hu]; [done|].
    specialize (IH Hnd Hu). pose proof (HQ a).
    repeat case_decide; simpl; try lia; tauto.
Qed.

Lemma filter_vide {X} (P : X -> Prop) `{!forall x, Decision (P x)} (l : list X) :
  length (filter P l) = 0 <-> forall x, x ∈ l -> ~ P x.
Proof.
  split.
  - intros Hlen x Hx HP. apply length_zero_iff_nil in Hlen.
    assert (Hin : x ∈ filter P l) by (by apply list_elem_of_filter).
    rewrite Hlen in Hin. by apply elem_of_nil in Hin.
  - intros Hl. apply length_zero_iff_nil, elem_of_nil_inv.
    intros x Hx. apply list_elem_of_filter in Hx as [HP Hx]. by apply (Hl x).
Qed.

(** ** The elimination of entry points *)

(** [adj[u]]. *)
Definition succs (adj : list (list nat)) (u : nat) : list nat :=
  default [] (adj !! u).

Section KahnCorrect.
Context {A : Type}.
Variable visit : nat -> A -> A.
Variable relax : nat -> nat -> A -> A.
Variable size : nat.
Variable adj : list (list nat).
Variable deg0 : list Z.
Variable a0 : A.

Hypothesis adj_nodup : forall u, NoDup (succs adj u).
Hypothesis adj_range : forall u v, v ∈ succs adj u -> u < size /\ v < size.
Hypothesis deg0_length : length deg0 = size.
Hypothesis deg0_spec : forall v, v < size ->
  deg0 !! v =
  Some (Z.of_nat (length (filter (fun u => v ∈ succs adj u) (seq 0 size)))).

(** Predecessors of [v] that have not left the queue yet. *)
Definition attente (done : list nat) (v : nat) : nat :=
  length (filter (fun u => v ∈ succs adj u /\ u ∉ done) (seq 0 size)).

(** What one turn of the [while] loop does to the carried value. *)
Definition traiter (a : A) (u : nat) : A :=
  foldl (fun a v => relax u v a) (visit u a) (succs adj u).

(** Every predecessor of a vertex of [l] stands before it in [l]. *)
Definition topologique (l : list nat) : Prop :=
  forall i v, l !! i = Some v ->
  forall u, v ∈ succs adj u -> exists j, j < i /\ l !! j = Some u.

(** The loop invariant; [done] lists the vertices removed so far. *)
Record kinv (done : list nat) (st : kstate A) : Prop := mkKinv {
  kinv_nodup : NoDup (done ++ queue st);
  kinv_range : forall x, x ∈ done ++ queue st -> x < size;
  kinv_length : length (in_degree st) = size;
  kinv_deg : forall v, v < size ->
    in_degree st !! v = Some (Z.of_nat (attente done v));
  kinv_queue : forall v, v < size ->
    (v ∈ done ++ queue st <-> attente done v = 0);
  kinv_topo : topologique done;
  kinv_acc : acc st = foldl traiter a0 done
}.

Lemma relacher_acc u vs st :
  acc (relacher relax u vs st) = foldl (fun a v => relax u v a) (acc st) vs.
Proof. revert st. induction vs as [|w vs IH]; intros st; [done|]. simpl. by rewrite IH. Qed.

Lemma relacher_length u vs st :
  length (in_degree (relacher relax u vs st)) = length (in_degree st).
Proof.
  revert st. induction vs as [|w vs IH]; intros st; [done|].
  simpl. rewrite IH. simpl. apply length_alter.
Qed.

Lemma relacher_deg u vs st v :
  NoDup vs ->
  in_degree (relacher relax u vs st) !! v =
  if decide (v ∈ vs) then (fun d => (d - 1)%Z) <$> in_degree st !! v
  else in_degree st !! v.
Proof.
  revert st. induction vs as [|w vs IH]; intros st Hnd.
  - destruct (decide (v ∈ [])) as [H|_]; [by apply elem_of_nil in H|done].
  - apply NoDup_cons in Hnd as [Hw Hnd]. simpl. rewrite IH by done. simpl.
    destruct (decide (v = w)) as [->|Hvw].
    + rewrite decide_False by done. rewrite list_lookup_alter_eq.
      rewrite decide_True by (by left). done.
    + rewrite list_lookup_alter_ne by done.
      destruct (decide (v ∈ vs)) as [Hin|Hnin].
      * by rewrite decide_True by (by right).
      * rewrite decide_False; [done|].
        intros Hin. apply elem_of_cons in Hin as [?|?]; done.
Qed.

Lemma relacher_queue u vs st :
  NoDup vs ->
  queue (relacher relax u vs st) =
  queue st ++ filter (fun v => in_degree st !! v = Some 1%Z) vs.
Proof.
  revert st. induction vs as [|w vs IH]; intros st Hnd.
  - simpl. by rewrite app_nil_r.
  - apply NoDup_cons in Hnd as [Hw Hnd]. simpl. rewrite IH by done. simpl.
    rewrite filter_cons.
    rewrite (filter_iff_in _ (fun v => in_degree st !! v = Some 1%Z) vs).
    2:{ intros x Hx. rewrite list_lookup_alter_ne; [done|]. by intros ->. }
    rewrite list_lookup_alter_eq.
    destruct (in_degree st !! w) as [d|] eqn:Hd; simpl.
    + destruct (decide (d = 1%Z)) as [->|Hd1].
      * rewrite bool_decide_eq_true_2 by done.
        rewrite decide_True by done. by rewrite <- app_assoc.
      * rewrite bool_decide_eq_false_2 by (intros [=]; lia).
        rewrite decide_False by (intros [=]; lia). done.
    + done.
Qed.

Lemma attente_zero done v :
  attente done v = 0 <-> forall u, v ∈ succs adj u -> u ∈ done.
Proof.
  unfold attente. rewrite filter_vide. split.
  - intros H u Hu. destruct (decide (u ∈ done)) as [|Hnd]; [done|].
    destruct (H u); [|done]. apply elem_of_seq.
    apply adj_range in Hu. lia.
  - intros H u _ [Hu Hnd]. by apply Hnd, H.
Qed.

Lemma attente_dedans done u v :
  u ∉ done -> v ∈ succs adj u ->
  attente done v = S (attente (done ++ [u]) v).
Proof.
  intros Hu Hv. unfold attente. apply (filter_retire _ _ _ u).
  - apply NoDup_seq.
  - apply elem_of_seq. apply adj_range in Hv. lia.
  - done.
  - intros x. rewrite elem_of_app, list_elem_of_singleton. tauto.
Qed.

Lemma attente_dehors done u v :
  v ∉ succs adj u -> attente (done ++ [u]) v = attente done v.
Proof.
  intros Hv. unfold attente. f_equal. apply filter_iff_in.
  intros x _. rewrite elem_of_app, list_elem_of_singleton.
  split; [tauto|]. intros [Hx Hnd]. split; [done|].
  intros [?| ->]; done.
Qed.

Lemma attente_nil v :
  attente [] v = length (filter (fun u => v ∈ succs adj u) (seq 0 size)).
Proof.
  unfold attente. f_equal. apply filter_iff_in. intros x _.
  split; [tauto|]. intros Hx. split; [done|]. apply not_elem_of_nil.
Qed.

Lemma kinv_init :
  kinv [] {| in_degree := deg0; queue := entrees deg0; acc := a0 |}.
Proof.
  assert (Hq : forall v, v ∈ entrees deg0 <-> v < size /\ attente [] v = 0).
  { intros v. unfold entrees. rewrite list_elem_of_filter, elem_of_seq.
    rewrite deg0_length. split.
    - intros [H0 Hv]. split; [lia|]. rewrite deg0_spec in H0 by lia.
      rewrite attente_nil. injection H0. lia.
    - intros [Hv H0]. split; [|lia]. rewrite deg0_spec by lia.
      rewrite <- attente_nil, H0. done. }
  split; simpl.
  - apply NoDup_filter, NoDup_seq.
  - intros x Hx. by apply Hq in Hx as [? _].
  - done.
  - intros v Hv. rewrite attente_nil. by apply deg0_spec.
  - intros v Hv. rewrite Hq. tauto.
  - intros i v Hi. by rewrite lookup_nil in Hi.
  - done.
Qed.

Lemma kinv_step done st u q :
  kinv done st -> queue st = u :: q ->
  kinv (done ++ [u])
    (relacher relax u (succs adj u)
       {| in_degree := in_degree st; queue := q; acc := visit u (acc st) |}).
Proof.
  intros [Hnd Hrg Hlen Hdeg Hqu Htopo Hacc] Hq. rewrite Hq in *.
  assert (Hu : u < size).
  { apply Hrg. rewrite elem_of_app. right. by left. }
  assert (Hu0 : attente done u = 0).
  { apply Hqu; [done|]. rewrite elem_of_app. right. by left. }
  assert (Hund : u ∉ done).
  { apply NoDup_app in Hnd as (_ & Hdisj & _). intros Hin.
    apply (Hdisj u Hin). by left. }
  set (P := filter (fun v => in_degree st !! v = Some 1%Z) (succs adj u)).
  assert (HP : forall v, v ∈ P <-> v ∈ succs adj u /\ attente done v = 1).
  { intros v. unfold P. rewrite list_elem_of_filter. split.
    - intros [H1 Hv]. split; [done|].
      rewrite Hdeg in H1 by (by apply (adj_range u v)). injection H1. lia.
    - intros [Hv H1]. split; [|done].
      rewrite Hdeg by (by apply (adj_range u v)). by rewrite H1. }
  assert (Happ : (done ++ [u]) ++ q ++ P = (done ++ u :: q) ++ P).
  { by rewrite <- !app_assoc. }
  split; simpl.
  - rewrite relacher_queue by apply adj_nodup. simpl. fold P. rewrite Happ.
    apply NoDup_app. split; [done|]. split.
    + intros x Hx HxP. apply HP in HxP as [_ H1].
      apply Hqu in Hx; [lia|]. by apply Hrg.
    + apply NoDup_filter, adj_nodup.
  - rewrite relacher_queue by apply adj_nodup. simpl. fold P. rewrite Happ.
    intros x Hx. apply elem_of_app in Hx as [Hx|Hx]; [by apply Hrg|].
    apply HP in Hx as [Hx _]. by apply (adj_range u x).
  - by rewrite relacher_length.
  - intros v Hv. rewrite relacher_deg by apply adj_nodup. simpl.
    rewrite Hdeg by done. case_decide as Hin.
    + rewrite (attente_dedans done u v) by done. simpl. f_equal. lia.
    + by rewrite attente_dehors.
  - intros v Hv. rewrite relacher_queue by apply adj_nodup. simpl. fold P.
    rewrite Happ. rewrite elem_of_app, HP, (Hqu v Hv).
    destruct (decide (v ∈ succs adj u)) as [Hin|Hin].
    + rewrite (attente_dedans done u v) by done. split.
      * intros [?|[_ ?]]; lia.
      * intros H0. right. split; [done|lia].
    + rewrite attente_dehors by done. tauto.
  - intros i v Hi x Hx. apply lookup_snoc_Some in Hi as [[Hi Hv]|[-> <-]].
    + destruct (Htopo i v Hv x Hx) as (j & Hj & Hjx).
      exists j. split; [done|]. by apply lookup_app_l_Some.
    + pose proof (proj1 (attente_zero done u) Hu0 x Hx) as Hxd.
      apply list_elem_of_lookup_1 in Hxd as (j & Hj).
      exists j. split; [by apply lookup_lt_Some in Hj|].
      by apply lookup_app_l_Some.
  - rewrite relacher_acc. simpl. rewrite foldl_app. simpl.
    unfold traiter. by rewrite Hacc.
Qed.

Lemma boucle_kahn_correct fuel done st :
  kinv done st -> size <= fuel + length done ->
  exists st' done',
    boucle_kahn visit relax fuel adj st = Ret st' /\
    queue st' = [] /\ kinv done' st'.
Proof.
  revert done st. induction fuel as [|fuel IH]; intros done st Hinv Hfuel.
  - destruct (queue st) as [|u q] eqn:Hq.
    + exists st, done. simpl. by rewrite Hq.
    + pose proof (NoDup_borne size _ (kinv_nodup _ _ Hinv) (kinv_range _ _ Hinv))
        as Hb.
      rewrite Hq, length_app in Hb. simpl in *. lia.
  - destruct (queue st) as [|u q] eqn:Hq.
    + exists st, done. simpl. by rewrite Hq.
    + simpl. rewrite Hq. apply (IH (done ++ [u])).
      * by apply kinv_step.
      * rewrite length_app. simpl. lia.
Qed.

(** The elimination returns within its budget, with an empty queue. *)
Lemma kahn_correct :
  exists st done,
    kahn visit relax adj deg0 a0 = Ret st /\ queue st = [] /\ kinv done st.
Proof.
  unfold kahn. apply (boucle_kahn_correct _ []); [apply kinv_init|].
  simpl. lia.
Qed.

Lemma kinv_fin_NoDup done st : kinv done st -> NoDup done.
Proof. intros H. by apply kinv_nodup, NoDup_app in H as (? & _). Qed.

Lemma kinv_fin_range done st x : kinv done st -> x ∈ done -> x < size.
Proof.
  intros H Hx. apply (kinv_range _ _ H). rewrite elem_of_app. by left.
Qed.

(** At the end a vertex was removed exactly when all its predecessors were. *)
Lemma kinv_fin_done done st v :
  kinv done st -> queue st = [] -> v < size ->
  (v ∈ done <-> forall u, v ∈ succs adj u -> u ∈ done).
Proof.
  intros H Hq Hv. rewrite <- attente_zero.
  rewrite <- (kinv_queue _ _ H v Hv), Hq, app_nil_r. done.
Qed.

(** On a graph without circuit every vertex is removed. *)
Lemma kinv_fin_complet done st :
  kinv done st -> queue st = [] ->
  sans_circuit (fun u v => v ∈ succs adj u) ->
  forall v, v < size -> v ∈ done.
Proof.
  intros H Hq Hac v.
  apply (sans_circuit_ind (fun u v => v ∈ succs adj u) size
           (fun v => v < size -> v ∈ done)); [done|apply adj_range|].
  intros w IH Hw. apply (kinv_fin_done done st w H Hq Hw).
  intros u Hu. apply IH; [done|]. by apply (adj_range u w).
Qed.

End KahnCorrect.

Section Topologique.
Variable size : nat.
Variable adj : list (list nat).
Hypothesis adj_range : forall u v, v ∈ succs adj u -> u < size /\ v < size.

Lemma complet_length done :
  NoDup done -> (forall x, x ∈ done -> x < size) ->
  ((forall v, v < size -> v ∈ done) <-> length done = size).
Proof.
  intros Hnd Hrg. split.
  - intros Hall. apply Nat.le_antisymm; [by apply NoDup_borne|].
    transitivity (length (seq 0 size)); [by rewrite length_seq|].
    apply submseteq_length, NoDup_submseteq; [apply NoDup_seq|].
    intros x Hx. apply elem_of_seq in Hx. apply Hall. lia.
  - intros Hlen v Hv.
    assert (Hperm : done ≡ₚ seq 0 size).
    { apply submseteq_length_Permutation.
      - apply NoDup_submseteq; [done|]. intros x Hx. apply elem_of_seq.
        specialize (Hrg x Hx). lia.
      - rewrite length_seq. lia. }
    rewrite Hperm. apply elem_of_seq. lia.
Qed.

Lemma topologique_chemin done :
  NoDup done -> topologique adj done -> (forall v, v < size -> v ∈ done) ->
  forall p x i, chemin (fun u v => v ∈ succs adj u) (x :: p) ->
  done !! i = Some x ->
  forall y, y ∈ p -> exists j, i < j /\ done !! j = Some y.
Proof.
  intros Hnd Htopo Hall. induction p as [|y0 p IH]; intros x i Hp Hi y Hy;
    [by apply elem_of_nil in Hy|].
  destruct Hp as [Hxy Hp].
  assert (Hy0 : y0 ∈ done) by (by apply Hall, (adj_range x y0)).
  apply list_elem_of_lookup_1 in Hy0 as (j0 & Hj0).
  destruct (Htopo j0 y0 Hj0 x Hxy) as (j & Hj & Hjx).
  assert (j = i) by (by apply (NoDup_lookup done j i x)). subst j.
  apply elem_of_cons in Hy as [->|Hy]; [by exists j0|].
  destruct (IH y0 j0 Hp Hj0 y Hy) as (j & Hlt & Hjy).
  exists j. split; [lia|done].
Qed.

(** If every vertex was removed the graph has no circuit. *)
Lemma topologique_sans_circuit done :
  NoDup done -> topologique adj done -> (forall v, v < size -> v ∈ done) ->
  sans_circuit (fun u v => v ∈ succs adj u).
Proof.
  intros Hnd Htopo Hall v q Hp.
  assert (Hv : v ∈ done).
  { apply Hall. destruct q; simpl in Hp; destruct Hp as [Hp _];
      apply adj_range in Hp; tauto. }
  apply list_elem_of_lookup_1 in Hv as (i & Hi).
  destruct (topologique_chemin done Hnd Htopo Hall _ _ _ Hp Hi v) as (j & Hj & Hjv).
  { rewrite elem_of_app, list_elem_of_singleton. by right. }
  assert (j = i) by (by apply (NoDup_lookup done j i v)). lia.
Qed.
End Topologique.

(** ** Adjacency lists and degrees of a matrix *)

Lemma foldl_pair {X Y B} (F : X * Y -> B -> X * Y) (F1 : X -> B -> X)
    (F2 : Y -> B -> Y) :
  (forall st b, F st b = (F1 st.1 b, F2 st.2 b)) ->
  forall l st, foldl F st l = (foldl F1 st.1 l, foldl F2 st.2 l).
Proof.
  intros HF. induction l as [|b l IH]; intros st; simpl.
  - by destruct st.
  - rewrite IH, HF. done.
Qed.

Section Listes.
Variable m : matrice.
Context {X : Type}.
Variable op : X -> nat -> X.

(** The component of the double loop that is indexed by the row. *)
Definition par_ligne (i : nat) (a : list X) (j : nat) : list X :=
  if edgeb m i j then alter (fun x => op x j) i a else a.

(** The component that is indexed by the column. *)
Definition par_colonne (i : nat) (a : list X) (j : nat) : list X :=
  if edgeb m i j then alter (fun x => op x i) j a else a.

Lemma par_ligne_foldl i cs a :
  foldl (par_ligne i) a cs =
  alter (fun x => foldl op x (filter (fun j => edgeb m i j = true) cs)) i a.
Proof.
  revert a. induction cs as [|j cs IH]; intros a; simpl.
  - symmetry. by apply list_alter_id.
  - rewrite IH, filter_cons. unfold par_ligne.
    destruct (edgeb m i j) eqn:He.
    + rewrite decide_True by done. by rewrite list_alter_alter_eq.
    + by rewrite decide_False by done.
Qed.

Lemma par_ligne_lignes rs cs a u :
  NoDup rs ->
  foldl (fun a i => foldl (par_ligne i) a cs) a rs !! u =
  if decide (u ∈ rs)
  then (fun x => foldl op x (filter (fun j => edgeb m u j = true) cs)) <$> a !! u
  else a !! u.
Proof.
  revert a. induction rs as [|i rs IH]; intros a Hnd.
  - destruct (decide (u ∈ [])) as [H|_]; [by apply elem_of_nil in H|done].
  - apply NoDup_cons in Hnd as [Hi Hnd]. simpl. rewrite IH by done.
    rewrite par_ligne_foldl.
    destruct (decide (u = i)) as [->|Hui].
    + rewrite decide_False by done. rewrite decide_True by (by left).
      by rewrite list_lookup_alter_eq.
    + rewrite list_lookup_alter_ne by done.
      destruct (decide (u ∈ rs)) as [Hin|Hnin].
      * by rewrite decide_True by (by right).
      * rewrite decide_False; [done|].
        intros Hin. apply elem_of_cons in Hin as [?|?]; done.
Qed.

Lemma par_colonne_foldl i cs a v :
  NoDup cs ->
  foldl (par_colonne i) a cs !! v =
  if decide (v ∈ cs /\ edgeb m i v = true)
  then (fun x => op x i) <$> a !! v else a !! v.
Proof.
  revert a. induction cs as [|j cs IH]; intros a Hnd.
  - destruct (decide _) as [[H _]|_]; [by apply elem_of_nil in H|done].
  - apply NoDup_cons in Hnd as [Hj Hnd]. cbn [foldl]. rewrite IH by done.
    destruct (decide (v = j)) as [->|Hvj].
    + rewrite decide_False by tauto. unfold par_colonne.
      destruct (edgeb m i j) eqn:He.
      * rewrite decide_True by (split; [by left|done]).
        by rewrite list_lookup_alter_eq.
      * rewrite decide_False; [done|]. intros [_ ?]. done.
    + assert (Hcons : v ∈ j :: cs <-> v ∈ cs).
      { rewrite elem_of_cons. tauto. }
      assert (Hl : par_colonne i a j !! v = a !! v).
      { unfold par_colonne. destruct (edgeb m i j); [|done].
        by rewrite list_lookup_alter_ne. }
      rewrite Hl. repeat case_decide; tauto.
Qed.

Lemma par_colonne_lignes rs cs a v :
  NoDup cs -> v ∈ cs ->
  foldl (fun a i => foldl (par_colonne i) a cs) a rs !! v =
  (fun x => foldl op x (filter (fun i => edgeb m i v = true) rs)) <$> a !! v.
Proof.
  intros Hnd Hv. revert a. induction rs as [|i rs IH]; intros a; cbn [foldl].
  - by destruct (a !! v).
  - rewrite IH. rewrite par_colonne_foldl by done. rewrite filter_cons.
    destruct (edgeb m i v) eqn:He.
    + rewrite decide_True by done. rewrite decide_True by done.
      by destruct (a !! v).
    + rewrite decide_False by (intros [_ ?]; done).
      by rewrite decide_False by done.
Qed.

Lemma par_ligne_length rs cs a :
  length (foldl (fun a i => foldl (par_ligne i) a cs) a rs) = length a.
Proof.
  revert a. induction rs as [|i rs IH]; intros a; [done|].
  simpl. rewrite IH, par_ligne_foldl. apply length_alter.
Qed.

Lemma par_colonne_length rs cs a :
  length (foldl (fun a i => foldl (par_colonne i) a cs) a rs) = length a.
Proof.
  revert a. induction rs as [|i rs IH]; intros a; [done|].
  simpl. rewrite IH. clear IH. revert a.
  induction cs as [|j cs IH]; intros a; [done|].
  simpl. rewrite IH. unfold par_colonne. destruct (edgeb m i j); [|done].
  apply length_alter.
Qed.
End Listes.

Definition snoc (l : list nat) (j : nat) : list nat := l ++ [j].
Definition incr (d : Z) (_ : nat) : Z := (d + 1)%Z.

Lemma foldl_snoc l js : foldl snoc l js = l ++ js.
Proof.
  revert l. induction js as [|j js IH]; intros l; simpl.
  - by rewrite app_nil_r.
  - rewrite IH. unfold snoc. by rewrite <- app_assoc.
Qed.

Lemma foldl_incr d js : foldl incr d js = (d + Z.of_nat (length js))%Z.
Proof.
  revert d. induction js as [|j js IH]; intros d; simpl foldl.
  - simpl. lia.
  - rewrite IH. unfold incr. simpl length. lia.
Qed.

Lemma listes_eq m :
  listes m =
  (foldl (fun a i => foldl (par_ligne m snoc i) a (seq 0 (length m)))
         (replicate (length m) []) (seq 0 (length m)),
   foldl (fun a i => foldl (par_colonne m incr i) a (seq 0 (length m)))
         (replicate (length m) 0%Z) (seq 0 (length m))).
Proof.
  unfold listes.
  rewrite (foldl_pair _
    (fun a i => foldl (par_ligne m snoc i) a (seq 0 (length m)))
    (fun a i => foldl (par_colonne m incr i) a (seq 0 (length m)))); [done|].
  intros st i.
  rewrite (foldl_pair _ (par_ligne m snoc i) (par_colonne m incr i)); [done|].
  intros st' j. unfold par_ligne, par_colonne, ajoute.
  destruct (edgeb m i j); [done|]. by destruct st'.
Qed.

Lemma listes_inverses_eq m :
  listes_inverses m =
  (foldl (fun a i => foldl (par_colonne m snoc i) a (seq 0 (length m)))
         (replicate (length m) []) (seq 0 (length m)),
   foldl (fun a i => foldl (par_ligne m incr i) a (seq 0 (length m)))
         (replicate (length m) 0%Z) (seq 0 (length m))).
Proof.
  unfold listes_inverses.
  rewrite (foldl_pair _
    (fun a i => foldl (par_colonne m snoc i) a (seq 0 (length m)))
    (fun a i => foldl (par_ligne m incr i) a (seq 0 (length m)))); [done|].
  intros st i.
  rewrite (foldl_pair _ (par_colonne m snoc i) (par_ligne m incr i)); [done|].
  intros st' j. unfold par_ligne, par_colonne, ajoute.
  destruct (edgeb m i j); [done|]. by destruct st'.
Qed.

Lemma cell_lt m i j : is_Some (cell m i j) -> i < length m.
Proof.
  unfold cell. intros [w Hw]. destruct (m !! i) eqn:Hi; [|done].
  by apply lookup_lt_Some in Hi.
Qed.

Lemma arc_lt m u v : arc m u v -> u < length m.
Proof.
  unfold arc, edgeb. intros H. apply cell_lt with v.
  destruct (cell m u v); [by eexists|done].
Qed.

Lemma arc_lt_carree m u v : carree m -> arc m u v -> v < length m.
Proof.
  unfold arc, edgeb, cell. intros Hc H.
  destruct (m !! u) as [row|] eqn:Hu; [|done].
  destruct (row !! v) eqn:Hv; [|done].
  apply lookup_lt_Some in Hv. rewrite (Hc row) in Hv; [done|].
  by apply list_elem_of_lookup_2 in Hu.
Qed.

Lemma listes_length m :
  length (listes m).1 = length m /\ length (listes m).2 = length m.
Proof.
  rewrite listes_eq. simpl.
  rewrite par_ligne_length, par_colonne_length, !length_replicate. done.
Qed.

Lemma listes_inverses_length m :
  length (listes_inverses m).1 = length m /\
  length (listes_inverses m).2 = length m.
Proof.
  rewrite listes_inverses_eq. simpl.
  rewrite par_ligne_length, par_colonne_length, !length_replicate. done.
Qed.

Lemma succs_listes m u :
  succs (listes m).1 u = filter (fun v => edgeb m u v = true) (seq 0 (length m)).
Proof.
  unfold succs. destruct (decide (u < length m)) as [Hu|Hu].
  - rewrite listes_eq. simpl. rewrite par_ligne_lignes by apply NoDup_seq.
    rewrite decide_True by (apply elem_of_seq; lia).
    rewrite lookup_replicate_2 by done. simpl. by rewrite foldl_snoc.
  - rewrite lookup_ge_None_2 by (rewrite (proj1 (listes_length m)); lia).
    simpl. symmetry. apply length_zero_iff_nil, filter_vide.
    intros v _ Hv. apply arc_lt in Hv. lia.
Qed.

Lemma elem_succs_listes m u v :
  v ∈ succs (listes m).1 u <-> v < length m /\ arc m u v.
Proof.
  rewrite succs_listes, list_elem_of_filter, elem_of_seq. unfold arc.
  split; [intros [? ?]|intros [? ?]]; (split; [done||lia|done||lia]).
Qed.

Lemma deg_listes m v :
  v < length m ->
  (listes m).2 !! v =
  Some (Z.of_nat (length (filter (fun u => v ∈ succs (listes m).1 u)
                            (seq 0 (length m))))).
Proof.
  intros Hv. rewrite listes_eq at 1. simpl.
  rewrite par_colonne_lignes by (apply NoDup_seq || (apply elem_of_seq; lia)).
  rewrite lookup_replicate_2 by done. simpl. rewrite foldl_incr.
  f_equal. rewrite Z.add_0_l. f_equal. f_equal. apply filter_iff_in.
  intros u _. rewrite elem_succs_listes. unfold arc. tauto.
Qed.

Lemma succs_listes_inverses m v :
  succs (listes_inverses m).1 v =
  if decide (v < length m)
  then filter (fun u => edgeb m u v = true) (seq 0 (length m)) else [].
Proof.
  unfold succs. case_decide as Hv.
  - rewrite listes_inverses_eq. simpl.
    rewrite par_colonne_lignes by (apply NoDup_seq || (apply elem_of_seq; lia)).
    rewrite lookup_replicate_2 by done. simpl. by rewrite foldl_snoc.
  - by rewrite lookup_ge_None_2
      by (rewrite (proj1 (listes_inverses_length m)); lia).
Qed.

Lemma elem_succs_listes_inverses m u v :
  u ∈ succs (listes_inverses m).1 v <-> v < length m /\ arc m u v.
Proof.
  rewrite succs_listes_inverses. case_decide as Hv.
  - rewrite list_elem_of_filter, elem_of_seq. unfold arc. split.
    + intros [? ?]. done.
    + intros [_ Ha]. split; [done|]. apply arc_lt in Ha. lia.
  - rewrite elem_of_nil. tauto.
Qed.

Lemma deg_listes_inverses m u :
  u < length m ->
  (listes_inverses m).2 !! u =
  Some (Z.of_nat (length (filter (fun v => u ∈ succs (listes_inverses m).1 v)
                            (seq 0 (length m))))).
Proof.
  intros Hu. rewrite listes_inverses_eq at 1. simpl.
  rewrite par_ligne_lignes by apply NoDup_seq.
  rewrite decide_True by (apply elem_of_seq; lia).
  rewrite lookup_replicate_2 by done. simpl. rewrite foldl_incr.
  f_equal. rewrite Z.add_0_l. f_equal. f_equal. apply filter_iff_in.
  intros v Hv. apply elem_of_seq in Hv. rewrite elem_succs_listes_inverses.
  unfold arc. split; [intros ?; split; [lia|done]|tauto].
Qed.

Lemma NoDup_succs_listes m u : NoDup (succs (listes m).1 u).
Proof. rewrite succs_listes. apply NoDup_filter, NoDup_seq. Qed.

Lemma NoDup_succs_listes_inverses m v : NoDup (succs (listes_inverses m).1 v).
Proof.
  rewrite succs_listes_inverses. case_decide; [|constructor].
  apply NoDup_filter, NoDup_seq.
Qed.

Lemma range_succs_listes m u v :
  v ∈ succs (listes m).1 u -> u < length m /\ v < length m.
Proof.
  rewrite elem_succs_listes. intros [Hv Ha]. split; [|done]. by apply arc_lt in Ha.
Qed.

Lemma range_succs_listes_inverses m v u :
  u ∈ succs (listes_inverses m).1 v -> v < length m /\ u < length m.
Proof.
  rewrite elem_succs_listes_inverses. intros [Hv Ha].
  split; [done|]. by apply arc_lt in Ha.
Qed.

Lemma chemin_iff (E E' : nat -> nat -> Prop) p :
  (forall u v, E u v <-> E' u v) -> chemin E p <-> chemin E' p.
Proof.
  intros HE. induction p as [|u p IH]; [done|].
  destruct p as [|v p]; [done|].
  change (E u v /\ chemin E (v :: p) <-> E' u v /\ chemin E' (v :: p)).
  by rewrite HE, IH.
Qed.

Lemma sans_circuit_iff (E E' : nat -> nat -> Prop) :
  (forall u v, E u v <-> E' u v) -> sans_circuit E <-> sans_circuit E'.
Proof.
  intros HE. unfold sans_circuit. split; intros H v q Hp; apply (H v q).
  - by apply (chemin_iff E E').
  - by apply (chemin_iff E E') in Hp.
Qed.

Lemma succs_listes_arc m u v :
  carree m -> (v ∈ succs (listes m).1 u <-> arc m u v).
Proof.
  intros Hc. rewrite elem_succs_listes. split; [tauto|].
  intros Ha. split; [|done]. by apply (arc_lt_carree m u v).
Qed.

Lemma succs_listes_inverses_arc m u v :
  carree m -> (u ∈ succs (listes_inverses m).1 v <-> arc m u v).
Proof.
  intros Hc. rewrite elem_succs_listes_inverses. split; [tauto|].
  intros Ha. split; [|done]. by apply (arc_lt_carree m u v).
Qed.

Lemma sans_circuit_listes m :
  carree m ->
  (sans_circuit (fun u v => v ∈ succs (listes m).1 u) <-> acyclique m).
Proof. intros Hc. apply sans_circuit_iff. intros u v. by apply succs_listes_arc. Qed.

Lemma sans_circuit_listes_inverses m :
  carree m -> acyclique m ->
  sans_circuit (fun v u => u ∈ succs (listes_inverses m).1 v).
Proof.
  intros Hc Hac. apply (sans_circuit_iff (flip (arc m))).
  - intros v u. unfold flip. symmetry. by apply succs_listes_inverses_arc.
  - by apply sans_circuit_flip.
Qed.

(** ** Relaxation along the order of elimination *)

Section Relaxation.
Context {X : Type}.
(** [better x c]: the test that makes the source replace the value [x] by
    the candidate [c]; [cand u v xu]: the candidate for [v] computed from
    the value [xu] of [u]. *)
Variable better : X -> X -> bool.
Variable cand : nat -> nat -> X -> X.
Variable relax : nat -> nat -> list X -> list X.
Variable adj : list (list nat).
Variable init : list X.
Variable done : list nat.

Definition pick (x c : X) : X := if better x c then c else x.

Hypothesis better_irrefl : forall x, better x x = false.
Hypothesis better_asym : forall x c, better x c = true -> better c x = false.
Hypothesis better_trans : forall a b c,
  better b a = false -> better c b = false -> better c a = false.
Hypothesis relax_lookup : forall u v vals xu w,
  u <> v -> vals !! u = Some xu ->
  relax u v vals !! w =
  if decide (w = v) then (fun xw => pick xw (cand u v xu)) <$> vals !! w
  else vals !! w.
Hypothesis adj_nodup : forall u, NoDup (succs adj u).
Hypothesis done_nodup : NoDup done.
Hypothesis done_topo : topologique adj done.
Hypothesis done_range : forall u, u ∈ done -> u < length init.

(** The values after the vertices of [p] have left the queue. *)
Definition apres (p : list nat) : list X :=
  foldl (traiter (fun _ a => a) relax adj) init p.

Record rinv (p : list nat) (vals : list X) : Prop := mkRinv {
  rinv_domaine : forall w, is_Some (vals !! w) <-> is_Some (init !! w);
  rinv_arcs : forall u v xu xv,
    u ∈ p -> v ∈ succs adj u -> vals !! u = Some xu -> vals !! v = Some xv ->
    better xv (cand u v xu) = false;
  rinv_origine : forall v xv,
    vals !! v = Some xv ->
    init !! v = Some xv \/
    exists u xu, u ∈ p /\ v ∈ succs adj u /\ vals !! u = Some xu /\
                 xv = cand u v xu;
  rinv_monotone : forall v xv x0,
    vals !! v = Some xv -> init !! v = Some x0 -> better xv x0 = false
}.

Lemma pick_monotone x c : better (pick x c) x = false.
Proof.
  unfold pick. destruct (better x c) eqn:Hb; [|apply better_irrefl].
  by apply better_asym.
Qed.

Lemma pick_candidat x c : better (pick x c) c = false.
Proof. unfold pick. destruct (better x c) eqn:Hb; [apply better_irrefl|done]. Qed.

Lemma relax_tous u vs vals xu w :
  NoDup vs -> u ∉ vs -> vals !! u = Some xu ->
  foldl (fun a v => relax u v a) vals vs !! w =
  if decide (w ∈ vs) then (fun xw => pick xw (cand u w xu)) <$> vals !! w
  else vals !! w.
Proof.
  revert vals. induction vs as [|v vs IH]; intros vals Hnd Hu Hxu.
  - destruct (decide (w ∈ [])) as [H|_]; [by apply elem_of_nil in H|done].
  - apply NoDup_cons in Hnd as [Hv Hnd].
    assert (Huv : u <> v) by (intros ->; apply Hu; by left).
    assert (Huvs : u ∉ vs) by (intros H; apply Hu; by right).
    cbn [foldl]. rewrite IH; [|done|done|].
    2:{ rewrite (relax_lookup u v vals xu u Huv Hxu).
        by rewrite decide_False by done. }
    rewrite (relax_lookup u v vals xu w Huv Hxu).
    destruct (decide (w = v)) as [->|Hwv].
    + rewrite decide_False by done. by rewrite decide_True by (by left).
    + destruct (decide (w ∈ vs)) as [Hin|Hnin].
      * by rewrite decide_True by (by right).
      * rewrite decide_False; [done|].
        intros Hin. apply elem_of_cons in Hin as [?|?]; done.
Qed.

Lemma topologique_suivants p u rest v :
  done = p ++ u :: rest -> v ∈ succs adj u -> v ∉ p ++ [u].
Proof.
  intros Hd Hv Hin. apply list_elem_of_lookup_1 in Hin as (i & Hi).
  assert (Hilt : i < length (p ++ [u])) by (by apply lookup_lt_Some in Hi).
  rewrite length_app in Hilt. simpl in Hilt.
  assert (Hdi : done !! i = Some v).
  { rewrite Hd. replace (p ++ u :: rest) with ((p ++ [u]) ++ rest)
      by (by rewrite <- app_assoc). by apply lookup_app_l_Some. }
  destruct (done_topo i v Hdi u Hv) as (j & Hj & Hju).
  assert (Hdu : done !! length p = Some u).
  { rewrite Hd. by rewrite list_lookup_middle. }
  assert (j = length p) by (by apply (NoDup_lookup done j (length p) u)).
  lia.
Qed.

Lemma rinv_prefixe p rest : done = p ++ rest -> rinv p (apres p).
Proof.
  revert rest. induction p as [|u p IH] using rev_ind; intros rest Hd.
  - unfold apres. simpl. split.
    + done.
    + intros u v xu xv Hu. by apply elem_of_nil in Hu.
    + intros v xv Hv. by left.
    + intros v xv x0 H1 H2. rewrite H1 in H2. injection H2 as ->.
      apply better_irrefl.
  - rewrite <- app_assoc in Hd. simpl in Hd.
    specialize (IH (u :: rest) Hd). destruct IH as [Hdom Harcs Horig Hmono].
    assert (Hsuiv : forall v, v ∈ succs adj u -> v ∉ p ++ [u]).
    { intros v Hv. by apply (topologique_suivants p u rest v). }
    assert (Husucc : u ∉ succs adj u).
    { intros Hin. apply (Hsuiv u Hin). rewrite elem_of_app. right. by left. }
    assert (Hud : u ∈ done).
    { rewrite Hd, elem_of_app. right. by left. }
    destruct (proj2 (Hdom u)) as [xu Hxu].
    { apply lookup_lt_is_Some. by apply done_range. }
    assert (Hlk : forall w, apres (p ++ [u]) !! w =
      if decide (w ∈ succs adj u)
      then (fun xw => pick xw (cand u w xu)) <$> apres p !! w
      else apres p !! w).
    { intros w. unfold apres. rewrite foldl_app. simpl. unfold traiter at 1.
      by apply relax_tous. }
    assert (Hfixe : forall w, w ∈ p ++ [u] -> apres (p ++ [u]) !! w = apres p !! w).
    { intros w Hw. rewrite Hlk. rewrite decide_False; [done|].
      intros Hin. by apply (Hsuiv w Hin). }
    split.
    + intros w. rewrite Hlk. case_decide; [|apply Hdom].
      rewrite <- Hdom. by rewrite fmap_is_Some.
    + intros u1 v x1 xv Hu1 Hv H1 Hxv.
      rewrite Hfixe in H1 by done. rewrite Hlk in Hxv.
      apply elem_of_app in Hu1 as [Hu1|Hu1].
      * case_decide as Hvu.
        -- destruct (apres p !! v) as [xo|] eqn:Hxo; [|done].
           injection Hxv as <-.
           apply (better_trans _ xo); [by apply (Harcs u1 v)|apply pick_monotone].
        -- by apply (Harcs u1 v).
      * apply list_elem_of_singleton in Hu1 as ->.
        rewrite Hxu in H1. injection H1 as <-.
        rewrite decide_True in Hxv by done.
        destruct (apres p !! v) as [xo|] eqn:Hxo; [|done].
        injection Hxv as <-. apply pick_candidat.
    + intros v xv Hxv. rewrite Hlk in Hxv.
      assert (Hold : forall xo, apres p !! v = Some xo ->
        init !! v = Some xo \/
        exists u1 x1, u1 ∈ p ++ [u] /\ v ∈ succs adj u1 /\
          apres (p ++ [u]) !! u1 = Some x1 /\ xo = cand u1 v x1).
      { intros xo Hxo. destruct (Horig v xo Hxo) as [?|(u1 & x1 & Hu1 & ? & ? & ?)];
          [by left|].
        right. exists u1, x1. rewrite elem_of_app.
        split; [by left|]. split; [done|]. split; [|done].
        rewrite Hfixe; [done|]. rewrite elem_of_app. by left. }
      case_decide as Hvu; [|by apply Hold].
      destruct (apres p !! v) as [xo|] eqn:Hxo; [|done].
      injection Hxv as <-. unfold pick.
      destruct (better xo (cand u v xu)); [|by apply Hold].
      right. exists u, xu. rewrite elem_of_app, list_elem_of_singleton.
      split; [by right|]. split; [done|]. split; [|done].
      rewrite Hfixe; [done|]. rewrite elem_of_app, list_elem_of_singleton.
      by right.
    + intros v xv x0 Hxv Hx0. rewrite Hlk in Hxv.
      case_decide as Hvu; [|by apply (Hmono v)].
      destruct (apres p !! v) as [xo|] eqn:Hxo; [|done].
      injection Hxv as <-.
      apply (better_trans _ xo); [by apply (Hmono v)|apply pick_monotone].
Qed.

Lemma rinv_final : rinv done (apres done).
Proof. apply (rinv_prefixe done []). by rewrite app_nil_r. Qed.
End Relaxation.

(** ** Construction of the graph *)

(** A matrix of [size] rows of [size] cells. *)
Definition forme (size : nat) (m : matrice) : Prop :=
  length m = size /\ forall row, row ∈ m -> length row = size.

(** The identifiers of the table are exactly 1..n (section 3 of the
    specification: "Tasks form the vertex set 1..n"). *)
Definition bien_formee (t : table) : Prop :=
  forall k, k ∈ keys t <-> (1 <= k <= Z.of_nat (length t))%Z.

Lemma forme_carree size m : forme size m -> carree m.
Proof. intros [Hl Hr] row Hrow. rewrite Hl. by apply Hr. Qed.

Lemma py_index_lt len i a : py_index len i = Some a -> a < len.
Proof.
  unfold py_index. intros H.
  destruct ((0 <=? i)%Z && (i <? Z.of_nat len)%Z) eqn:H1.
  - apply andb_true_iff in H1 as [H1 H2]. injection H as <-. lia.
  - destruct ((- Z.of_nat len <=? i)%Z && (i <? 0)%Z) eqn:H2; [|done].
    apply andb_true_iff in H2 as [H2 H3]. injection H as <-. lia.
Qed.

Lemma py_index_pos len i :
  (0 <= i < Z.of_nat len)%Z -> py_index len i = Some (Z.to_nat i).
Proof.
  intros Hi. unfold py_index.
  assert ((0 <=? i)%Z && (i <? Z.of_nat len)%Z = true) as ->; [|done].
  apply andb_true_iff. split; lia.
Qed.

Lemma py_index_nat len (i : nat) : i < len -> py_index len (Z.of_nat i) = Some i.
Proof. intros Hi. rewrite py_index_pos by lia. by rewrite Nat2Z.id. Qed.

Lemma set_cell_Ret m i j v m' :
  set_cell m i j v = Ret m' ->
  exists a b row,
    py_index (length m) i = Some a /\ m !! a = Some row /\
    py_index (length row) j = Some b /\
    m' = <[a := <[b := Some v]> row]> m.
Proof.
  unfold set_cell. intros H.
  destruct (py_index (length m) i) as [a|] eqn:Ha; [|done].
  destruct (m !! a) as [row|] eqn:Hrow; [|done].
  destruct (py_index (length row) j) as [b|] eqn:Hb; [|done].
  injection H as <-. by exists a, b, row.
Qed.

Lemma set_cell_pas_fuel m i j v : set_cell m i j v <> OutOfFuel.
Proof.
  unfold set_cell. destruct (py_index (length m) i); [|done].
  destruct (m !! _); [|done]. by destruct (py_index _ j).
Qed.

Lemma set_cell_en_place size m (i j : Z) v :
  forme size m -> (0 <= i < Z.of_nat size)%Z -> (0 <= j < Z.of_nat size)%Z ->
  exists row,
    m !! Z.to_nat i = Some row /\
    set_cell m i j v =
    Ret (<[Z.to_nat i := <[Z.to_nat j := Some v]> row]> m).
Proof.
  intros [Hl Hr] Hi Hj. unfold set_cell.
  rewrite Hl, py_index_pos by done.
  destruct (m !! Z.to_nat i) as [row|] eqn:Hrow.
  - exists row. split; [done|].
    rewrite (Hr row) by (by apply list_elem_of_lookup_2 in Hrow).
    by rewrite py_index_pos by done.
  - apply lookup_ge_None in Hrow. lia.
Qed.

Lemma cell_insert m a b row v x y :
  m !! a = Some row -> b < length row ->
  cell (<[a := <[b := Some v]> row]> m) x y =
  if decide (x = a /\ y = b) then Some v else cell m x y.
Proof.
  intros Hrow Hb. unfold cell.
  assert (Ha : a < length m) by (by apply lookup_lt_Some in Hrow).
  destruct (decide (x = a)) as [->|Hxa].
  - rewrite list_lookup_insert_eq by done. rewrite Hrow.
    destruct (decide (y = b)) as [->|Hyb].
    + rewrite decide_True by done. by rewrite list_lookup_insert_eq.
    + rewrite decide_False by tauto. by rewrite list_lookup_insert_ne.
  - rewrite decide_False by tauto. by rewrite list_lookup_insert_ne.
Qed.

Lemma forme_insert size m a b row v :
  forme size m -> m !! a = Some row ->
  forme size (<[a := <[b := Some v]> row]> m).
Proof.
  intros [Hl Hr] Hrow. split; [by rewrite length_insert|].
  intros row' Hin. apply list_elem_of_lookup_1 in Hin as (k & Hk).
  destruct (decide (k = a)) as [->|Hka].
  - rewrite list_lookup_insert_eq in Hk by (by apply lookup_lt_Some in Hrow).
    injection Hk as <-. rewrite length_insert. apply Hr.
    by apply list_elem_of_lookup_2 in Hrow.
  - rewrite list_lookup_insert_ne in Hk by done.
    apply Hr. by apply list_elem_of_lookup_2 in Hk.
Qed.

(** What a successful write does, cell by cell. *)
Lemma set_cell_spec size m i j v m' :
  forme size m -> set_cell m i j v = Ret m' ->
  exists a b,
    py_index size i = Some a /\ py_index size j = Some b /\
    forme size m' /\
    forall x y, cell m' x y = if decide (x = a /\ y = b) then Some v else cell m x y.
Proof.
  intros Hf H. apply set_cell_Ret in H as (a & b & row & Ha & Hrow & Hb & ->).
  destruct Hf as [Hl Hr].
  assert (Hlr : length row = size).
  { apply Hr. by apply list_elem_of_lookup_2 in Hrow. }
  rewrite Hl in Ha. rewrite Hlr in Hb.
  exists a, b. split; [done|]. split; [done|]. split.
  - by apply forme_insert.
  - intros x y. apply cell_insert; [done|]. rewrite Hlr. by apply py_index_lt in Hb.
Qed.

Lemma forme_replicate size : forme size (replicate size (replicate size None)).
Proof.
  split; [by rewrite length_replicate|].
  intros row Hrow. apply elem_of_replicate in Hrow as [-> _].
  by rewrite length_replicate.
Qed.

Lemma cell_replicate size x y :
  cell (replicate size (replicate size None)) x y = None.
Proof.
  unfold cell. destruct (replicate size _ !! x) as [row|] eqn:Hrow; [|done].
  apply lookup_replicate in Hrow as [-> _].
  destruct (replicate size None !! y) as [c|] eqn:Hc; [|done].
  by apply lookup_replicate in Hc as [-> _].
Qed.

Lemma tasks_get_keys t k v : tasks_get t k = Some v -> k ∈ keys t.
Proof.
  induction t as [|[k' v'] t IH]; [done|]. simpl.
  destruct (Z.eqb_spec k' k) as [->|Hne]; [intros _; by left|].
  intros H. right. by apply IH.
Qed.

Lemma keys_tasks_get t k : k ∈ keys t -> is_Some (tasks_get t k).
Proof.
  induction t as [|[k' v'] t IH]; [intros H; by apply elem_of_nil in H|].
  simpl. destruct (Z.eqb_spec k' k) as [->|Hne]; [by eexists|].
  intros H. apply elem_of_cons in H as [?|H]; [congruence|]. by apply IH.
Qed.

Lemma tasks_mem_keys t k : tasks_mem t k = true <-> k ∈ keys t.
Proof.
  unfold tasks_mem. split.
  - destruct (tasks_get t k) eqn:H; [|done]. intros _. by apply tasks_get_keys in H.
  - intros H. by destruct (keys_tasks_get t k H) as [v ->].
Qed.

Lemma obind_Ret {A B} (c : outcome A) (k : A -> outcome B) b :
  obind c k = Ret b -> exists a, c = Ret a /\ k a = Ret b.
Proof. destruct c as [a| |]; simpl; [|done..]. intros H. by exists a. Qed.

(** A property kept by every write of the first loop holds after it. *)
Lemma boucle_alpha_inv (P : matrice -> Prop) t a ks m m' :
  (forall m1 m2 task d, P m1 -> task ∈ ks -> tasks_get t task = Some (d, []) ->
     set_cell m1 (Z.of_nat a) task 0%Z = Ret m2 -> P m2) ->
  P m -> boucle_alpha t a ks m = Ret m' -> P m'.
Proof.
  revert m. induction ks as [|k ks IH]; intros m Hstep HP H; simpl in H.
  - by injection H as <-.
  - destruct (tasks_get t k) as [[d preds]|] eqn:Hk; [|done].
    assert (Hstep' : forall m1 m2 task d, P m1 -> task ∈ ks ->
      tasks_get t task = Some (d, []) ->
      set_cell m1 (Z.of_nat a) task 0%Z = Ret m2 -> P m2).
    { intros m1 m2 task d0 H1 Hin. apply Hstep; [done|by right]. }
    destruct preds as [|p preds].
    + apply obind_Ret in H as (m1 & Hset & H).
      apply (IH m1); [done| |done].
      apply (Hstep m m1 k d); [done|by left|done|done].
    + by apply (IH m).
Qed.

Lemma boucle_preds_inv (P : matrice -> Prop) t task preds m m' :
  (forall m1 m2 pred d ps, P m1 -> pred ∈ preds ->
     tasks_get t pred = Some (d, ps) ->
     set_cell m1 pred task d = Ret m2 -> P m2) ->
  P m -> boucle_preds t task preds m = Ret m' -> P m'.
Proof.
  revert m. induction preds as [|p preds IH]; intros m Hstep HP H; simpl in H.
  - by injection H as <-.
  - destruct (tasks_get t p) as [[d ps]|] eqn:Hp; [|done].
    apply obind_Ret in H as (m1 & Hset & H).
    apply (IH m1); [|by apply (Hstep m m1 p d ps); [|left|..]|done].
    intros m2 m3 pred d0 ps0 H2 Hin. apply Hstep; [done|by right].
Qed.

Lemma boucle_arcs_inv (P : matrice -> Prop) t ks m m' :
  (forall m1 m2 task d preds pred dp ps, P m1 -> task ∈ ks ->
     tasks_get t task = Some (d, preds) -> pred ∈ preds ->
     tasks_get t pred = Some (dp, ps) ->
     set_cell m1 pred task dp = Ret m2 -> P m2) ->
  P m -> boucle_arcs t ks m = Ret m' -> P m'.
Proof.
  revert m. induction ks as [|k ks IH]; intros m Hstep HP H; simpl in H.
  - by injection H as <-.
  - destruct (tasks_get t k) as [[d preds]|] eqn:Hk; [|done].
    apply obind_Ret in H as (m1 & Hpreds & H).
    apply (IH m1); [| |done].
    + intros m2 m3 task d0 preds0 pred dp ps H2 Hin.
      apply Hstep; [done|by right].
    + apply (boucle_preds_inv P t k preds m m1); [|done|done].
      intros m2 m3 pred dp ps H2 Hin Hpred.
      apply (Hstep m2 m3 k d preds pred dp ps); [done|by left|done..].
Qed.

Lemma boucle_omega_inv (P : matrice -> Prop) t om size rows m m' :
  (forall m1 m2 i d ps, P m1 -> i ∈ rows -> i <> om ->
     has_successor m1 size i = false ->
     tasks_get t (Z.of_nat i) = Some (d, ps) ->
     set_cell m1 (Z.of_nat i) (Z.of_nat om) d = Ret m2 -> P m2) ->
  P m -> boucle_omega t om size rows m = Ret m' -> P m'.
Proof.
  revert m. induction rows as [|i rows IH]; intros m Hstep HP H; simpl in H.
  - by injection H as <-.
  - assert (Hstep' : forall m1 m2 i d ps, P m1 -> i ∈ rows -> i <> om ->
      has_successor m1 size i = false ->
      tasks_get t (Z.of_nat i) = Some (d, ps) ->
      set_cell m1 (Z.of_nat i) (Z.of_nat om) d = Ret m2 -> P m2).
    { intros m1 m2 i0 d ps H1 Hin. apply Hstep; [done|by right]. }
    destruct (negb (i =? om) && negb (has_successor m size i) &&
              tasks_mem t (Z.of_nat i)) eqn:Hc; [|by apply (IH m)].
    apply andb_true_iff in Hc as [Hc _].
    apply andb_true_iff in Hc as [Hio Hhs].
    apply negb_true_iff in Hio, Hhs. apply Nat.eqb_neq in Hio.
    destruct (tasks_get t (Z.of_nat i)) as [[d ps]|] eqn:Hi; [|done].
    apply obind_Ret in H as (m1 & Hset & H).
    apply (IH m1); [done| |done].
    apply (Hstep m m1 i d ps); [done|by left|done..].
Qed.

(** The three loops of a successful construction. *)
Lemma construire_graphe_Ret o o' :
  construire_graphe o = Ret o' ->
  exists m1 m2 m3,
    boucle_alpha (tasks o) (alpha o) (keys (tasks o))
      (replicate (n o + 2) (replicate (n o + 2) None)) = Ret m1 /\
    boucle_arcs (tasks o) (keys (tasks o)) m1 = Ret m2 /\
    boucle_omega (tasks o) (omega o) (n o + 2) (seq 0 (n o + 2)) m2 = Ret m3 /\
    o' = {| tasks := tasks o; matrix := Some m3; n := n o;
            alpha := alpha o; omega := omega o |}.
Proof.
  unfold construire_graphe. intros H.
  apply obind_Ret in H as (m1 & H1 & H).
  apply obind_Ret in H as (m2 & H2 & H).
  apply obind_Ret in H as (m3 & H3 & H).
  injection H as <-. by exists m1, m2, m3.
Qed.

(** A property kept by every successful write holds of the built matrix. *)
Lemma construire_graphe_inv (P : matrice -> Prop) o o' :
  (forall m1 m2 i j v, P m1 -> set_cell m1 i j v = Ret m2 -> P m2) ->
  P (replicate (n o + 2) (replicate (n o + 2) None)) ->
  construire_graphe o = Ret o' ->
  exists m, matrix o' = Some m /\ P m.
Proof.
  intros Hstep H0 H. apply construire_graphe_Ret in H as (m1 & m2 & m3 & H1 & H2 & H3 & ->).
  exists m3. split; [done|].
  eapply boucle_omega_inv; [| |exact H3].
  { intros ? ? ? ? ? HP _ _ _ _. by apply Hstep. }
  eapply boucle_arcs_inv; [| |exact H2].
  { intros ? ? ? ? ? ? ? ? HP _ _ _ _. by apply Hstep. }
  eapply boucle_alpha_inv; [| |exact H1]; [|done].
  intros ? ? ? ? HP _ _. by apply Hstep.
Qed.

Lemma construire_graphe_inv3 (P : matrice -> Prop) o o' :
  (forall m1 m2 task d, P m1 -> task ∈ keys (tasks o) ->
     tasks_get (tasks o) task = Some (d, []) ->
     set_cell m1 (Z.of_nat (alpha o)) task 0%Z = Ret m2 -> P m2) ->
  (forall m1 m2 task d preds pred dp ps, P m1 -> task ∈ keys (tasks o) ->
     tasks_get (tasks o) task = Some (d, preds) -> pred ∈ preds ->
     tasks_get (tasks o) pred = Some (dp, ps) ->
     set_cell m1 pred task dp = Ret m2 -> P m2) ->
  (forall m1 m2 i d ps, P m1 -> i < n o + 2 -> i <> omega o ->
     has_successor m1 (n o + 2) i = false ->
     tasks_get (tasks o) (Z.of_nat i) = Some (d, ps) ->
     set_cell m1 (Z.of_nat i) (Z.of_nat (omega o)) d = Ret m2 -> P m2) ->
  P (replicate (n o + 2) (replicate (n o + 2) None)) ->
  construire_graphe o = Ret o' ->
  exists m, matrix o' = Some m /\ P m.
Proof.
  intros Hs1 Hs2 Hs3 H0 H.
  apply construire_graphe_Ret in H as (m1 & m2 & m3 & H1 & H2 & H3 & ->).
  exists m3. split; [done|].
  eapply boucle_omega_inv; [| |exact H3].
  { intros m4 m5 i d ps HP Hi. apply Hs3; [done|].
    apply elem_of_seq in Hi. lia. }
  eapply boucle_arcs_inv; [exact Hs2| |exact H2].
  eapply boucle_alpha_inv; [exact Hs1|exact H0|exact H1].
Qed.

Lemma set_cell_mono size m i j v m' x y :
  forme size m -> set_cell m i j v = Ret m' ->
  is_Some (cell m x y) -> is_Some (cell m' x y).
Proof.
  intros Hf Hset Hxy.
  destruct (set_cell_spec size m i j v m' Hf Hset) as (a & b & _ & _ & _ & Hc).
  rewrite Hc. by case_decide.
Qed.

Lemma set_cell_forme size m i j v m' :
  forme size m -> set_cell m i j v = Ret m' -> forme size m'.
Proof.
  intros Hf Hset.
  by destruct (set_cell_spec size m i j v m' Hf Hset) as (a & b & _ & _ & ? & _).
Qed.

(** The built matrix is square, of size [n + 2]. *)
Lemma construire_graphe_forme o o' :
  construire_graphe o = Ret o' ->
  exists m, matrix o' = Some m /\ forme (n o + 2) m.
Proof.
  apply construire_graphe_inv; [|apply forme_replicate].
  intros m1 m2 i j v. apply set_cell_forme.
Qed.

Lemma construire_graphe_carre o o' m :
  construire_graphe o = Ret o' -> matrix o' = Some m -> carree m.
Proof.
  intros H Hm. destruct (construire_graphe_forme o o' H) as (m' & Hm' & Hf).
  rewrite Hm in Hm'. injection Hm' as <-. by apply forme_carree in Hf.
Qed.

Lemma construire_graphe_champs o o' :
  construire_graphe o = Ret o' ->
  tasks o' = tasks o /\ n o' = n o /\ alpha o' = alpha o /\ omega o' = omega o.
Proof.
  intros H. by apply construire_graphe_Ret in H as (? & ? & ? & _ & _ & _ & ->).
Qed.

(** *** Arcs the loops are sure to write *)

Definition garde (size : nat) (x y : nat) (m : matrice) : Prop :=
  forme size m /\ is_Some (cell m x y).

Lemma garde_set_cell size x y m i j v m' :
  garde size x y m -> set_cell m i j v = Ret m' -> garde size x y m'.
Proof.
  intros [Hf Hxy] Hset. split.
  - by apply (set_cell_forme size m i j v).
  - by apply (set_cell_mono size m i j v).
Qed.

Lemma set_cell_ecrit size m i j v m' :
  forme size m -> set_cell m i j v = Ret m' ->
  exists a b, py_index size i = Some a /\ py_index size j = Some b /\
              garde size a b m' /\ cell m' a b = Some v.
Proof.
  intros Hf Hset.
  destruct (set_cell_spec size m i j v m' Hf Hset) as (a & b & Ha & Hb & Hf' & Hc).
  exists a, b. split; [done|]. split; [done|].
  assert (cell m' a b = Some v) as Hv.
  { rewrite Hc. by rewrite decide_True by done. }
  split; [|done]. split; [done|]. by rewrite Hv.
Qed.

Lemma boucle_alpha_forme size t a ks m m' :
  forme size m -> boucle_alpha t a ks m = Ret m' -> forme size m'.
Proof.
  intros Hf. apply boucle_alpha_inv; [|done].
  intros m1 m2 task d H1 _ _. by apply set_cell_forme.
Qed.

Lemma boucle_preds_forme size t task preds m m' :
  forme size m -> boucle_preds t task preds m = Ret m' -> forme size m'.
Proof.
  intros Hf. apply boucle_preds_inv; [|done].
  intros m1 m2 pred d ps H1 _ _. by apply set_cell_forme.
Qed.

Lemma boucle_arcs_forme size t ks m m' :
  forme size m -> boucle_arcs t ks m = Ret m' -> forme size m'.
Proof.
  intros Hf. apply boucle_arcs_inv; [|done].
  intros m1 m2 task d preds pred dp ps H1 _ _ _ _. by apply set_cell_forme.
Qed.

Lemma boucle_omega_forme size t om sz rows m m' :
  forme size m -> boucle_omega t om sz rows m = Ret m' -> forme size m'.
Proof.
  intros Hf. apply boucle_omega_inv; [|done].
  intros m1 m2 i d ps H1 _ _ _ _. by apply set_cell_forme.
Qed.

Lemma boucle_alpha_progres size t a ks m m' task d :
  forme size m -> boucle_alpha t a ks m = Ret m' ->
  task ∈ ks -> tasks_get t task = Some (d, []) ->
  exists x y, py_index size (Z.of_nat a) = Some x /\
              py_index size task = Some y /\ garde size x y m'.
Proof.
  revert m. induction ks as [|k ks IH]; intros m Hf H Hin Ht;
    [by apply elem_of_nil in Hin|].
  simpl in H. destruct (decide (k = task)) as [->|Hne].
  - rewrite Ht in H. apply obind_Ret in H as (m1 & Hset & H).
    destruct (set_cell_ecrit size m _ _ _ m1 Hf Hset) as (x & y & Hx & Hy & Hg & _).
    exists x, y. split; [done|]. split; [done|].
    eapply boucle_alpha_inv; [|exact Hg|exact H].
    intros m2 m3 task' d' Hg' _ _. by apply garde_set_cell.
  - apply elem_of_cons in Hin as [?|Hin]; [congruence|].
    destruct (tasks_get t k) as [[dk [|p ps]]|] eqn:Hk; [| |done].
    + apply obind_Ret in H as (m1 & Hset & H).
      apply (IH m1); [by eapply set_cell_forme|done..].
    + by apply (IH m).
Qed.

Lemma boucle_preds_progres size t task preds m m' pred :
  forme size m -> boucle_preds t task preds m = Ret m' -> pred ∈ preds ->
  exists x y, py_index size pred = Some x /\ py_index size task = Some y /\
              garde size x y m'.
Proof.
  revert m. induction preds as [|p preds IH]; intros m Hf H Hin;
    [by apply elem_of_nil in Hin|].
  simpl in H. destruct (tasks_get t p) as [[d ps]|] eqn:Hp; [|done].
  apply obind_Ret in H as (m1 & Hset & H).
  destruct (decide (p = pred)) as [->|Hne].
  - destruct (set_cell_ecrit size m _ _ _ m1 Hf Hset) as (x & y & Hx & Hy & Hg & _).
    exists x, y. split; [done|]. split; [done|].
    eapply boucle_preds_inv; [|exact Hg|exact H].
    intros m2 m3 pred' d' ps' Hg' _ _. by apply garde_set_cell.
  - apply elem_of_cons in Hin as [?|Hin]; [congruence|].
    apply (IH m1); [by eapply set_cell_forme|done..].
Qed.

Lemma boucle_arcs_progres size t ks m m' task d preds pred :
  forme size m -> boucle_arcs t ks m = Ret m' ->
  task ∈ ks -> tasks_get t task = Some (d, preds) -> pred ∈ preds ->
  exists x y, py_index size pred = Some x /\ py_index size task = Some y /\
              garde size x y m'.
Proof.
  revert m. induction ks as [|k ks IH]; intros m Hf H Hin Ht Hp;
    [by apply elem_of_nil in Hin|].
  simpl in H. destruct (decide (k = task)) as [->|Hne].
  - rewrite Ht in H. apply obind_Ret in H as (m1 & Hpreds & H).
    destruct (boucle_preds_progres size t task preds m m1 pred Hf Hpreds Hp)
      as (x & y & Hx & Hy & Hg).
    exists x, y. split; [done|]. split; [done|].
    eapply boucle_arcs_inv; [|exact Hg|exact H].
    intros m2 m3 ? ? ? ? ? ? Hg' _ _ _ _. by apply garde_set_cell.
  - apply elem_of_cons in Hin as [?|Hin]; [congruence|].
    destruct (tasks_get t k) as [[dk pk]|] eqn:Hk; [|done].
    apply obind_Ret in H as (m1 & Hpreds & H).
    apply (IH m1); [by apply (boucle_preds_forme size t k pk m)|done..].
Qed.

Lemma has_successor_true m size i :
  has_successor m size i = true <-> exists j, j < size /\ is_Some (cell m i j).
Proof.
  unfold has_successor. rewrite existsb_exists. split.
  - intros (j & Hj & Hc). exists j. apply in_seq in Hj.
    split; [lia|]. by destruct (cell m i j).
  - intros (j & Hj & [w Hc]). exists j. split; [apply in_seq; lia|].
    by rewrite Hc.
Qed.

Lemma has_successor_false m size i :
  has_successor m size i = false <-> forall j, j < size -> cell m i j = None.
Proof.
  rewrite <- not_true_iff_false, has_successor_true. split.
  - intros H j Hj. destruct (cell m i j) eqn:Hc; [|done].
    destruct H. exists j. split; [done|]. by rewrite Hc.
  - intros H (j & Hj & [w Hc]). by rewrite H in Hc.
Qed.

Lemma boucle_omega_progres size t om rows m m' i :
  forme size m -> boucle_omega t om size rows m = Ret m' ->
  i ∈ rows -> i < size -> i <> om -> tasks_mem t (Z.of_nat i) = true ->
  exists v, v < size /\ garde size i v m'.
Proof.
  revert m. induction rows as [|k rows IH]; intros m Hf H Hin Hi Hio Hmem;
    [by apply elem_of_nil in Hin|].
  simpl in H. destruct (decide (k = i)) as [->|Hne].
  - apply Nat.eqb_neq in Hio. rewrite Hio, Hmem in H. simpl in H.
    destruct (has_successor m size i) eqn:Hhs; simpl in H.
    + apply has_successor_true in Hhs as (j & Hj & Hc).
      exists j. split; [done|].
      eapply boucle_omega_inv; [| |exact H]; [|by split].
      intros m2 m3 ? ? ? Hg' _ _ _ _. by apply garde_set_cell.
    + destruct (tasks_get t (Z.of_nat i)) as [[d ps]|] eqn:Hti; [|done].
      apply obind_Ret in H as (m1 & Hset & H).
      destruct (set_cell_ecrit size m _ _ _ m1 Hf Hset) as (x & y & Hx & Hy & Hg & _).
      rewrite py_index_nat in Hx by done. injection Hx as <-.
      exists y. split; [by apply py_index_lt in Hy|].
      eapply boucle_omega_inv; [|exact Hg|exact H].
      intros m2 m3 ? ? ? Hg' _ _ _ _. by apply garde_set_cell.
  - apply elem_of_cons in Hin as [?|Hin]; [congruence|].
    destruct (negb (k =? om) && negb (has_successor m size k) &&
              tasks_mem t (Z.of_nat k)) eqn:Hc; [|by apply (IH m)].
    destruct (tasks_get t (Z.of_nat k)) as [[d ps]|] eqn:Hk; [|done].
    apply obind_Ret in H as (m1 & Hset & H).
    apply (IH m1); [by eapply set_cell_forme|done..].
Qed.

(** *** The graph of a well-formed table *)

Lemma arc_is_Some m u v : arc m u v <-> is_Some (cell m u v).
Proof.
  unfold arc, edgeb. destruct (cell m u v) as [w|]; simpl.
  - split; [intros _; by eexists|done].
  - split; [done|intros [? ?]; done].
Qed.

Lemma py_index_cle (t : table) (k : Z) a :
  bien_formee t -> k ∈ keys t -> py_index (length t + 2) k = Some a ->
  a = Z.to_nat k /\ 1 <= a <= length t.
Proof.
  intros Hbf Hk Ha. apply Hbf in Hk.
  rewrite py_index_pos in Ha by lia. injection Ha as <-. lia.
Qed.

(** Where the arcs of the graph of a well-formed table may lie. *)
Definition origine (t : table) (u v : nat) : Prop :=
  (u = 0 /\ exists d, tasks_get t (Z.of_nat v) = Some (d, [])) \/
  (1 <= u <= length t /\ 1 <= v <= length t + 1).

Record graphe_taches (t : table) (m : matrice) : Prop := mkGT {
  gt_bf : bien_formee t;
  gt_forme : forme (length t + 2) m;
  gt_origine : forall u v, arc m u v -> origine t u v;
  gt_succ : forall i, 1 <= i <= length t -> exists v, arc m i v;
  gt_pred : forall i, 1 <= i <= length t -> exists u, arc m u i
}.

Lemma construire_graphe_origine t o' :
  bien_formee t -> construire_graphe (charger init t) = Ret o' ->
  exists m, matrix o' = Some m /\
    (forme (length t + 2) m /\
     forall u v, is_Some (cell m u v) -> origine t u v).
Proof.
  intros Hbf.
  apply (construire_graphe_inv3
    (fun m => forme (length t + 2) m /\
              forall u v, is_Some (cell m u v) -> origine t u v)); simpl.
  - intros m1 m2 task d [Hf Ho] Hk Ht Hset.
    destruct (set_cell_spec _ _ _ _ _ _ Hf Hset) as (a & b & Ha & Hb & Hf' & Hc).
    split; [done|]. intros u v Huv. rewrite Hc in Huv.
    case_decide as Hab; [|by apply Ho]. destruct Hab as [-> ->].
    rewrite py_index_pos in Ha by lia. injection Ha as <-.
    destruct (py_index_cle t task b Hbf Hk Hb) as [-> Hb'].
    left. split; [done|]. exists d. by rewrite Z2Nat.id by lia.
  - intros m1 m2 task d preds pred dp ps [Hf Ho] Hk Ht Hp Hpt Hset.
    destruct (set_cell_spec _ _ _ _ _ _ Hf Hset) as (a & b & Ha & Hb & Hf' & Hc).
    split; [done|]. intros u v Huv. rewrite Hc in Huv.
    case_decide as Hab; [|by apply Ho]. destruct Hab as [-> ->].
    apply tasks_get_keys in Hpt.
    destruct (py_index_cle t pred a Hbf Hpt Ha) as [_ Ha'].
    destruct (py_index_cle t task b Hbf Hk Hb) as [_ Hb'].
    right. lia.
  - intros m1 m2 i d ps [Hf Ho] Hi Hio Hhs Hti Hset.
    destruct (set_cell_spec _ _ _ _ _ _ Hf Hset) as (a & b & Ha & Hb & Hf' & Hc).
    split; [done|]. intros u v Huv. rewrite Hc in Huv.
    case_decide as Hab; [|by apply Ho]. destruct Hab as [-> ->].
    apply tasks_get_keys in Hti.
    destruct (py_index_cle t _ a Hbf Hti Ha) as [-> Ha'].
    rewrite py_index_nat in Hb by lia. injection Hb as <-.
    right. lia.
  - split; [apply forme_replicate|].
    intros u v Huv. rewrite cell_replicate in Huv. by destruct Huv.
Qed.

Lemma construire_graphe_taches t o' m :
  bien_formee t -> construire_graphe (charger init t) = Ret o' ->
  matrix o' = Some m -> graphe_taches t m.
Proof.
  intros Hbf H Hm.
  destruct (construire_graphe_origine t o' Hbf H) as (m' & Hm' & Hf & Ho).
  rewrite Hm in Hm'. injection Hm' as <-.
  apply construire_graphe_Ret in H as (m1 & m2 & m3 & H1 & H2 & H3 & ->).
  simpl in *. injection Hm as <-.
  pose proof (forme_replicate (length t + 2)) as Hf0.
  pose proof (boucle_alpha_forme _ _ _ _ _ _ Hf0 H1) as Hf1.
  pose proof (boucle_arcs_forme _ _ _ _ _ Hf1 H2) as Hf2.
  split; [done|done| | |].
  - intros u v Huv. by apply Ho, arc_is_Some.
  - intros i Hi.
    destruct (boucle_omega_progres _ _ _ _ _ _ i Hf2 H3) as (v & _ & _ & Hv).
    + apply elem_of_seq. lia.
    + lia.
    + lia.
    + apply tasks_mem_keys, Hbf. lia.
    + exists v. by apply arc_is_Some.
  - intros i Hi.
    assert (Hk : Z.of_nat i ∈ keys t) by (apply Hbf; lia).
    destruct (keys_tasks_get t _ Hk) as [[d preds] Ht].
    assert (Hgarde : exists x, garde (length t + 2) x i m2).
    { destruct preds as [|p preds].
      - destruct (boucle_alpha_progres _ _ _ _ _ _ _ d Hf0 H1 Hk Ht)
          as (x & y & _ & Hy & Hg).
        destruct (py_index_cle t _ y Hbf Hk Hy) as [-> _].
        rewrite Nat2Z.id in Hg. exists x.
        eapply boucle_arcs_inv; [|exact Hg|exact H2].
        intros ? ? ? ? ? ? ? ? Hg' _ _ _ _. by apply garde_set_cell.
      - destruct (boucle_arcs_progres _ _ _ _ _ _ d (p :: preds) p Hf1 H2 Hk Ht)
          as (x & y & _ & Hy & Hg); [by left|].
        destruct (py_index_cle t _ y Hbf Hk Hy) as [-> _].
        rewrite Nat2Z.id in Hg. by exists x. }
    destruct Hgarde as (x & Hg). exists x. apply arc_is_Some.
    eapply (boucle_omega_inv (garde (length t + 2) x i)); [|exact Hg|exact H3].
    intros ? ? ? ? ? Hg' _ _ _ _. by apply garde_set_cell.
Qed.

(** ** The three relaxations *)

(** The common shape of lines 232-233, 272-273 and 301-302. *)
Definition relaxe {X} (better : X -> X -> bool) (c : X -> X) (u v : nat)
    (vals : list X) : list X :=
  match vals !! v, vals !! u with
  | Some xv, Some xu => if better xv (c xu) then <[v := c xu]> vals else vals
  | _, _ => vals
  end.

Lemma relaxe_lookup {X} (better : X -> X -> bool) c u v (vals : list X) xu w :
  u <> v -> vals !! u = Some xu ->
  relaxe better c u v vals !! w =
  if decide (w = v) then (fun xw => pick better xw (c xu)) <$> vals !! w
  else vals !! w.
Proof.
  intros Huv Hu. unfold relaxe, pick. rewrite Hu.
  destruct (vals !! v) as [xv|] eqn:Hv.
  - destruct (better xv (c xu)) eqn:Hb.
    + destruct (decide (w = v)) as [->|Hwv].
      * rewrite list_lookup_insert_eq by (by apply lookup_lt_Some in Hv).
        rewrite Hv. simpl. by rewrite Hb.
      * by rewrite list_lookup_insert_ne.
    + destruct (decide (w = v)) as [->|Hwv]; [|done].
      rewrite Hv. simpl. by rewrite Hb.
  - destruct (decide (w = v)) as [->|Hwv]; [|done]. by rewrite Hv.
Qed.

Lemma meme_domaine {X} (l1 l2 : list X) :
  (forall w, is_Some (l1 !! w) <-> is_Some (l2 !! w)) -> length l1 = length l2.
Proof.
  intros H.
  assert (forall w, w < length l1 <-> w < length l2) as Hlt.
  { intros w. by rewrite <- !lookup_lt_is_Some. }
  pose proof (Hlt (length l1)). pose proof (Hlt (length l2)). lia.
Qed.

Section KahnRelaxe.
Context {X : Type}.
Variable better : X -> X -> bool.
Variable cand : nat -> nat -> X -> X.
Variable relax : nat -> nat -> list X -> list X.
Variable size : nat.
Variable adj : list (list nat).
Variable deg0 : list Z.
Variable init : list X.

Hypothesis better_irrefl : forall x, better x x = false.
Hypothesis better_asym : forall x c, better x c = true -> better c x = false.
Hypothesis better_trans : forall a b c,
  better b a = false -> better c b = false -> better c a = false.
Hypothesis relax_relaxe : forall u v vals,
  relax u v vals = relaxe better (cand u v) u v vals.
Hypothesis adj_nodup : forall u, NoDup (succs adj u).
Hypothesis adj_range : forall u v, v ∈ succs adj u -> u < size /\ v < size.
Hypothesis deg0_length : length deg0 = size.
Hypothesis deg0_spec : forall v, v < size ->
  deg0 !! v =
  Some (Z.of_nat (length (filter (fun u => v ∈ succs adj u) (seq 0 size)))).
Hypothesis init_length : length init = size.

(** What an elimination that relaxes values returns. *)
Record elimine (st : kstate (list X)) (done : list nat) : Prop := mkElimine {
  el_nodup : NoDup done;
  el_range : forall x, x ∈ done -> x < size;
  el_topo : topologique adj done;
  el_done : forall v, v < size ->
    (v ∈ done <-> forall u, v ∈ succs adj u -> u ∈ done);
  el_length : length (acc st) = size;
  el_rinv : rinv better cand adj init done (acc st)
}.

Lemma kahn_relaxe :
  exists st done,
    kahn (fun _ a => a) relax adj deg0 init = Ret st /\ elimine st done.
Proof.
  destruct (kahn_correct (fun _ a => a) relax size adj deg0 init
              adj_nodup adj_range deg0_length deg0_spec)
    as (st & done & Hk & Hq & Hinv).
  exists st, done. split; [done|].
  assert (Hnd : NoDup done) by (by eapply kinv_fin_NoDup).
  assert (Hrg : forall x, x ∈ done -> x < size).
  { intros x. by eapply kinv_fin_range. }
  assert (Hr : rinv better cand adj init done (acc st)).
  { rewrite (kinv_acc _ _ _ _ _ _ _ Hinv).
    apply rinv_final; try done.
    - intros u v vals xu w Huv Hu. rewrite relax_relaxe.
      by apply relaxe_lookup.
    - by eapply kinv_topo.
    - intros u Hu. rewrite init_length. by apply Hrg. }
  split; try done.
  - by eapply kinv_topo.
  - intros v Hv. by eapply kinv_fin_done.
  - rewrite <- init_length. apply meme_domaine. apply (rinv_domaine _ _ _ _ _ _ Hr).
Qed.

(** On a graph without circuit the elimination removes every vertex. *)
Lemma elimine_complet st done :
  kahn (fun _ a => a) relax adj deg0 init = Ret st -> elimine st done ->
  sans_circuit (fun u v => v ∈ succs adj u) ->
  forall v, v < size -> v ∈ done.
Proof.
  intros _ He Hac v.
  apply (sans_circuit_ind (fun u v => v ∈ succs adj u) size
           (fun v => v < size -> v ∈ done)); [done|apply adj_range|].
  intros w IH Hw. apply (el_done _ _ He w Hw).
  intros u Hu. apply IH; [done|]. by apply (adj_range u w).
Qed.
End KahnRelaxe.

(** *** Orders *)

(** [a <= b] on integers extended with infinity. *)
Definition ext_le (a b : ext) : Prop :=
  match a, b with
  | Fin x, Fin y => (x <= y)%Z
  | _, Inf => True
  | Inf, Fin _ => False
  end.

Lemma ext_gt_false a b : ext_gt a b = false <-> ext_le a b.
Proof. destruct a, b; simpl; try done. apply Z.ltb_ge. Qed.

Lemma ext_gt_irrefl x : ext_gt x x = false.
Proof. destruct x; simpl; [apply Z.ltb_irrefl|done]. Qed.

Lemma ext_gt_asym x c : ext_gt x c = true -> ext_gt c x = false.
Proof. destruct x, c; simpl; try done. intros H. apply Z.ltb_lt in H. apply Z.ltb_ge. lia. Qed.

Lemma ext_gt_trans a b c :
  ext_gt b a = false -> ext_gt c b = false -> ext_gt c a = false.
Proof.
  rewrite !ext_gt_false. destruct a, b, c; simpl; try done. lia.
Qed.

Lemma ltb_asym (x c : Z) : (x <? c)%Z = true -> (c <? x)%Z = false.
Proof. intros H. apply Z.ltb_lt in H. apply Z.ltb_ge. lia. Qed.

Lemma ltb_trans (a b c : Z) :
  (b <? a)%Z = false -> (c <? b)%Z = false -> (c <? a)%Z = false.
Proof. rewrite !Z.ltb_ge. lia. Qed.

(** *** Latest dates without floats *)

(** [a - w] as a number: the value [ext_sub] returns when it returns. *)
Definition ext_moins (a : ext) (w : Z) : ext :=
  match a with
  | Fin z => Fin (z - w)
  | Inf => Inf
  end.

Lemma ext_sub_cas a w :
  ext_sub a w = Ret (ext_moins a w) \/ ext_sub a w = Raise OverflowError.
Proof.
  destruct a; simpl; [by left|]. destruct (flottant w); [by left|by right].
Qed.

Lemma ext_sub_Ret a w x : ext_sub a w = Ret x -> x = ext_moins a w.
Proof. destruct (ext_sub_cas a w) as [-> | ->]; [by intros [= <-]|done]. Qed.

Lemma ext_sub_flottant a w :
  flottant w = true -> ext_sub a w = Ret (ext_moins a w).
Proof. intros H. destruct a; simpl; [done|by rewrite H]. Qed.

Definition cand_tard (m : matrice) (u v : nat) (l : ext) : ext :=
  ext_moins l (weight m v u).

(** Lines 301-302 when the subtraction returns. *)
Definition relax_tard_pur (m : matrice) (u v : nat) (late : list ext)
  : list ext :=
  relaxe ext_gt (cand_tard m u v) u v late.

Lemma relax_tard_cas m u v late :
  relax_tard m u v late = Ret (relax_tard_pur m u v late) \/
  relax_tard m u v late = Raise OverflowError.
Proof.
  unfold relax_tard, relax_tard_pur, relaxe, cand_tard.
  destruct (late !! v) as [lv|]; [|by left].
  destruct (late !! u) as [lu|]; [|by left].
  destruct (ext_sub_cas lu (weight m v u)) as [-> | ->]; [by left|by right].
Qed.

(** [late[x]] is an integer. *)
Definition fini (late : list ext) (x : nat) : Prop :=
  exists z, late !! x = Some (Fin z).

Lemma relax_tard_fini m u v late :
  fini late u -> relax_tard m u v late = Ret (relax_tard_pur m u v late).
Proof.
  intros [z Hu]. unfold relax_tard, relax_tard_pur, relaxe, cand_tard.
  rewrite Hu. by destruct (late !! v).
Qed.

Lemma relax_tard_flottant m u v late :
  flottant (weight m v u) = true ->
  relax_tard m u v late = Ret (relax_tard_pur m u v late).
Proof.
  intros Hw. unfold relax_tard, relax_tard_pur, relaxe, cand_tard.
  destruct (late !! v) as [lv|]; [|done].
  destruct (late !! u) as [lu|]; [|done].
  by rewrite (ext_sub_flottant lu _ Hw).
Qed.

Lemma relax_tard_pur_length m u v late :
  length (relax_tard_pur m u v late) = length late.
Proof.
  unfold relax_tard_pur, relaxe.
  destruct (late !! v) as [lv|]; [|done].
  destruct (late !! u) as [lu|]; [|done].
  destruct (ext_gt lv (cand_tard m u v lu)); [apply length_insert|done].
Qed.

Lemma relax_tard_pur_stable m u v late x :
  fini late x -> fini (relax_tard_pur m u v late) x.
Proof.
  intros [z Hx]. unfold fini, relax_tard_pur, relaxe.
  destruct (late !! v) as [lv|] eqn:Hv; [|by exists z].
  destruct (late !! u) as [lu|] eqn:Hu; [|by exists z].
  destruct (ext_gt lv (cand_tard m u v lu)) eqn:Hgt; [|by exists z].
  destruct (decide (x = v)) as [->|Hne].
  - rewrite list_lookup_insert_eq by (by apply lookup_lt_Some in Hv).
    unfold cand_tard in *. destruct lu as [y|]; simpl in *; [by eexists|].
    by destruct lv.
  - rewrite list_lookup_insert_ne by done. by exists z.
Qed.

Lemma relax_tard_pur_cible m u v late :
  fini late u -> v < length late -> fini (relax_tard_pur m u v late) v.
Proof.
  intros [z Hu] Hv. unfold fini, relax_tard_pur, relaxe.
  destruct (lookup_lt_is_Some_2 late v Hv) as [lv Hlv]. rewrite Hlv, Hu.
  unfold cand_tard. simpl.
  destruct (ext_gt lv (Fin (z - weight m v u))) eqn:Hgt.
  - rewrite list_lookup_insert_eq by done. by eexists.
  - destruct lv as [y|]; [by exists y|done].
Qed.

(** The loop that can raise and the loop that cannot. *)
Section KahnExcPur.
Context {A : Type}.
Variable relax_e : nat -> nat -> A -> outcome A.
Variable relax_p : nat -> nat -> A -> A.
Variable adj : list (list nat).

Section Cas.
Variable e : exn.
Hypothesis relax_cas : forall u v a,
  relax_e u v a = Ret (relax_p u v a) \/ relax_e u v a = Raise e.

Lemma relacher_exc_cas u vs st :
  relacher_exc relax_e u vs st = Ret (relacher relax_p u vs st) \/
  relacher_exc relax_e u vs st = Raise e.
Proof.
  revert st. induction vs as [|v vs IH]; intros st; [by left|].
  simpl. unfold relache1_exc.
  destruct (relax_cas u v (acc st)) as [-> | ->]; [|by right].
  simpl. apply IH.
Qed.

Lemma boucle_kahn_exc_cas fuel st :
  boucle_kahn_exc (fun _ a => a) relax_e fuel adj st =
    boucle_kahn (fun _ a => a) relax_p fuel adj st \/
  boucle_kahn_exc (fun _ a => a) relax_e fuel adj st = Raise e.
Proof.
  revert st. induction fuel as [|fuel IH]; intros st; simpl.
  - left. by destruct (queue st).
  - destruct (queue st) as [|u q]; [by left|].
    destruct (relacher_exc_cas u (default [] (adj !! u))
                {| in_degree := in_degree st; queue := q; acc := acc st |})
      as [-> | ->]; [|by right].
    simpl. apply IH.
Qed.

Lemma kahn_exc_cas deg a0 :
  kahn_exc (fun _ a => a) relax_e adj deg a0 =
    kahn (fun _ a => a) relax_p adj deg a0 \/
  kahn_exc (fun _ a => a) relax_e adj deg a0 = Raise e.
Proof. apply boucle_kahn_exc_cas. Qed.
End Cas.

(** [sur u a]: relaxing from [u] in the state [a] raises nothing.  A
    vertex that enters the queue has just been relaxed from a vertex
    where this holds. *)
Section Sur.
Variable sur : nat -> A -> Prop.
Variable inv : A -> Prop.
Hypothesis sur_ret : forall u v a,
  sur u a -> relax_e u v a = Ret (relax_p u v a).
Hypothesis inv_stable : forall u v a, inv a -> inv (relax_p u v a).
Hypothesis sur_stable : forall u v x a, sur x a -> sur x (relax_p u v a).
Hypothesis sur_cible : forall u v a,
  inv a -> sur u a -> v ∈ succs adj u -> sur v (relax_p u v a).

Definition file_sure (st : kstate A) : Prop :=
  inv (acc st) /\ forall x, x ∈ queue st -> sur x (acc st).

Lemma relacher_exc_sur u vs st :
  sur u (acc st) -> file_sure st -> (forall v, v ∈ vs -> v ∈ succs adj u) ->
  relacher_exc relax_e u vs st = Ret (relacher relax_p u vs st) /\
  file_sure (relacher relax_p u vs st).
Proof.
  revert st. induction vs as [|v vs IH]; intros st Hu [Hinv Hq] Hvs; [done|].
  simpl. unfold relache1_exc. rewrite (sur_ret u v _ Hu). simpl.
  apply IH.
  - simpl. by apply sur_stable.
  - split; simpl; [by apply inv_stable|].
    intros x Hx. case_bool_decide.
    + apply elem_of_app in Hx as [Hx|Hx]; [by apply sur_stable, Hq|].
      apply list_elem_of_singleton in Hx as ->.
      apply sur_cible; [done..|]. apply Hvs. by left.
    + by apply sur_stable, Hq.
  - intros v' Hv'. apply Hvs. by right.
Qed.

Lemma boucle_kahn_exc_sur fuel st :
  file_sure st ->
  boucle_kahn_exc (fun _ a => a) relax_e fuel adj st =
  boucle_kahn (fun _ a => a) relax_p fuel adj st.
Proof.
  revert st. induction fuel as [|fuel IH]; intros st Hs; simpl.
  - by destruct (queue st).
  - destruct (queue st) as [|u q] eqn:Hq; [done|].
    destruct Hs as [Hinv Hs].
    destruct (relacher_exc_sur u (default [] (adj !! u))
                {| in_degree := in_degree st; queue := q; acc := acc st |})
      as [-> Hs'].
    + simpl. apply Hs. rewrite Hq. by left.
    + split; [done|]. simpl. intros x Hx. apply Hs. rewrite Hq. by right.
    + done.
    + simpl. by apply IH.
Qed.

Lemma kahn_exc_sur deg a0 :
  inv a0 -> (forall x, x ∈ entrees deg -> sur x a0) ->
  kahn_exc (fun _ a => a) relax_e adj deg a0 =
  kahn (fun _ a => a) relax_p adj deg a0.
Proof. intros Hi Hs. by apply boucle_kahn_exc_sur. Qed.
End Sur.
End KahnExcPur.

(** Line 316 when no subtraction raises. *)
Lemma marges_cas late early :
  marges late early = Ret (zip_with ext_moins late early) \/
  marges late early = Raise OverflowError.
Proof.
  revert early. induction late as [|l late IH]; intros [|e early]; simpl;
    try (by left).
  destruct (ext_sub_cas l e) as [-> | ->]; [|by right]. simpl.
  destruct (IH early) as [-> | ->]; [by left|by right].
Qed.

Lemma marges_fini late early :
  (forall x, x < length late -> fini late x) ->
  marges late early = Ret (zip_with ext_moins late early).
Proof.
  revert early. induction late as [|l late IH]; intros [|e early] H; simpl;
    try done.
  destruct (H 0 ltac:(simpl; lia)) as [z Hz]. simpl in Hz. injection Hz as ->.
  simpl. rewrite IH; [done|].
  intros x Hx. apply (H (S x)). simpl. lia.
Qed.

Lemma marges_flottant late early :
  (forall e, e ∈ early -> flottant e = true) ->
  marges late early = Ret (zip_with ext_moins late early).
Proof.
  revert early. induction late as [|l late IH]; intros [|e early] H; simpl;
    try done.
  rewrite (ext_sub_flottant l e) by (apply H; by left). simpl.
  rewrite IH; [done|]. intros e' He'. apply H. by right.
Qed.

(** *** Ranks, earliest dates, latest dates *)

Definition cand_rang (_ _ : nat) (r : Z) : Z := (r + 1)%Z.
Definition cand_tot (m : matrice) (u v : nat) (e : Z) : Z := (e + weight m u v)%Z.

Lemma rangs_elimine m :
  exists st done,
    kahn (fun _ a => a) relax_rang (listes m).1 (listes m).2
      (replicate (length m) 0%Z) = Ret st /\
    elimine Z.ltb cand_rang (length m) (listes m).1
      (replicate (length m) 0%Z) st done.
Proof.
  apply kahn_relaxe.
  - apply Z.ltb_irrefl.
  - apply ltb_asym.
  - apply ltb_trans.
  - done.
  - apply NoDup_succs_listes.
  - apply range_succs_listes.
  - apply listes_length.
  - apply deg_listes.
  - apply length_replicate.
Qed.

Lemma tot_elimine m :
  exists st done,
    kahn (fun _ a => a) (relax_tot m) (listes m).1 (listes m).2
      (replicate (length m) 0%Z) = Ret st /\
    elimine Z.ltb (cand_tot m) (length m) (listes m).1
      (replicate (length m) 0%Z) st done.
Proof.
  apply kahn_relaxe.
  - apply Z.ltb_irrefl.
  - apply ltb_asym.
  - apply ltb_trans.
  - done.
  - apply NoDup_succs_listes.
  - apply range_succs_listes.
  - apply listes_length.
  - apply deg_listes.
  - apply length_replicate.
Qed.

Lemma tard_elimine m (late0 : list ext) :
  length late0 = length m ->
  exists st done,
    kahn (fun _ a => a) (relax_tard_pur m) (listes_inverses m).1
      (listes_inverses m).2 late0 = Ret st /\
    elimine ext_gt (cand_tard m) (length m) (listes_inverses m).1 late0 st done.
Proof.
  intros Hlen. apply kahn_relaxe.
  - apply ext_gt_irrefl.
  - apply ext_gt_asym.
  - apply ext_gt_trans.
  - done.
  - apply NoDup_succs_listes_inverses.
  - apply range_succs_listes_inverses.
  - apply listes_inverses_length.
  - apply deg_listes_inverses.
  - done.
Qed.

(** The values a forward relaxation leaves on a graph without circuit:
    [0] raised to the largest [value of a predecessor + d]. *)
Lemma avant_acyclique m (d : nat -> nat -> Z) relax st done :
  carree m -> acyclique m ->
  kahn (fun _ a => a) relax (listes m).1 (listes m).2
    (replicate (length m) 0%Z) = Ret st ->
  elimine Z.ltb (fun u v x => (x + d u v)%Z) (length m) (listes m).1
    (replicate (length m) 0%Z) st done ->
  forall v, v < length m ->
  exists x, acc st !! v = Some x /\ (0 <= x)%Z /\
    (forall u xu, arc m u v -> acc st !! u = Some xu -> (xu + d u v <= x)%Z) /\
    (x = 0%Z \/
     exists u xu, arc m u v /\ acc st !! u = Some xu /\ x = (xu + d u v)%Z).
Proof.
  intros Hc Hac Hk He v Hv.
  assert (Hall : forall w, w < length m -> w ∈ done).
  { eapply elimine_complet; [apply range_succs_listes|exact Hk|exact He|].
    by apply sans_circuit_listes. }
  destruct (lookup_lt_is_Some_2 (acc st) v) as [x Hx].
  { by rewrite (el_length _ _ _ _ _ _ _ He). }
  pose proof (el_rinv _ _ _ _ _ _ _ He) as Hr.
  exists x. split; [done|]. split; [|split].
  - apply Z.ltb_ge.
    apply (rinv_monotone _ _ _ _ _ _ Hr v x 0%Z Hx).
    by apply lookup_replicate_2.
  - intros u xu Huv Hu. apply Z.ltb_ge.
    apply (rinv_arcs _ _ _ _ _ _ Hr u v xu x); [|by apply succs_listes_arc|done..].
    apply Hall. by apply arc_lt in Huv.
  - destruct (rinv_origine _ _ _ _ _ _ Hr v x Hx) as [H0|(u & xu & _ & Huv & Hu & ->)].
    + left. apply lookup_replicate in H0 as [-> _]. done.
    + right. exists u, xu. split; [by apply succs_listes_arc|done].
Qed.

(** The values the backward relaxation leaves on a graph without circuit:
    the initial value lowered to the smallest [value of a successor - weight]. *)
Lemma arriere_acyclique m (late0 : list ext) st done :
  carree m -> acyclique m -> length late0 = length m ->
  kahn (fun _ a => a) (relax_tard_pur m) (listes_inverses m).1
    (listes_inverses m).2 late0 = Ret st ->
  elimine ext_gt (cand_tard m) (length m) (listes_inverses m).1 late0 st done ->
  forall v, v < length m ->
  exists l l0, acc st !! v = Some l /\ late0 !! v = Some l0 /\ ext_le l l0 /\
    (forall w lw, arc m v w -> acc st !! w = Some lw ->
       ext_le l (ext_moins lw (weight m v w))) /\
    (l = l0 \/
     exists w lw, arc m v w /\ acc st !! w = Some lw /\
                  l = ext_moins lw (weight m v w)).
Proof.
  intros Hc Hac Hlen Hk He v Hv.
  assert (Hall : forall w, w < length m -> w ∈ done).
  { eapply elimine_complet; [apply range_succs_listes_inverses|exact Hk|exact He|].
    by apply sans_circuit_listes_inverses. }
  destruct (lookup_lt_is_Some_2 (acc st) v) as [l Hl].
  { by rewrite (el_length _ _ _ _ _ _ _ He). }
  destruct (lookup_lt_is_Some_2 late0 v) as [l0 Hl0]; [by rewrite Hlen|].
  pose proof (el_rinv _ _ _ _ _ _ _ He) as Hr.
  exists l, l0. split; [done|]. split; [done|]. split; [|split].
  - apply ext_gt_false. by apply (rinv_monotone _ _ _ _ _ _ Hr v l l0).
  - intros w lw Hvw Hw. apply ext_gt_false.
    apply (rinv_arcs _ _ _ _ _ _ Hr w v lw l);
      [|by apply succs_listes_inverses_arc|done..].
    apply Hall. by apply (arc_lt_carree m v w).
  - destruct (rinv_origine _ _ _ _ _ _ Hr v l Hl) as [H0|(w & lw & _ & Hvw & Hw & ->)].
    + left. congruence.
    + right. exists w, lw. split; [by apply succs_listes_inverses_arc|done].
Qed.

(** ** The verdict of the elimination *)

Lemma foldl_constant {A B} (a : A) (l : list B) : foldl (fun a _ => a) a l = a.
Proof. induction l as [|b l IH]; [done|]. apply IH. Qed.

Lemma foldl_compte adj done c l :
  foldl (traiter compte (fun _ _ a => a) adj) (c, l) done =
  (c + length done, l ++ done).
Proof.
  revert c l. induction done as [|u done IH]; intros c l; simpl.
  - by rewrite Nat.add_0_r, app_nil_r.
  - assert (Ht : traiter compte (fun _ _ a => a) adj (c, l) u = (c + 1, l ++ [u])).
    { unfold traiter. by rewrite foldl_constant. }
    rewrite Ht, IH. f_equal; [lia|]. by rewrite <- app_assoc.
Qed.

(** [count] and [topo_order] after the elimination of [detecter_circuit]. *)
Lemma elimination_correct m :
  exists st done,
    elimination m = Ret st /\ acc st = (length done, done) /\
    NoDup done /\ (forall x, x ∈ done -> x < length m) /\
    topologique (listes m).1 done /\
    (forall v, v < length m ->
       (v ∈ done <-> forall u, v ∈ succs (listes m).1 u -> u ∈ done)).
Proof.
  destruct (kahn_correct compte (fun _ _ a => a) (length m) (listes m).1
              (listes m).2 (0, []))
    as (st & done & Hk & Hq & Hinv).
  - apply NoDup_succs_listes.
  - apply range_succs_listes.
  - apply listes_length.
  - apply deg_listes.
  - exists st, done. split; [done|]. split; [|split; [|split; [|split]]].
    + rewrite (kinv_acc _ _ _ _ _ _ _ Hinv). by rewrite foldl_compte.
    + by eapply kinv_fin_NoDup.
    + intros x. by eapply kinv_fin_range.
    + by eapply kinv_topo.
    + intros v Hv.
      apply (kinv_fin_done compte (fun _ _ a => a) (length m) (listes m).1
               (listes m).2 (0, []) (range_succs_listes m)
               (proj2 (listes_length m)) done st v Hinv Hq Hv).
Qed.

(** Every vertex was removed exactly when the graph has no circuit. *)
Lemma elimination_acyclique m st :
  carree m -> elimination m = Ret st ->
  ((acc st).1 = length m <-> acyclique m).
Proof.
  intros Hc Hst.
  destruct (elimination_correct m) as (st' & done & Hst' & Hacc & Hnd & Hrg & Htopo & Hdone).
  rewrite Hst in Hst'. injection Hst' as <-. rewrite Hacc. simpl.
  rewrite <- (complet_length (length m) done Hnd Hrg).
  rewrite <- (sans_circuit_listes m Hc). split.
  - intros Hall.
    by apply (topologique_sans_circuit (length m) (listes m).1
                (range_succs_listes m) done).
  - intros Hac v.
    apply (sans_circuit_ind (fun u v => v ∈ succs (listes m).1 u) (length m)
             (fun v => v < length m -> v ∈ done)); [done|apply range_succs_listes|].
    intros w IH Hw. apply (Hdone w Hw).
    intros u Hu. apply IH; [done|]. by apply (range_succs_listes m u w).
Qed.

(** ** Ranks on a graph without circuit *)

Lemma sans_matrice_false o m :
  matrix o = Some m -> 0 < length m -> sans_matrice o = false.
Proof. unfold sans_matrice. intros -> Hl. destruct m; [simpl in Hl; lia|done]. Qed.

Lemma calculer_rangs_acyclique o m :
  matrix o = Some m -> 0 < length m -> carree m -> acyclique m ->
  exists ranks,
    calculer_rangs o = Ret (Some ranks) /\ length ranks = length m /\
    forall v, v < length m ->
    exists r, ranks !! v = Some r /\ (0 <= r)%Z /\
      (forall u ru, arc m u v -> ranks !! u = Some ru -> (ru + 1 <= r)%Z) /\
      (r = 0%Z \/
       exists u ru, arc m u v /\ ranks !! u = Some ru /\ r = (ru + 1)%Z).
Proof.
  intros Hm Hl Hc Hac.
  destruct (rangs_elimine m) as (st & done & Hk & He).
  exists (acc st). split; [|split].
  - unfold calculer_rangs. rewrite (sans_matrice_false o m Hm Hl), Hm.
    by rewrite Hk.
  - apply (el_length _ _ _ _ _ _ _ He).
  - by apply (avant_acyclique m (fun _ _ => 1%Z) relax_rang st done).
Qed.

(** Along a walk the rank grows by one at least at every arc. *)
Lemma chemin_rangs m (ranks : list Z) :
  (forall v, v < length m -> is_Some (ranks !! v)) ->
  (forall u v ru rv, arc m u v -> ranks !! u = Some ru -> ranks !! v = Some rv ->
     (ru + 1 <= rv)%Z) ->
  carree m ->
  forall p a b ra rb,
    chemin_de (arc m) a b p -> ranks !! a = Some ra -> ranks !! b = Some rb ->
    (ra + Z.of_nat (longueur p) <= rb)%Z.
Proof.
  intros Hdom Harc Hc. induction p as [|x p IH]; intros a b ra rb (Hp & Hh & Hlast) Ha Hb;
    [done|].
  simpl in Hh. injection Hh as ->.
  destruct p as [|y p].
  - simpl in Hlast. injection Hlast as ->. unfold longueur. simpl.
    rewrite Ha in Hb. injection Hb as ->. lia.
  - destruct Hp as [Hay Hp].
    destruct (Hdom y) as [ry Hy]; [by apply (arc_lt_carree m a y)|].
    rewrite last_cons_cons in Hlast.
    specialize (IH y b ry rb (conj Hp (conj eq_refl Hlast)) Hy Hb).
    pose proof (Harc a y ra ry Hay Ha Hy).
    unfold longueur in *. simpl in *. lia.
Qed.

(** A walk with as many arcs as the rank of its end, from a vertex that
    has no predecessor. *)
Lemma chemin_de_rang m (ranks : list Z) :
  carree m -> acyclique m ->
  (forall v, v < length m ->
     exists r, ranks !! v = Some r /\ (0 <= r)%Z /\
       (forall u ru, arc m u v -> ranks !! u = Some ru -> (ru + 1 <= r)%Z) /\
       (r = 0%Z \/
        exists u ru, arc m u v /\ ranks !! u = Some ru /\ r = (ru + 1)%Z)) ->
  forall v, v < length m ->
  exists p s r,
    chemin_de (arc m) s v p /\ ranks !! v = Some r /\
    Z.of_nat (longueur p) = r /\ forall u, ~ arc m u s.
Proof.
  intros Hc Hac Hr v.
  apply (sans_circuit_ind (arc m) (length m) (fun v => v < length m ->
    exists p s r, chemin_de (arc m) s v p /\ ranks !! v = Some r /\
      Z.of_nat (longueur p) = r /\ forall u, ~ arc m u s)); [done| |].
  { intros u w Huw. split; [by apply arc_lt in Huw|by apply arc_lt_carree in Huw]. }
  clear v. intros v IH Hv.
  destruct (Hr v Hv) as (r & Hrv & Hpos & Hle & [->|(u & ru & Huv & Hu & ->)]).
  - exists [v], v, 0%Z. split; [done|]. split; [done|]. split; [done|].
    intros u Huv.
    destruct (Hr u) as (ru & Hu & Hpu & _); [by apply arc_lt in Huv|].
    specialize (Hle u ru Huv Hu). lia.
  - destruct (IH u Huv) as (p & s & r & (Hp & Hh & Hlast) & Hu' & Hlen & Hs);
      [by apply arc_lt in Huv|].
    rewrite Hu in Hu'. injection Hu' as <-.
    apply last_Some in Hlast as (p' & ->).
    exists ((p' ++ [u]) ++ [v]), s, (ru + 1)%Z.
    split; [|split; [done|split; [|done]]].
    + split; [|split].
      * rewrite <- app_assoc. simpl. by apply chemin_snoc.
      * destruct p'; simpl in *; done.
      * apply last_snoc.
    + unfold longueur in *. rewrite !length_app in *. simpl in *. lia.
Qed.

(** ** Shape of the graph of a well-formed table *)

Lemma gt_region t m u v :
  graphe_taches t m -> arc m u v -> u <= length t /\ 1 <= v <= length t + 1.
Proof.
  intros Hg Huv. destruct (gt_origine t m Hg u v Huv) as [[-> [d Hd]]|?]; [|lia].
  apply tasks_get_keys, (gt_bf t m Hg) in Hd. lia.
Qed.

Lemma gt_carree t m : graphe_taches t m -> carree m.
Proof. intros Hg. apply (forme_carree _ _ (gt_forme t m Hg)). Qed.

Lemma gt_length t m : graphe_taches t m -> length m = length t + 2.
Proof. intros Hg. apply (gt_forme t m Hg). Qed.


Lemma arc_range m u v : carree m -> arc m u v -> u < length m /\ v < length m.
Proof.
  intros Hc Huv. split; [by apply arc_lt in Huv|by apply arc_lt_carree in Huv].
Qed.

(** Some task is followed by omega. *)
Lemma gt_omega_pred t m :
  graphe_taches t m -> acyclique m -> 1 <= length t ->
  exists u, arc m u (length t + 1).
Proof.
  intros Hg Hac Hn.
  apply (sans_circuit_ind (flip (arc m)) (length m)
     (fun v => 1 <= v <= length t -> exists u, arc m u (length t + 1)))
    with (v := 1); [by apply sans_circuit_flip| | |lia].
  - intros u v Huv. apply (arc_range m v u) in Huv; [lia|by apply (gt_carree t)].
  - intros v IH Hv. destruct (gt_succ t m Hg v Hv) as [w Hw].
    destruct (gt_region t m v w Hg Hw) as [_ Hw'].
    destruct (decide (w = length t + 1)) as [->|Hne]; [by exists v|].
    apply (IH w Hw). lia.
Qed.

(** Alpha is followed by some task. *)
Lemma gt_alpha_succ t m :
  graphe_taches t m -> acyclique m -> 1 <= length t -> exists v, arc m 0 v.
Proof.
  intros Hg Hac Hn.
  destruct (has_successor m (length m) 0) eqn:Hhs.
  - apply has_successor_true in Hhs as (j & _ & Hj). exists j. by apply arc_is_Some.
  - exfalso.
    apply (sans_circuit_ind (arc m) (length m)
       (fun v => 1 <= v <= length t -> False)) with (v := 1); [done| | |lia].
    + intros u v. apply arc_range, (gt_carree t m Hg).
    + intros v IH Hv. destruct (gt_pred t m Hg v Hv) as [u Hu].
      destruct (gt_origine t m Hg u v Hu) as [[-> _]|[Hu' _]]; [|by apply (IH u)].
      apply arc_is_Some in Hu as [w Hw].
      rewrite (proj1 (has_successor_false m (length m) 0) Hhs v) in Hw; [done|].
      rewrite (gt_length t m Hg). lia.
Qed.

(** ** Tables of the examples *)

(** The example of section 8: [{1:(3,[]), 2:(2,[]), 3:(4,[1,2]), 4:(1,[3])}]. *)
Definition ex_cpm : table :=
  [(1, (3, [])); (2, (2, [])); (3, (4, [1; 2])); (4, (1, [3]))]%Z.

(** The matrix and the object [construire_graphe] builds from it. *)
Definition ex_cpm_matrice : matrice :=
  [[None; Some 0; Some 0; None; None; None];
   [None; None; None; Some 3; None; None];
   [None; None; None; Some 2; None; None];
   [None; None; None; None; Some 4; None];
   [None; None; None; None; None; Some 1];
   [None; None; None; None; None; None]]%Z.

Definition ex_cpm_graphe : Ordonnancement :=
  {| tasks := ex_cpm; matrix := Some ex_cpm_matrice; n := 4;
     alpha := 0; omega := 5 |}.

(** The cycle example of section 8: [{1:(1,[2]), 2:(1,[1])}]. *)
Definition ex_cycle : table := [(1, (1, [2])); (2, (1, [1]))]%Z.

(** The malformed example of section 8: task 1 lists predecessor 9. *)
Definition ex_absent : table := [(1, (1, [9]))]%Z.

Lemma acyclique_test m st :
  carree m -> elimination m = Ret st -> (acc st).1 = length m -> acyclique m.
Proof. intros Hc Hst Hn. by apply (elimination_acyclique m st Hc Hst). Qed.

Lemma charger_init_champs t o' :
  construire_graphe (charger init t) = Ret o' ->
  tasks o' = t /\ n o' = length t /\ alpha o' = 0 /\ omega o' = length t + 1.
Proof. intros H. by apply construire_graphe_champs in H. Qed.

Lemma charger_init_forme t o' m :
  construire_graphe (charger init t) = Ret o' -> matrix o' = Some m ->
  forme (length t + 2) m.
Proof.
  intros H Hm. destruct (construire_graphe_forme _ _ H) as (m' & Hm' & Hf).
  rewrite Hm in Hm'. by injection Hm' as <-.
Qed.

(** * The claims *)




(** ** Calendars on a graph without circuit *)

(** What the two passes leave: [early] is 0 raised to the largest
    [early of a predecessor + weight]; [late] is the initial value
    ([early[omega]] at omega, infinity elsewhere) lowered to the smallest
    [late of a successor - weight]. *)
Record dates (m : matrice) (om : nat) (early : list Z) (late : list ext)
    (T : Z) : Prop := mkDates {
  d_early_length : length early = length m;
  d_late_length : length late = length m;
  d_total : early !! om = Some T;
  d_early : forall v, v < length m ->
    exists e, early !! v = Some e /\ (0 <= e)%Z /\
      (forall u eu, arc m u v -> early !! u = Some eu ->
         (eu + weight m u v <= e)%Z) /\
      (e = 0%Z \/
       exists u eu, arc m u v /\ early !! u = Some eu /\
                    e = (eu + weight m u v)%Z);
  d_late : forall v, v < length m ->
    exists l, late !! v = Some l /\
      ext_le l (if decide (v = om) then Fin T else Inf) /\
      (forall w lw, arc m v w -> late !! w = Some lw ->
         ext_le l (ext_moins lw (weight m v w))) /\
      (l = (if decide (v = om) then Fin T else Inf) \/
       exists w lw, arc m v w /\ late !! w = Some lw /\
                    l = ext_moins lw (weight m v w))
}.

(** [calculer_calendriers] when no subtraction raises. *)
Definition calendrier_pur (o : Ordonnancement) : outcome calendriers :=
  if sans_matrice o then Ret (None, None, None)
  else
    match matrix o with
    | None => Ret (None, None, None)
    | Some m =>
        let size := length m in
        st ← kahn (fun _ a => a) (relax_tot m) (listes m).1 (listes m).2
               (replicate size 0%Z);
        let early := acc st in
        match early !! omega o with
        | None => Raise IndexError
        | Some total_duration =>
            let late0 := <[omega o := Fin total_duration]> (replicate size Inf) in
            st' ← kahn (fun _ a => a) (relax_tard_pur m)
                    (listes_inverses m).1 (listes_inverses m).2 late0;
            let late := acc st' in
            Ret (Some early, Some late, Some (zip_with ext_moins late early))
        end
    end.

(** The only exception of [calculer_calendriers] on a matrix is the
    [OverflowError] of a subtraction. *)
Lemma calculer_calendriers_cas o :
  calculer_calendriers o = calendrier_pur o \/
  calculer_calendriers o = Raise OverflowError.
Proof.
  unfold calculer_calendriers, calendrier_pur.
  destruct (sans_matrice o); [by left|].
  destruct (matrix o) as [m|]; [|by left].
  destruct (kahn _ (relax_tot m) _ _ _) as [st| |]; simpl; [|by left..].
  destruct (acc st !! omega o) as [T|]; [|by left].
  destruct (kahn_exc_cas (relax_tard m) (relax_tard_pur m) (listes_inverses m).1
              OverflowError (relax_tard_cas m) (listes_inverses m).2
              (<[omega o := Fin T]> (replicate (length m) Inf)))
    as [-> | ->]; [|by right].
  destruct (kahn _ (relax_tard_pur m) _ _ _) as [st'| |]; simpl; [|by left..].
  destruct (marges_cas (acc st') (acc st)) as [-> | ->]; [by left|by right].
Qed.

Lemma calculer_calendriers_Ret o c :
  calculer_calendriers o = Ret c -> calendrier_pur o = Ret c.
Proof. destruct (calculer_calendriers_cas o) as [-> | ->]; done. Qed.

Lemma calendrier_pur_acyclique o m :
  matrix o = Some m -> carree m -> acyclique m -> omega o < length m ->
  exists early late T,
    calendrier_pur o =
      Ret (Some early, Some late, Some (zip_with ext_moins late early)) /\
    dates m (omega o) early late T.
Proof.
  intros Hm Hc Hac Hom.
  destruct (tot_elimine m) as (st & done & Hk & He).
  pose proof (el_length _ _ _ _ _ _ _ He) as Hlen.
  destruct (lookup_lt_is_Some_2 (acc st) (omega o)) as [T HT]; [by rewrite Hlen|].
  set (late0 := <[omega o := Fin T]> (replicate (length m) Inf)).
  assert (Hlen0 : length late0 = length m).
  { unfold late0. by rewrite length_insert, length_replicate. }
  destruct (tard_elimine m late0 Hlen0) as (st' & done' & Hk' & He').
  exists (acc st), (acc st'), T. split.
  - unfold calendrier_pur.
    rewrite (sans_matrice_false o m Hm) by lia. rewrite Hm.
    rewrite Hk. simpl. rewrite HT. fold late0. by rewrite Hk'.
  - split; [done|apply (el_length _ _ _ _ _ _ _ He')|done| |].
    + by apply (avant_acyclique m (weight m) (relax_tot m) st done).
    + intros v Hv.
      destruct (arriere_acyclique m late0 st' done' Hc Hac Hlen0 Hk' He' v Hv)
        as (l & l0 & Hl & Hl0 & Hle & Harc & Hor).
      assert (l0 = if decide (v = omega o) then Fin T else Inf) as ->.
      { unfold late0 in Hl0. case_decide as Hvo.
        - subst v. rewrite list_lookup_insert_eq in Hl0
            by (by rewrite length_replicate). congruence.
        - rewrite list_lookup_insert_ne in Hl0 by done.
          by apply lookup_replicate in Hl0 as [-> _]. }
      exists l. done.
Qed.

(** Every vertex but [om] has a successor: the backward pass then starts
    from [om] alone, whose latest date is an integer, and no infinite
    value is ever subtracted from. *)
Definition seul_puits (m : matrice) (om : nat) : Prop :=
  forall v, v < length m -> v <> om -> exists w, arc m v w.

Lemma entrees_inverses m x :
  carree m -> x ∈ entrees (listes_inverses m).2 ->
  x < length m /\ forall w, ~ arc m x w.
Proof.
  intros Hc Hx. unfold entrees in Hx. apply list_elem_of_filter in Hx as [H0 Hx].
  apply elem_of_seq in Hx. rewrite (proj2 (listes_inverses_length m)) in Hx.
  assert (Hlt : x < length m) by lia. split; [done|].
  rewrite deg_listes_inverses in H0 by done. injection H0 as H0.
  apply (f_equal Z.to_nat) in H0. rewrite Nat2Z.id in H0. simpl in H0.
  intros w Hw. apply (proj1 (filter_vide _ _) H0 w).
  - apply elem_of_seq. apply (arc_lt_carree m x w Hc) in Hw. lia.
  - by apply succs_listes_inverses_arc.
Qed.

Lemma tard_seul_puits m om T :
  carree m -> om < length m -> seul_puits m om ->
  kahn_exc (fun _ a => a) (relax_tard m) (listes_inverses m).1
    (listes_inverses m).2 (<[om := Fin T]> (replicate (length m) Inf)) =
  kahn (fun _ a => a) (relax_tard_pur m) (listes_inverses m).1
    (listes_inverses m).2 (<[om := Fin T]> (replicate (length m) Inf)).
Proof.
  intros Hc Hom Hs.
  apply (kahn_exc_sur (relax_tard m) (relax_tard_pur m) (listes_inverses m).1
           (fun x late => fini late x) (fun late => length late = length m)).
  - intros u v a. apply relax_tard_fini.
  - intros u v a Ha. by rewrite relax_tard_pur_length.
  - intros u v x a. apply relax_tard_pur_stable.
  - intros u v a Ha Hu Hv. apply relax_tard_pur_cible; [done|]. rewrite Ha.
    by apply range_succs_listes_inverses in Hv as [_ ?].
  - by rewrite length_insert, length_replicate.
  - intros x Hx. apply entrees_inverses in Hx as [Hlt Hno]; [|done].
    destruct (decide (x = om)) as [->|Hne].
    + exists T. apply list_lookup_insert_eq. by rewrite length_replicate.
    + destruct (Hs x Hlt Hne) as [w Hw]. by apply Hno in Hw.
Qed.

(** Without circuit, when omega is the only vertex without successor,
    every latest date is an integer. *)
Lemma dates_fini m om early late T :
  carree m -> acyclique m -> seul_puits m om -> dates m om early late T ->
  forall v, v < length m -> fini late v.
Proof.
  intros Hc Hac Hs Hd.
  apply (sans_circuit_ind (flip (arc m)) (length m)
    (fun v => v < length m -> fini late v)).
  - by apply sans_circuit_flip.
  - intros u v Huv. apply (arc_range m v u Hc) in Huv. lia.
  - intros v IH Hv. destruct (decide (v = om)) as [->|Hvo].
    + destruct (d_late _ _ _ _ _ Hd om Hv) as (l & Hl & Hle & _).
      rewrite decide_True in Hle by done.
      destruct l as [z|]; [by exists z|done].
    + destruct (Hs v Hv Hvo) as [w Hw].
      destruct (IH w Hw) as [lw Hlw]; [by apply (arc_lt_carree m v w)|].
      destruct (d_late _ _ _ _ _ Hd v Hv) as (l & Hl & _ & Harc & _).
      specialize (Harc w (Fin lw) Hw Hlw).
      destruct l as [z|]; [by exists z|done].
Qed.

Lemma calculer_calendriers_acyclique o m :
  matrix o = Some m -> carree m -> acyclique m -> omega o < length m ->
  seul_puits m (omega o) ->
  exists early late T,
    calculer_calendriers o =
      Ret (Some early, Some late, Some (zip_with ext_moins late early)) /\
    dates m (omega o) early late T.
Proof.
  intros Hm Hc Hac Hom Hs.
  destruct (calendrier_pur_acyclique o m Hm Hc Hac Hom)
    as (early & late & T & Hcal & Hd).
  exists early, late, T. split; [|done].
  revert Hcal. unfold calculer_calendriers, calendrier_pur.
  rewrite (sans_matrice_false o m Hm) by lia. rewrite Hm.
  destruct (kahn _ (relax_tot m) _ _ _) as [st| |]; simpl; [|done..].
  destruct (acc st !! omega o) as [T'|]; [|done].
  rewrite (tard_seul_puits m (omega o) T' Hc Hom Hs).
  destruct (kahn _ (relax_tard_pur m) _ _ _) as [st'| |]; simpl; [|done..].
  intros [= <- <-]. rewrite marges_fini; [done|].
  intros x Hx.
  apply (dates_fini m (omega o) (acc st) (acc st') T Hc Hac Hs Hd).
  by rewrite <- (d_late_length _ _ _ _ _ Hd).
Qed.

(** Weights small enough for every date to convert to a float. *)
Definition petit (m : matrice) : Prop :=
  exists B, (0 <= B)%Z /\
    (forall u v w, cell m u v = Some w -> (Z.abs w <= B)%Z) /\
    (Z.of_nat (length m) * B < borne_float)%Z.

Lemma flottant_true w : flottant w = true <-> (Z.abs w < borne_float)%Z.
Proof. apply Z.ltb_lt. Qed.

Lemma weight_borne m B u v :
  (0 <= B)%Z -> (forall u v w, cell m u v = Some w -> (Z.abs w <= B)%Z) ->
  (Z.abs (weight m u v) <= B)%Z.
Proof.
  intros HB Hw. unfold weight. destruct (cell m u v) as [w|] eqn:Hc; simpl.
  - by apply (Hw u v).
  - done.
Qed.

(** An earliest date is the weight of a walk, which passes at most once
    through each vertex the elimination removed. *)
Lemma tot_borne m st done B :
  elimine Z.ltb (cand_tot m) (length m) (listes m).1
    (replicate (length m) 0%Z) st done ->
  (0 <= B)%Z -> (forall u v w, cell m u v = Some w -> (Z.abs w <= B)%Z) ->
  forall v x, acc st !! v = Some x -> (Z.abs x <= Z.of_nat (length m) * B)%Z.
Proof.
  intros He HB Hw.
  pose proof (el_rinv _ _ _ _ _ _ _ He) as Hr.
  assert (Hdone : forall i u x, done !! i = Some u -> acc st !! u = Some x ->
    (Z.abs x <= Z.of_nat i * B)%Z).
  { induction i as [i IH] using lt_wf_ind. intros u x Hi Hx.
    destruct (rinv_origine _ _ _ _ _ _ Hr u x Hx)
      as [H0|(u' & xu & Hu' & Hsucc & Hxu & ->)].
    - apply lookup_replicate in H0 as [-> _]. simpl. nia.
    - destruct (el_topo _ _ _ _ _ _ _ He i u Hi u' Hsucc) as (j & Hj & Hju).
      pose proof (IH j Hj u' xu Hju Hxu) as Hb.
      pose proof (weight_borne m B u' u HB Hw). unfold cand_tot. nia. }
  assert (Hlen : length done <= length m).
  { apply NoDup_borne; [apply (el_nodup _ _ _ _ _ _ _ He)|].
    apply (el_range _ _ _ _ _ _ _ He). }
  intros v x Hx.
  destruct (rinv_origine _ _ _ _ _ _ Hr v x Hx)
    as [H0|(u' & xu & Hu' & Hsucc & Hxu & ->)].
  - apply lookup_replicate in H0 as [-> _]. simpl. nia.
  - apply list_elem_of_lookup_1 in Hu' as (j & Hj).
    pose proof (Hdone j u' xu Hj Hxu) as Hb.
    apply lookup_lt_Some in Hj.
    pose proof (weight_borne m B u' v HB Hw). unfold cand_tot. nia.
Qed.

Lemma weight_flottant m u v :
  petit m -> 0 < length m -> flottant (weight m u v) = true.
Proof.
  intros (B & HB & Hw & Hsize) Hl. apply flottant_true.
  pose proof (weight_borne m B u v HB Hw). nia.
Qed.

(** With small weights every earliest date converts to a float. *)
Lemma calendrier_pur_flottant o m early late margins :
  matrix o = Some m -> 0 < length m -> petit m ->
  calendrier_pur o = Ret (Some early, Some late, Some margins) ->
  forall v e, early !! v = Some e -> flottant e = true.
Proof.
  intros Hm Hl (B & HB & Hw & Hsize) Hcal.
  destruct (tot_elimine m) as (st & done & Hk & He).
  unfold calendrier_pur in Hcal.
  rewrite (sans_matrice_false o m Hm Hl), Hm, Hk in Hcal. simpl in Hcal.
  destruct (acc st !! omega o) as [T|]; [|done].
  destruct (kahn _ (relax_tard_pur m) _ _ _) as [st'| |]; simpl in Hcal; [|done..].
  injection Hcal as <- _ _. intros v e Hv. apply flottant_true.
  pose proof (tot_borne m st done B He HB Hw v e Hv). lia.
Qed.

(** With small weights no subtraction raises. *)
Lemma calculer_calendriers_petit o m :
  matrix o = Some m -> omega o < length m -> petit m ->
  calculer_calendriers o = calendrier_pur o.
Proof.
  intros Hm Hom (B & HB & Hw & Hsize).
  assert (HBf : (B < borne_float)%Z) by nia.
  destruct (tot_elimine m) as (st & done & Hk & He).
  unfold calculer_calendriers, calendrier_pur.
  rewrite (sans_matrice_false o m Hm) by lia. rewrite Hm, Hk. simpl.
  destruct (acc st !! omega o) as [T|]; [|done].
  rewrite (kahn_exc_sur (relax_tard m) (relax_tard_pur m) (listes_inverses m).1
             (fun _ _ => True) (fun _ => True)); try done.
  - destruct (kahn _ (relax_tard_pur m) _ _ _) as [st'| |]; simpl; [|done..].
    rewrite marges_flottant; [done|].
    intros e Hin. apply list_elem_of_lookup_1 in Hin as (v & Hv).
    apply flottant_true. pose proof (tot_borne m st done B He HB Hw v e Hv). lia.
  - intros u v a _. apply relax_tard_flottant, flottant_true.
    pose proof (weight_borne m B v u HB Hw). lia.
Qed.

Section Calendrier.
Variable t : table.
Variable m : matrice.
Variable early : list Z.
Variable late : list ext.
Variable T : Z.
Hypothesis Hg : graphe_taches t m.
Hypothesis Hac : acyclique m.
Hypothesis Hn : 1 <= length t.
Hypothesis Hpos : forall u v w, cell m u v = Some w -> (0 <= w)%Z.
Hypothesis Hd : dates m (length t + 1) early late T.

Lemma weight_pos u v : (0 <= weight m u v)%Z.
Proof.
  unfold weight. destruct (cell m u v) as [w|] eqn:Hw; simpl; [|done].
  by apply (Hpos u v).
Qed.

Lemma cal_length : length m = length t + 2.
Proof. apply (gt_length t m Hg). Qed.

Lemma cal_range u v : flip (arc m) u v -> u < length m /\ v < length m.
Proof.
  intros Huv. apply (arc_range m v u) in Huv; [lia|apply (gt_carree t m Hg)].
Qed.

(** Every vertex but omega has a successor. *)
Lemma cal_successeur v :
  v < length m -> v <> length t + 1 -> exists w, arc m v w.
Proof.
  intros Hv Hvo. rewrite cal_length in Hv.
  destruct (decide (v = 0)) as [->|Hv0]; [by apply (gt_alpha_succ t)|].
  apply (gt_succ t m Hg). lia.
Qed.

(** Every vertex but alpha has a predecessor. *)
Lemma cal_predecesseur v :
  v < length m -> v <> 0 -> exists u, arc m u v.
Proof.
  intros Hv Hv0. rewrite cal_length in Hv.
  destruct (decide (v = length t + 1)) as [->|Hvo]; [by apply (gt_omega_pred t)|].
  apply (gt_pred t m Hg). lia.
Qed.

Lemma cal_late_omega : late !! (length t + 1) = Some (Fin T).
Proof.
  destruct (d_late _ _ _ _ _ Hd (length t + 1)) as (l & Hl & _ & _ & Hor).
  { rewrite cal_length. lia. }
  rewrite decide_True in Hor by done.
  destruct Hor as [->|(w & lw & Hw & _)]; [done|].
  apply (gt_region t m _ _ Hg) in Hw. lia.
Qed.

Lemma cal_early_alpha : early !! 0 = Some 0%Z.
Proof.
  destruct (d_early _ _ _ _ _ Hd 0) as (e & He & _ & _ & Hor).
  { rewrite cal_length. lia. }
  destruct Hor as [->|(u & eu & Hu & _)]; [done|].
  apply (gt_region t m _ _ Hg) in Hu. lia.
Qed.

(** Latest dates are finite and at most the total duration. *)
Lemma cal_late_fini v :
  v < length m -> exists l, late !! v = Some (Fin l) /\ (l <= T)%Z.
Proof.
  apply (sans_circuit_ind (flip (arc m)) (length m)
    (fun v => v < length m -> exists l, late !! v = Some (Fin l) /\ (l <= T)%Z));
    [by apply sans_circuit_flip|apply cal_range|].
  clear v. intros v IH Hv.
  destruct (decide (v = length t + 1)) as [->|Hvo].
  - exists T. split; [apply cal_late_omega|lia].
  - destruct (cal_successeur v Hv Hvo) as [w Hw].
    destruct (IH w Hw) as (lw & Hlw & HlwT); [by apply (cal_range w v)|].
    destruct (d_late _ _ _ _ _ Hd v Hv) as (l & Hl & _ & Harc & _).
    specialize (Harc w (Fin lw) Hw Hlw). pose proof (weight_pos v w).
    destruct l as [l|]; simpl in Harc; [|done].
    exists l. split; [done|lia].
Qed.

(** The earliest date never exceeds the latest one. *)
Lemma cal_early_late v e l :
  v < length m -> early !! v = Some e -> late !! v = Some (Fin l) -> (e <= l)%Z.
Proof.
  revert e l.
  apply (sans_circuit_ind (flip (arc m)) (length m)
    (fun v => forall e l, v < length m -> early !! v = Some e ->
       late !! v = Some (Fin l) -> (e <= l)%Z));
    [by apply sans_circuit_flip|apply cal_range|].
  clear v. intros v IH e l Hv He Hl.
  destruct (decide (v = length t + 1)) as [->|Hvo].
  - rewrite cal_late_omega in Hl. injection Hl as <-.
    rewrite (d_total _ _ _ _ _ Hd) in He. injection He as <-. lia.
  - destruct (d_late _ _ _ _ _ Hd v Hv) as (l' & Hl' & _ & _ & Hor).
    rewrite Hl in Hl'. injection Hl' as <-.
    rewrite decide_False in Hor by done.
    destruct Hor as [?|(w & lw & Hw & Hlw & Heq)]; [done|].
    destruct lw as [lw|]; simpl in Heq; [|done]. injection Heq as ->.
    assert (Hwlt : w < length m) by (by apply (cal_range w v)).
    destruct (d_early _ _ _ _ _ Hd w Hwlt) as (ew & Hew & _ & Harc & _).
    specialize (Harc v e Hw He).
    specialize (IH w Hw ew lw Hwlt Hew Hlw). lia.
Qed.

(** From a vertex whose latest date is its earliest date a chain of such
    vertices leads back to alpha. *)
Lemma cal_alpha_tendu v e l :
  v < length m -> early !! v = Some e -> late !! v = Some (Fin l) ->
  (l <= e)%Z ->
  forall l0, late !! 0 = Some (Fin l0) -> (l0 <= 0)%Z.
Proof.
  revert e l.
  apply (sans_circuit_ind (arc m) (length m)
    (fun v => forall e l, v < length m -> early !! v = Some e ->
       late !! v = Some (Fin l) -> (l <= e)%Z ->
       forall l0, late !! 0 = Some (Fin l0) -> (l0 <= 0)%Z));
    [done|intros u w; apply arc_range, (gt_carree t m Hg)|].
  clear v. intros v IH e l Hv He Hl Hle l0 Hl0.
  destruct (decide (v = 0)) as [->|Hv0].
  - rewrite cal_early_alpha in He. injection He as <-.
    rewrite Hl in Hl0. injection Hl0 as <-. done.
  - assert (Htendu : exists u eu lu, arc m u v /\ early !! u = Some eu /\
      late !! u = Some (Fin lu) /\ (lu <= eu)%Z).
    { destruct (d_early _ _ _ _ _ Hd v Hv) as (e' & He' & _ & _ & Hor).
      rewrite He in He'. injection He' as <-.
      assert (Hpred : forall u, arc m u v -> exists eu lu,
        early !! u = Some eu /\ late !! u = Some (Fin lu) /\
        (0 <= eu)%Z /\ (lu <= l - weight m u v)%Z).
      { intros u Hu. assert (Hult : u < length m) by (by apply arc_lt in Hu).
        destruct (d_early _ _ _ _ _ Hd u Hult) as (eu & Heu & Hpu & _).
        destruct (cal_late_fini u Hult) as (lu & Hlu & _).
        destruct (d_late _ _ _ _ _ Hd u Hult) as (lu' & Hlu' & _ & Harc & _).
        rewrite Hlu in Hlu'. injection Hlu' as <-.
        specialize (Harc v (Fin l) Hu Hl). simpl in Harc.
        by exists eu, lu. }
      destruct Hor as [->|(u & eu & Hu & Heu & ->)].
      - destruct (cal_predecesseur v Hv Hv0) as [u Hu].
        destruct (Hpred u Hu) as (eu & lu & Heu & Hlu & Hpu & Hlule).
        pose proof (weight_pos u v).
        exists u, eu, lu. split; [done|]. split; [done|]. split; [done|lia].
      - destruct (Hpred u Hu) as (eu' & lu & Heu' & Hlu & Hpu & Hlule).
        rewrite Heu in Heu'. injection Heu' as <-.
        exists u, eu, lu. split; [done|]. split; [done|]. split; [done|lia]. }
    destruct Htendu as (u & eu & lu & Hu & Heu & Hlu & Hlule).
    apply (IH u Hu eu lu); [by apply arc_lt in Hu|done..].
Qed.

Lemma cal_late_alpha : late !! 0 = Some (Fin 0).
Proof.
  assert (H0 : 0 < length m) by (rewrite cal_length; lia).
  assert (Hom : length t + 1 < length m) by (rewrite cal_length; lia).
  destruct (cal_late_fini 0 H0) as (l0 & Hl0 & _).
  pose proof (cal_early_late 0 0%Z l0 H0 cal_early_alpha Hl0).
  pose proof (cal_alpha_tendu (length t + 1) T T Hom (d_total _ _ _ _ _ Hd)
                cal_late_omega ltac:(lia) l0 Hl0).
  rewrite Hl0. do 2 f_equal. lia.
Qed.
End Calendrier.

Lemma gt_seul_puits t m :
  graphe_taches t m -> acyclique m -> 1 <= length t ->
  seul_puits m (length t + 1).
Proof. intros Hg Hac Hn v Hv Hvo. by apply (cal_successeur t m Hg Hac Hn). Qed.

(** C3 (amended).  For a table of n >= 1 tasks whose identifiers are 1..n,
    when the built graph has no negative weight and no circuit,
    [calculer_calendriers] returns arrays with
    [0 <= earliest[i] <= latest[i] <= duration] for every vertex [i],
    margin [latest[i] - earliest[i]], and margin 0 at alpha and at omega. *)
Theorem C3_calendriers t o' m :
  bien_formee t -> 1 <= length t ->
  construire_graphe (charger init t) = Ret o' -> matrix o' = Some m ->
  acyclique m ->
  (forall u v w, cell m u v = Some w -> (0 <= w)%Z) ->
  exists early late margins T,
    calculer_calendriers o' = Ret (Some early, Some late, Some margins) /\
    early !! omega o' = Some T /\
    (forall i, i < length m ->
       exists e l,
         early !! i = Some e /\ late !! i = Some (Fin l) /\
         margins !! i = Some (Fin (l - e)) /\
         (0 <= e)%Z /\ (e <= l)%Z /\ (l <= T)%Z) /\
    margins !! alpha o' = Some (Fin 0) /\
    margins !! omega o' = Some (Fin 0).
Proof.
  intros Hbf Hn H Hm Hac Hpos.
  pose proof (construire_graphe_taches t o' m Hbf H Hm) as Hg.
  pose proof (gt_carree t m Hg) as Hc.
  pose proof (gt_length t m Hg) as Hl.
  destruct (charger_init_champs t o' H) as (_ & _ & Ha & Ho).
  destruct (calculer_calendriers_acyclique o' m Hm Hc Hac ltac:(lia)
              ltac:(rewrite Ho; by apply (gt_seul_puits t)))
    as (early & late & T & Hcal & Hd).
  rewrite Ha, Ho in *.
  exists early, late, (zip_with ext_moins late early), T.
  split; [done|]. split; [apply (d_total _ _ _ _ _ Hd)|].
  assert (Hmarge : forall i e l, early !! i = Some e -> late !! i = Some (Fin l) ->
    zip_with ext_moins late early !! i = Some (Fin (l - e))).
  { intros i e l He Hli. rewrite lookup_zip_with, Hli, He. done. }
  split; [|split].
  - intros i Hi.
    destruct (d_early _ _ _ _ _ Hd i Hi) as (e & He & Hpe & _).
    destruct (cal_late_fini t m early late T Hg Hac Hn Hpos Hd i Hi)
      as (l & Hli & HlT).
    exists e, l. split; [done|]. split; [done|]. split; [by apply Hmarge|].
    split; [done|]. split; [|done].
    by apply (cal_early_late t m early late T Hg Hac Hn Hd i).
  - rewrite (Hmarge 0 0%Z 0%Z); [done| |].
    + by apply (cal_early_alpha t m early late T Hg Hn Hd).
    + by apply (cal_late_alpha t m early late T Hg Hac Hn Hpos Hd).
  - rewrite (Hmarge (length t + 1) T T).
    + do 2 f_equal. lia.
    + apply (d_total _ _ _ _ _ Hd).
    + by apply (cal_late_omega t m early late T Hg Hn Hd).
Qed.

Lemma ex_cpm_bien_formee : bien_formee ex_cpm.
Proof.
  intros k. unfold ex_cpm, keys. simpl. rewrite !elem_of_cons, elem_of_nil. lia.
Qed.

Lemma C3_calendriers_temoin :
  exists o' m,
    bien_formee ex_cpm /\ 1 <= length ex_cpm /\
    construire_graphe (charger init ex_cpm) = Ret o' /\ matrix o' = Some m /\
    acyclique m /\
    (forall u v w, cell m u v = Some w -> (0 <= w)%Z) /\
    exists margins T,
      calculer_calendriers o' =
        Ret (Some [0; 0; 0; 3; 7; 8]%Z,
             Some [Fin 0; Fin 0; Fin 1; Fin 3; Fin 7; Fin 8], Some margins) /\
      T = 8%Z /\
      margins !! alpha o' = Some (Fin 0) /\ margins !! omega o' = Some (Fin 0).
Proof.
  eexists _, _. split; [apply ex_cpm_bien_formee|]. split; [simpl; lia|].
  split; [reflexivity|]. split; [reflexivity|].
  assert (Hac : acyclique
    [[None; Some 0; Some 0; None; None; None];
     [None; None; None; Some 3; None; None];
     [None; None; None; Some 2; None; None];
     [None; None; None; None; Some 4; None];
     [None; None; None; None; None; Some 1];
     [None; None; None; None; None; None]]%Z).
  { eapply acyclique_test; [|reflexivity|reflexivity].
    eapply (construire_graphe_carre (charger init ex_cpm)); reflexivity. }
  assert (Hpos : forall u v w,
    cell [[None; Some 0; Some 0; None; None; None];
          [None; None; None; Some 3; None; None];
          [None; None; None; Some 2; None; None];
          [None; None; None; None; Some 4; None];
          [None; None; None; None; None; Some 1];
          [None; None; None; None; None; None]]%Z u v = Some w -> (0 <= w)%Z).
  { intros u v w Hw.
    do 6 (destruct u as [|u]; [do 6 (destruct v as [|v];
      [vm_compute in Hw; first [discriminate|injection Hw as <-; lia]|]);
      vm_compute in Hw; discriminate|]).
    vm_compute in Hw. discriminate. }
  split; [exact Hac|]. split; [exact Hpos|].
  destruct (C3_calendriers ex_cpm _ _ ex_cpm_bien_formee ltac:(simpl; lia)
              eq_refl eq_refl Hac Hpos)
    as (early & late & margins & T & Hcal & HT & _ & Ha & Ho).
  pose proof Hcal as Hcal'. vm_compute in Hcal'. injection Hcal' as <- <- <-.
  eexists _, T. split; [exact Hcal|]. split; [|split; [exact Ha|exact Ho]].
  vm_compute in HT. by injection HT as <-.
Defined.

(** C3, the claim as it is written, fails on the empty table, which it
    names: latest[alpha] is infinite, above the duration 0, and so is the
    margin of alpha. *)
Lemma C3_table_vide :
  exists o' m,
    construire_graphe (charger init []) = Ret o' /\ matrix o' = Some m /\
    acyclique m /\ (forall u v w, cell m u v = Some w -> (0 <= w)%Z) /\
    calculer_calendriers o' =
      Ret (Some [0; 0]%Z, Some [Inf; Fin 0], Some [Inf; Fin 0]) /\
    alpha o' = 0 /\ omega o' = 1.
Proof.
  eexists _, _. split; [reflexivity|]. split; [reflexivity|].
  split; [|split; [|split; [reflexivity|split; reflexivity]]].
  - eapply acyclique_test; [|reflexivity|reflexivity].
    eapply (construire_graphe_carre (charger init [])); reflexivity.
  - intros u v w Hw.
    destruct u as [|[|u]]; destruct v as [|[|v]]; vm_compute in Hw; discriminate.
Qed.

(** C1 (the code departs from the claim).  On the cycle example of the
    specification the elimination leaves vertices 1 and 2, the depth-first
    trace finds the circuit 1, 2, 1 one call below the top, and
    [if dfs(neighbor): return True] hands [True] up instead of the list:
    [detecter_circuit] returns [True], no vertex sequence, whatever depth
    of recursion of 2 or more Python allows. *)
Theorem C1_circuit_perdu (k : nat) :
  exists o',
    construire_graphe (charger init ex_cycle) = Ret o' /\
    detecter_circuit (2 + k) o' = Ret PTrue /\
    dfs 4 (listes [[None; None; None; None]; [None; None; Some 1; None];
                   [None; Some 1; None; None]; [None; None; None; None]]%Z).1 2
      {| visited := [true; true; false; false];
         on_stack := [false; true; false; false]; path := [1] |}
    = Ret (PList [1; 2; 1],
           {| visited := [true; true; true; false];
              on_stack := [false; true; true; false]; path := [1; 2] |}).
Proof.
  eexists. split; [reflexivity|]. split; [vm_compute; reflexivity|reflexivity].
Qed.

(** C2 (amended).  For the example table of the specification the
    pipeline builds exactly the arcs 0->1(0), 0->2(0), 1->3(3), 2->3(2),
    3->4(4), 4->5(1), earliest = [0,0,0,3,7,8], latest = [0,0,1,3,7,8],
    total duration 8, and the single critical path 0,1,3,4,5, whatever
    recursion budget of 5 or more the search is given. *)
Theorem C2_exemple (k : nat) :
  exists o' m margins,
    pipeline (5 + k) (charger init ex_cpm) =
      Ret (o', {| r_rangs := Some [0; 1; 1; 2; 3; 4]%Z;
                  r_calendriers :=
                    (Some [0; 0; 0; 3; 7; 8]%Z,
                     Some [Fin 0; Fin 0; Fin 1; Fin 3; Fin 7; Fin 8],
                     Some margins);
                  r_chemins := Some [[0; 1; 3; 4; 5]] |}) /\
    n o' = 4 /\ alpha o' = 0 /\ omega o' = 5 /\ matrix o' = Some m /\
    arcs m = [(0, 1, 0%Z); (0, 2, 0%Z); (1, 3, 3%Z); (2, 3, 2%Z);
              (3, 4, 4%Z); (4, 5, 1%Z)] /\
    [0; 0; 0; 3; 7; 8]%Z !! omega o' = Some 8%Z.
Proof.
  eexists _, _, _. split; [vm_compute; reflexivity|].
  repeat split; reflexivity.
Qed.

(** C2, the claim as it is written, fails: latest is not [0,1,2,3,7,8]. *)
Lemma C2_latest_contre_exemple :
  exists o' early late margins,
    construire_graphe (charger init ex_cpm) = Ret o' /\
    calculer_calendriers o' = Ret (Some early, Some late, Some margins) /\
    late <> [Fin 0; Fin 1; Fin 2; Fin 3; Fin 7; Fin 8].
Proof.
  eexists _, _, _, _. split; [reflexivity|].
  split; [vm_compute; reflexivity|]. discriminate.
Qed.

(** ** Calls without a validated graph *)

Lemma calculer_rangs_retourne o m :
  matrix o = Some m -> 0 < length m ->
  exists ranks, calculer_rangs o = Ret (Some ranks) /\ length ranks = length m.
Proof.
  intros Hm Hl. destruct (rangs_elimine m) as (st & done & Hk & He).
  exists (acc st). split; [|apply (el_length _ _ _ _ _ _ _ He)].
  unfold calculer_rangs. rewrite (sans_matrice_false o m Hm Hl), Hm. by rewrite Hk.
Qed.

Lemma calendrier_pur_retourne o m :
  matrix o = Some m -> omega o < length m ->
  exists early late margins,
    calendrier_pur o = Ret (Some early, Some late, Some margins) /\
    length early = length m /\ length late = length m /\
    length margins = length m.
Proof.
  intros Hm Hom.
  destruct (tot_elimine m) as (st & done & Hk & He).
  pose proof (el_length _ _ _ _ _ _ _ He) as Hlen.
  destruct (lookup_lt_is_Some_2 (acc st) (omega o)) as [T HT]; [by rewrite Hlen|].
  set (late0 := <[omega o := Fin T]> (replicate (length m) Inf)).
  assert (Hlen0 : length late0 = length m).
  { unfold late0. by rewrite length_insert, length_replicate. }
  destruct (tard_elimine m late0 Hlen0) as (st' & done' & Hk' & He').
  pose proof (el_length _ _ _ _ _ _ _ He') as Hlen'.
  exists (acc st), (acc st'), (zip_with ext_moins (acc st') (acc st)).
  split; [|split; [done|split; [done|]]].
  - unfold calendrier_pur.
    rewrite (sans_matrice_false o m Hm) by lia. rewrite Hm.
    rewrite Hk. simpl. rewrite HT. fold late0. by rewrite Hk'.
  - rewrite length_zip_with. lia.
Qed.

(** On a matrix [calculer_calendriers] returns one value per vertex in
    each array, unless a subtraction raises [OverflowError]. *)
Lemma calculer_calendriers_retourne o m :
  matrix o = Some m -> omega o < length m ->
  (exists early late margins,
     calculer_calendriers o = Ret (Some early, Some late, Some margins) /\
     length early = length m /\ length late = length m /\
     length margins = length m) \/
  calculer_calendriers o = Raise OverflowError.
Proof.
  intros Hm Hom. destruct (calculer_calendriers_cas o) as [-> | ->]; [|by right].
  left. by apply calendrier_pur_retourne.
Qed.

Lemma calculer_calendriers_petit_retourne o m :
  matrix o = Some m -> omega o < length m -> petit m ->
  exists early late margins,
    calculer_calendriers o = Ret (Some early, Some late, Some margins) /\
    length early = length m /\ length late = length m /\
    length margins = length m.
Proof.
  intros Hm Hom Hp. rewrite (calculer_calendriers_petit o m Hm Hom Hp).
  by apply calendrier_pur_retourne.
Qed.

(** A table with a circuit and a duration no float holds: line 316
    subtracts [10**400] from [float('inf')]. *)
Definition ex_grand : table :=
  [(1, (10 ^ 400, [])); (2, (1, [1; 3])); (3, (1, [2]))]%Z.

Lemma calculer_calendriers_deborde :
  exists o',
    construire_graphe (charger init ex_grand) = Ret o' /\
    calculer_calendriers o' = Raise OverflowError.
Proof. eexists. split; [reflexivity|]. vm_compute. reflexivity. Qed.

Lemma ex_cycle_petit :
  petit [[None; None; None; None]; [None; None; Some 1; None];
         [None; Some 1; None; None]; [None; None; None; None]]%Z.
Proof.
  exists 1%Z. split; [lia|]. split; [|vm_compute; reflexivity].
  intros u v w Hw.
  do 4 (destruct u as [|u]; [do 4 (destruct v as [|v];
    [vm_compute in Hw; first [discriminate|injection Hw as <-; lia]|]);
    vm_compute in Hw; discriminate|]).
  vm_compute in Hw. discriminate.
Qed.

(** C8 (amended).  [calculer_rangs] and [calculer_calendriers] make no
    check of their own: on every built graph, validated or not, with or
    without a circuit, [calculer_rangs] returns one rank per vertex, and
    [calculer_calendriers] returns one value per vertex in each of its
    arrays, unless a subtraction from [float('inf')] raises
    [OverflowError]; it does return when the weights are small enough
    for the dates to convert to floats. *)
Theorem C8_sans_garde t o' m :
  construire_graphe (charger init t) = Ret o' -> matrix o' = Some m ->
  (exists ranks, calculer_rangs o' = Ret (Some ranks) /\
                 length ranks = length t + 2) /\
  ((exists early late margins,
      calculer_calendriers o' = Ret (Some early, Some late, Some margins) /\
      length early = length t + 2 /\ length late = length t + 2 /\
      length margins = length t + 2) \/
   calculer_calendriers o' = Raise OverflowError) /\
  (petit m ->
   exists early late margins,
     calculer_calendriers o' = Ret (Some early, Some late, Some margins) /\
     length early = length t + 2 /\ length late = length t + 2 /\
     length margins = length t + 2).
Proof.
  intros H Hm. pose proof (charger_init_forme t o' m H Hm) as Hf.
  destruct (charger_init_champs t o' H) as (_ & _ & _ & Ho).
  assert (Hl : length m = length t + 2) by apply Hf.
  rewrite <- Hl. split; [|split].
  - apply (calculer_rangs_retourne o' m Hm). lia.
  - apply (calculer_calendriers_retourne o' m Hm). lia.
  - apply (calculer_calendriers_petit_retourne o' m Hm). lia.
Qed.

Lemma C8_sans_garde_temoin :
  exists o' m,
    construire_graphe (charger init ex_cycle) = Ret o' /\
    matrix o' = Some m /\ petit m /\
    verifier_proprietes 2 o' = Ret false /\
    calculer_rangs o' = Ret (Some [0; 0; 0; 0]%Z) /\
    exists margins,
      calculer_calendriers o' =
        Ret (Some [0; 0; 0; 0]%Z, Some [Inf; Inf; Inf; Fin 0], Some margins).
Proof.
  eexists _, _. split; [reflexivity|]. split; [reflexivity|].
  split; [exact ex_cycle_petit|]. split; [vm_compute; reflexivity|].
  destruct (C8_sans_garde ex_cycle _ _ eq_refl eq_refl)
    as ((ranks & Hr & _) & _ & Hp).
  destruct (Hp ex_cycle_petit) as (early & late & margins & Hc & _).
  pose proof Hr as Hr'. vm_compute in Hr'. injection Hr' as <-.
  pose proof Hc as Hc'. vm_compute in Hc'. injection Hc' as <- <- <-.
  split; [exact Hr|]. eexists. exact Hc.
Defined.

(** C8, the claim as it is written, fails: on the cycle example, which
    [verifier_proprietes] rejects, both calls return arrays. *)
Lemma C8_circuit_sans_echec :
  exists o',
    construire_graphe (charger init ex_cycle) = Ret o' /\
    (forall k, verifier_proprietes (2 + k) o' = Ret false) /\
    calculer_rangs o' = Ret (Some [0; 0; 0; 0]%Z) /\
    calculer_calendriers o' =
      Ret (Some [0; 0; 0; 0]%Z, Some [Inf; Inf; Inf; Fin 0],
           Some [Inf; Inf; Inf; Fin 0]).
Proof.
  eexists. split; [reflexivity|]. split; [intros k; vm_compute; reflexivity|].
  split; vm_compute; reflexivity.
Qed.

(** ** Two runs *)

Lemma construire_graphe_champs_seuls o o' :
  tasks o = tasks o' -> n o = n o' -> alpha o = alpha o' -> omega o = omega o' ->
  construire_graphe o = construire_graphe o'.
Proof. intros Ht Hn Ha Ho. unfold construire_graphe. by rewrite Ht, Hn, Ha, Ho. Qed.

Lemma construire_graphe_idempotent o o1 :
  construire_graphe o = Ret o1 -> construire_graphe o1 = Ret o1.
Proof.
  intros H. destruct (construire_graphe_champs o o1 H) as (Ht & Hn & Ha & Ho).
  rewrite (construire_graphe_champs_seuls o1 o) by done. done.
Qed.

Lemma pipeline_Ret fuel o o1 r :
  pipeline fuel o = Ret (o1, r) -> construire_graphe o = Ret o1.
Proof.
  unfold pipeline. intros H.
  apply obind_Ret in H as (o' & Hc & H).
  apply obind_Ret in H as (rangs & _ & H).
  apply obind_Ret in H as (cal & _ & H).
  apply obind_Ret in H as (chemins & _ & H).
  by injection H as <- _.
Qed.

(** C9.  The pipeline (graph construction, ranks, calendars, critical
    paths) run a second time on the object it left, or after loading the
    same table again, gives the same ranks, the same earliest, latest and
    margin arrays and the same critical paths; and what a run returns or
    raises does not depend on the matrix an earlier load left. *)
Theorem C9_determinisme fuel o0 t o1 r :
  pipeline fuel (charger o0 t) = Ret (o1, r) ->
  pipeline fuel o1 = Ret (o1, r) /\
  pipeline fuel (charger o1 t) = Ret (o1, r) /\
  forall o0', alpha o0' = alpha o0 ->
    pipeline fuel (charger o0' t) = pipeline fuel (charger o0 t).
Proof.
  intros H. pose proof (pipeline_Ret _ _ _ _ H) as Hc.
  pose proof (construire_graphe_champs _ _ Hc) as (Ht & Hn & Ha & Ho).
  simpl in Ht, Hn, Ha, Ho.
  assert (Hext : forall o, tasks o = t -> n o = length t -> alpha o = alpha o0 ->
    omega o = length t + 1 -> pipeline fuel o = pipeline fuel (charger o0 t)).
  { intros o Hot Hon Hoa Hoo. unfold pipeline.
    by rewrite (construire_graphe_champs_seuls o (charger o0 t)). }
  split; [|split].
  - rewrite (Hext o1); done.
  - rewrite (Hext (charger o1 t)); done.
  - intros o0' Ha'. by apply Hext.
Qed.

Lemma C9_determinisme_temoin :
  exists o1 r,
    pipeline 5 (charger init ex_cpm) = Ret (o1, r) /\
    pipeline 5 o1 = Ret (o1, r) /\
    pipeline 5 (charger o1 ex_cpm) = Ret (o1, r).
Proof.
  eexists _, _. split; [vm_compute; reflexivity|].
  match goal with
  | |- _ = ?y /\ _ =>
      assert (H : pipeline 5 (charger init ex_cpm) = y) by (vm_compute; reflexivity)
  end.
  destruct (C9_determinisme 5 init ex_cpm _ _ H) as (H1 & H2 & _).
  split; [exact H1|exact H2].
Defined.

(** ** A predecessor that is no task *)

(** The error kind [MalformedInput] of the specification, as the source
    raises it: the [KeyError] of [self.tasks[pred]], which carries an
    identifier that some task lists as a predecessor and that is no key
    of the table. *)
Definition MalformedInput (t : table) (e : exn) : Prop :=
  exists p task d preds,
    e = KeyError p /\ tasks_get t task = Some (d, preds) /\ p ∈ preds /\
    tasks_get t p = None.

(** Every identifier of the table is a valid Python index of the matrix. *)
Definition indexable (t : table) : Prop :=
  forall k, k ∈ keys t ->
    (- Z.of_nat (length t + 2) <= k < Z.of_nat (length t + 2))%Z.

Lemma bien_formee_indexable t : bien_formee t -> indexable t.
Proof. intros Hbf k Hk. apply Hbf in Hk. lia. Qed.

Lemma py_index_is_Some len i :
  (- Z.of_nat len <= i < Z.of_nat len)%Z -> is_Some (py_index len i).
Proof.
  intros Hi. unfold py_index.
  destruct ((0 <=? i)%Z && (i <? Z.of_nat len)%Z) eqn:H1; [by eexists|].
  assert ((- Z.of_nat len <=? i)%Z && (i <? 0)%Z = true) as ->; [|by eexists].
  apply andb_false_iff in H1. apply andb_true_iff. split; [lia|].
  destruct H1 as [H1|H1]; lia.
Qed.

Lemma set_cell_reussit size m i j v :
  forme size m ->
  (- Z.of_nat size <= i < Z.of_nat size)%Z ->
  (- Z.of_nat size <= j < Z.of_nat size)%Z ->
  exists m', set_cell m i j v = Ret m' /\ forme size m'.
Proof.
  intros Hf Hi Hj. pose proof Hf as [Hl Hr]. unfold set_cell. rewrite Hl.
  destruct (py_index_is_Some size i Hi) as [a Ha]. rewrite Ha.
  destruct (lookup_lt_is_Some_2 m a) as [row Hrow].
  { rewrite Hl. by apply py_index_lt in Ha. }
  rewrite Hrow. rewrite (Hr row) by (by apply list_elem_of_lookup_2 in Hrow).
  destruct (py_index_is_Some size j Hj) as [b Hb]. rewrite Hb.
  eexists. split; [done|]. by apply forme_insert.
Qed.

Lemma boucle_preds_pas_fuel t task preds m :
  boucle_preds t task preds m <> OutOfFuel.
Proof.
  revert m. induction preds as [|p preds IH]; intros m; simpl; [done|].
  destruct (tasks_get t p) as [[d ps]|]; [|done].
  pose proof (set_cell_pas_fuel m p task d).
  destruct (set_cell m p task d); simpl; [apply IH|done|done].
Qed.

Lemma boucle_alpha_pas_fuel t a ks m : boucle_alpha t a ks m <> OutOfFuel.
Proof.
  revert m. induction ks as [|k ks IH]; intros m; simpl; [done|].
  destruct (tasks_get t k) as [[d [|p ps]]|]; [|apply IH|done].
  pose proof (set_cell_pas_fuel m (Z.of_nat a) k 0).
  destruct (set_cell m (Z.of_nat a) k 0); simpl; [apply IH|done|done].
Qed.

(** The second loop raises as soon as it meets the missing predecessor,
    unless it has raised before. *)
Lemma boucle_preds_absent t task preds m p :
  p ∈ preds -> tasks_get t p = None ->
  exists e, boucle_preds t task preds m = Raise e.
Proof.
  revert m. induction preds as [|q preds IH]; intros m Hin Hp;
    [by apply elem_of_nil in Hin|].
  simpl. destruct (tasks_get t q) as [[d ps]|] eqn:Hq; [|by eexists].
  apply elem_of_cons in Hin as [->|Hin]; [congruence|].
  pose proof (set_cell_pas_fuel m q task d).
  destruct (set_cell m q task d) as [m1|e|]; simpl; [by apply IH|by eexists|done].
Qed.

Lemma boucle_arcs_absent t ks m task d preds p :
  task ∈ ks -> tasks_get t task = Some (d, preds) -> p ∈ preds ->
  tasks_get t p = None ->
  exists e, boucle_arcs t ks m = Raise e.
Proof.
  revert m. induction ks as [|k ks IH]; intros m Hin Ht Hp Hnone;
    [by apply elem_of_nil in Hin|].
  simpl. destruct (decide (k = task)) as [->|Hne].
  - rewrite Ht. destruct (boucle_preds_absent t task preds m p Hp Hnone) as [e ->].
    by exists e.
  - apply elem_of_cons in Hin as [?|Hin]; [congruence|].
    destruct (tasks_get t k) as [[dk pk]|]; [|by eexists].
    pose proof (boucle_preds_pas_fuel t k pk m).
    destruct (boucle_preds t k pk m) as [m1|e|]; simpl;
      [by apply IH|by eexists|done].
Qed.

Lemma boucle_alpha_reussit t ks m :
  indexable t -> forme (length t + 2) m -> (forall k, k ∈ ks -> k ∈ keys t) ->
  exists m', boucle_alpha t 0 ks m = Ret m' /\ forme (length t + 2) m'.
Proof.
  intros Hix. revert m. induction ks as [|k ks IH]; intros m Hf Hks; simpl.
  - by exists m.
  - assert (Hk : k ∈ keys t) by (apply Hks; by left).
    assert (Hks' : forall k', k' ∈ ks -> k' ∈ keys t).
    { intros k' Hk'. apply Hks. by right. }
    destruct (keys_tasks_get t k Hk) as [[d [|p ps]] ->]; [|by apply IH].
    change (Z.of_nat 0) with 0%Z.
    destruct (set_cell_reussit _ m 0%Z k 0%Z Hf) as (m1 & -> & Hf1);
      [lia|by apply Hix|].
    simpl. by apply IH.
Qed.

Lemma boucle_preds_issue t task preds m :
  indexable t -> forme (length t + 2) m -> task ∈ keys t ->
  (exists m', boucle_preds t task preds m = Ret m' /\ forme (length t + 2) m') \/
  (exists p, boucle_preds t task preds m = Raise (KeyError p) /\
             p ∈ preds /\ tasks_get t p = None).
Proof.
  intros Hix. revert m. induction preds as [|q preds IH]; intros m Hf Ht; simpl.
  - left. by exists m.
  - destruct (tasks_get t q) as [[d ps]|] eqn:Hq.
    + destruct (set_cell_reussit _ m q task d Hf) as (m1 & -> & Hf1);
        [apply Hix; by apply tasks_get_keys in Hq|by apply Hix|].
      simpl. destruct (IH m1 Hf1 Ht) as [?|(p & Hr & Hp & Hnone)]; [by left|].
      right. exists p. split; [done|]. split; [by right|done].
    + right. exists q. split; [done|]. split; [by left|done].
Qed.

Lemma boucle_arcs_issue t ks m :
  indexable t -> forme (length t + 2) m -> (forall k, k ∈ ks -> k ∈ keys t) ->
  (exists m', boucle_arcs t ks m = Ret m') \/
  (exists e, boucle_arcs t ks m = Raise e /\ MalformedInput t e).
Proof.
  intros Hix. revert m. induction ks as [|k ks IH]; intros m Hf Hks; simpl.
  - left. by exists m.
  - assert (Hk : k ∈ keys t) by (apply Hks; by left).
    assert (Hks' : forall k', k' ∈ ks -> k' ∈ keys t).
    { intros k' Hk'. apply Hks. by right. }
    destruct (keys_tasks_get t k Hk) as [[d preds] Hkt]. rewrite Hkt.
    destruct (boucle_preds_issue t k preds m Hix Hf Hk)
      as [(m1 & -> & Hf1)|(p & -> & Hp & Hnone)]; simpl.
    + by apply IH.
    + right. exists (KeyError p). split; [done|]. by exists p, k, d, preds.
Qed.

(** C4.  When some task lists a predecessor that is no key of the table,
    [construire_graphe] never returns a graph: it raises.  When the
    identifiers of the table index the matrix (in particular when they are
    1..n) the exception is the [KeyError] of a listed identifier that is
    no key: the reference is reported, not dropped. *)
Theorem C4_predecesseur_absent t task d preds p :
  tasks_get t task = Some (d, preds) -> p ∈ preds -> tasks_get t p = None ->
  (exists e, construire_graphe (charger init t) = Raise e) /\
  (indexable t ->
   exists e, construire_graphe (charger init t) = Raise e /\ MalformedInput t e).
Proof.
  intros Ht Hp Hnone.
  assert (Hk : task ∈ keys t) by (by apply tasks_get_keys in Ht).
  unfold construire_graphe. simpl. split.
  - pose proof (boucle_alpha_pas_fuel t 0 (keys t)
      (replicate (length t + 2) (replicate (length t + 2) None))).
    destruct (boucle_alpha _ _ _ _) as [m1|e|]; simpl; [|by eexists|done].
    destruct (boucle_arcs_absent t (keys t) m1 task d preds p Hk Ht Hp Hnone)
      as [e ->].
    by exists e.
  - intros Hix.
    destruct (boucle_alpha_reussit t (keys t)
      (replicate (length t + 2) (replicate (length t + 2) None)) Hix)
      as (m1 & -> & Hf1); [apply forme_replicate|done|].
    simpl.
    destruct (boucle_arcs_absent t (keys t) m1 task d preds p Hk Ht Hp Hnone)
      as [e He].
    destruct (boucle_arcs_issue t (keys t) m1 Hix Hf1) as [[m2 Hm2]|(e' & He' & HM)];
      [done|congruence|].
    rewrite He'. by exists e'.
Qed.

Lemma C4_predecesseur_absent_temoin :
  tasks_get ex_absent 1%Z = Some (1%Z, [9%Z]) /\ 9%Z ∈ [9%Z] /\
  tasks_get ex_absent 9%Z = None /\ indexable ex_absent /\
  construire_graphe (charger init ex_absent) = Raise (KeyError 9) /\
  MalformedInput ex_absent (KeyError 9).
Proof.
  assert (Hix : indexable ex_absent).
  { intros k Hk. apply list_elem_of_singleton in Hk as ->. simpl. lia. }
  assert (Hin : 9%Z ∈ [9%Z]) by (by left).
  split; [reflexivity|]. split; [exact Hin|]. split; [reflexivity|].
  split; [exact Hix|].
  destruct (C4_predecesseur_absent ex_absent 1%Z 1%Z [9%Z] 9%Z eq_refl Hin eq_refl)
    as (_ & Hb).
  destruct (Hb Hix) as (e & He & HM).
  vm_compute in He. injection He as <-. split; [reflexivity|exact HM].
Defined.

(** ** Arcs towards omega *)

Lemma py_index_nat_inv len (i : nat) a :
  py_index len (Z.of_nat i) = Some a -> a = i.
Proof.
  intros Ha. pose proof (py_index_lt _ _ _ Ha) as Hlt.
  unfold py_index in Ha.
  destruct ((0 <=? Z.of_nat i)%Z && (Z.of_nat i <? Z.of_nat len)%Z) eqn:H1.
  - injection Ha as <-. by rewrite Nat2Z.id.
  - destruct ((- Z.of_nat len <=? Z.of_nat i)%Z && (Z.of_nat i <? 0)%Z) eqn:H2;
      [|done].
    apply andb_true_iff in H2 as [_ H2]. lia.
Qed.

(** After the third loop every vertex that is a task, omega apart, has a
    successor. *)
Lemma construire_graphe_successeur t o' m i :
  construire_graphe (charger init t) = Ret o' -> matrix o' = Some m ->
  1 <= i <= length t -> tasks_mem t (Z.of_nat i) = true ->
  exists v, v < length t + 2 /\ arc m i v.
Proof.
  intros H Hm Hi Hmem.
  apply construire_graphe_Ret in H as (m1 & m2 & m3 & H1 & H2 & H3 & ->).
  simpl in *. injection Hm as <-.
  pose proof (forme_replicate (length t + 2)) as Hf0.
  pose proof (boucle_alpha_forme _ _ _ _ _ _ Hf0 H1) as Hf1.
  pose proof (boucle_arcs_forme _ _ _ _ _ Hf1 H2) as Hf2.
  destruct (boucle_omega_progres _ _ _ _ _ _ i Hf2 H3) as (v & Hv & _ & Hiv);
    [apply elem_of_seq; lia|lia|lia|done|].
  exists v. split; [done|]. by apply arc_is_Some.
Qed.

(** A row without successor gets its arc to omega, weighted by the
    duration of the task, and keeps it. *)
Lemma boucle_omega_puits size t om rows m m' i d ps :
  forme size m -> NoDup rows ->
  boucle_omega t om size rows m = Ret m' ->
  i ∈ rows -> i < size -> i <> om ->
  tasks_get t (Z.of_nat i) = Some (d, ps) ->
  has_successor m size i = false ->
  cell m' i om = Some d.
Proof.
  revert m. induction rows as [|k rows IH]; intros m Hf Hnd H Hin Hi Hio Ht Hhs;
    [by apply elem_of_nil in Hin|].
  apply NoDup_cons in Hnd as [Hk Hnd]. simpl in H.
  destruct (decide (k = i)) as [->|Hne].
  - assert (Hmem : tasks_mem t (Z.of_nat i) = true).
    { unfold tasks_mem. by rewrite Ht. }
    apply Nat.eqb_neq in Hio. rewrite Hio, Hhs, Hmem, Ht in H. simpl in H.
    apply obind_Ret in H as (m1 & Hset & H).
    destruct (set_cell_ecrit size m _ _ _ m1 Hf Hset) as (x & y & Hx & Hy & [Hf1 _] & Hc).
    apply py_index_nat_inv in Hx, Hy. subst x y.
    eapply (boucle_omega_inv (fun m => forme size m /\ cell m i om = Some d));
      [|split; [exact Hf1|exact Hc]|exact H].
    intros m2 m3 i' d' ps' [Hf2 Hc2] Hi' _ _ _ Hset'.
    destruct (set_cell_spec size m2 _ _ _ m3 Hf2 Hset') as (a & b & Ha & _ & Hf3 & Hc3).
    apply py_index_nat_inv in Ha. subst a.
    split; [done|]. rewrite Hc3. rewrite decide_False; [done|].
    intros [-> _]. done.
  - apply elem_of_cons in Hin as [?|Hin]; [congruence|].
    destruct (negb (k =? om) && negb (has_successor m size k) &&
              tasks_mem t (Z.of_nat k)) eqn:Hc; [|by apply (IH m)].
    destruct (tasks_get t (Z.of_nat k)) as [[dk pk]|] eqn:Hkt; [|done].
    apply obind_Ret in H as (m1 & Hset & H).
    destruct (set_cell_spec size m _ _ _ m1 Hf Hset) as (a & b & Ha & _ & Hf1 & Hc1).
    apply py_index_nat_inv in Ha. subst a.
    apply (IH m1); try done.
    apply has_successor_false. intros j Hj. rewrite Hc1.
    rewrite decide_False by (intros [-> _]; done).
    by apply (proj1 (has_successor_false m size i) Hhs).
Qed.

(** Before the third loop no arc enters omega. *)
Lemma construire_graphe_avant_omega t m1 m2 :
  bien_formee t ->
  boucle_alpha t 0 (keys t)
    (replicate (length t + 2) (replicate (length t + 2) None)) = Ret m1 ->
  boucle_arcs t (keys t) m1 = Ret m2 ->
  forme (length t + 2) m2 /\ forall u, cell m2 u (length t + 1) = None.
Proof.
  intros Hbf H1 H2.
  eapply (boucle_arcs_inv (fun m => forme (length t + 2) m /\
            forall u, cell m u (length t + 1) = None)); [| |exact H2].
  - intros m3 m4 task d preds pred dp ps [Hf Hn] Hk _ _ _ Hset.
    destruct (set_cell_spec _ _ _ _ _ _ Hf Hset) as (a & b & _ & Hb & Hf' & Hc).
    split; [done|]. intros u. rewrite Hc.
    destruct (py_index_cle t task b Hbf Hk Hb) as [_ Hb'].
    rewrite decide_False by lia. apply Hn.
  - eapply (boucle_alpha_inv (fun m => forme (length t + 2) m /\
              forall u, cell m u (length t + 1) = None)); [| |exact H1].
    + intros m3 m4 task d [Hf Hn] Hk _ Hset.
      destruct (set_cell_spec _ _ _ _ _ _ Hf Hset) as (a & b & _ & Hb & Hf' & Hc).
      split; [done|]. intros u. rewrite Hc.
      destruct (py_index_cle t task b Hbf Hk Hb) as [_ Hb'].
      rewrite decide_False by lia. apply Hn.
    + split; [apply forme_replicate|]. intros u. apply cell_replicate.
Qed.

(** C10.  After [construire_graphe] every vertex of 1..n that is a task
    has an outgoing arc; for a table whose identifiers are 1..n, a task
    with no arc to another task has the arc to omega weighted by its own
    duration, alpha never has an arc to omega, and when every task has a
    non-empty predecessor list alpha has no outgoing arc at all and no
    walk leads from alpha to omega. *)
Theorem C10_arcs_vers_omega t o' m :
  construire_graphe (charger init t) = Ret o' -> matrix o' = Some m ->
  (forall i, 1 <= i <= n o' -> tasks_mem t (Z.of_nat i) = true ->
     exists v, v < n o' + 2 /\ arc m i v) /\
  (bien_formee t ->
     (forall i d ps, 1 <= i <= n o' ->
        tasks_get t (Z.of_nat i) = Some (d, ps) ->
        (forall j, 1 <= j <= n o' -> cell m i j = None) ->
        cell m i (omega o') = Some d) /\
     cell m (alpha o') (omega o') = None /\
     ((forall k d ps, tasks_get t k = Some (d, ps) -> ps <> []) ->
        (forall v, cell m (alpha o') v = None) /\
        forall p, ~ chemin_de (arc m) (alpha o') (omega o') p)).
Proof.
  intros H Hm.
  destruct (charger_init_champs t o' H) as (_ & -> & -> & ->).
  split; [intros i; by apply (construire_graphe_successeur t o')|].
  intros Hbf.
  pose proof (construire_graphe_taches t o' m Hbf H Hm) as Hg.
  split; [|split].
  - intros i d ps Hi Ht Hvide.
    apply construire_graphe_Ret in H as (m1 & m2 & m3 & H1 & H2 & H3 & ->).
    simpl in *. injection Hm as <-.
    destruct (construire_graphe_avant_omega t m1 m2 Hbf H1 H2) as [Hf2 Hom].
    apply (boucle_omega_puits (length t + 2) t (length t + 1)
             (seq 0 (length t + 2)) m2 m3 i d ps); try done.
    + apply NoDup_seq.
    + apply elem_of_seq. lia.
    + lia.
    + lia.
    + apply has_successor_false. intros j Hj.
      destruct (cell m2 i j) as [w|] eqn:Hw; [|done].
      assert (Hg3 : garde (length t + 2) i j m3).
      { eapply (boucle_omega_inv (garde (length t + 2) i j)); [| |exact H3].
        - intros ? ? ? ? ? Hg' _ _ _ _. by apply garde_set_cell.
        - split; [done|]. by rewrite Hw. }
      destruct Hg3 as [_ Hs3].
      apply arc_is_Some in Hs3.
      destruct (gt_region t m3 i j Hg Hs3) as [_ Hj'].
      destruct (decide (j = length t + 1)) as [->|Hne]; [by rewrite Hom in Hw|].
      apply arc_is_Some in Hs3. rewrite Hvide in Hs3 by lia. by destruct Hs3.
  - destruct (cell m 0 (length t + 1)) as [w|] eqn:Hw; [|done].
    assert (Ha : arc m 0 (length t + 1)) by (apply arc_is_Some; by rewrite Hw).
    destruct (gt_origine t m Hg _ _ Ha) as [[_ [d Hd]]|[? _]]; [|lia].
    apply tasks_get_keys, Hbf in Hd. lia.
  - intros Hpreds.
    assert (Hrow : forall v, cell m 0 v = None).
    { intros v. destruct (cell m 0 v) as [w|] eqn:Hw; [|done].
      assert (Ha : arc m 0 v) by (apply arc_is_Some; by rewrite Hw).
      destruct (gt_origine t m Hg _ _ Ha) as [[_ [d Hd]]|[? _]]; [|lia].
      by apply Hpreds in Hd. }
    split; [done|]. intros p (Hp & Hh & Hlast).
    destruct p as [|x [|y p]]; [done| |].
    + simpl in *. injection Hh as ->. injection Hlast as Hl. lia.
    + simpl in Hh. injection Hh as ->. destruct Hp as [H0y _].
      apply arc_is_Some in H0y. rewrite Hrow in H0y. by destruct H0y.
Qed.

Lemma ex_cycle_bien_formee : bien_formee ex_cycle.
Proof.
  intros k. unfold ex_cycle, keys. simpl. rewrite !elem_of_cons, elem_of_nil. lia.
Qed.

Lemma C10_arcs_vers_omega_temoin :
  exists o' m,
    construire_graphe (charger init ex_cycle) = Ret o' /\ matrix o' = Some m /\
    bien_formee ex_cycle /\
    (forall k d ps, tasks_get ex_cycle k = Some (d, ps) -> ps <> []) /\
    (forall v, cell m (alpha o') v = None) /\
    (forall p, ~ chemin_de (arc m) (alpha o') (omega o') p) /\
    arc m 1 2 /\ arc m 2 1.
Proof.
  eexists _, _. split; [reflexivity|]. split; [reflexivity|].
  split; [apply ex_cycle_bien_formee|].
  assert (Hps : forall k d ps, tasks_get ex_cycle k = Some (d, ps) -> ps <> []).
  { intros k d ps Hk. unfold ex_cycle, tasks_get in Hk.
    destruct (1 =? k)%Z; [by injection Hk as <- <-|].
    destruct (2 =? k)%Z; [by injection Hk as <- <-|done]. }
  split; [exact Hps|].
  destruct (C10_arcs_vers_omega ex_cycle _ _ eq_refl eq_refl) as (_ & Hb).
  destruct (Hb ex_cycle_bien_formee) as (_ & _ & Hc).
  destruct (Hc Hps) as (Hrow & Hno).
  split; [exact Hrow|]. split; [exact Hno|]. split; reflexivity.
Defined.

(** ** The depth-first trace finds a circuit when there is one *)

Lemma lu_insert_eq (l : list bool) i b : i < length l -> lu (<[i := b]> l) i = b.
Proof. intros Hi. unfold lu. by rewrite list_lookup_insert_eq. Qed.

Lemma lu_insert_ne (l : list bool) i j b : i <> j -> lu (<[i := b]> l) j = lu l j.
Proof. intros Hij. unfold lu. by rewrite list_lookup_insert_ne. Qed.

Lemma lu_replicate k i : lu (replicate k false) i = false.
Proof.
  unfold lu. destruct (replicate k false !! i) as [b|] eqn:Hb; [|done].
  by apply lookup_replicate in Hb as [-> _].
Qed.

Lemma lu_false_lookup (l : list bool) i :
  i < length l -> lu l i = false -> l !! i = Some false.
Proof.
  intros Hi. unfold lu. destruct (lookup_lt_is_Some_2 l i Hi) as [b ->].
  by intros ->.
Qed.

Lemma filter_length_le {X} (P Q : X -> Prop) `{!forall x, Decision (P x)}
    `{!forall x, Decision (Q x)} (l : list X) :
  (forall x, x ∈ l -> Q x -> P x) -> length (filter Q l) <= length (filter P l).
Proof.
  induction l as [|a l IH]; intros Hl; [done|].
  rewrite !filter_cons.
  assert (IH' : length (filter Q l) <= length (filter P l)).
  { apply IH. intros x Hx. apply Hl. by right. }
  pose proof (Hl a (list_elem_of_here a l)).
  repeat case_decide; simpl; try lia. tauto.
Qed.

Section Trace.
Variable size : nat.
Variable adj : list (list nat).
Hypothesis adj_range : forall u v, v ∈ succs adj u -> u < size /\ v < size.

(** A vertex whose visit is over. *)
Definition noir (st : dfs_state) (v : nat) : Prop :=
  lu (visited st) v = true /\ lu (on_stack st) v = false.

(** Number of vertices not visited yet. *)
Definition nonvus (vis : list bool) : nat :=
  length (filter (fun i => lu vis i = false) (seq 0 size)).

(** As long as no circuit was met: the successors of a finished vertex
    are finished, and no circuit passes through a finished vertex. *)
Record dinv (st : dfs_state) : Prop := mkDinv {
  di_vis_length : length (visited st) = size;
  di_stk_length : length (on_stack st) = size;
  di_pile : forall v, lu (on_stack st) v = true -> lu (visited st) v = true;
  di_clos : forall u v, noir st u -> v ∈ succs adj u -> noir st v;
  di_sain : forall u q,
    noir st u -> ~ chemin (fun u v => v ∈ succs adj u) (u :: q ++ [u])
}.

(** What a call [dfs(nd)] from the state [st] gives: a true value, or
    [False] with [nd] finished and the stack as it was. *)
Definition dfs_post (nd : nat) (st : dfs_state) (r : py_val)
    (st' : dfs_state) : Prop :=
  truthy r = true \/
  (r = PFalse /\ dinv st' /\ on_stack st' = on_stack st /\
   (forall v, lu (visited st) v = true -> lu (visited st') v = true) /\
   lu (visited st') nd = true).

Lemma nonvus_le vis : nonvus vis <= size.
Proof.
  unfold nonvus. transitivity (length (seq 0 size)); [apply length_filter|].
  by rewrite length_seq.
Qed.

Lemma nonvus_mono vis vis' :
  (forall v, lu vis v = true -> lu vis' v = true) -> nonvus vis' <= nonvus vis.
Proof.
  intros H. apply filter_length_le. intros x _ Hx.
  destruct (lu vis x) eqn:Hv; [|done]. apply H in Hv. congruence.
Qed.

Lemma nonvus_insert vis node :
  node < size -> length vis = size -> lu vis node = false ->
  nonvus vis = S (nonvus (<[node := true]> vis)).
Proof.
  intros Hn Hl Hv. unfold nonvus. apply (filter_retire _ _ _ node).
  - apply NoDup_seq.
  - apply elem_of_seq. lia.
  - done.
  - intros x. destruct (decide (x = node)) as [->|Hne].
    + rewrite lu_insert_eq by lia. split; [done|tauto].
    + rewrite lu_insert_ne by done. tauto.
Qed.

Lemma clos_chemin (B : nat -> Prop) w q :
  (forall u v, B u -> v ∈ succs adj u -> B v) ->
  chemin (fun u v => v ∈ succs adj u) (w :: q) -> B w ->
  forall x, x ∈ q -> B x.
Proof.
  intros Hclos. revert w. induction q as [|y q IH]; intros w Hp Hw x Hx;
    [by apply elem_of_nil in Hx|].
  destruct Hp as [Hwy Hp]. pose proof (Hclos w y Hw Hwy) as Hy.
  apply elem_of_cons in Hx as [->|Hx]; [done|]. by apply (IH y).
Qed.
End Trace.

Section TraceCorrecte.
Variable size : nat.
Variable adj : list (list nat).
Hypothesis adj_range : forall u v, v ∈ succs adj u -> u < size /\ v < size.

Lemma truthy_circuit x p : truthy (PList (depuis x p ++ [x])) = true.
Proof. by destruct (depuis x p). Qed.

(** The loop over the neighbours of [node], [rec] being a recursive call
    that behaves as [dfs_post] says. *)
Lemma dfs_voisins_spec rec fuel node os0 :
  (forall nd st, nd < size -> lu (visited st) nd = false -> dinv size adj st ->
     nonvus size (visited st) <= fuel ->
     exists r st', rec nd st = Ret (r, st') /\ dfs_post size adj nd st r st') ->
  node < size -> length os0 = size -> lu os0 node = false ->
  forall vs st,
    dinv size adj st -> on_stack st = <[node := true]> os0 ->
    lu (visited st) node = true ->
    (forall v, v ∈ succs adj node -> v ∈ vs \/ noir st v) ->
    (forall v, v ∈ vs -> v < size) ->
    nonvus size (visited st) <= fuel ->
    exists r st',
      dfs_voisins rec node vs st = Ret (r, st') /\
      (truthy r = true \/
       (r = PFalse /\ dinv size adj st' /\ on_stack st' = os0 /\
        (forall v, lu (visited st) v = true -> lu (visited st') v = true) /\
        lu (visited st') node = true)).
Proof.
  intros Hrec Hnode Hos0 Hos0n.
  induction vs as [|nb vs IH]; intros st Hinv Hstk Hvn Hsucc Hvs Hfuel.
  - simpl. eexists _, _. split; [done|]. right. split; [done|].
    assert (Hos : <[node := false]> (on_stack st) = os0).
    { rewrite Hstk, list_insert_insert_eq. apply list_insert_id.
      apply lu_false_lookup; [lia|done]. }
    assert (Hnoir : forall v, noir st v -> v <> node).
    { intros v [_ Hv] ->. rewrite Hstk, lu_insert_eq in Hv by lia. done. }
    assert (Hnoir' : forall v,
      noir {| visited := visited st; on_stack := <[node := false]> (on_stack st);
              path := removelast (path st) |} v <-> noir st v \/ v = node).
    { intros v. unfold noir. simpl. rewrite Hos. split.
      - intros [Hv Ho]. destruct (decide (v = node)) as [->|Hne]; [by right|].
        left. split; [done|]. by rewrite Hstk, lu_insert_ne.
      - intros [[Hv Ho]| ->]; [|done].
        split; [done|]. destruct (decide (v = node)) as [->|Hne]; [done|].
        by rewrite Hstk, lu_insert_ne in Ho. }
    split; [|split; [done|split; [done|done]]].
    split; simpl.
    + apply (di_vis_length _ _ _ Hinv).
    + rewrite Hos. done.
    + rewrite Hos. intros v Hv. apply (di_pile _ _ _ Hinv).
      rewrite Hstk. destruct (decide (v = node)) as [->|Hne]; [congruence|].
      by rewrite lu_insert_ne.
    + intros u v Hu Huv. apply Hnoir'. left. apply Hnoir' in Hu as [Hu| ->].
      * by apply (di_clos _ _ _ Hinv u v).
      * destruct (Hsucc v Huv) as [Hin|Hv]; [by apply elem_of_nil in Hin|done].
    + intros u q Hu Hp. apply Hnoir' in Hu as [Hu| ->];
        [by apply (di_sain _ _ _ Hinv u q)|].
      destruct (q ++ [node]) as [|w q'] eqn:Hq; [by destruct q|].
      destruct Hp as [Hnw Hp].
      assert (Hw : noir st w).
      { destruct (Hsucc w Hnw) as [Hin|Hw]; [by apply elem_of_nil in Hin|done]. }
      assert (Hlast : node ∈ w :: q').
      { rewrite <- Hq, elem_of_app, list_elem_of_singleton. by right. }
      apply elem_of_cons in Hlast as [->|Hlast]; [by apply (Hnoir w)|].
      apply (Hnoir node); [|done].
      apply (clos_chemin adj (noir st) w q'); try done.
      apply (di_clos _ _ _ Hinv).
  - assert (Hnb : nb < size) by (apply Hvs; by left).
    assert (Hvs' : forall v, v ∈ vs -> v < size).
    { intros v Hv. apply Hvs. by right. }
    simpl. destruct (lu (visited st) nb) eqn:Hvnb; simpl.
    + destruct (lu (on_stack st) nb) eqn:Honb.
      * eexists _, _. split; [done|]. left. apply truthy_circuit.
      * apply IH; try done.
        intros v Hv. destruct (Hsucc v Hv) as [Hin|Hnv]; [|by right].
        apply elem_of_cons in Hin as [->|Hin]; [by right|by left].
    + destruct (Hrec nb st Hnb Hvnb Hinv Hfuel) as (r & st1 & -> & Hpost).
      simpl. destruct Hpost as [Htrue|(-> & Hinv1 & Hstk1 & Hmono & Hnb1)].
      * rewrite Htrue. eexists _, _. split; [done|]. by left.
      * simpl.
        destruct (IH st1) as (r & st' & Hr & Hres); try done.
        -- by rewrite Hstk1.
        -- by apply Hmono.
        -- intros v Hv. destruct (Hsucc v Hv) as [Hin|[Hnv Hno]].
           ++ apply elem_of_cons in Hin as [->|Hin]; [|by left].
              right. split; [done|]. rewrite Hstk1.
              destruct (lu (on_stack st) nb) eqn:Ho; [|done].
              apply (di_pile _ _ _ Hinv) in Ho. congruence.
           ++ right. split; [by apply Hmono|by rewrite Hstk1].
        -- pose proof (nonvus_mono size _ _ Hmono). lia.
        -- exists r, st'. split; [done|].
           destruct Hres as [?|(-> & ? & ? & Hmono' & ?)]; [by left|].
           right. split; [done|]. split; [done|]. split; [done|].
           split; [|done]. intros v Hv. by apply Hmono', Hmono.
Qed.

(** A call of [dfs] on a vertex not visited yet returns within a depth
    of the number of vertices not visited. *)
Lemma dfs_spec fuel :
  forall nd st, nd < size -> lu (visited st) nd = false -> dinv size adj st ->
    nonvus size (visited st) <= fuel ->
    exists r st', dfs fuel adj nd st = Ret (r, st') /\ dfs_post size adj nd st r st'.
Proof.
  induction fuel as [|fuel IH]; intros nd st Hnd Hv Hinv Hfuel.
  - rewrite (nonvus_insert size (visited st) nd Hnd (di_vis_length _ _ _ Hinv) Hv)
      in Hfuel. lia.
  - simpl.
    set (st1 := {| visited := <[nd := true]> (visited st);
                   on_stack := <[nd := true]> (on_stack st);
                   path := path st ++ [nd] |}).
    pose proof (di_vis_length _ _ _ Hinv) as Hlv.
    pose proof (di_stk_length _ _ _ Hinv) as Hls.
    assert (Hnos : lu (on_stack st) nd = false).
    { destruct (lu (on_stack st) nd) eqn:Ho; [|done].
      apply (di_pile _ _ _ Hinv) in Ho. congruence. }
    assert (Hnoir : forall v, noir st1 v <-> noir st v).
    { intros v. unfold noir, st1. simpl.
      destruct (decide (v = nd)) as [->|Hne].
      - rewrite !lu_insert_eq by lia. rewrite Hv. split; intros [? ?]; done.
      - by rewrite !lu_insert_ne by done. }
    assert (Hinv1 : dinv size adj st1).
    { split.
      - simpl. by rewrite length_insert.
      - simpl. by rewrite length_insert.
      - intros v. unfold st1. simpl.
        destruct (decide (v = nd)) as [->|Hne].
        + intros _. by rewrite lu_insert_eq by lia.
        + rewrite !lu_insert_ne by done. apply (di_pile _ _ _ Hinv).
      - intros u v Hu Huv. apply Hnoir. apply Hnoir in Hu.
        by apply (di_clos _ _ _ Hinv u v).
      - intros u q Hu. apply Hnoir in Hu. by apply (di_sain _ _ _ Hinv). }
    destruct (dfs_voisins_spec (dfs fuel adj) fuel nd (on_stack st) IH Hnd Hls Hnos
                (succs adj nd) st1) as (r & st' & Hr & Hres); try done.
    + simpl. by rewrite lu_insert_eq by lia.
    + intros v Hin. by left.
    + intros v Hin. by apply (adj_range nd v).
    + simpl. rewrite (nonvus_insert size (visited st) nd Hnd Hlv Hv) in Hfuel. lia.
    + exists r, st'. split; [exact Hr|].
      destruct Hres as [?|(-> & ? & ? & Hmono & ?)]; [by left|].
      right. split; [done|]. split; [done|]. split; [done|]. split; [|done].
      intros v Hvv. apply Hmono. simpl.
      destruct (decide (v = nd)) as [->|Hne]; [congruence|].
      by rewrite lu_insert_ne.
Qed.

(** The search of lines 194-200 returns within a depth of the number of
    vertices; what it returns is false only if the graph has no circuit. *)
Lemma cherche_spec fuel nodes :
  size <= fuel ->
  forall st, dinv size adj st -> (forall v, v ∈ nodes -> v < size) ->
  exists r,
    cherche fuel adj nodes st = Ret r /\
    (truthy r = true \/
     (r = PList [] /\
      exists st', dinv size adj st' /\ on_stack st' = on_stack st /\
        (forall v, lu (visited st) v = true -> lu (visited st') v = true) /\
        forall v, v ∈ nodes -> lu (visited st') v = true)).
Proof.
  intros Hfuel. induction nodes as [|nd nodes IH]; intros st Hinv Hn.
  - simpl. eexists. split; [done|]. right. split; [done|].
    exists st. split; [done|]. split; [done|]. split; [done|].
    intros v Hv. by apply elem_of_nil in Hv.
  - assert (Hnd : nd < size) by (apply Hn; by left).
    assert (Hn' : forall v, v ∈ nodes -> v < size).
    { intros v Hv. apply Hn. by right. }
    simpl. destruct (lu (visited st) nd) eqn:Hv; simpl.
    + destruct (IH st Hinv Hn') as (r & -> & Hres). exists r. split; [done|].
      destruct Hres as [?|(-> & st' & ? & ? & Hmono & Hall)]; [by left|].
      right. split; [done|]. exists st'. split; [done|]. split; [done|].
      split; [done|]. intros v Hin.
      apply elem_of_cons in Hin as [->|Hin]; [by apply Hmono|by apply Hall].
    + destruct (dfs_spec fuel nd st Hnd Hv Hinv)
        as (r & st1 & -> & Hpost);
        [pose proof (nonvus_le size (visited st)); lia|].
      simpl. destruct Hpost as [Htrue|(-> & Hinv1 & Hstk1 & Hmono & Hnd1)].
      * rewrite Htrue. exists r. split; [done|]. by left.
      * simpl. destruct (IH st1 Hinv1 Hn') as (r & -> & Hres).
        exists r. split; [done|].
        destruct Hres as [?|(-> & st' & ? & Hstk' & Hmono' & Hall)]; [by left|].
        right. split; [done|]. exists st'. split; [done|].
        split; [by rewrite Hstk', Hstk1|]. split.
        -- intros v Hvv. by apply Hmono', Hmono.
        -- intros v Hin.
           apply elem_of_cons in Hin as [->|Hin]; [by apply Hmono'|by apply Hall].
Qed.

Lemma cherche_complet fuel :
  size <= fuel ->
  exists r,
    cherche fuel adj (seq 0 size)
      {| visited := replicate size false; on_stack := replicate size false;
         path := [] |} = Ret r /\
    (truthy r = false -> sans_circuit (fun u v => v ∈ succs adj u)).
Proof.
  intros Hfuel.
  destruct (cherche_spec fuel (seq 0 size) Hfuel
    {| visited := replicate size false; on_stack := replicate size false;
       path := [] |}) as (r & Hr & Hres).
  - split; simpl.
    + apply length_replicate.
    + apply length_replicate.
    + intros v. by rewrite lu_replicate.
    + intros u v [Hu _]. simpl in Hu. by rewrite lu_replicate in Hu.
    + intros u q [Hu _]. simpl in Hu. by rewrite lu_replicate in Hu.
  - intros v Hv. apply elem_of_seq in Hv. lia.
  - exists r. split; [done|]. intros Hfalse.
    destruct Hres as [?|(-> & st' & Hinv & Hstk & _ & Hall)]; [congruence|].
    simpl in Hstk. intros v q Hp.
    apply (di_sain _ _ _ Hinv v q); [|done].
    split.
    + apply Hall, elem_of_seq.
      destruct (q ++ [v]) as [|w q'] eqn:Hq; [by destruct q|].
      destruct Hp as [Hvw _]. apply adj_range in Hvw. lia.
    + rewrite Hstk. apply lu_replicate.
Qed.
End TraceCorrecte.

(** ** The verdict of verifier_proprietes *)

Lemma foldl_drapeau {B} (f : B -> bool) (l : list B) (h : bool) :
  foldl (fun h i => if f i then true else h) h l = h || existsb f l.
Proof.
  revert h. induction l as [|b l IH]; intros h; simpl.
  - by rewrite orb_false_r.
  - rewrite IH. destruct (f b), h; done.
Qed.

Lemma has_negative_spec m :
  carree m ->
  (has_negative m = false <-> forall u v w, cell m u v = Some w -> (0 <= w)%Z).
Proof.
  intros Hc. unfold has_negative. rewrite foldl_drapeau. simpl.
  rewrite <- not_true_iff_false, existsb_exists. split.
  - intros Hno u v w Hw.
    destruct (Z.ltb_spec w 0) as [Hlt|Hge]; [|done].
    destruct Hno. exists u.
    assert (Ha : arc m u v) by (apply arc_is_Some; by rewrite Hw).
    destruct (arc_range m u v Hc Ha) as [Hu Hv].
    split; [apply in_seq; lia|]. apply existsb_exists. exists v.
    split; [apply in_seq; lia|]. rewrite Hw. by apply Z.ltb_lt.
  - intros Hpos (u & _ & Hex). apply existsb_exists in Hex as (v & _ & Hv).
    destruct (cell m u v) as [w|] eqn:Hw; [|done].
    apply Z.ltb_lt in Hv. specialize (Hpos u v w Hw). lia.
Qed.

(** *** The depth of recursion *)

(** A call that returns within a depth returns the same within any larger
    one. *)
Lemma dfs_voisins_mono
    (rec rec' : nat -> dfs_state -> outcome (py_val * dfs_state)) node vs st r :
  (forall nd st r, rec nd st = Ret r -> rec' nd st = Ret r) ->
  dfs_voisins rec node vs st = Ret r -> dfs_voisins rec' node vs st = Ret r.
Proof.
  intros Hrec. revert st. induction vs as [|nb vs IH]; intros st H; simpl in *;
    [done|].
  destruct (negb (lu (visited st) nb)).
  - apply obind_Ret in H as ([r1 st1] & H1 & H). rewrite (Hrec _ _ _ H1).
    simpl in *. destruct (truthy r1); [done|by apply IH].
  - destruct (lu (on_stack st) nb); [done|by apply IH].
Qed.

Lemma dfs_mono fuel fuel' adj :
  fuel <= fuel' ->
  forall nd st r, dfs fuel adj nd st = Ret r -> dfs fuel' adj nd st = Ret r.
Proof.
  revert fuel'. induction fuel as [|fuel IH]; intros fuel' Hle nd st r H; [done|].
  destruct fuel' as [|fuel']; [lia|]. simpl in *.
  apply (dfs_voisins_mono (dfs fuel adj)); [|done]. apply IH. lia.
Qed.

Lemma cherche_mono fuel fuel' adj nodes st r :
  fuel <= fuel' ->
  cherche fuel adj nodes st = Ret r -> cherche fuel' adj nodes st = Ret r.
Proof.
  intros Hle. revert st. induction nodes as [|nd nodes IH]; intros st H;
    simpl in *; [done|].
  destruct (negb (lu (visited st) nd)); [|by apply IH].
  apply obind_Ret in H as ([c st1] & H1 & H).
  rewrite (dfs_mono fuel fuel' adj Hle _ _ _ H1).
  simpl in *. destruct (truthy c); [done|by apply IH].
Qed.

(** The search raises no exception of its own: it returns, or the
    recursion is deeper than Python allows. *)
Lemma dfs_voisins_sans_exception
    (rec : nat -> dfs_state -> outcome (py_val * dfs_state)) node vs st e :
  (forall nd st, rec nd st <> Raise e) -> dfs_voisins rec node vs st <> Raise e.
Proof.
  intros Hrec. revert st. induction vs as [|nb vs IH]; intros st; simpl; [done|].
  destruct (negb (lu (visited st) nb)).
  - pose proof (Hrec nb st) as Hnb.
    destruct (rec nb st) as [[r1 st1]|e'|]; simpl; [|congruence|done].
    destruct (truthy r1); [done|apply IH].
  - destruct (lu (on_stack st) nb); [done|apply IH].
Qed.

Lemma dfs_sans_exception fuel adj nd st e : dfs fuel adj nd st <> Raise e.
Proof.
  revert nd st. induction fuel as [|fuel IH]; intros nd st; [done|].
  simpl. by apply dfs_voisins_sans_exception.
Qed.

Lemma cherche_sans_exception fuel adj nodes st e :
  cherche fuel adj nodes st <> Raise e.
Proof.
  revert st. induction nodes as [|nd nodes IH]; intros st; simpl; [done|].
  destruct (negb (lu (visited st) nd)); [|apply IH].
  pose proof (dfs_sans_exception fuel adj nd st e) as Hnd.
  destruct (dfs fuel adj nd st) as [[c st1]|e'|]; simpl; [|congruence|done].
  destruct (truthy c); [done|apply IH].
Qed.

(** What [detecter_circuit] returns is false exactly when the graph has
    no circuit; it returns [None] without a recursion on a graph without
    circuit, and returns on every graph given a depth of the number of
    vertices; it raises nothing. *)
Lemma detecter_circuit_acyclique fuel o m :
  matrix o = Some m -> carree m ->
  (forall r, detecter_circuit fuel o = Ret r ->
     (truthy r = false <-> acyclique m)) /\
  (acyclique m -> detecter_circuit fuel o = Ret PNone) /\
  (length m <= fuel -> exists r, detecter_circuit fuel o = Ret r) /\
  (forall e, detecter_circuit fuel o <> Raise e).
Proof.
  intros Hm Hc. unfold detecter_circuit. rewrite Hm.
  destruct (elimination_correct m) as (st & done & Hst & _).
  rewrite Hst. simpl.
  pose proof (elimination_acyclique m st Hc Hst) as Hiff.
  destruct (Nat.eqb_spec (acc st).1 (length m)) as [Heq|Hne]; simpl.
  - split; [|split; [done|split; [by eexists|done]]].
    intros r [= <-]. split; [intros _; by apply Hiff|done].
  - split; [|split; [|split]].
    + intros r Hr. split; [|intros Hac; by apply Hiff in Hac].
      intros Ht.
      destruct (cherche_complet (length m) (listes m).1 (range_succs_listes m)
                  (Nat.max fuel (length m)) ltac:(lia)) as (r' & Hr' & Hfalse).
      rewrite (cherche_mono fuel (Nat.max fuel (length m)) _ _ _ r) in Hr'
        by (lia || done).
      injection Hr' as <-. by apply (sans_circuit_listes m Hc), Hfalse.
    + intros Hac. by apply Hiff in Hac.
    + intros Hfuel.
      destruct (cherche_complet (length m) (listes m).1 (range_succs_listes m)
                  fuel Hfuel) as (r & Hr & _).
      by exists r.
    + intros e. apply cherche_sans_exception.
Qed.

(** The verdict of [verifier_proprietes] on a square matrix. *)
Lemma verifier_proprietes_verdict fuel o m :
  matrix o = Some m -> 0 < length m -> carree m ->
  (verifier_proprietes fuel o = Ret true <->
     (forall u v w, cell m u v = Some w -> (0 <= w)%Z) /\ acyclique m) /\
  (forall e, verifier_proprietes fuel o <> Raise e) /\
  (acyclique m \/ length m <= fuel ->
   exists b, verifier_proprietes fuel o = Ret b).
Proof.
  intros Hm Hl Hc.
  destruct (detecter_circuit_acyclique fuel o m Hm Hc)
    as (Hiff & Hnone & Htot & Hexc).
  unfold verifier_proprietes.
  rewrite (sans_matrice_false o m Hm Hl), Hm. split; [|split].
  - split.
    + intros H. apply obind_Ret in H as (r & Hr & H). injection H as H.
      apply andb_true_iff in H as [Hneg Ht]. rewrite negb_true_iff in Hneg, Ht.
      split; [by apply (has_negative_spec m Hc)|by apply (Hiff r Hr)].
    + intros [Hpos Hac]. rewrite (Hnone Hac). simpl.
      by rewrite (proj2 (has_negative_spec m Hc) Hpos).
  - intros e. pose proof (Hexc e) as He.
    destruct (detecter_circuit fuel o) as [r|e'|]; simpl; [done|congruence|done].
  - intros [Hac|Hfuel].
    + rewrite (Hnone Hac). by eexists.
    + destruct (Htot Hfuel) as [r ->]. by eexists.
Qed.

(** C5.  On every built graph the verdict of [verifier_proprietes] is
    [True] exactly when no weight of the matrix is negative and the graph
    has no circuit; a negative weight raises nothing, and neither does
    anything else in the call: a verdict is returned whenever the graph
    has no circuit, and on every graph when Python allows [dfs] a depth of
    recursion of the number of vertices. *)
Theorem C5_verdict fuel t o' m :
  construire_graphe (charger init t) = Ret o' -> matrix o' = Some m ->
  (verifier_proprietes fuel o' = Ret true <->
     (forall u v w, cell m u v = Some w -> (0 <= w)%Z) /\ acyclique m) /\
  (forall e, verifier_proprietes fuel o' <> Raise e) /\
  (acyclique m \/ length t + 2 <= fuel ->
   exists b, verifier_proprietes fuel o' = Ret b).
Proof.
  intros H Hm.
  pose proof (charger_init_forme t o' m H Hm) as Hf.
  pose proof (forme_carree _ _ Hf) as Hc.
  assert (Hl : length m = length t + 2) by apply Hf.
  rewrite <- Hl. apply verifier_proprietes_verdict; [done|lia|done].
Qed.

Lemma C5_verdict_temoin :
  exists o' m,
    construire_graphe (charger init ex_cpm) = Ret o' /\ matrix o' = Some m /\
    verifier_proprietes 0 o' = Ret true /\
    (forall u v w, cell m u v = Some w -> (0 <= w)%Z) /\ acyclique m.
Proof.
  eexists _, _. split; [reflexivity|]. split; [reflexivity|].
  destruct (C5_verdict 0 ex_cpm _ _ eq_refl eq_refl) as (Hiff & _).
  assert (Hb : verifier_proprietes 0 ex_cpm_graphe = Ret true)
    by (vm_compute; reflexivity).
  split; [exact Hb|]. by apply Hiff.
Defined.

(** ** Critical paths *)

(** The arc [u -> v] exists and has no slack (line 338). *)
Definition critique (m : matrice) (early : list Z) (late : list ext)
    (u v : nat) : Prop :=
  exists w l e,
    cell m u v = Some w /\ late !! v = Some (Fin l) /\ early !! u = Some e /\
    (l - e - w = 0)%Z.

Lemma est_critique_true m early late i j :
  est_critique m early late i j = Ret true <-> critique m early late i j.
Proof.
  unfold est_critique, critique. split.
  - destruct (cell m i j) as [w|]; [|done].
    destruct (late !! j) as [[l|]|]; destruct (early !! i) as [e|]; simpl; try done.
    + intros [= H]. apply Z.eqb_eq in H. by exists w, l, e.
    + destruct (flottant e); simpl; [|done]. by destruct (flottant w).
  - intros (w & l & e & -> & -> & -> & H). simpl.
    by rewrite (proj2 (Z.eqb_eq _ _) H).
Qed.

(** No subtraction of line 338 raises: on an arc whose head has an
    infinite latest date, the earliest date of the tail and the weight
    convert to floats. *)
Definition sans_debordement (m : matrice) (early : list Z) (late : list ext)
  : Prop :=
  forall i j w e,
    cell m i j = Some w -> early !! i = Some e -> late !! j = Some Inf ->
    flottant e = true /\ flottant w = true.

Lemma fini_sans_debordement m early late :
  (forall j, j < length late -> fini late j) -> sans_debordement m early late.
Proof.
  intros Hf i j w e _ _ Hj.
  destruct (Hf j) as [z Hz]; [by apply lookup_lt_Some in Hj|]. congruence.
Qed.

Lemma petit_sans_debordement o m early late margins :
  matrix o = Some m -> 0 < length m -> petit m ->
  calculer_calendriers o = Ret (Some early, Some late, Some margins) ->
  sans_debordement m early late.
Proof.
  intros Hm Hl Hp Hcal i j w e Hw He _. apply calculer_calendriers_Ret in Hcal.
  split; [by apply (calendrier_pur_flottant o m early late margins Hm Hl Hp Hcal i)|].
  pose proof (weight_flottant m i j Hp Hl) as Hf. unfold weight in Hf.
  by rewrite Hw in Hf.
Qed.

Lemma dates_sans_debordement m om early late T :
  carree m -> acyclique m -> seul_puits m om -> dates m om early late T ->
  sans_debordement m early late.
Proof.
  intros Hc Hac Hs Hd. apply fini_sans_debordement. intros j Hj.
  apply (dates_fini m om early late T Hc Hac Hs Hd).
  by rewrite <- (d_late_length _ _ _ _ _ Hd).
Qed.

Lemma est_critique_retourne m early late i j :
  i < length early -> j < length late -> sans_debordement m early late ->
  exists b, est_critique m early late i j = Ret b.
Proof.
  intros Hi Hj Hs. unfold est_critique.
  destruct (cell m i j) as [w|] eqn:Hw; [|by eexists].
  destruct (lookup_lt_is_Some_2 late j Hj) as [lj Hlj].
  destruct (lookup_lt_is_Some_2 early i Hi) as [ei Hei]. rewrite Hlj, Hei.
  destruct lj as [l|]; simpl; [by eexists|].
  destruct (Hs i j w ei Hw Hei Hlj) as [He Hfw].
  rewrite He. simpl. rewrite Hfw. simpl. by eexists.
Qed.

Lemma arcs_ligne_sain m early late i js ce ce' :
  arcs_ligne m early late i js ce = Ret ce' ->
  forall u v, (u, v) ∈ ce' -> (u, v) ∈ ce \/ critique m early late u v.
Proof.
  revert ce. induction js as [|j js IH]; intros ce H u v Huv; simpl in H.
  - injection H as <-. by left.
  - apply obind_Ret in H as (b & Hb & H).
    destruct (IH _ H u v Huv) as [Hin|?]; [|by right].
    destruct b; [|by left].
    apply elem_of_app in Hin as [?|Hin]; [by left|].
    apply list_elem_of_singleton in Hin. injection Hin as -> ->.
    right. by apply est_critique_true.
Qed.

Lemma arcs_critiques_sain m early late rows ce ce' :
  arcs_critiques m early late rows ce = Ret ce' ->
  forall u v, (u, v) ∈ ce' -> (u, v) ∈ ce \/ critique m early late u v.
Proof.
  revert ce. induction rows as [|i rows IH]; intros ce H u v Huv; simpl in H.
  - injection H as <-. by left.
  - apply obind_Ret in H as (ce1 & H1 & H).
    destruct (IH _ H u v Huv) as [Hin|?]; [|by right].
    by apply (arcs_ligne_sain m early late i (seq 0 (length m)) ce ce1).
Qed.

Lemma arcs_ligne_retourne m early late i js ce :
  i < length early -> (forall j, j ∈ js -> j < length late) ->
  sans_debordement m early late ->
  exists ce', arcs_ligne m early late i js ce = Ret ce'.
Proof.
  intros Hi Hjs Hs. revert ce Hjs.
  induction js as [|j js IH]; intros ce Hjs; simpl.
  - by eexists.
  - destruct (est_critique_retourne m early late i j Hi) as [b ->];
      [apply Hjs; by left|done|].
    simpl. apply IH. intros j' Hj'. apply Hjs. by right.
Qed.

Lemma arcs_critiques_retourne m early late rows ce :
  (forall i, i ∈ rows -> i < length early) -> length m <= length late ->
  sans_debordement m early late ->
  exists ce', arcs_critiques m early late rows ce = Ret ce'.
Proof.
  intros Hrows Hlate Hs. revert ce Hrows.
  induction rows as [|i rows IH]; intros ce Hrows; simpl.
  - by eexists.
  - destruct (arcs_ligne_retourne m early late i (seq 0 (length m)) ce)
      as [ce1 ->].
    + apply Hrows. by left.
    + intros j Hj. apply elem_of_seq in Hj. lia.
    + done.
    + simpl. apply IH. intros i' Hi'. apply Hrows. by right.
Qed.

Lemma succs_alter adj u' v' u v :
  v ∈ succs (alter (fun l => l ++ [v']) u' adj) u ->
  v ∈ succs adj u \/ (u = u' /\ v = v').
Proof.
  unfold succs. destruct (decide (u' = u)) as [->|Hne].
  - rewrite list_lookup_alter_eq. destruct (adj !! u) as [l|]; simpl.
    + rewrite elem_of_app, list_elem_of_singleton. intros [?|?]; [by left|by right].
    + intros H. by apply elem_of_nil in H.
  - rewrite list_lookup_alter_ne by done. by left.
Qed.

Lemma adj_critique_sain size ce u v :
  v ∈ succs (adj_critique size ce) u -> (u, v) ∈ ce.
Proof.
  unfold adj_critique.
  assert (Hgen : forall adj0,
    v ∈ succs (foldl (fun adj '(u, v) => alter (fun l => l ++ [v]) u adj) adj0 ce) u ->
    v ∈ succs adj0 u \/ (u, v) ∈ ce).
  { induction ce as [|[u' v'] ce IH]; intros adj0 H; [by left|].
    simpl in H. destruct (IH _ H) as [H1|?]; [|right; by right].
    apply succs_alter in H1 as [?|[-> ->]]; [by left|]. right. by left. }
  intros H. destruct (Hgen _ H) as [H0|?]; [|done].
  unfold succs in H0. destruct (replicate size [] !! u) as [l|] eqn:Hl; simpl in H0.
  - apply lookup_replicate in Hl as [-> _]. by apply elem_of_nil in H0.
  - by apply elem_of_nil in H0.
Qed.

Lemma chemin_impl (E E' : nat -> nat -> Prop) p :
  (forall u v, E u v -> E' u v) -> chemin E p -> chemin E' p.
Proof.
  intros HE. induction p as [|u p IH]; [done|].
  destruct p as [|v p]; [done|].
  intros [Huv Hp]. split; [by apply HE|by apply IH].
Qed.

Section Parcours.
Variable adj : list (list nat).
Variable om : nat.

(** The paths added while the neighbours [vs] of the end of [p] are
    explored: each one extends [p] through one of [vs] up to omega. *)
Definition trouves (p : list nat) (vs : list nat) (new : list (list nat)) : Prop :=
  forall q, q ∈ new ->
  exists v rest,
    v ∈ vs /\ q = p ++ v :: rest /\
    chemin (fun u v => v ∈ succs adj u) (v :: rest) /\
    last (v :: rest) = Some om.

Definition dfs_chemins_sain (rec : nat -> pstate -> outcome pstate) : Prop :=
  forall node p ps p' ps',
    rec node (p, ps) = Ret (p', ps') ->
    p' = p /\ exists new, ps' = ps ++ new /\ trouves p [node] new.

Lemma parcours_valide rec :
  dfs_chemins_sain rec ->
  forall vs p ps p' ps',
    parcours rec vs (p, ps) = Ret (p', ps') ->
    p' = p /\ exists new, ps' = ps ++ new /\ trouves p vs new.
Proof.
  intros Hrec. induction vs as [|v vs IH]; intros p ps p' ps' H; simpl in H.
  - injection H as <- <-. split; [done|]. exists []. split; [by rewrite app_nil_r|].
    intros q Hq. by apply elem_of_nil in Hq.
  - apply obind_Ret in H as ([p1 ps1] & H1 & H).
    destruct (Hrec v p ps p1 ps1 H1) as (-> & new1 & -> & Hn1).
    destruct (IH _ _ _ _ H) as (-> & new2 & -> & Hn2).
    split; [done|]. exists (new1 ++ new2). split; [by rewrite app_assoc|].
    intros q Hq. apply elem_of_app in Hq as [Hq|Hq].
    + destruct (Hn1 q Hq) as (v' & rest & Hv' & ? & ? & ?).
      apply list_elem_of_singleton in Hv' as ->.
      exists v, rest. split; [by left|done].
    + destruct (Hn2 q Hq) as (v' & rest & Hv' & ? & ? & ?).
      exists v', rest. split; [by right|done].
Qed.

Lemma dfs_chemins_valide fuel : dfs_chemins_sain (dfs_chemins fuel adj om).
Proof.
  induction fuel as [|fuel IH]; intros node p ps p' ps' H; [done|].
  simpl in H. apply obind_Ret in H as ([p1 ps1] & H1 & H).
  simpl in H. injection H as <- <-.
  destruct (Nat.eqb_spec node om) as [->|Hne].
  - injection H1 as <- <-. rewrite removelast_last. split; [done|].
    exists [p ++ [om]]. split; [done|]. intros q Hq.
    apply list_elem_of_singleton in Hq as ->.
    exists om, []. split; [by left|]. done.
  - destruct (parcours_valide _ IH _ _ _ _ _ H1) as (-> & new & -> & Hn).
    rewrite removelast_last. split; [done|]. exists new. split; [done|].
    intros q Hq. destruct (Hn q Hq) as (v & rest & Hv & -> & Hp & Hl).
    exists node, (v :: rest). split; [by left|].
    split; [by rewrite <- app_assoc|]. split; [by split|].
    by rewrite last_cons_cons.
Qed.

Variable size : nat.
Hypothesis sans : sans_circuit (fun u v => v ∈ succs adj u).
Hypothesis adj_borne : forall u v, v ∈ succs adj u -> v < size.

Lemma chemin_borne p : chemin (fun u v => v ∈ succs adj u) p -> length p <= size + 1.
Proof.
  intros Hp. pose proof (sans_circuit_NoDup _ p sans Hp) as Hnd.
  destruct p as [|x tl]; [simpl; lia|].
  apply NoDup_cons in Hnd as [_ Hnd].
  pose proof (NoDup_borne size tl Hnd) as Hb. simpl.
  rewrite Nat.add_1_r. apply le_n_S, Hb.
  intros y Hy. destruct (chemin_elem_but _ x tl Hp y Hy) as [z Hz].
  by apply (adj_borne z y).
Qed.

(** Without circuit the search returns, within a depth of the number of
    vertices plus one. *)
Lemma dfs_chemins_termine fuel :
  forall node p ps,
    chemin (fun u v => v ∈ succs adj u) (p ++ [node]) ->
    size + 1 <= fuel + length p ->
    exists ps', dfs_chemins fuel adj om node (p, ps) = Ret (p, ps').
Proof.
  induction fuel as [|fuel IH]; intros node p ps Hp Hfuel.
  - apply chemin_borne in Hp. rewrite length_app in Hp. simpl in *. lia.
  - simpl. destruct (Nat.eqb_spec node om) as [->|Hne]; simpl.
    + rewrite removelast_last. by eexists.
    + assert (Hpar : forall vs ps0,
        (forall v, v ∈ vs -> v ∈ succs adj node) ->
        exists ps1, parcours (dfs_chemins fuel adj om) vs (p ++ [node], ps0)
                    = Ret (p ++ [node], ps1)).
      { induction vs as [|v vs IHvs]; intros ps0 Hvs; simpl; [by eexists|].
        destruct (IH v (p ++ [node]) ps0) as [ps1 ->].
        - rewrite <- app_assoc. apply chemin_snoc; [done|]. apply Hvs. by left.
        - rewrite length_app. simpl. lia.
        - simpl. apply IHvs. intros v' Hv'. apply Hvs. by right. }
      destruct (Hpar (default [] (adj !! node)) ps) as [ps1 ->]; [done|].
      simpl. rewrite removelast_last. by eexists.
Qed.
End Parcours.

Lemma sans_circuit_impl (E E' : nat -> nat -> Prop) :
  (forall u v, E u v -> E' u v) -> sans_circuit E' -> sans_circuit E.
Proof. intros HE Hac v q Hp. apply (Hac v q). by apply (chemin_impl E E'). Qed.

Lemma adj_critique_critique m early late rows ce u v :
  arcs_critiques m early late rows [] = Ret ce ->
  v ∈ succs (adj_critique (length m) ce) u -> critique m early late u v.
Proof.
  intros Hce Hv. apply adj_critique_sain in Hv.
  destruct (arcs_critiques_sain _ _ _ _ _ _ Hce u v Hv) as [Hin|?]; [|done].
  by apply elem_of_nil in Hin.
Qed.

Lemma arcs_ligne_complet m early late i js : forall ce ce',
  arcs_ligne m early late i js ce = Ret ce' ->
  (forall x, x ∈ ce -> x ∈ ce') /\
  (forall j, j ∈ js -> critique m early late i j -> (i, j) ∈ ce').
Proof.
  induction js as [|j js IH]; intros ce ce' H; simpl in H.
  - injection H as <-. split; [done|]. intros j Hj. by apply elem_of_nil in Hj.
  - apply obind_Ret in H as (b & Hb & H).
    destruct (IH _ _ H) as [Hmono Hjs]. split.
    + intros x Hx. apply Hmono. destruct b; [|done]. apply elem_of_app. by left.
    + intros j' Hj' Hcr. apply elem_of_cons in Hj' as [->|Hj']; [|by apply Hjs].
      apply est_critique_true in Hcr. rewrite Hcr in Hb. injection Hb as <-.
      apply Hmono. apply elem_of_app. right. by left.
Qed.

Lemma arcs_critiques_complet m early late rows : forall ce ce',
  arcs_critiques m early late rows ce = Ret ce' ->
  (forall x, x ∈ ce -> x ∈ ce') /\
  (forall i j, i ∈ rows -> j < length m -> critique m early late i j ->
     (i, j) ∈ ce').
Proof.
  induction rows as [|i rows IH]; intros ce ce' H; simpl in H.
  - injection H as <-. split; [done|]. intros i j Hi. by apply elem_of_nil in Hi.
  - apply obind_Ret in H as (ce1 & H1 & H).
    destruct (arcs_ligne_complet _ _ _ _ _ _ _ H1) as [Hmono1 Hl].
    destruct (IH _ _ H) as [Hmono Hr]. split.
    + intros x Hx. by apply Hmono, Hmono1.
    + intros i' j Hi' Hj Hcr. apply elem_of_cons in Hi' as [->|Hi'].
      * apply Hmono, Hl; [|done]. apply elem_of_seq. lia.
      * by apply Hr.
Qed.

Lemma succs_alter_mono adj u' v' u v :
  v ∈ succs adj u -> v ∈ succs (alter (fun l => l ++ [v']) u' adj) u.
Proof.
  unfold succs. destruct (decide (u' = u)) as [->|Hne].
  - rewrite list_lookup_alter_eq. destruct (adj !! u) as [l|]; simpl; [|done].
    intros H. apply elem_of_app. by left.
  - by rewrite list_lookup_alter_ne.
Qed.

Lemma succs_alter_ajout adj u v :
  u < length adj -> v ∈ succs (alter (fun l => l ++ [v]) u adj) u.
Proof.
  intros Hu. unfold succs. rewrite list_lookup_alter_eq.
  destruct (lookup_lt_is_Some_2 adj u Hu) as [l ->]. simpl.
  apply elem_of_app. right. by left.
Qed.

Lemma adj_critique_complet size ce u v :
  u < size -> (u, v) ∈ ce -> v ∈ succs (adj_critique size ce) u.
Proof.
  intros Hu. unfold adj_critique.
  assert (Hgen : forall adj0, length adj0 = size ->
    v ∈ succs adj0 u \/ (u, v) ∈ ce ->
    v ∈ succs (foldl (fun adj '(u, v) => alter (fun l => l ++ [v]) u adj) adj0 ce) u).
  { induction ce as [|[u' v'] ce IH]; intros adj0 Hl H; simpl.
    - destruct H as [?|H]; [done|]. by apply elem_of_nil in H.
    - apply IH; [by rewrite length_alter|].
      destruct H as [H|H]; [left; by apply succs_alter_mono|].
      apply elem_of_cons in H as [[= <- <-]|H]; [|by right].
      left. apply succs_alter_ajout. lia. }
  intros H. apply Hgen; [apply length_replicate|by right].
Qed.

Lemma critique_arc m early late u v : critique m early late u v -> arc m u v.
Proof. intros (w & _ & _ & Hw & _). apply arc_is_Some. by rewrite Hw. Qed.

(** A set of vertices other than omega, each with a successor in the
    set: from such a vertex the search goes on for ever. *)
Section SansFin.
Variable adj : list (list nat).
Variable om : nat.
Variable P : nat -> Prop.
Hypothesis piege : forall x, P x -> x <> om /\ exists y, y ∈ succs adj x /\ P y.

Lemma parcours_sans_exception (rec : nat -> pstate -> outcome pstate) vs st e :
  (forall y st, rec y st <> Raise e) -> parcours rec vs st <> Raise e.
Proof.
  intros Hrec. revert st. induction vs as [|v vs IH]; intros st; simpl; [done|].
  pose proof (Hrec v st) as Hv.
  destruct (rec v st) as [st'|e'|]; simpl; [apply IH|congruence|done].
Qed.

Lemma dfs_chemins_sans_exception fuel node st e :
  dfs_chemins fuel adj om node st <> Raise e.
Proof.
  revert node st. induction fuel as [|fuel IH]; intros node st; [done|].
  simpl. destruct (Nat.eqb node om); simpl; [done|].
  pose proof (parcours_sans_exception (dfs_chemins fuel adj om)
                (default [] (adj !! node)) (st.1 ++ [node], st.2) e IH) as Hp.
  destruct (parcours _ _ _) as [st'|e'|]; simpl; [done|congruence|done].
Qed.

Lemma parcours_sans_fin (rec : nat -> pstate -> outcome pstate) vs st :
  (forall y st e, rec y st <> Raise e) ->
  (forall y st, P y -> rec y st = OutOfFuel) ->
  (exists y, y ∈ vs /\ P y) -> parcours rec vs st = OutOfFuel.
Proof.
  intros Hexc Hrec. revert st.
  induction vs as [|v vs IH]; intros st (y & Hy & HP).
  - by apply elem_of_nil in Hy.
  - simpl. pose proof (Hexc v st) as Hv.
    destruct (rec v st) as [st'|e'|] eqn:Hr; simpl; [|by destruct (Hv e')|done].
    apply IH. apply elem_of_cons in Hy as [->|Hy]; [|by exists y].
    rewrite (Hrec v st HP) in Hr. discriminate.
Qed.

Lemma dfs_chemins_sans_fin fuel :
  forall x st, P x -> dfs_chemins fuel adj om x st = OutOfFuel.
Proof.
  induction fuel as [|fuel IH]; intros x st HP; [done|].
  destruct (piege x HP) as (Hne & y & Hy & HPy).
  simpl. destruct (Nat.eqb_spec x om) as [?|_]; [done|].
  rewrite (parcours_sans_fin (dfs_chemins fuel adj om)); [done| |done|by exists y].
  intros y' st' e. apply dfs_chemins_sans_exception.
Qed.
End SansFin.

(** A table with negative durations and the circuit 2, 3, 2: alpha reaches
    the circuit through arcs without slack, omega has no such arc. *)
Definition ex_div : table :=
  [(1, (-1, [])); (2, (0, [1; 3])); (3, (-1, [2])); (4, (1, [1; 2; 3]))]%Z.

Definition ex_div_matrice : matrice :=
  [[None; Some 0; None; None; None; None];
   [None; None; Some (-1); None; Some (-1); None];
   [None; None; None; Some 0; Some 0; None];
   [None; None; Some (-1); None; Some (-1); None];
   [None; None; None; None; None; Some 1];
   [None; None; None; None; None; None]]%Z.

Definition ex_div_graphe : Ordonnancement :=
  {| tasks := ex_div; matrix := Some ex_div_matrice; n := 4;
     alpha := 0; omega := 5 |}.

(** The calendars [calculer_calendriers] computes on [ex_div]. *)
Definition ex_div_early : list Z := [0; 0; 0; 0; 0; 0]%Z.
Definition ex_div_late : list ext :=
  [Inf; Fin 0; Fin (-1); Fin 0; Fin (-1); Fin 0].

(** C7 (amended).  Every path [trouver_chemins_critiques] returns starts
    at alpha, ends at omega, and each of its consecutive pairs [(i, j)] is
    an arc of the matrix with [latest[j] - earliest[i] - weight(i, j) = 0];
    so the returned list is empty when no such walk joins alpha to omega.
    When no subtraction of line 338 overflows: if the arcs without slack
    form no circuit (as on every validated graph) the search returns,
    given a depth of more than the number of vertices; and if alpha
    belongs to a set of vertices other than omega, each with an arc
    without slack to a vertex of the set (a circuit of such arcs reached
    from alpha before omega), the search exceeds every depth of
    recursion. *)
Theorem C7_chemins_critiques fuel o m early late :
  matrix o = Some m -> 0 < length m ->
  (forall paths,
     trouver_chemins_critiques fuel o (Some early) (Some late) = Ret (Some paths) ->
     (forall p, p ∈ paths ->
        chemin_de (critique m early late) (alpha o) (omega o) p) /\
     ((forall p, ~ chemin_de (critique m early late) (alpha o) (omega o) p) ->
      paths = [])) /\
  (length early = length m -> length late = length m ->
   sans_debordement m early late ->
   (sans_circuit (critique m early late) -> length m < fuel ->
    exists paths,
      trouver_chemins_critiques fuel o (Some early) (Some late) =
        Ret (Some paths)) /\
   (forall P : nat -> Prop,
      P (alpha o) ->
      (forall x, P x ->
         x <> omega o /\ exists y, critique m early late x y /\ P y) ->
      trouver_chemins_critiques fuel o (Some early) (Some late) = OutOfFuel)).
Proof.
  intros Hm Hl. unfold trouver_chemins_critiques.
  rewrite (sans_matrice_false o m Hm Hl), Hm. split.
  - intros paths H.
    apply obind_Ret in H as (ce & Hce & H).
    apply obind_Ret in H as ([p' ps'] & Hdfs & H).
    simpl in H. injection H as <-.
    destruct (dfs_chemins_valide _ _ fuel _ _ _ _ _ Hdfs) as (_ & new & -> & Hn).
    simpl.
    assert (Hval : forall p, p ∈ new ->
      chemin_de (critique m early late) (alpha o) (omega o) p).
    { intros p Hp. destruct (Hn p Hp) as (v & rest & Hv & -> & Hch & Hlast).
      apply list_elem_of_singleton in Hv as ->. simpl.
      split; [|done].
      apply (chemin_impl (fun u v => v ∈ succs (adj_critique (length m) ce) u));
        [|done].
      intros u v. by apply (adj_critique_critique m early late (seq 0 (length m))). }
    split; [done|]. intros Hnone. destruct new as [|p new]; [done|].
    destruct (Hnone p). apply Hval. by left.
  - intros Hle Hll Hsd.
    destruct (arcs_critiques_retourne m early late (seq 0 (length m)) [])
      as [ce Hce].
    { intros i Hi. apply elem_of_seq in Hi. lia. }
    { lia. }
    { done. }
    rewrite Hce. simpl. split.
    + intros Hac Hfuel.
      assert (HE : forall u v, v ∈ succs (adj_critique (length m) ce) u ->
        critique m early late u v).
      { intros u v.
        by apply (adj_critique_critique m early late (seq 0 (length m))). }
      destruct (dfs_chemins_termine (adj_critique (length m) ce) (omega o)
                  (length m) (sans_circuit_impl _ _ HE Hac)) with (fuel := fuel)
        (node := alpha o) (p := @nil nat) (ps := @nil (list nat)) as [ps' Hps].
      * intros u v Huv. apply HE in Huv as (w & l & e & _ & Hv & _).
        apply lookup_lt_Some in Hv. lia.
      * done.
      * simpl. lia.
      * rewrite Hps. simpl. by eexists.
    + intros P Ha HP.
      rewrite (dfs_chemins_sans_fin (adj_critique (length m) ce) (omega o) P);
        [done| |done].
      intros x Hx. destruct (HP x Hx) as (Hne & y & Hcr & Hy).
      split; [done|]. exists y. split; [|done].
      assert (Hxy : x < length m /\ y < length m).
      { destruct Hcr as (w & l & e & Hw & Hly & _). split.
        - apply (arc_lt m x y). apply arc_is_Some. by rewrite Hw.
        - rewrite <- Hll. by apply lookup_lt_Some in Hly. }
      apply adj_critique_complet; [lia|].
      destruct (arcs_critiques_complet _ _ _ _ _ _ Hce) as [_ H].
      apply H; [apply elem_of_seq; lia|lia|done].
Qed.

Lemma C7_chemins_critiques_temoin :
  construire_graphe (charger init ex_cpm) = Ret ex_cpm_graphe /\
  matrix ex_cpm_graphe = Some ex_cpm_matrice /\
  0 < length ex_cpm_matrice /\
  trouver_chemins_critiques 7 ex_cpm_graphe (Some [0; 0; 0; 3; 7; 8]%Z)
    (Some [Fin 0; Fin 0; Fin 1; Fin 3; Fin 7; Fin 8]) =
    Ret (Some [[0; 1; 3; 4; 5]]) /\
  chemin_de (critique ex_cpm_matrice [0; 0; 0; 3; 7; 8]%Z
               [Fin 0; Fin 0; Fin 1; Fin 3; Fin 7; Fin 8])
    (alpha ex_cpm_graphe) (omega ex_cpm_graphe) [0; 1; 3; 4; 5].
Proof.
  assert (Hl : 0 < length ex_cpm_matrice) by (simpl; lia).
  assert (Hr : trouver_chemins_critiques 7 ex_cpm_graphe
                 (Some [0; 0; 0; 3; 7; 8]%Z)
                 (Some [Fin 0; Fin 0; Fin 1; Fin 3; Fin 7; Fin 8]) =
               Ret (Some [[0; 1; 3; 4; 5]])) by (vm_compute; reflexivity).
  split; [reflexivity|]. split; [reflexivity|].
  split; [exact Hl|]. split; [exact Hr|].
  destruct (C7_chemins_critiques 7 ex_cpm_graphe ex_cpm_matrice
              [0; 0; 0; 3; 7; 8]%Z
              [Fin 0; Fin 0; Fin 1; Fin 3; Fin 7; Fin 8] eq_refl Hl)
    as (Hval & _).
  destruct (Hval [[0; 1; 3; 4; 5]] Hr) as (Hp & _).
  apply Hp. by left.
Defined.

Lemma critique_calcul m early late u v :
  critique m early late u v -> est_critique m early late u v = Ret true.
Proof. apply est_critique_true. Qed.

Lemma trouver_chemins_critiques_eq fuel o m early late :
  matrix o = Some m -> 0 < length m ->
  trouver_chemins_critiques fuel o (Some early) (Some late) =
  (ce ← arcs_critiques m early late (seq 0 (length m)) [];
   st ← dfs_chemins fuel (adj_critique (length m) ce) (omega o) (alpha o) ([], []);
   Ret (Some st.2)).
Proof.
  intros Hm Hl. unfold trouver_chemins_critiques.
  by rewrite (sans_matrice_false o m Hm Hl), Hm.
Qed.

(** C7, the claim as it is written, fails on [ex_div]: no walk without
    slack joins alpha to omega, and yet no empty list is returned, since
    the search never returns at all: it goes round the circuit 2, 3, 2
    whatever depth it is given. *)
Lemma C7_recherche_sans_fin :
  construire_graphe (charger init ex_div) = Ret ex_div_graphe /\
  calculer_calendriers ex_div_graphe =
    Ret (Some ex_div_early, Some ex_div_late, Some ex_div_late) /\
  (forall p, ~ chemin_de (critique ex_div_matrice ex_div_early ex_div_late)
                 (alpha ex_div_graphe) (omega ex_div_graphe) p) /\
  forall fuel,
    trouver_chemins_critiques fuel ex_div_graphe
      (Some ex_div_early) (Some ex_div_late) = OutOfFuel.
Proof.
  split; [vm_compute; reflexivity|]. split; [vm_compute; reflexivity|]. split.
  - intros p (Hp & Hh & Hlast). simpl in Hh, Hlast.
    destruct p as [|x tl]; [done|]. simpl in Hh. injection Hh as ->.
    destruct tl as [|y tl]; [simpl in Hlast; congruence|].
    assert (Hin : 5 ∈ y :: tl).
    { rewrite last_cons_cons in Hlast. by apply last_Some_elem_of. }
    destruct (chemin_elem_but _ 0 (y :: tl) Hp 5 Hin) as [u Hu].
    apply critique_calcul in Hu.
    do 6 (destruct u as [|u]; [vm_compute in Hu; discriminate|]).
    vm_compute in Hu. discriminate.
  - intros fuel.
    rewrite (trouver_chemins_critiques_eq fuel ex_div_graphe ex_div_matrice)
      by (reflexivity || (simpl; lia)).
    assert (Hce : arcs_critiques ex_div_matrice ex_div_early ex_div_late
                    (seq 0 (length ex_div_matrice)) [] =
                  Ret [(0, 1); (1, 2); (1, 4); (2, 3); (3, 2); (3, 4)])
      by (vm_compute; reflexivity).
    rewrite Hce. clear Hce.
    set (adj := [[1]; [2; 4]; [3]; [2; 4]; []; []]).
    assert (Hboucle : forall f st,
      dfs_chemins f adj 5 2 st = OutOfFuel /\ dfs_chemins f adj 5 3 st = OutOfFuel).
    { induction f as [|f IH]; intros st; [done|]. split.
      - simpl. by rewrite (proj2 (IH _)).
      - simpl. by rewrite (proj1 (IH _)). }
    assert (H1 : forall f st, dfs_chemins f adj 5 1 st = OutOfFuel).
    { intros [|f] st; [done|]. simpl. by rewrite (proj1 (Hboucle _ _)). }
    assert (H0 : forall f st, dfs_chemins f adj 5 0 st = OutOfFuel).
    { intros [|f] st; [done|]. simpl. by rewrite H1. }
    change (obind (dfs_chemins fuel adj 5 0 ([], []))
              (fun st => Ret (Some st.2)) = OutOfFuel).
    by rewrite H0.
Qed.

(** * Beyond the specification *)

(** ** Reading the file *)

(** *** The dictionary *)

Lemma tasks_get_set t k v k' :
  tasks_get (tasks_set t k v) k' = if Z.eqb k k' then Some v else tasks_get t k'.
Proof.
  induction t as [|[k0 v0] t IH]; simpl.
  - done.
  - destruct (Z.eqb k0 k) eqn:E0; simpl.
    + apply Z.eqb_eq in E0. subst k0. by destruct (Z.eqb k k').
    + destruct (Z.eqb k0 k') eqn:E1; [|done].
      apply Z.eqb_eq in E1. subst k'. by rewrite (proj2 (Z.eqb_neq k k0)) by
        (apply Z.eqb_neq in E0; congruence).
Qed.

Lemma keys_set t k v :
  keys (tasks_set t k v) = if decide (k ∈ keys t) then keys t else keys t ++ [k].
Proof.
  induction t as [|[k0 v0] t IH].
  - destruct (decide (k ∈ keys [])) as [H|H]; [|done]. by apply elem_of_nil in H.
  - cbn [tasks_set]. destruct (Z.eqb k0 k) eqn:E0.
    + apply Z.eqb_eq in E0. subst k0.
      destruct (decide (k ∈ keys ((k, v0) :: t))) as [H|H]; [done|].
      destruct H. by left.
    + apply Z.eqb_neq in E0. change (keys ((k0, v0) :: tasks_set t k v))
        with (k0 :: keys (tasks_set t k v)). rewrite IH.
      change (keys ((k0, v0) :: t)) with (k0 :: keys t).
      destruct (decide (k ∈ keys t)) as [Hin|Hout];
        destruct (decide (k ∈ k0 :: keys t)) as [H|H]; try done.
      * destruct H. by right.
      * apply elem_of_cons in H as [?|?]; congruence.
Qed.

Lemma tasks_set_nouveau t k v : k ∉ keys t -> tasks_set t k v = t ++ [(k, v)].
Proof.
  induction t as [|[k0 v0] t IH]; simpl; [done|]. intros Hk.
  apply not_elem_of_cons in Hk as [Hne Hk].
  destruct (Z.eqb k0 k) eqn:E0; [apply Z.eqb_eq in E0; congruence|].
  by rewrite IH.
Qed.

Lemma NoDup_keys_set t k v : NoDup (keys t) -> NoDup (keys (tasks_set t k v)).
Proof.
  intros Hnd. rewrite keys_set. destruct (decide (k ∈ keys t)); [done|].
  apply NoDup_app. split; [done|]. split; [|apply NoDup_singleton].
  intros x Hx Hx'%list_elem_of_singleton. by subst x.
Qed.

(** *** Reading the lines *)

(** A line [lire_fichier] cannot use: a word that is no integer, or fewer
    than two integers (a blank line among them). *)
Definition courte (l : ligne) : Prop :=
  match l with
  | Some (_ :: _ :: _) => False
  | _ => True
  end.

Lemma lire_ligne_None l t : lire_ligne l t = None <-> courte l.
Proof. by destruct l as [[|? [|? ?]]|]. Qed.

Lemma lire_lignes_app ls1 ls2 t0 t1 :
  lire_lignes ls1 t0 = (t1, true) ->
  lire_lignes (ls1 ++ ls2) t0 = lire_lignes ls2 t1.
Proof.
  revert t0. induction ls1 as [|l ls1 IH]; intros t0 H; simpl in *.
  - by injection H as ->.
  - destruct (lire_ligne l t0) as [t'|]; [by apply IH|done].
Qed.

Lemma lire_lignes_table t : forall t0,
  NoDup (keys (t0 ++ t)) -> lire_lignes (map ligne_de t) t0 = (t0 ++ t, true).
Proof.
  induction t as [|[k [d ps]] t IH]; intros t0 Hnd; simpl.
  - by rewrite app_nil_r.
  - rewrite tasks_set_nouveau.
    + rewrite IH; rewrite <- app_assoc; done.
    + unfold keys in Hnd. rewrite map_app in Hnd.
      apply NoDup_app in Hnd as (_ & Hd & _). intros Hk.
      apply (Hd k Hk). by left.
Qed.

Lemma lire_lignes_reussit ls : forall t0,
  (forall l, l ∈ ls -> ~ courte l) -> exists t, lire_lignes ls t0 = (t, true).
Proof.
  induction ls as [|l ls IH]; intros t0 H; simpl.
  - by exists t0.
  - destruct (lire_ligne l t0) as [t'|] eqn:E.
    + apply IH. intros l' Hl'. apply H. by right.
    + apply lire_ligne_None in E. destruct (H l); [by left|done].
Qed.

Lemma lire_lignes_spec ls : forall t0 t,
  lire_lignes ls t0 = (t, true) ->
  (NoDup (keys t0) -> NoDup (keys t)) /\
  (forall k, k ∈ keys t <->
     k ∈ keys t0 \/ exists i d ps, ls !! i = Some (Some (k :: d :: ps))) /\
  (forall k,
     (forall i d ps, ls !! i <> Some (Some (k :: d :: ps))) ->
     tasks_get t k = tasks_get t0 k) /\
  (forall i k d ps,
     ls !! i = Some (Some (k :: d :: ps)) ->
     (forall j d' ps', i < j -> ls !! j <> Some (Some (k :: d' :: ps'))) ->
     tasks_get t k = Some (d, ps)).
Proof.
  induction ls as [|l ls IH]; intros t0 t H; simpl in H.
  - injection H as ->. split; [done|]. split; [|split; [done|]].
    + intros k. split; [by left|]. by intros [?|(i & d & ps & ?)].
    + by intros i k d ps ?.
  - destruct l as [[|k0 [|d0 ps0]]|]; try done. simpl in H.
    destruct (IH _ _ H) as (Hnd & Hkeys & Hsans & Hder).
    split; [|split; [|split]].
    + intros H0. by apply Hnd, NoDup_keys_set.
    + intros k. rewrite Hkeys, keys_set. split.
      * intros [Hk|(i & d & ps & Hi)].
        -- destruct (decide (k0 ∈ keys t0)); [by left|].
           apply elem_of_app in Hk as [?|Hk%list_elem_of_singleton]; [by left|].
           subst k. right. by exists 0, d0, ps0.
        -- right. by exists (S i), d, ps.
      * intros [Hk|([|i] & d & ps & Hi)].
        -- left. destruct (decide (k0 ∈ keys t0)); [done|].
           apply elem_of_app. by left.
        -- simpl in Hi. injection Hi as -> ? ?. left.
           destruct (decide (k ∈ keys t0)); [done|].
           apply elem_of_app. right. by left.
        -- right. by exists i, d, ps.
    + intros k Hk. rewrite Hsans.
      * rewrite tasks_get_set.
        destruct (Z.eqb k0 k) eqn:E; [|done].
        apply Z.eqb_eq in E as ->. by destruct (Hk 0 d0 ps0).
      * intros i d ps Hi. by apply (Hk (S i) d ps).
    + intros [|i] k d ps Hi Hapres.
      * simpl in Hi. injection Hi as -> -> ->.
        rewrite Hsans.
        -- rewrite tasks_get_set. by rewrite Z.eqb_refl.
        -- intros j d' ps' Hj. apply (Hapres (S j) d' ps'); [lia|done].
      * apply (Hder i k d ps Hi).
        intros j d' ps' Hij Hj. apply (Hapres (S j) d' ps'); [lia|done].
Qed.

Lemma length_tasks_set t k v : length (tasks_set t k v) <= S (length t).
Proof.
  induction t as [|[k0 v0] t IH]; simpl; [lia|].
  destruct (Z.eqb k0 k); simpl; lia.
Qed.

Lemma lire_lignes_length ls : forall t0 t,
  lire_lignes ls t0 = (t, true) -> length t <= length t0 + length ls.
Proof.
  induction ls as [|l ls IH]; intros t0 t H; simpl in H.
  - injection H as ->. lia.
  - destruct l as [[|k0 [|d0 ps0]]|]; try done. simpl in H.
    apply IH in H. pose proof (length_tasks_set t0 k0 (d0, ps0)). simpl. lia.
Qed.

(** X1.  Reading the file that lists a table whose identifiers are
    distinct, one task per line, returns [True] and leaves the object with
    exactly that table, [n] its number of tasks and [omega = n + 1]. *)
Theorem lire_fichier_table t o :
  NoDup (keys t) -> lire_fichier (Some (map ligne_de t)) o = (true, charger o t).
Proof.
  intros Hnd. unfold lire_fichier.
  by rewrite (lire_lignes_table t []).
Qed.

Lemma lire_fichier_table_temoin :
  NoDup (keys ex_cpm) /\
  lire_fichier (Some [Some [1; 3]; Some [2; 2]; Some [3; 4; 1; 2]; Some [4; 1; 3]]%Z)
    init = (true, charger init ex_cpm).
Proof.
  assert (Hnd : NoDup (keys ex_cpm)).
  { unfold ex_cpm, keys. simpl.
    repeat (apply NoDup_cons_2; [rewrite ?elem_of_cons, elem_of_nil; lia|]).
    apply NoDup_nil_2. }
  split; [exact Hnd|]. exact (lire_fichier_table ex_cpm init Hnd).
Defined.

(** X2.  When every line holds at least two integers the load succeeds,
    whatever the identifiers: the table has one entry per distinct first
    integer, the entry of the last line that starts with it; [n] counts
    the distinct identifiers and [omega = n + 1]; [alpha] and the matrix
    of an earlier load stay as they were. *)
Theorem lire_fichier_reussit ls o :
  (forall l, l ∈ ls -> ~ courte l) ->
  exists o',
    lire_fichier (Some ls) o = (true, o') /\
    NoDup (keys (tasks o')) /\ n o' = length (tasks o') /\
    n o' <= length ls /\ omega o' = n o' + 1 /\
    alpha o' = alpha o /\ matrix o' = matrix o /\
    (forall k, k ∈ keys (tasks o') <->
       exists i d ps, ls !! i = Some (Some (k :: d :: ps))) /\
    (forall i k d ps,
       ls !! i = Some (Some (k :: d :: ps)) ->
       (forall j d' ps', i < j -> ls !! j <> Some (Some (k :: d' :: ps'))) ->
       tasks_get (tasks o') k = Some (d, ps)).
Proof.
  intros Hls. destruct (lire_lignes_reussit ls [] Hls) as [t Ht].
  destruct (lire_lignes_spec ls [] t Ht) as (Hnd & Hkeys & _ & Hder).
  unfold lire_fichier. rewrite Ht. simpl. eexists. split; [done|]. simpl.
  split; [apply Hnd, NoDup_nil_2|]. split; [done|].
  split; [|split; [done|split; [done|split; [done|split; [|done]]]]].
  - by apply lire_lignes_length in Ht.
  - intros k. rewrite Hkeys. split; [|by right].
    intros [H|H]; [|done]. by apply elem_of_nil in H.
Qed.

Lemma lire_fichier_reussit_temoin :
  exists o',
    lire_fichier (Some [Some [1; 3]; Some [2; 2]; Some [1; 5; 2]]%Z) ex_cpm_graphe
      = (true, o') /\
    tasks o' = [(1, (5, [2])); (2, (2, []))]%Z /\ n o' = 2 /\ omega o' = 3 /\
    matrix o' = Some ex_cpm_matrice.
Proof.
  destruct (lire_fichier_reussit
              [Some [1; 3]; Some [2; 2]; Some [1; 5; 2]]%Z ex_cpm_graphe)
    as (o' & Ho' & _).
  - intros l Hl. rewrite !elem_of_cons, elem_of_nil in Hl.
    destruct Hl as [->|[->|[->|[]]]]; simpl; tauto.
  - exists o'. vm_compute in Ho'. injection Ho' as <-. by repeat split.
Defined.

(** X3.  A load that fails is not undone.  When the file cannot be opened
    the object is untouched.  When a line is unusable, the table is
    already replaced by the entries of the lines before it, while [n],
    [omega], [alpha] and the matrix keep the values of the earlier load. *)
Theorem lire_fichier_echec avant l apres o t :
  lire_lignes avant [] = (t, true) -> courte l ->
  lire_fichier None o = (false, o) /\
  lire_fichier (Some (avant ++ l :: apres)) o =
    (false, {| tasks := t; matrix := matrix o; n := n o;
               alpha := alpha o; omega := omega o |}).
Proof.
  intros Ht Hl. split; [done|]. unfold lire_fichier.
  rewrite (lire_lignes_app avant (l :: apres) [] t Ht). simpl.
  apply (lire_ligne_None l t) in Hl. by rewrite Hl.
Qed.

Lemma lire_fichier_echec_temoin :
  lire_fichier (Some [Some [1; 3]; Some []; Some [2; 2]]%Z) ex_cpm_graphe =
    (false, {| tasks := [(1, (3, []))]%Z; matrix := Some ex_cpm_matrice;
               n := 4; alpha := 0; omega := 5 |}).
Proof.
  exact (proj2 (lire_fichier_echec [Some [1; 3]%Z] (Some []) [Some [2; 2]%Z]
                  ex_cpm_graphe [(1, (3, []))]%Z eq_refl I)).
Defined.

(** ** When the graph can be built *)

(** Every predecessor a task lists is a task of the table. *)
Definition close (t : table) : Prop :=
  forall task d preds p,
    tasks_get t task = Some (d, preds) -> p ∈ preds -> p ∈ keys t.

Lemma py_index_range len i a :
  py_index len i = Some a -> (- Z.of_nat len <= i < Z.of_nat len)%Z.
Proof.
  unfold py_index. intros H.
  destruct ((0 <=? i)%Z && (i <? Z.of_nat len)%Z) eqn:E1.
  - apply andb_true_iff in E1 as [?%Z.leb_le ?%Z.ltb_lt]. lia.
  - destruct ((- Z.of_nat len <=? i)%Z && (i <? 0)%Z) eqn:E2; [|done].
    apply andb_true_iff in E2 as [?%Z.leb_le ?%Z.ltb_lt]. lia.
Qed.

Lemma tasks_get_None t k : k ∉ keys t -> tasks_get t k = None.
Proof.
  intros Hk. destruct (tasks_get t k) eqn:E; [|done].
  by apply tasks_get_keys in E.
Qed.

Lemma boucle_omega_reussit size t om rows m :
  forme size m -> om < size -> (forall i, i ∈ rows -> i < size) ->
  exists m', boucle_omega t om size rows m = Ret m' /\ forme size m'.
Proof.
  intros Hf Hom. revert m Hf. induction rows as [|i rows IH]; intros m Hf Hr.
  - by exists m.
  - assert (Hr' : forall j, j ∈ rows -> j < size).
    { intros j Hj. apply Hr. by right. }
    cbn [boucle_omega].
    destruct (negb (i =? om) && negb (has_successor m size i)
              && tasks_mem t (Z.of_nat i)) eqn:E; [|by apply IH].
    apply andb_true_iff in E as [_ E]. unfold tasks_mem in E.
    destruct (tasks_get t (Z.of_nat i)) as [[d ps]|]; [|done].
    assert (Hi : i < size) by (apply Hr; by left).
    destruct (set_cell_reussit size m (Z.of_nat i) (Z.of_nat om) d Hf)
      as (m1 & -> & Hf1); [lia|lia|].
    simpl. by apply IH.
Qed.

Lemma construire_graphe_pas_fuel t : construire_graphe (charger init t) <> OutOfFuel.
Proof.
  unfold construire_graphe. simpl.
  pose proof (boucle_alpha_pas_fuel t 0 (keys t)
    (replicate (length t + 2) (replicate (length t + 2) None))) as H1.
  destruct (boucle_alpha _ _ _ _) as [m1| |] eqn:E1; simpl; [|done|done].
  assert (Hf1 : forme (length t + 2) m1).
  { eapply boucle_alpha_forme; [apply forme_replicate|exact E1]. }
  assert (H2 : forall ks m, boucle_arcs t ks m <> OutOfFuel).
  { induction ks as [|k ks IH]; intros m; simpl; [done|].
    destruct (tasks_get t k) as [[d ps]|]; [|done].
    pose proof (boucle_preds_pas_fuel t k ps m).
    destruct (boucle_preds t k ps m); simpl; [apply IH|done|done]. }
  pose proof (H2 (keys t) m1).
  destruct (boucle_arcs t (keys t) m1) as [m2| |] eqn:E2; simpl; [|done|done].
  assert (Hf2 : forme (length t + 2) m2).
  { eapply boucle_arcs_forme; [exact Hf1|exact E2]. }
  destruct (boucle_omega_reussit (length t + 2) t (length t + 1)
              (seq 0 (length t + 2)) m2 Hf2) as (m3 & -> & _); [lia| |done].
  intros i Hi. apply elem_of_seq in Hi. lia.
Qed.

Lemma construire_graphe_entree t o' :
  construire_graphe (charger init t) = Ret o' -> indexable t /\ close t.
Proof.
  intros H. apply construire_graphe_Ret in H as (m1 & m2 & m3 & H1 & H2 & _).
  simpl in H1, H2.
  assert (Hf1 : forme (length t + 2) m1).
  { eapply boucle_alpha_forme; [apply forme_replicate|exact H1]. }
  split.
  - intros k Hk. destruct (keys_tasks_get t k Hk) as [[d [|p ps]] Hg].
    + destruct (boucle_alpha_progres _ _ _ _ _ _ k d
                  (forme_replicate (length t + 2)) H1 Hk Hg)
        as (x & y & _ & Hy & _).
      by apply py_index_range in Hy.
    + destruct (boucle_arcs_progres _ _ _ _ _ k d (p :: ps) p Hf1 H2 Hk Hg)
        as (x & y & _ & Hy & _); [by left|].
      by apply py_index_range in Hy.
  - intros task d preds p Hg Hp.
    destruct (decide (p ∈ keys t)) as [|Hout]; [done|].
    destruct (boucle_arcs_absent t (keys t) m1 task d preds p) as [e He];
      [by apply tasks_get_keys in Hg|done|done|by apply tasks_get_None|].
    congruence.
Qed.

Lemma construire_graphe_reussit t :
  indexable t -> close t -> exists o', construire_graphe (charger init t) = Ret o'.
Proof.
  intros Hix Hcl. unfold construire_graphe. simpl.
  destruct (boucle_alpha_reussit t (keys t)
    (replicate (length t + 2) (replicate (length t + 2) None)) Hix)
    as (m1 & -> & Hf1); [apply forme_replicate|done|].
  simpl.
  destruct (boucle_arcs_issue t (keys t) m1 Hix Hf1)
    as [[m2 Hm2]|(e & _ & p & task & d & preds & _ & Hg & Hp & Hnone)];
    [done| |].
  - rewrite Hm2. simpl.
    destruct (boucle_omega_reussit (length t + 2) t (length t + 1)
                (seq 0 (length t + 2)) m2) as (m3 & -> & _).
    + eapply boucle_arcs_forme; [exact Hf1|exact Hm2].
    + lia.
    + intros i Hi. apply elem_of_seq in Hi. lia.
    + by eexists.
  - pose proof (Hcl _ _ _ _ Hg Hp) as Hin.
    apply keys_tasks_get in Hin as [? Hin]. congruence.
Qed.

(** X4.  [construire_graphe] returns a graph exactly when every identifier
    of the table is an index Python accepts for a list of [n + 2] cells
    (from [-(n + 2)] to [n + 1]) and every predecessor a task lists is an
    identifier of the table; otherwise it raises. *)
Theorem construire_graphe_reussit_ssi t :
  ((exists o', construire_graphe (charger init t) = Ret o') <->
   indexable t /\ close t) /\
  (~ (indexable t /\ close t) ->
   exists e, construire_graphe (charger init t) = Raise e).
Proof.
  assert (Hssi : (exists o', construire_graphe (charger init t) = Ret o') <->
                 indexable t /\ close t).
  { split.
    - intros [o' H]. by apply construire_graphe_entree in H.
    - intros [Hix Hcl]. by apply construire_graphe_reussit. }
  split; [exact Hssi|]. intros Hnon.
  pose proof (construire_graphe_pas_fuel t).
  destruct (construire_graphe (charger init t)) as [o'|e|] eqn:E.
  - destruct Hnon. apply Hssi. by exists o'.
  - by exists e.
  - done.
Qed.

(** ** The arcs of the graph of a table *)

(** The three kinds of arcs lines 47-61 write: from alpha to a task
    without predecessors, weight 0; from a listed predecessor to the task
    that lists it, weighted by the duration of the predecessor; from a task
    that no task lists to omega, weighted by its duration. *)
Definition arc_alpha (t : table) (u v : nat) (w : Z) : Prop :=
  u = 0 /\ w = 0%Z /\ exists d, tasks_get t (Z.of_nat v) = Some (d, []).

Definition arc_pred (t : table) (u v : nat) (w : Z) : Prop :=
  exists d ps qs,
    tasks_get t (Z.of_nat v) = Some (d, ps) /\ Z.of_nat u ∈ ps /\
    tasks_get t (Z.of_nat u) = Some (w, qs).

Definition arc_omega (t : table) (u v : nat) (w : Z) : Prop :=
  v = length t + 1 /\ (exists qs, tasks_get t (Z.of_nat u) = Some (w, qs)) /\
  forall k d ps, tasks_get t k = Some (d, ps) -> Z.of_nat u ∉ ps.

Section Arcs.
Variable t : table.
Hypothesis Hbf : bien_formee t.

Local Abbreviation size := (length t + 2).

Lemma cle_borne k v : tasks_get t k = Some v -> (1 <= k <= Z.of_nat (length t))%Z.
Proof. intros H. apply tasks_get_keys in H. by apply Hbf. Qed.

Lemma cle_indice k v a :
  tasks_get t k = Some v -> py_index size k = Some a ->
  Z.of_nat a = k /\ 1 <= a <= length t.
Proof.
  intros H Ha. pose proof (cle_borne k v H).
  apply tasks_get_keys in H.
  destruct (py_index_cle t k a Hbf H Ha) as [-> ?]. split; [lia|done].
Qed.

Lemma phase_alpha m1 :
  boucle_alpha t 0 (keys t) (replicate size (replicate size None)) = Ret m1 ->
  forme size m1 /\ forall u v w, cell m1 u v = Some w -> arc_alpha t u v w.
Proof.
  apply (boucle_alpha_inv
    (fun m => forme size m /\ forall u v w, cell m u v = Some w -> arc_alpha t u v w)).
  - intros ma mb task d [Hf HA] Hk Hg Hset.
    destruct (set_cell_spec size ma _ _ _ _ Hf Hset) as (a & b & Ha & Hb & Hfb & Hc).
    split; [done|]. intros u v w. rewrite Hc.
    destruct (decide (u = a /\ v = b)) as [[-> ->]|_]; [|apply HA].
    intros [= <-]. apply py_index_nat_inv in Ha as ->.
    destruct (cle_indice task _ b Hg Hb) as [Hb' _].
    split; [done|]. split; [done|]. exists d. by rewrite Hb'.
  - split; [apply forme_replicate|]. intros u v w. by rewrite cell_replicate.
Qed.

Lemma phase_arcs m1 m2 :
  forme size m1 -> (forall u v w, cell m1 u v = Some w -> arc_alpha t u v w) ->
  boucle_arcs t (keys t) m1 = Ret m2 ->
  forme size m2 /\
  forall u v w, cell m2 u v = Some w -> arc_alpha t u v w \/ arc_pred t u v w.
Proof.
  intros Hf1 HA.
  apply (boucle_arcs_inv
    (fun m => forme size m /\
       forall u v w, cell m u v = Some w -> arc_alpha t u v w \/ arc_pred t u v w)).
  - intros ma mb task d preds pred dp ps [Hf HAB] Hk Hg Hp Hgp Hset.
    destruct (set_cell_spec size ma _ _ _ _ Hf Hset) as (a & b & Ha & Hb & Hfb & Hc).
    split; [done|]. intros u v w. rewrite Hc.
    destruct (decide (u = a /\ v = b)) as [[-> ->]|_]; [|apply HAB].
    intros [= <-]. right.
    destruct (cle_indice pred _ a Hgp Ha) as [Ha' _].
    destruct (cle_indice task _ b Hg Hb) as [Hb' _].
    exists d, preds, ps. by rewrite Ha', Hb'.
  - split; [done|]. intros u v w H. left. by apply HA.
Qed.

Lemma phase_omega m2 m3 :
  forme size m2 ->
  boucle_omega t (length t + 1) size (seq 0 size) m2 = Ret m3 ->
  forme size m3 /\
  (forall x y, is_Some (cell m2 x y) -> is_Some (cell m3 x y)) /\
  forall u v w, cell m3 u v = Some w ->
    cell m2 u v = Some w \/
    (v = length t + 1 /\ (forall j, j < size -> cell m2 u j = None) /\
     exists qs, tasks_get t (Z.of_nat u) = Some (w, qs)).
Proof.
  intros Hf2.
  apply (boucle_omega_inv
    (fun m => forme size m /\
       (forall x y, is_Some (cell m2 x y) -> is_Some (cell m x y)) /\
       forall u v w, cell m u v = Some w ->
         cell m2 u v = Some w \/
         (v = length t + 1 /\ (forall j, j < size -> cell m2 u j = None) /\
          exists qs, tasks_get t (Z.of_nat u) = Some (w, qs)))).
  - intros ma mb i d ps (Hf & Hmono & HC) Hi Hne Hhs Hg Hset.
    destruct (set_cell_spec size ma _ _ _ _ Hf Hset) as (a & b & Ha & Hb & Hfb & Hc).
    apply py_index_nat_inv in Ha as ->. apply py_index_nat_inv in Hb as ->.
    split; [done|]. split.
    + intros x y Hxy. eapply set_cell_mono; [exact Hf|exact Hset|by apply Hmono].
    + intros u v w. rewrite Hc.
      destruct (decide (u = i /\ v = length t + 1)) as [[-> ->]|_]; [|apply HC].
      intros [= <-]. right. split; [done|]. split; [|by exists ps].
      intros j Hj. destruct (cell m2 i j) as [c|] eqn:E; [|done].
      assert (Hs : is_Some (cell ma i j)) by (apply Hmono; by rewrite E).
      rewrite (proj1 (has_successor_false ma size i) Hhs j Hj) in Hs.
      by destruct Hs.
  - split; [done|]. split; [done|]. intros u v w H. by left.
Qed.

Lemma boucle_arcs_garde x y ks m m' :
  garde size x y m -> boucle_arcs t ks m = Ret m' -> garde size x y m'.
Proof.
  apply (boucle_arcs_inv (garde size x y)).
  intros ma mb task d preds pred dp ps Hg _ _ _ _ Hset.
  eapply garde_set_cell; [exact Hg|exact Hset].
Qed.

Lemma graphe_exact o' m :
  construire_graphe (charger init t) = Ret o' -> matrix o' = Some m ->
  forall u v w,
    cell m u v = Some w <->
    arc_alpha t u v w \/ arc_pred t u v w \/ arc_omega t u v w.
Proof.
  intros H Hm.
  apply construire_graphe_Ret in H as (m1 & m2 & m3 & H1 & H2 & H3 & ->).
  simpl in H1, H2, H3, Hm. injection Hm as <-.
  destruct (phase_alpha m1 H1) as [Hf1 HA].
  destruct (phase_arcs m1 m2 Hf1 HA H2) as [Hf2 HAB].
  destruct (phase_omega m2 m3 Hf2 H3) as (Hf3 & Hmono & HC).
  assert (Hpred : forall u v d ps, tasks_get t (Z.of_nat v) = Some (d, ps) ->
            Z.of_nat u ∈ ps -> v < size /\ is_Some (cell m2 u v)).
  { intros u v d ps Hg Hu.
    destruct (boucle_arcs_progres size t (keys t) m1 m2 _ d ps (Z.of_nat u)
                Hf1 H2 (tasks_get_keys _ _ _ Hg) Hg Hu)
      as (x & y & Hx & Hy & _ & Hxy).
    pose proof (py_index_lt _ _ _ Hy).
    apply py_index_nat_inv in Hx as ->. apply py_index_nat_inv in Hy as ->.
    done. }
  assert (Hvers : forall u v w, cell m3 u v = Some w ->
            arc_alpha t u v w \/ arc_pred t u v w \/ arc_omega t u v w).
  { intros u v w Hc. destruct (HC u v w Hc) as [Hc2|(-> & Hvide & Hg)].
    - destruct (HAB u v w Hc2); [by left|by right; left].
    - right; right. split; [done|]. split; [done|].
      intros k d ps Hk Hu.
      pose proof (cle_borne k _ Hk) as Hkb.
      replace k with (Z.of_nat (Z.to_nat k)) in Hk by lia.
      destruct (Hpred u _ d ps Hk Hu) as [Hlt Hs].
      rewrite (Hvide _ Hlt) in Hs. by destruct Hs. }
  intros u v w. split; [apply Hvers|].
  intros [(-> & -> & d & Hg)|[(d & ps & qs & Hg & Hu & Hgu)|(-> & [qs Hg] & Hnul)]].
  - destruct (boucle_alpha_progres size t 0 (keys t) _ m1 _ d
                (forme_replicate size) H1 (tasks_get_keys _ _ _ Hg) Hg)
      as (x & y & Hx & Hy & Hxy).
    apply py_index_nat_inv in Hx as ->. apply py_index_nat_inv in Hy as ->.
    apply (boucle_arcs_garde 0 v (keys t) m1 m2) in Hxy; [|done].
    destruct Hxy as [_ Hs]. apply Hmono in Hs as [w' Hw'].
    destruct (Hvers _ _ _ Hw') as [(_ & -> & _)|[(? & ? & ? & _ & _ & Hz)|(_ & [? Hz] & _)]];
      [done| |]; apply cle_borne in Hz; lia.
  - destruct (Hpred u v d ps Hg Hu) as [_ Hs]. apply Hmono in Hs as [w' Hw'].
    pose proof (cle_borne _ _ Hgu). pose proof (cle_borne _ _ Hg).
    destruct (Hvers _ _ _ Hw') as [(-> & _)|[(? & ? & ? & _ & _ & Hz)|(-> & _)]];
      [lia| |lia].
    rewrite Hgu in Hz. by injection Hz as ->.
  - pose proof (cle_borne _ _ Hg).
    apply (boucle_omega_puits size t (length t + 1) (seq 0 size) m2 m3 u w qs);
      try done.
    + apply NoDup_seq.
    + apply elem_of_seq. lia.
    + lia.
    + lia.
    + apply has_successor_false. intros j Hj.
      destruct (cell m2 u j) as [c|] eqn:E; [|done].
      destruct (HAB _ _ _ E) as [(-> & _)|(d & ps & _ & Hgj & Hu & _)]; [lia|].
      by destruct (Hnul _ _ _ Hgj).
Qed.
End Arcs.

(** X5.  The graph built from a table whose identifiers are 1..n has
    exactly the arcs of lines 47-61, with their weights: alpha to every
    task without predecessors (weight 0), every listed predecessor to the
    task that lists it (weight: the duration of the predecessor), and every
    task that no task lists to omega (weight: its duration). *)
Theorem construire_graphe_arcs t o' m :
  bien_formee t ->
  construire_graphe (charger init t) = Ret o' -> matrix o' = Some m ->
  forall u v w,
    cell m u v = Some w <->
    arc_alpha t u v w \/ arc_pred t u v w \/ arc_omega t u v w.
Proof. intros Hbf. by apply graphe_exact. Qed.

Lemma construire_graphe_arcs_temoin :
  bien_formee ex_cpm /\
  construire_graphe (charger init ex_cpm) = Ret ex_cpm_graphe /\
  forall u v w,
    cell ex_cpm_matrice u v = Some w <->
    arc_alpha ex_cpm u v w \/ arc_pred ex_cpm u v w \/ arc_omega ex_cpm u v w.
Proof.
  split; [exact ex_cpm_bien_formee|]. split; [reflexivity|].
  exact (construire_graphe_arcs ex_cpm ex_cpm_graphe ex_cpm_matrice
           ex_cpm_bien_formee eq_refl eq_refl).
Defined.

(** ** The verdict read on the table *)

(** [u] is a predecessor that task [v] lists. *)
Definition precede (t : table) (u v : nat) : Prop :=
  exists d ps, tasks_get t (Z.of_nat v) = Some (d, ps) /\ Z.of_nat u ∈ ps.

Lemma chemin_impl_dans (E E' : nat -> nat -> Prop) p :
  (forall u v, u ∈ p -> v ∈ p -> E u v -> E' u v) -> chemin E p -> chemin E' p.
Proof.
  induction p as [|u [|v p] IH]; intros H Hp; [done|done|].
  destruct Hp as [Huv Hp]. split.
  - apply H; [by left|by right; left|done].
  - apply IH; [|done]. intros x y Hx Hy. apply H; by right.
Qed.

Lemma table_sans_circuit t o' m :
  bien_formee t ->
  construire_graphe (charger init t) = Ret o' -> matrix o' = Some m ->
  (acyclique m <-> sans_circuit (precede t)).
Proof.
  intros Hbf H Hm.
  pose proof (graphe_exact t Hbf o' m H Hm) as Hex.
  pose proof (construire_graphe_taches t o' m Hbf H Hm) as Hgt.
  destruct (construire_graphe_entree t o' H) as [_ Hcl].
  split.
  - apply sans_circuit_impl. intros u v (d & ps & Hg & Hu).
    pose proof (Hcl _ _ _ _ Hg Hu) as Hk.
    apply keys_tasks_get in Hk as [[w qs] Hk].
    apply arc_is_Some. exists w. apply Hex. right; left. by exists d, ps, qs.
  - intros Hsc v q Hp. apply (Hsc v q).
    apply (chemin_impl_dans (arc m)); [|done].
    intros a b Ha Hb Hab.
    assert (Hsrc : forall x, x ∈ v :: q ++ [v] -> exists y, arc m x y).
    { intros x Hx. change (v :: q ++ [v]) with ((v :: q) ++ [v]) in Hx, Hp.
      apply elem_of_app in Hx as [Hx|Hx%list_elem_of_singleton].
      - by apply (chemin_elem_source (arc m) (v :: q) v Hp).
      - subst x. apply (chemin_elem_source (arc m) (v :: q) v Hp). by left. }
    assert (Hbut : forall x, x ∈ v :: q ++ [v] -> exists y, arc m y x).
    { intros x Hx. apply elem_of_cons in Hx as [->|Hx].
      - apply (chemin_elem_but (arc m) v (q ++ [v]) Hp).
        apply elem_of_app. right. by left.
      - by apply (chemin_elem_but (arc m) v (q ++ [v]) Hp). }
    destruct (Hbut a Ha) as [y Hy]. apply (gt_region t m _ _ Hgt) in Hy.
    destruct (Hsrc b Hb) as [z Hz]. apply (gt_region t m _ _ Hgt) in Hz.
    apply arc_is_Some in Hab as [w Hw].
    apply Hex in Hw as [(-> & _)|[(d & ps & qs & Hg & Hu & _)|(-> & _)]];
      [lia| |lia].
    by exists d, ps.
Qed.

Lemma table_sans_negatif t o' m :
  bien_formee t ->
  construire_graphe (charger init t) = Ret o' -> matrix o' = Some m ->
  ((forall u v w, cell m u v = Some w -> (0 <= w)%Z) <->
   forall k d ps, tasks_get t k = Some (d, ps) -> (0 <= d)%Z).
Proof.
  intros Hbf H Hm.
  pose proof (graphe_exact t Hbf o' m H Hm) as Hex.
  pose proof (construire_graphe_taches t o' m Hbf H Hm) as Hgt.
  split.
  - intros Hpos k d ps Hk.
    pose proof (cle_borne t Hbf k _ Hk) as Hkb.
    destruct (gt_succ t m Hgt (Z.to_nat k)) as [v Hv]; [lia|].
    apply arc_is_Some in Hv as [w Hw]. pose proof (Hpos _ _ _ Hw) as Hw0.
    apply Hex in Hw as [(Hz & _)|[(? & ? & ? & _ & _ & Hz)|(_ & [? Hz] & _)]];
      [lia| |]; rewrite Z2Nat.id in Hz by lia; congruence.
  - intros Hd u v w Hw.
    apply Hex in Hw as [(_ & -> & _)|[(? & ? & ? & _ & _ & Hz)|(_ & [? Hz] & _)]];
      [done| |]; by apply Hd in Hz.
Qed.

(** X6.  On the graph of a table whose identifiers are 1..n, the
    verdict of [verifier_proprietes] is [True] exactly when no task has a
    negative duration and the predecessor lists contain no cycle (no task
    precedes itself through a chain of listed predecessors).  The call
    raises nothing; it returns a verdict when the lists contain no cycle,
    and in every case when Python allows [dfs] a depth of recursion of the
    number of vertices. *)
Theorem verifier_proprietes_table fuel t o' :
  bien_formee t -> construire_graphe (charger init t) = Ret o' ->
  (verifier_proprietes fuel o' = Ret true <->
     (forall k d ps, tasks_get t k = Some (d, ps) -> (0 <= d)%Z) /\
     sans_circuit (precede t)) /\
  (forall e, verifier_proprietes fuel o' <> Raise e) /\
  (sans_circuit (precede t) \/ length t + 2 <= fuel ->
   exists b, verifier_proprietes fuel o' = Ret b).
Proof.
  intros Hbf H.
  destruct (construire_graphe_forme _ _ H) as (m & Hm & Hf0).
  pose proof (charger_init_forme t o' m H Hm) as Hf.
  pose proof (forme_carree _ _ Hf) as Hc.
  assert (Hl : length m = length t + 2) by apply Hf.
  destruct (verifier_proprietes_verdict fuel o' m Hm ltac:(lia) Hc)
    as (Hiff & Hexc & Htot).
  rewrite (table_sans_negatif t o' m Hbf H Hm) in Hiff.
  rewrite (table_sans_circuit t o' m Hbf H Hm) in Hiff, Htot.
  rewrite Hl in Htot. done.
Qed.

Lemma verifier_proprietes_table_temoin :
  bien_formee ex_cpm /\
  construire_graphe (charger init ex_cpm) = Ret ex_cpm_graphe /\
  verifier_proprietes 0 ex_cpm_graphe = Ret true /\
  (forall k d ps, tasks_get ex_cpm k = Some (d, ps) -> (0 <= d)%Z) /\
  sans_circuit (precede ex_cpm).
Proof.
  assert (Hb : verifier_proprietes 0 ex_cpm_graphe = Ret true)
    by (vm_compute; reflexivity).
  split; [exact ex_cpm_bien_formee|]. split; [reflexivity|].
  split; [exact Hb|].
  destruct (verifier_proprietes_table 0 ex_cpm ex_cpm_graphe
              ex_cpm_bien_formee eq_refl) as (Hiff & _).
  by apply Hiff.
Defined.

(** ** The list of arcs afficher_graphe prints *)

(** Row-major order on the triplets. *)
Definition ordre_ligne (a b : nat * nat * Z) : Prop :=
  a.1.1 < b.1.1 \/ (a.1.1 = b.1.1 /\ a.1.2 < b.1.2).

Lemma elem_of_arcs m i j w :
  (i, j, w) ∈ arcs m <-> i < length m /\ j < length m /\ cell m i j = Some w.
Proof.
  unfold arcs. rewrite list_elem_of_In, in_flat_map. split.
  - intros (i' & Hi' & H). apply in_flat_map in H as (j' & Hj' & H).
    apply in_seq in Hi', Hj'.
    destruct (cell m i' j') as [w'|] eqn:E; [|done].
    destruct H as [[= <- <- <-]|[]]. repeat split; [lia|lia|done].
  - intros (Hi & Hj & Hc). exists i. split; [apply in_seq; lia|].
    apply in_flat_map. exists j. split; [apply in_seq; lia|].
    rewrite Hc. by left.
Qed.

Lemma sorted_flat_map {X Y} (R : Y -> Y -> Prop) (f : X -> list Y) (l : list X) :
  (forall x, x ∈ l -> StronglySorted R (f x)) ->
  (forall i j x y a b, i < j -> l !! i = Some x -> l !! j = Some y ->
     a ∈ f x -> b ∈ f y -> R a b) ->
  StronglySorted R (flat_map f l).
Proof.
  induction l as [|x l IH]; intros Hs Hord; simpl; [constructor|].
  assert (Hl : StronglySorted R (flat_map f l)).
  { apply IH.
    - intros y Hy. apply Hs. by right.
    - intros i j y z a b Hij Hi Hj. by apply (Hord (S i) (S j)); [lia|..]. }
  assert (Hx : StronglySorted R (f x)) by (apply Hs; by left).
  assert (Hxl : forall a b, a ∈ f x -> b ∈ flat_map f l -> R a b).
  { intros a b Ha Hb. apply list_elem_of_In, in_flat_map in Hb as (y & Hy & Hb).
    apply list_elem_of_In, list_elem_of_lookup_1 in Hy as [j Hj].
    apply (Hord 0 (S j) x y); [lia|done|done|done|by apply list_elem_of_In]. }
  revert Hx Hxl. generalize (f x) as lx. induction lx as [|a lx IHx]; intros Hx Hxl.
  - done.
  - simpl. apply StronglySorted_inv in Hx as [Hx Ha]. constructor.
    + apply IHx; [done|]. intros a' b Ha' Hb. apply Hxl; [by right|done].
    + apply Forall_app. split; [done|].
      apply Forall_forall. intros b Hb. apply Hxl; [by left|done].
Qed.

Lemma arcs_tries m : StronglySorted ordre_ligne (arcs m).
Proof.
  unfold arcs. apply sorted_flat_map.
  - intros i _. apply sorted_flat_map.
    + intros j _. destruct (cell m i j); repeat constructor.
    + intros a b x y ta tb Hab Ha Hb Hta Htb.
      apply lookup_seq in Ha as [-> _]. apply lookup_seq in Hb as [-> _].
      destruct (cell m i (0 + a)); [|by apply elem_of_nil in Hta].
      destruct (cell m i (0 + b)); [|by apply elem_of_nil in Htb].
      apply list_elem_of_singleton in Hta as ->.
      apply list_elem_of_singleton in Htb as ->.
      right. simpl. lia.
  - intros a b x y ta tb Hab Ha Hb Hta Htb.
    apply lookup_seq in Ha as [-> _]. apply lookup_seq in Hb as [-> _].
    apply list_elem_of_In, in_flat_map in Hta as (j & _ & Hta).
    apply list_elem_of_In, in_flat_map in Htb as (j' & _ & Htb).
    destruct (cell m (0 + a) j); [|done]. destruct (cell m (0 + b) j'); [|done].
    destruct Hta as [<-|[]]. destruct Htb as [<-|[]]. left. simpl. lia.
Qed.

(** X7.  The triplets [afficher_graphe] lists for a built graph are
    exactly the cells of the matrix that hold a value, each once, row by
    row and column by column; so the number it prints is the number of
    arcs of the graph. *)
Theorem arcs_exacts o o' m :
  construire_graphe o = Ret o' -> matrix o' = Some m ->
  (forall i j w, (i, j, w) ∈ arcs m <-> cell m i j = Some w) /\
  StronglySorted ordre_ligne (arcs m) /\ NoDup (arcs m).
Proof.
  intros H Hm. pose proof (construire_graphe_carre o o' m H Hm) as Hc.
  split; [|split; [apply arcs_tries|]].
  - intros i j w. rewrite elem_of_arcs. split; [by intros (_ & _ & ?)|].
    intros Hw. assert (Ha : arc m i j) by (apply arc_is_Some; by rewrite Hw).
    destruct (arc_range m i j Hc Ha). done.
  - pose proof (arcs_tries m) as Hs. induction Hs as [|a l Hs IH Ha].
    + constructor.
    + constructor; [|done]. intros Hin.
      rewrite Forall_forall in Ha. apply Ha in Hin. unfold ordre_ligne in Hin. lia.
Qed.

Lemma arcs_exacts_temoin :
  construire_graphe (charger init ex_cpm) = Ret ex_cpm_graphe /\
  (forall i j w, (i, j, w) ∈ arcs ex_cpm_matrice <->
     cell ex_cpm_matrice i j = Some w) /\
  StronglySorted ordre_ligne (arcs ex_cpm_matrice) /\ NoDup (arcs ex_cpm_matrice).
Proof.
  split; [reflexivity|].
  exact (arcs_exacts (charger init ex_cpm) ex_cpm_graphe ex_cpm_matrice
           eq_refl eq_refl).
Defined.

(** ** What detecter_circuit returns *)

(** The vertices marked on the stack in [os'] are marked in [os]. *)
Definition dans_pile (os' os : list bool) : Prop :=
  forall v, lu os' v = true -> lu os v = true.

Lemma lu_insert_false (l : list bool) i v :
  lu (<[i := false]> l) v = true -> lu l v = true /\ v <> i.
Proof.
  intros H. destruct (decide (v = i)) as [->|Hne].
  - destruct (decide (i < length l)) as [Hlt|Hge].
    + by rewrite lu_insert_eq in H.
    + rewrite list_insert_ge in H by lia. unfold lu in H.
      rewrite lookup_ge_None_2 in H by lia. done.
  - by rewrite lu_insert_ne in H.
Qed.

Lemma lu_insert_true (l : list bool) i v :
  lu (<[i := true]> l) v = true -> lu l v = true \/ v = i.
Proof.
  intros H. destruct (decide (v = i)) as [->|Hne]; [by right|].
  left. by rewrite lu_insert_ne in H.
Qed.

(** What a call of [dfs] that is no [True] and no list leaves, and which
    lists it can return. *)
Definition dfs_forme (node : nat) (vs : list nat) (st : dfs_state)
    (r : py_val) (st' : dfs_state) : Prop :=
  (truthy r = false ->
     r = PFalse /\ path st' = removelast (path st) /\
     forall v, lu (on_stack st') v = true -> lu (on_stack st) v = true /\ v <> node) /\
  (truthy r = true ->
     r = PTrue \/
     exists nb, nb ∈ vs /\ lu (on_stack st) nb = true /\
                r = PList (depuis nb (path st) ++ [nb])).

Lemma dfs_voisins_forme rec node :
  (forall nd st r st', rec nd st = Ret (r, st') -> truthy r = false ->
     path st' = path st /\ dans_pile (on_stack st') (on_stack st)) ->
  forall vs st r st',
    dfs_voisins rec node vs st = Ret (r, st') -> dfs_forme node vs st r st'.
Proof.
  intros Hrec. induction vs as [|nb vs IH]; intros st r st' H; simpl in H.
  - injection H as <- <-. split; [|done]. intros _. simpl.
    split; [done|]. split; [done|]. apply lu_insert_false.
  - destruct (negb (lu (visited st) nb)) eqn:Evis.
    + destruct (rec nb st) as [[r1 st1]| |] eqn:E1; try done. simpl in H.
      destruct (truthy r1) eqn:Et.
      * injection H as <- <-. split; [done|]. intros _. by left.
      * destruct (Hrec _ _ _ _ E1 Et) as [Hp Hos].
        destruct (IH _ _ _ H) as [Hf Ht]. split.
        -- intros Hr. destruct (Hf Hr) as (-> & Hp' & Hos').
           split; [done|]. split; [by rewrite Hp', Hp|].
           intros v Hv. destruct (Hos' v Hv) as [Hv1 ?]. split; [by apply Hos|done].
        -- intros Hr. destruct (Ht Hr) as [->|(x & Hx & Hlx & ->)]; [by left|].
           right. exists x. split; [by right|]. split; [by apply Hos|].
           by rewrite Hp.
    + destruct (lu (on_stack st) nb) eqn:Eos.
      * injection H as <- <-. split.
        -- intros Hr. by rewrite truthy_circuit in Hr.
        -- intros _. right. exists nb. split; [by left|done].
      * destruct (IH _ _ _ H) as [Hf Ht]. split; [done|].
        intros Hr. destruct (Ht Hr) as [->|(x & Hx & Hlx & ->)]; [by left|].
        right. exists x. split; [by right|done].
Qed.

Lemma dfs_forme_appel fuel adj : forall nd st r st',
  dfs fuel adj nd st = Ret (r, st') ->
  (truthy r = false ->
     path st' = path st /\ dans_pile (on_stack st') (on_stack st)) /\
  (truthy r = true ->
     r = PTrue \/
     exists nb, nb ∈ succs adj nd /\ lu (<[nd := true]> (on_stack st)) nb = true /\
                r = PList (depuis nb (path st ++ [nd]) ++ [nb])).
Proof.
  induction fuel as [|fuel IH]; intros nd st r st' H; [done|].
  simpl in H. apply dfs_voisins_forme in H.
  - destruct H as [Hf Ht]. split; [|exact Ht].
    intros Hr. destruct (Hf Hr) as (_ & Hp & Hos). simpl in Hp, Hos.
    split; [by rewrite Hp, removelast_last|].
    intros v Hv. destruct (Hos v Hv) as [Hv1 Hne].
    by destruct (lu_insert_true _ _ _ Hv1).
  - intros nd' s r' s' H' Hr'. by apply (IH nd' s r' s' H').
Qed.

Lemma cherche_forme fuel adj nodes : forall st r,
  path st = [] -> (forall v, lu (on_stack st) v = false) ->
  cherche fuel adj nodes st = Ret r ->
  r = PList [] \/ r = PTrue \/
  exists v, v ∈ nodes /\ v ∈ succs adj v /\ r = PList [v; v].
Proof.
  induction nodes as [|nd nodes IH]; intros st r Hp Hos H; simpl in H.
  - injection H as <-. by left.
  - assert (Hsuite : forall st1, path st1 = [] ->
              (forall v, lu (on_stack st1) v = false) ->
              cherche fuel adj nodes st1 = Ret r ->
              r = PList [] \/ r = PTrue \/
              exists v, v ∈ nd :: nodes /\ v ∈ succs adj v /\ r = PList [v; v]).
    { intros st1 Hp1 Hos1 H1.
      destruct (IH st1 r Hp1 Hos1 H1) as [?|[?|(v & Hv & ?)]];
        [by left|by right; left|].
      right; right. exists v. split; [by right|done]. }
    destruct (negb (lu (visited st) nd)); [|by apply (Hsuite st)].
    destruct (dfs fuel adj nd st) as [[r1 st1]| |] eqn:E1; try done. simpl in H.
    destruct (dfs_forme_appel fuel adj nd st r1 st1 E1) as [Hf Ht].
    destruct (truthy r1) eqn:Et.
    + injection H as <-.
      destruct (Ht eq_refl) as [->|(nb & Hnb & Hlu & ->)]; [by right; left|].
      right; right. exists nd.
      apply lu_insert_true in Hlu as [Hlu| ->]; [by rewrite Hos in Hlu|].
      split; [by left|]. split; [done|].
      rewrite Hp. simpl. by rewrite Nat.eqb_refl.
    + destruct (Hf eq_refl) as [Hp1 Hos1]. apply (Hsuite st1); [congruence| |done].
      intros v. destruct (lu (on_stack st1) v) eqn:E; [|done].
      apply Hos1 in E. by rewrite Hos in E.
Qed.

(** X8.  On a square matrix, what [detecter_circuit] returns is [None]
    when the graph has no circuit and otherwise either [True] or the list
    [[v, v]] of a vertex that has an arc to itself: never the empty list
    of line 200, and never a list of a longer circuit.  It returns when
    the graph has no circuit, and in every case when Python allows [dfs] a
    depth of recursion of the number of vertices. *)
Theorem detecter_circuit_forme fuel o m :
  matrix o = Some m -> carree m ->
  (forall r, detecter_circuit fuel o = Ret r ->
     (r = PNone /\ acyclique m) \/
     (~ acyclique m /\
      (r = PTrue \/ exists v, arc m v v /\ r = PList [v; v]))) /\
  (acyclique m \/ length m <= fuel ->
   exists r, detecter_circuit fuel o = Ret r).
Proof.
  intros Hm Hc.
  destruct (detecter_circuit_acyclique fuel o m Hm Hc)
    as (Hiff & Hnone & Htot & _).
  split.
  - intros r Hr. specialize (Hiff r Hr).
    unfold detecter_circuit in Hr. rewrite Hm in Hr.
    destruct (elimination m) as [st| |] eqn:Hst; try done. simpl in Hr.
    pose proof (elimination_acyclique m st Hc Hst) as Hac.
    destruct (Nat.eqb_spec (acc st).1 (length m)) as [Heq|Hne]; simpl in Hr.
    + injection Hr as <-. left. split; [done|]. by apply Hac.
    + right. split; [by rewrite <- Hac|].
      apply cherche_forme in Hr as [->|[->|(v & _ & Hv & ->)]].
      * destruct Hne. apply Hac, Hiff. done.
      * by left.
      * right. exists v. split; [|done].
        by apply elem_succs_listes in Hv as [_ ?].
      * done.
      * intros v. apply lu_replicate.
  - intros [Hac|Hfuel]; [|by apply Htot].
    exists PNone. by apply Hnone.
Qed.

Definition ex_boucle : table := [(1, (2, [1]))]%Z.

Lemma detecter_circuit_forme_temoin :
  exists o' m,
    construire_graphe (charger init ex_boucle) = Ret o' /\
    matrix o' = Some m /\ carree m /\
    detecter_circuit 3 o' = Ret (PList [1; 1]) /\ arc m 1 1 /\ ~ acyclique m.
Proof.
  eexists _, _. split; [reflexivity|]. split; [reflexivity|].
  assert (Hc : carree [[None; None; None]; [None; Some 2; None];
                       [None; None; None]]%Z).
  { intros row Hrow. rewrite !elem_of_cons, elem_of_nil in Hrow.
    by destruct Hrow as [->|[->|[->|[]]]]. }
  split; [exact Hc|].
  destruct (detecter_circuit_forme 3
    {| tasks := ex_boucle;
       matrix := Some [[None; None; None]; [None; Some 2; None];
                       [None; None; None]]%Z;
       n := 1; alpha := 0; omega := 2 |} _ eq_refl Hc)
    as (Hforme & Htot).
  destruct (Htot ltac:(right; simpl; lia)) as (r & Hr).
  destruct (Hforme r Hr) as [[-> _]|(Hnac & _)].
  - vm_compute in Hr. done.
  - vm_compute in Hr. injection Hr as <-. split; [reflexivity|].
    split; [reflexivity|exact Hnac].
Defined.

(** ** Ranks and walks *)

Lemma chemin_de_borne m s v p :
  carree m -> chemin_de (arc m) s v p -> v < length m ->
  forall x, x ∈ p -> x < length m.
Proof.
  intros Hc (Hp & _ & Hl) Hv x Hx.
  apply last_Some in Hl as [p' ->].
  apply elem_of_app in Hx as [Hx|Hx%list_elem_of_singleton]; [|by subst x].
  destruct (chemin_elem_source (arc m) p' v Hp x Hx) as [y Hy].
  by apply arc_lt in Hy.
Qed.

(** X9.  On a square matrix without circuit the rank of every vertex is
    the number of arcs of the longest walk that ends at it, and is less
    than the number of vertices. *)
Theorem calculer_rangs_plus_long o m :
  matrix o = Some m -> 0 < length m -> carree m -> acyclique m ->
  exists ranks,
    calculer_rangs o = Ret (Some ranks) /\
    forall v, v < length m ->
      exists k, ranks !! v = Some (Z.of_nat k) /\ k < length m /\
        (exists p s, chemin_de (arc m) s v p /\ longueur p = k) /\
        (forall p s, chemin_de (arc m) s v p -> longueur p <= k).
Proof.
  intros Hm Hl Hc Hac.
  destruct (calculer_rangs_acyclique o m Hm Hl Hc Hac) as (ranks & Hcalc & Hlen & Hr).
  exists ranks. split; [done|]. intros v Hv.
  destruct (chemin_de_rang m ranks Hc Hac Hr v Hv) as (p & s & r & Hp & Hrv & Hlp & _).
  exists (longueur p). rewrite Hlp. split; [done|]. split; [|split].
  - assert (Hnd : NoDup p) by (apply (sans_circuit_NoDup (arc m)); [done|apply Hp]).
    pose proof (NoDup_borne (length m) p Hnd (chemin_de_borne m s v p Hc Hp Hv)).
    unfold longueur. lia.
  - by exists p, s.
  - intros p' s' Hp'.
    assert (Hs' : s' < length m).
    { apply (chemin_de_borne m s' v p' Hc Hp' Hv).
      destruct Hp' as (_ & Hh & _). destruct p'; [done|].
      injection Hh as ->. by left. }
    destruct (Hr s' Hs') as (rs & Hrs & Hpos & _).
    pose proof (chemin_rangs m ranks) as Hch.
    specialize (Hch ltac:(intros x Hx; destruct (Hr x Hx) as (? & -> & _); by eexists)).
    specialize (Hch ltac:(intros a b ra rb Hab Ha Hb;
      destruct (Hr b) as (rb' & Hrb' & _ & Hle & _);
        [by apply (arc_range m a b)|];
      rewrite Hb in Hrb'; injection Hrb' as <-; by apply (Hle a ra)) Hc).
    specialize (Hch p' s' v rs r Hp' Hrs Hrv). lia.
Qed.

Lemma ex_cpm_carree : carree ex_cpm_matrice.
Proof.
  intros row Hrow. unfold ex_cpm_matrice in Hrow.
  rewrite !elem_of_cons, elem_of_nil in Hrow.
  by destruct Hrow as [->|[->|[->|[->|[->|[->|[]]]]]]].
Qed.

Lemma ex_cpm_acyclique : acyclique ex_cpm_matrice.
Proof.
  destruct (elimination ex_cpm_matrice) as [st| |] eqn:E; try done.
  apply (acyclique_test ex_cpm_matrice st ex_cpm_carree E).
  vm_compute in E. by injection E as <-.
Qed.

Lemma calculer_rangs_plus_long_temoin :
  matrix ex_cpm_graphe = Some ex_cpm_matrice /\ 0 < length ex_cpm_matrice /\
  carree ex_cpm_matrice /\ acyclique ex_cpm_matrice /\
  calculer_rangs ex_cpm_graphe = Ret (Some [0; 1; 1; 2; 3; 4]%Z) /\
  forall p s, chemin_de (arc ex_cpm_matrice) s 5 p -> longueur p <= 4.
Proof.
  assert (Hl : 0 < length ex_cpm_matrice) by (simpl; lia).
  split; [reflexivity|]. split; [exact Hl|].
  split; [exact ex_cpm_carree|]. split; [exact ex_cpm_acyclique|].
  split; [reflexivity|].
  destruct (calculer_rangs_plus_long ex_cpm_graphe ex_cpm_matrice eq_refl Hl
              ex_cpm_carree ex_cpm_acyclique) as (ranks & Hr & Hv).
  vm_compute in Hr. injection Hr as <-.
  destruct (Hv 5) as (k & Hk & _ & _ & Hmax); [simpl; lia|].
  simpl in Hk. injection Hk as Hk. assert (k = 4) as -> by lia. exact Hmax.
Defined.

(** ** The calendars as extremal schedules *)

(** Total weight of a walk. *)
Fixpoint poids (m : matrice) (p : list nat) : Z :=
  match p with
  | u :: ((v :: _) as q) => (weight m u v + poids m q)%Z
  | _ => 0%Z
  end.

Lemma weight_cell m u v w : cell m u v = Some w -> weight m u v = w.
Proof. unfold weight. by intros ->. Qed.

Lemma poids_snoc m p u v :
  poids m (p ++ [u; v]) = (poids m (p ++ [u]) + weight m u v)%Z.
Proof.
  induction p as [|x [|y p] IH].
  - simpl. lia.
  - simpl. lia.
  - change (poids m ((x :: y :: p) ++ [u; v]))
      with (weight m x y + poids m ((y :: p) ++ [u; v]))%Z.
    change (poids m ((x :: y :: p) ++ [u]))
      with (weight m x y + poids m ((y :: p) ++ [u]))%Z.
    rewrite IH. lia.
Qed.

Section Dates.
Variable m : matrice.
Variable om : nat.
Variable early : list Z.
Variable late : list ext.
Variable T : Z.
Hypothesis Hc : carree m.
Hypothesis Hac : acyclique m.
Hypothesis Hd : dates m om early late T.

Lemma tot_positif v e : early !! v = Some e -> (0 <= e)%Z.
Proof.
  intros He. assert (Hv : v < length m).
  { rewrite <- (d_early_length _ _ _ _ _ Hd). by apply lookup_lt_Some in He. }
  destruct (d_early _ _ _ _ _ Hd v Hv) as (e' & He' & Hpos & _). congruence.
Qed.

Lemma tot_arc u v w eu ev :
  cell m u v = Some w -> early !! u = Some eu -> early !! v = Some ev ->
  (eu + w <= ev)%Z.
Proof.
  intros Hw Hu Hv. assert (Hlt : v < length m).
  { rewrite <- (d_early_length _ _ _ _ _ Hd). by apply lookup_lt_Some in Hv. }
  destruct (d_early _ _ _ _ _ Hd v Hlt) as (e' & He' & _ & Hle & _).
  rewrite Hv in He'. injection He' as <-.
  rewrite <- (weight_cell m u v w Hw). apply Hle; [|done].
  apply arc_is_Some. by rewrite Hw.
Qed.

Lemma tot_minimal (s : list Z) :
  length s = length m ->
  (forall v sv, s !! v = Some sv -> (0 <= sv)%Z) ->
  (forall u v w su sv, cell m u v = Some w -> s !! u = Some su ->
     s !! v = Some sv -> (su + w <= sv)%Z) ->
  forall v e sv, early !! v = Some e -> s !! v = Some sv -> (e <= sv)%Z.
Proof.
  intros Hls Hpos Harc.
  apply (sans_circuit_ind (arc m) (length m)
    (fun v => forall e sv, early !! v = Some e -> s !! v = Some sv -> (e <= sv)%Z)
    Hac (fun u v => arc_range m u v Hc)).
  intros v IH e sv He Hs.
  assert (Hv : v < length m).
  { rewrite <- Hls. by apply lookup_lt_Some in Hs. }
  destruct (d_early _ _ _ _ _ Hd v Hv) as (e' & He' & _ & _ & Hor).
  rewrite He in He'. injection He' as <-.
  destruct Hor as [->|(u & eu & Hu & Heu & ->)]; [by apply (Hpos v)|].
  destruct (lookup_lt_is_Some_2 s u) as [su Hsu].
  { rewrite Hls. by apply arc_lt in Hu. }
  pose proof (IH u Hu eu su Heu Hsu).
  apply arc_is_Some in Hu as [w Hw]. rewrite (weight_cell m u v w Hw).
  pose proof (Harc u v w su sv Hw Hsu Hs). lia.
Qed.

Lemma tot_chemin p : forall a b ea eb,
  chemin_de (arc m) a b p -> early !! a = Some ea -> early !! b = Some eb ->
  (ea + poids m p <= eb)%Z.
Proof.
  induction p as [|x [|y p] IH]; intros a b ea eb (Hp & Hh & Hl) Ha Hb.
  - done.
  - simpl in *. injection Hh as ->. injection Hl as ->.
    rewrite Ha in Hb. injection Hb as ->. lia.
  - injection Hh as ->. destruct Hp as [Hxy Hp].
    destruct (lookup_lt_is_Some_2 early y) as [ey Hy].
    { rewrite (d_early_length _ _ _ _ _ Hd). by apply (arc_range m a y). }
    assert (Hq : chemin_de (arc m) y b (y :: p)).
    { split; [done|]. split; [done|]. by rewrite last_cons_cons in Hl. }
    pose proof (IH y b ey eb Hq Hy Hb).
    apply arc_is_Some in Hxy as [w Hw].
    pose proof (tot_arc a y w ea ey Hw Ha Hy).
    change (poids m (a :: y :: p)) with (weight m a y + poids m (y :: p))%Z.
    rewrite (weight_cell m a y w Hw). lia.
Qed.

Lemma tot_atteint : forall v, v < length m ->
  exists p s e, chemin_de (arc m) s v p /\ early !! v = Some e /\ poids m p = e.
Proof.
  apply (sans_circuit_ind (arc m) (length m)
    (fun v => v < length m ->
       exists p s e, chemin_de (arc m) s v p /\ early !! v = Some e /\ poids m p = e)
    Hac (fun u v => arc_range m u v Hc)).
  intros v IH Hv.
  destruct (d_early _ _ _ _ _ Hd v Hv) as (e & He & _ & _ & Hor).
  destruct Hor as [->|(u & eu & Hu & Heu & ->)].
  - exists [v], v, 0%Z. by repeat split.
  - destruct (IH u Hu) as (p & s & e' & (Hp & Hh & Hl) & He' & Hpe);
      [by apply arc_lt in Hu|].
    rewrite Heu in He'. injection He' as <-.
    apply last_Some in Hl as [p' ->].
    exists (p' ++ [u; v]), s, (eu + weight m u v)%Z. split; [split; [|split]|split].
    + by apply chemin_snoc.
    + by destruct p'.
    + change [u; v] with ([u] ++ [v]). by rewrite app_assoc, last_snoc.
    + done.
    + rewrite poids_snoc. lia.
Qed.
End Dates.

Lemma ex_cpm_calendriers :
  calculer_calendriers ex_cpm_graphe =
    Ret (Some [0; 0; 0; 3; 7; 8]%Z,
         Some [Fin 0; Fin 0; Fin 1; Fin 3; Fin 7; Fin 8],
         Some [Fin 0; Fin 0; Fin 1; Fin 0; Fin 0; Fin 0]).
Proof. vm_compute. reflexivity. Qed.

(** What [calculer_calendriers] returns on a square matrix without
    circuit, when it returns. *)
Lemma calculer_calendriers_dates o m early late margins :
  matrix o = Some m -> carree m -> acyclique m -> omega o < length m ->
  calculer_calendriers o = Ret (Some early, Some late, Some margins) ->
  exists T, dates m (omega o) early late T /\
            margins = zip_with ext_moins late early.
Proof.
  intros Hm Hc Hac Hom Hcal. apply calculer_calendriers_Ret in Hcal.
  destruct (calendrier_pur_acyclique o m Hm Hc Hac Hom)
    as (early' & late' & T & Hcal' & Hd).
  rewrite Hcal in Hcal'. injection Hcal' as -> -> ->. by exists T.
Qed.

(** It returns when the weights are small, and when omega is the only
    vertex without successor. *)
Lemma calculer_calendriers_acyclique_retourne o m :
  matrix o = Some m -> carree m -> acyclique m -> omega o < length m ->
  petit m \/ seul_puits m (omega o) ->
  exists early late margins,
    calculer_calendriers o = Ret (Some early, Some late, Some margins).
Proof.
  intros Hm Hc Hac Hom [Hp|Hs].
  - destruct (calculer_calendriers_petit_retourne o m Hm Hom Hp)
      as (early & late & margins & Hcal & _).
    by exists early, late, margins.
  - destruct (calculer_calendriers_acyclique o m Hm Hc Hac Hom Hs)
      as (early & late & T & Hcal & _).
    by eexists early, late, _.
Qed.

(** X10.  On a square matrix without circuit the earliest dates
    [calculer_calendriers] returns are the least schedule: no date is
    negative, along every arc the date of the head is at least the date of
    the tail plus the weight, and every list of dates with these two
    properties is at least the earliest dates, vertex by vertex.  The call
    returns when the weights are small enough for the dates to convert to
    floats, and when omega is the only vertex without successor. *)
Theorem calendrier_au_plus_tot o m :
  matrix o = Some m -> carree m -> acyclique m -> omega o < length m ->
  (petit m \/ seul_puits m (omega o) ->
   exists early late margins,
     calculer_calendriers o = Ret (Some early, Some late, Some margins)) /\
  forall early late margins,
    calculer_calendriers o = Ret (Some early, Some late, Some margins) ->
    (forall v e, early !! v = Some e -> (0 <= e)%Z) /\
    (forall u v w eu ev, cell m u v = Some w -> early !! u = Some eu ->
       early !! v = Some ev -> (eu + w <= ev)%Z) /\
    forall s : list Z,
      length s = length m ->
      (forall v sv, s !! v = Some sv -> (0 <= sv)%Z) ->
      (forall u v w su sv, cell m u v = Some w -> s !! u = Some su ->
         s !! v = Some sv -> (su + w <= sv)%Z) ->
      forall v e sv, early !! v = Some e -> s !! v = Some sv -> (e <= sv)%Z.
Proof.
  intros Hm Hc Hac Hom.
  split; [by apply calculer_calendriers_acyclique_retourne|].
  intros early late margins Hcal.
  destruct (calculer_calendriers_dates o m early late margins Hm Hc Hac Hom Hcal)
    as (T & Hd & _).
  split; [by apply (tot_positif m (omega o) early late T)|].
  split; [by apply (tot_arc m (omega o) early late T)|].
  by apply (tot_minimal m (omega o) early late T).
Qed.

Lemma calendrier_au_plus_tot_temoin :
  matrix ex_cpm_graphe = Some ex_cpm_matrice /\ carree ex_cpm_matrice /\
  acyclique ex_cpm_matrice /\ omega ex_cpm_graphe < length ex_cpm_matrice /\
  forall s : list Z,
    length s = 6 ->
    (forall v sv, s !! v = Some sv -> (0 <= sv)%Z) ->
    (forall u v w su sv, cell ex_cpm_matrice u v = Some w -> s !! u = Some su ->
       s !! v = Some sv -> (su + w <= sv)%Z) ->
    forall sv, s !! 5 = Some sv -> (8 <= sv)%Z.
Proof.
  assert (Ho : omega ex_cpm_graphe < length ex_cpm_matrice) by (simpl; lia).
  split; [reflexivity|]. split; [exact ex_cpm_carree|].
  split; [exact ex_cpm_acyclique|]. split; [exact Ho|].
  destruct (calendrier_au_plus_tot ex_cpm_graphe ex_cpm_matrice eq_refl
              ex_cpm_carree ex_cpm_acyclique Ho) as (_ & Hprop).
  destruct (Hprop _ _ _ ex_cpm_calendriers) as (_ & _ & Hmin).
  intros s Hl Hpos Harc sv Hsv.
  exact (Hmin s Hl Hpos Harc 5 8%Z sv eq_refl Hsv).
Defined.

(** X11.  On a square matrix without circuit the earliest date
    [calculer_calendriers] returns for a vertex is the weight of the
    heaviest walk that ends at it (the walk reduced to the vertex weighs
    0); in particular the total duration [early[omega]] is the weight of
    the heaviest walk to omega.  The call returns when the weights are
    small enough for the dates to convert to floats, and when omega is the
    only vertex without successor. *)
Theorem calendrier_plus_lourd o m :
  matrix o = Some m -> carree m -> acyclique m -> omega o < length m ->
  (petit m \/ seul_puits m (omega o) ->
   exists early late margins,
     calculer_calendriers o = Ret (Some early, Some late, Some margins)) /\
  forall early late margins,
    calculer_calendriers o = Ret (Some early, Some late, Some margins) ->
    forall v, v < length m ->
      exists e, early !! v = Some e /\
        (exists p s, chemin_de (arc m) s v p /\ poids m p = e) /\
        (forall p s, chemin_de (arc m) s v p -> (poids m p <= e)%Z).
Proof.
  intros Hm Hc Hac Hom.
  split; [by apply calculer_calendriers_acyclique_retourne|].
  intros early late margins Hcal.
  destruct (calculer_calendriers_dates o m early late margins Hm Hc Hac Hom Hcal)
    as (T & Hd & _).
  intros v Hv.
  destruct (tot_atteint m (omega o) early late T Hc Hac Hd v Hv)
    as (p & s & e & Hp & He & Hpe).
  exists e. split; [done|]. split; [by exists p, s|].
  intros p' s' Hp'.
  destruct (lookup_lt_is_Some_2 early s') as [es Hes].
  { rewrite (d_early_length _ _ _ _ _ Hd).
    apply (chemin_de_borne m s' v p' Hc Hp' Hv).
    destruct Hp' as (_ & Hh & _). destruct p'; [done|].
    injection Hh as ->. by left. }
  pose proof (tot_positif m (omega o) early late T Hd s' es Hes).
  pose proof (tot_chemin m (omega o) early late T Hc Hd p' s' v es e Hp' Hes He).
  lia.
Qed.

Lemma calendrier_plus_lourd_temoin :
  matrix ex_cpm_graphe = Some ex_cpm_matrice /\ carree ex_cpm_matrice /\
  acyclique ex_cpm_matrice /\ omega ex_cpm_graphe < length ex_cpm_matrice /\
  forall p s, chemin_de (arc ex_cpm_matrice) s 5 p ->
    (poids ex_cpm_matrice p <= 8)%Z.
Proof.
  assert (Ho : omega ex_cpm_graphe < length ex_cpm_matrice) by (simpl; lia).
  split; [reflexivity|]. split; [exact ex_cpm_carree|].
  split; [exact ex_cpm_acyclique|]. split; [exact Ho|].
  destruct (calendrier_plus_lourd ex_cpm_graphe ex_cpm_matrice eq_refl
              ex_cpm_carree ex_cpm_acyclique Ho) as (_ & Hprop).
  destruct (Hprop _ _ _ ex_cpm_calendriers 5 Ho) as (e & He & _ & Hmax).
  simpl in He. injection He as <-. exact Hmax.
Defined.

Lemma ext_le_trans a b c : ext_le a b -> ext_le b c -> ext_le a c.
Proof. destruct a, b, c; simpl; try done. lia. Qed.

Lemma ext_moins_mono a b w :
  ext_le a b -> ext_le (ext_moins a w) (ext_moins b w).
Proof. destruct a, b; simpl; try done. lia. Qed.

Section Tard.
Variable m : matrice.
Variable om : nat.
Variable early : list Z.
Variable late : list ext.
Variable T : Z.
Hypothesis Hc : carree m.
Hypothesis Hac : acyclique m.
Hypothesis Hd : dates m om early late T.

Lemma tard_omega l : late !! om = Some l -> ext_le l (Fin T).
Proof.
  intros Hl. assert (Hv : om < length m).
  { rewrite <- (d_late_length _ _ _ _ _ Hd). by apply lookup_lt_Some in Hl. }
  destruct (d_late _ _ _ _ _ Hd om Hv) as (l' & Hl' & Hle & _).
  rewrite decide_True in Hle by done. congruence.
Qed.

Lemma tard_arc u v w lu lv :
  cell m u v = Some w -> late !! u = Some lu -> late !! v = Some lv ->
  ext_le lu (ext_moins lv w).
Proof.
  intros Hw Hu Hv. assert (Hlt : u < length m).
  { rewrite <- (d_late_length _ _ _ _ _ Hd). by apply lookup_lt_Some in Hu. }
  destruct (d_late _ _ _ _ _ Hd u Hlt) as (l' & Hl' & _ & Hle & _).
  rewrite Hu in Hl'. injection Hl' as <-.
  rewrite <- (weight_cell m u v w Hw). apply Hle; [|done].
  apply arc_is_Some. by rewrite Hw.
Qed.

Lemma tard_maximal (s : list ext) :
  length s = length m ->
  (forall sv, s !! om = Some sv -> ext_le sv (Fin T)) ->
  (forall u v w su sv, cell m u v = Some w -> s !! u = Some su ->
     s !! v = Some sv -> ext_le su (ext_moins sv w)) ->
  forall v l sv, late !! v = Some l -> s !! v = Some sv -> ext_le sv l.
Proof.
  intros Hls Hom Harc.
  apply (sans_circuit_ind (flip (arc m)) (length m)
    (fun v => forall l sv, late !! v = Some l -> s !! v = Some sv -> ext_le sv l)
    (sans_circuit_flip _ Hac)).
  { intros u v Huv. destruct (arc_range m v u Hc Huv). done. }
  intros v IH l sv Hl Hs.
  assert (Hv : v < length m).
  { rewrite <- Hls. by apply lookup_lt_Some in Hs. }
  destruct (d_late _ _ _ _ _ Hd v Hv) as (l' & Hl' & _ & _ & Hor).
  rewrite Hl in Hl'. injection Hl' as <-.
  destruct Hor as [->|(w & lw & Hw & Hlw & ->)].
  - destruct (decide (v = om)) as [->|_]; [by apply Hom|by destruct sv].
  - destruct (lookup_lt_is_Some_2 s w) as [sw Hsw].
    { rewrite Hls. by apply (arc_range m v w). }
    pose proof (IH w Hw lw sw Hlw Hsw) as Hle.
    apply arc_is_Some in Hw as [c Hcw]. rewrite (weight_cell m v w c Hcw).
    apply (ext_le_trans _ (ext_moins sw c)); [by apply (Harc v w)|].
    by apply ext_moins_mono.
Qed.
End Tard.

(** X12.  On a square matrix without circuit the latest dates
    [calculer_calendriers] returns are the greatest schedule that ends on
    time: the latest date of omega is at most the total duration, along
    every arc the date of the tail is at most the date of the head minus
    the weight, and every list of dates with these two properties is at
    most the latest dates, vertex by vertex.  The call returns when the
    weights are small enough for the dates to convert to floats, and when
    omega is the only vertex without successor. *)
Theorem calendrier_au_plus_tard o m :
  matrix o = Some m -> carree m -> acyclique m -> omega o < length m ->
  (petit m \/ seul_puits m (omega o) ->
   exists early late margins,
     calculer_calendriers o = Ret (Some early, Some late, Some margins)) /\
  forall early late margins,
    calculer_calendriers o = Ret (Some early, Some late, Some margins) ->
    exists T,
      early !! omega o = Some T /\
      (forall l, late !! omega o = Some l -> ext_le l (Fin T)) /\
      (forall u v w lu lv, cell m u v = Some w -> late !! u = Some lu ->
         late !! v = Some lv -> ext_le lu (ext_moins lv w)) /\
      forall s : list ext,
        length s = length m ->
        (forall sv, s !! omega o = Some sv -> ext_le sv (Fin T)) ->
        (forall u v w su sv, cell m u v = Some w -> s !! u = Some su ->
           s !! v = Some sv -> ext_le su (ext_moins sv w)) ->
        forall v l sv, late !! v = Some l -> s !! v = Some sv -> ext_le sv l.
Proof.
  intros Hm Hc Hac Hom.
  split; [by apply calculer_calendriers_acyclique_retourne|].
  intros early late margins Hcal.
  destruct (calculer_calendriers_dates o m early late margins Hm Hc Hac Hom Hcal)
    as (T & Hd & _).
  exists T. split; [apply Hd|].
  split; [by apply (tard_omega m (omega o) early late T)|].
  split; [by apply (tard_arc m (omega o) early late T)|].
  by apply (tard_maximal m (omega o) early late T).
Qed.

Lemma calendrier_au_plus_tard_temoin :
  matrix ex_cpm_graphe = Some ex_cpm_matrice /\ carree ex_cpm_matrice /\
  acyclique ex_cpm_matrice /\ omega ex_cpm_graphe < length ex_cpm_matrice /\
  forall s : list ext,
    length s = 6 ->
    (forall sv, s !! 5 = Some sv -> ext_le sv (Fin 8)) ->
    (forall u v w su sv, cell ex_cpm_matrice u v = Some w -> s !! u = Some su ->
       s !! v = Some sv -> ext_le su (ext_moins sv w)) ->
    forall sv, s !! 2 = Some sv -> ext_le sv (Fin 1).
Proof.
  assert (Ho : omega ex_cpm_graphe < length ex_cpm_matrice) by (simpl; lia).
  split; [reflexivity|]. split; [exact ex_cpm_carree|].
  split; [exact ex_cpm_acyclique|]. split; [exact Ho|].
  destruct (calendrier_au_plus_tard ex_cpm_graphe ex_cpm_matrice eq_refl
              ex_cpm_carree ex_cpm_acyclique Ho) as (_ & Hprop).
  destruct (Hprop _ _ _ ex_cpm_calendriers) as (T & HT & _ & _ & Hmax).
  simpl in HT. injection HT as <-.
  intros s Hl Hom Harc sv Hsv.
  exact (Hmax s Hl Hom Harc 2 (Fin 1) sv eq_refl Hsv).
Defined.

(** ** Every critical path is found *)

Lemma adj_critique_ssi m early late ce u v :
  carree m ->
  arcs_critiques m early late (seq 0 (length m)) [] = Ret ce ->
  (v ∈ succs (adj_critique (length m) ce) u <-> critique m early late u v).
Proof.
  intros Hc Hce. split; [by apply (adj_critique_critique m early late (seq 0 (length m)))|].
  intros Hcr. destruct (arc_range m u v Hc (critique_arc _ _ _ _ _ Hcr)) as [Hu Hv].
  apply adj_critique_complet; [done|].
  destruct (arcs_critiques_complet _ _ _ _ _ _ Hce) as [_ H].
  apply H; [apply elem_of_seq; lia|done|done].
Qed.

(** Omega is met only at the end of the walk. *)
Definition direct (om : nat) (p : list nat) : Prop := om ∉ removelast p.

Section Exhaustif.
Variable adj : list (list nat).
Variable om : nat.

(** What a call adds to [paths]: walks through [node] that stop at the
    first omega, and all of them. *)
Definition dfs_chemins_exact (rec : nat -> pstate -> outcome pstate) : Prop :=
  forall node p ps p' ps',
    rec node (p, ps) = Ret (p', ps') ->
    exists new, ps' = ps ++ new /\
      (forall q, q ∈ new -> exists rest, q = p ++ node :: rest /\
                                         direct om (node :: rest)) /\
      (forall rest, chemin (fun u v => v ∈ succs adj u) (node :: rest) ->
         last (node :: rest) = Some om -> direct om (node :: rest) ->
         p ++ node :: rest ∈ new).

Lemma direct_cons x y l : direct om (x :: y :: l) <-> x <> om /\ direct om (y :: l).
Proof.
  unfold direct. change (removelast (x :: y :: l)) with (x :: removelast (y :: l)).
  rewrite not_elem_of_cons. split; intros [? ?]; split; congruence.
Qed.

Lemma parcours_exact rec :
  dfs_chemins_sain adj om rec -> dfs_chemins_exact rec ->
  forall vs p ps p' ps',
    parcours rec vs (p, ps) = Ret (p', ps') ->
    exists new, ps' = ps ++ new /\
      (forall q, q ∈ new -> exists v rest, v ∈ vs /\ q = p ++ v :: rest /\
                                           direct om (v :: rest)) /\
      (forall v rest, v ∈ vs ->
         chemin (fun u v => v ∈ succs adj u) (v :: rest) ->
         last (v :: rest) = Some om -> direct om (v :: rest) ->
         p ++ v :: rest ∈ new).
Proof.
  intros Hsain Hrec. induction vs as [|v vs IH]; intros p ps p' ps' H; simpl in H.
  - injection H as <- <-. exists []. split; [by rewrite app_nil_r|]. split.
    + intros q Hq. by apply elem_of_nil in Hq.
    + intros v rest Hv. by apply elem_of_nil in Hv.
  - apply obind_Ret in H as ([p1 ps1] & H1 & H).
    destruct (Hsain v p ps p1 ps1 H1) as (-> & _).
    destruct (Hrec v p ps p ps1 H1) as (new1 & -> & Hd1 & Hc1).
    destruct (IH _ _ _ _ H) as (new2 & -> & Hd2 & Hc2).
    exists (new1 ++ new2). split; [by rewrite app_assoc|]. split.
    + intros q Hq. apply elem_of_app in Hq as [Hq|Hq].
      * destruct (Hd1 q Hq) as (rest & ? & ?). exists v, rest. split; [by left|done].
      * destruct (Hd2 q Hq) as (v' & rest & ? & ? & ?).
        exists v', rest. split; [by right|done].
    + intros v' rest Hv' Hp Hl Hdir. apply elem_of_app.
      destruct (decide (v' = v)) as [->|Hne]; [left; by apply Hc1|].
      right. apply Hc2; try done.
      apply elem_of_cons in Hv' as [?|?]; [done|done].
Qed.

Lemma dfs_chemins_exhaustif fuel : dfs_chemins_exact (dfs_chemins fuel adj om).
Proof.
  induction fuel as [|fuel IH]; intros node p ps p' ps' H; [done|].
  simpl in H. apply obind_Ret in H as ([p1 ps1] & H1 & H).
  simpl in H. injection H as <- <-.
  destruct (Nat.eqb_spec node om) as [->|Hne].
  - injection H1 as <- <-. exists [p ++ [om]]. split; [done|]. split.
    + intros q Hq. apply list_elem_of_singleton in Hq as ->.
      exists []. split; [done|]. unfold direct. simpl. apply not_elem_of_nil.
    + intros rest _ _ Hdir. destruct rest as [|y rest]; [by left|].
      apply direct_cons in Hdir as [? _]. done.
  - destruct (parcours_exact _ (dfs_chemins_valide adj om fuel) IH _ _ _ _ _ H1)
      as (new & -> & Hd & Hc).
    exists new. split; [done|]. split.
    + intros q Hq. destruct (Hd q Hq) as (v & rest & _ & -> & Hdir).
      exists (v :: rest). split; [by rewrite <- app_assoc|].
      by apply direct_cons.
    + intros rest Hp Hl Hdir. destruct rest as [|v rest].
      { simpl in Hl. congruence. }
      destruct Hp as [Hv Hp]. rewrite last_cons_cons in Hl.
      apply direct_cons in Hdir as [_ Hdir].
      replace (p ++ node :: v :: rest) with ((p ++ [node]) ++ v :: rest)
        by (by rewrite <- app_assoc).
      by apply Hc.
Qed.
End Exhaustif.

Lemma chemins_critiques_exacts_lemme fuel o m early late paths :
  matrix o = Some m -> carree m ->
  trouver_chemins_critiques fuel o (Some early) (Some late) = Ret (Some paths) ->
  forall p,
    p ∈ paths <->
    chemin_de (critique m early late) (alpha o) (omega o) p /\ direct (omega o) p.
Proof.
  intros Hm Hc H p. unfold trouver_chemins_critiques in H.
  destruct (sans_matrice o) eqn:Hs; [done|]. rewrite Hm in H.
  apply obind_Ret in H as (ce & Hce & H).
  apply obind_Ret in H as ([p' ps'] & Hdfs & H).
  simpl in H. injection H as <-.
  pose proof (adj_critique_ssi m early late ce) as Hadj.
  destruct (dfs_chemins_valide _ _ fuel _ _ _ _ _ Hdfs) as (_ & new & -> & Hn).
  destruct (dfs_chemins_exhaustif _ _ fuel _ _ _ _ _ Hdfs) as (new' & Heq & Hd & Hcomp).
  simpl in Heq. subst new'. simpl. split.
  - intros Hp. split.
    + destruct (Hn p Hp) as (v & rest & Hv & -> & Hch & Hlast).
      apply list_elem_of_singleton in Hv as ->. simpl.
      split; [|done].
      apply (chemin_impl (fun u v => v ∈ succs (adj_critique (length m) ce) u));
        [|done].
      intros u v. by apply Hadj.
    + destruct (Hd p Hp) as (rest & -> & Hdir). done.
  - intros [(Hch & Hh & Hl) Hdir]. destruct p as [|x rest]; [done|].
    injection Hh as ->. apply (Hcomp rest); [|done|done].
    apply (chemin_impl (critique m early late)); [|done].
    intros u v. by apply Hadj.
Qed.


(** X13.  When [trouver_chemins_critiques] returns, its list holds
    exactly the walks from alpha made of arcs without slack that stop at
    the first omega they meet: every returned path is one, and none is
    missing. *)
Theorem chemins_critiques_exacts fuel o m early late paths :
  matrix o = Some m -> carree m ->
  trouver_chemins_critiques fuel o (Some early) (Some late) = Ret (Some paths) ->
  forall p,
    p ∈ paths <->
    chemin_de (critique m early late) (alpha o) (omega o) p /\ direct (omega o) p.
Proof. apply chemins_critiques_exacts_lemme. Qed.

Lemma chemins_critiques_exacts_temoin :
  matrix ex_cpm_graphe = Some ex_cpm_matrice /\ carree ex_cpm_matrice /\
  trouver_chemins_critiques 7 ex_cpm_graphe (Some [0; 0; 0; 3; 7; 8]%Z)
    (Some [Fin 0; Fin 0; Fin 1; Fin 3; Fin 7; Fin 8]) =
    Ret (Some [[0; 1; 3; 4; 5]]) /\
  forall p,
    chemin_de (critique ex_cpm_matrice [0; 0; 0; 3; 7; 8]%Z
                 [Fin 0; Fin 0; Fin 1; Fin 3; Fin 7; Fin 8]) 0 5 p ->
    direct 5 p -> p = [0; 1; 3; 4; 5].
Proof.
  assert (Hc : carree ex_cpm_matrice).
  { intros row Hrow. unfold ex_cpm_matrice in Hrow.
    rewrite !elem_of_cons, elem_of_nil in Hrow.
    by destruct Hrow as [->|[->|[->|[->|[->|[->|[]]]]]]]. }
  split; [reflexivity|]. split; [exact Hc|]. split; [reflexivity|].
  intros p Hp Hdir.
  pose proof (proj2 (chemins_critiques_exacts 7 ex_cpm_graphe ex_cpm_matrice
                       [0; 0; 0; 3; 7; 8]%Z
                       [Fin 0; Fin 0; Fin 1; Fin 3; Fin 7; Fin 8]
                       [[0; 1; 3; 4; 5]] eq_refl Hc eq_refl p)
                    (conj Hp Hdir)) as Hin.
  by apply list_elem_of_singleton in Hin.
Defined.

(** ** Critical paths of a validated graph *)

Lemma trouver_chemins_critiques_retourne fuel o m early late :
  matrix o = Some m -> 0 < length m ->
  length early = length m -> length late = length m ->
  sans_debordement m early late ->
  sans_circuit (critique m early late) -> length m < fuel ->
  exists paths,
    trouver_chemins_critiques fuel o (Some early) (Some late) = Ret (Some paths).
Proof.
  intros Hm Hl Hle Hll Hsd Hac Hfuel. unfold trouver_chemins_critiques.
  rewrite (sans_matrice_false o m Hm Hl), Hm.
  destruct (arcs_critiques_retourne m early late (seq 0 (length m)) [])
    as [ce Hce].
  { intros i Hi. apply elem_of_seq in Hi. lia. }
  { lia. }
  { done. }
  rewrite Hce. simpl.
  assert (HE : forall u v, v ∈ succs (adj_critique (length m) ce) u ->
    critique m early late u v).
  { intros u v. by apply (adj_critique_critique m early late (seq 0 (length m))). }
  destruct (dfs_chemins_termine (adj_critique (length m) ce) (omega o) (length m)
              (sans_circuit_impl _ _ HE Hac)) with (fuel := fuel)
    (node := alpha o) (p := @nil nat) (ps := @nil (list nat)) as [ps' Hps].
  - intros u v Huv. apply HE in Huv as (w & l & e & _ & Hv & _).
    apply lookup_lt_Some in Hv. lia.
  - done.
  - simpl. lia.
  - rewrite Hps. simpl. by eexists.
Qed.

Section Critiques.
Variable t : table.
Variable m : matrice.
Variable early : list Z.
Variable late : list ext.
Variable T : Z.
Hypothesis Hg : graphe_taches t m.
Hypothesis Hac : acyclique m.
Hypothesis Hn : 1 <= length t.
Hypothesis Hpos : forall u v w, cell m u v = Some w -> (0 <= w)%Z.
Hypothesis Hd : dates m (length t + 1) early late T.

Lemma critique_tendu u v eu :
  critique m early late u v -> early !! u = Some eu ->
  early !! v = Some (eu + weight m u v)%Z /\
  late !! v = Some (Fin (eu + weight m u v)).
Proof.
  intros (w & l & e & Hw & Hl & He & Hz) Hu.
  rewrite Hu in He. injection He as <-.
  rewrite (weight_cell m u v w Hw).
  assert (Hv : v < length m).
  { rewrite <- (d_late_length _ _ _ _ _ Hd). by apply lookup_lt_Some in Hl. }
  destruct (lookup_lt_is_Some_2 early v) as [ev Hev].
  { by rewrite (d_early_length _ _ _ _ _ Hd). }
  pose proof (tot_arc m _ early late T Hd u v w eu ev Hw Hu Hev).
  pose proof (cal_early_late t m early late T Hg Hac Hn Hd v ev l Hv Hev Hl).
  assert (ev = eu + w)%Z as -> by lia. assert (l = eu + w)%Z as -> by lia.
  done.
Qed.

Lemma critique_poids p : forall a ea b,
  chemin (critique m early late) (a :: p) -> early !! a = Some ea ->
  last (a :: p) = Some b ->
  early !! b = Some (ea + poids m (a :: p))%Z /\
  forall v, v ∈ p -> exists e, early !! v = Some e /\ late !! v = Some (Fin e).
Proof.
  induction p as [|y p IH]; intros a ea b Hp Ha Hl.
  - simpl in *. injection Hl as <-. rewrite Z.add_0_r. split; [done|].
    intros v Hv. by apply elem_of_nil in Hv.
  - destruct Hp as [Hay Hp]. rewrite last_cons_cons in Hl.
    destruct (critique_tendu a y ea Hay Ha) as [Hy Hly].
    destruct (IH y _ b Hp Hy Hl) as [Hb Hmarge].
    change (poids m (a :: y :: p)) with (weight m a y + poids m (y :: p))%Z.
    split; [by rewrite Z.add_assoc|].
    intros v Hv. apply elem_of_cons in Hv as [->|Hv]; [by eexists|by apply Hmarge].
Qed.

Lemma tendu_suite : forall u, u < length m ->
  forall e, early !! u = Some e -> late !! u = Some (Fin e) ->
  exists q, chemin (critique m early late) (u :: q) /\
            last (u :: q) = Some (length t + 1) /\ direct (length t + 1) (u :: q).
Proof.
  pose proof (gt_carree t m Hg) as Hc.
  apply (sans_circuit_ind (flip (arc m)) (length m)
    (fun u => u < length m ->
       forall e, early !! u = Some e -> late !! u = Some (Fin e) ->
       exists q, chemin (critique m early late) (u :: q) /\
                 last (u :: q) = Some (length t + 1) /\
                 direct (length t + 1) (u :: q))
    (sans_circuit_flip _ Hac)).
  { intros u v Huv. destruct (arc_range m v u Hc Huv). done. }
  intros u IH Hu e He Hl.
  destruct (decide (u = length t + 1)) as [->|Hne].
  { exists []. split; [done|]. split; [done|]. unfold direct. simpl.
    apply not_elem_of_nil. }
  destruct (d_late _ _ _ _ _ Hd u Hu) as (l & Hl' & _ & _ & Hor).
  rewrite Hl in Hl'. injection Hl' as <-.
  rewrite decide_False in Hor by done.
  destruct Hor as [?|(w & lw & Hw & Hlw & Heq)]; [done|].
  destruct (arc_range m u w Hc Hw) as [_ Hwlt].
  destruct lw as [lw|]; [|done]. simpl in Heq. injection Heq as Heq.
  destruct (lookup_lt_is_Some_2 early w) as [ew Hew].
  { by rewrite (d_early_length _ _ _ _ _ Hd). }
  pose proof (cal_early_late t m early late T Hg Hac Hn Hd w ew lw Hwlt Hew Hlw).
  pose proof Hw as Hw'. apply arc_is_Some in Hw' as [c Hcw].
  pose proof (tot_arc m _ early late T Hd u w c e ew Hcw He Hew).
  rewrite (weight_cell m u w c Hcw) in Heq.
  assert (ew = lw) as -> by lia.
  destruct (IH w Hw Hwlt lw Hew Hlw) as (q & Hq & Hlast & Hdir).
  exists (w :: q). split; [split; [|done]|split].
  - exists c, lw, e. repeat split; try done. lia.
  - by rewrite last_cons_cons.
  - by apply direct_cons.
Qed.
End Critiques.

(** X14.  On a validated graph (identifiers 1..n with at least one task,
    no negative weight, no circuit) the search returns at least one
    critical path; the weights of the arcs of every returned path add up
    to the total duration [early[omega]], and every vertex on it has
    margin 0. *)
Theorem chemins_critiques_duree fuel t o' m :
  bien_formee t -> 1 <= length t ->
  construire_graphe (charger init t) = Ret o' -> matrix o' = Some m ->
  acyclique m -> (forall u v w, cell m u v = Some w -> (0 <= w)%Z) ->
  length m < fuel ->
  exists early late margins T paths,
    calculer_calendriers o' = Ret (Some early, Some late, Some margins) /\
    early !! omega o' = Some T /\
    trouver_chemins_critiques fuel o' (Some early) (Some late) = Ret (Some paths) /\
    paths <> [] /\
    forall p, p ∈ paths ->
      poids m p = T /\ forall v, v ∈ p -> margins !! v = Some (Fin 0).
Proof.
  intros Hbf Hn H Hm Hac Hpos Hfuel.
  pose proof (construire_graphe_taches t o' m Hbf H Hm) as Hg.
  pose proof (gt_carree t m Hg) as Hc.
  pose proof (gt_length t m Hg) as Hlen.
  destruct (charger_init_champs t o' H) as (_ & _ & Ha & Ho).
  destruct (calculer_calendriers_acyclique o' m Hm Hc Hac ltac:(lia)
              ltac:(rewrite Ho; by apply (gt_seul_puits t)))
    as (early & late & T & Hcal & Hd).
  rewrite Ho in Hd.
  destruct (trouver_chemins_critiques_retourne fuel o' m early late Hm)
    as [paths Hpaths]; [lia|apply Hd|apply Hd| | |done|].
  { by apply (dates_sans_debordement m (length t + 1) early late T Hc Hac
                (gt_seul_puits t m Hg Hac Hn) Hd). }
  { apply (sans_circuit_impl _ (arc m)); [|done].
    intros u v. apply critique_arc. }
  pose proof (chemins_critiques_exacts_lemme fuel o' m early late paths Hm Hc Hpaths)
    as Hex.
  rewrite Ha, Ho in Hex.
  pose proof (cal_early_alpha t m early late T Hg Hn Hd) as He0.
  pose proof (cal_late_alpha t m early late T Hg Hac Hn Hpos Hd) as Hl0.
  exists early, late, (zip_with ext_moins late early), T, paths.
  split; [done|]. split; [rewrite Ho; apply Hd|]. split; [done|]. split.
  - destruct (tendu_suite t m early late T Hg Hac Hn Hd 0 ltac:(lia) 0%Z He0 Hl0)
      as (q & Hq & Hlast & Hdir).
    assert (Hin : 0 :: q ∈ paths) by (by apply Hex).
    intros ->. by apply elem_of_nil in Hin.
  - intros p Hp. apply Hex in Hp as [(Hch & Hh & Hl) _].
    destruct p as [|a p]; [done|]. injection Hh as ->.
    destruct (critique_poids t m early late T Hg Hac Hn Hd p 0 0%Z _ Hch He0 Hl)
      as [Hb Hmarge].
    split.
    + pose proof (d_total _ _ _ _ _ Hd) as HT. rewrite HT in Hb.
      injection Hb as Hb. by rewrite Hb, Z.add_0_l.
    + intros v Hv.
      assert (Hel : exists e, early !! v = Some e /\ late !! v = Some (Fin e)).
      { apply elem_of_cons in Hv as [->|Hv]; [by exists 0%Z|by apply Hmarge]. }
      destruct Hel as (e & He & Hl'). rewrite lookup_zip_with, Hl'. simpl.
      rewrite He. simpl. by rewrite Z.sub_diag.
Qed.

Lemma chemins_critiques_duree_temoin :
  bien_formee ex_cpm /\ 1 <= length ex_cpm /\
  construire_graphe (charger init ex_cpm) = Ret ex_cpm_graphe /\
  acyclique ex_cpm_matrice /\
  (forall u v w, cell ex_cpm_matrice u v = Some w -> (0 <= w)%Z) /\
  trouver_chemins_critiques 7 ex_cpm_graphe (Some [0; 0; 0; 3; 7; 8]%Z)
    (Some [Fin 0; Fin 0; Fin 1; Fin 3; Fin 7; Fin 8]) =
    Ret (Some [[0; 1; 3; 4; 5]]) /\
  poids ex_cpm_matrice [0; 1; 3; 4; 5] = 8%Z.
Proof.
  assert (Hn : 1 <= length ex_cpm) by (simpl; lia).
  assert (Hfuel : length ex_cpm_matrice < 7) by (simpl; lia).
  assert (Hpos : forall u v w, cell ex_cpm_matrice u v = Some w -> (0 <= w)%Z).
  { apply has_negative_spec; [exact ex_cpm_carree|reflexivity]. }
  split; [exact ex_cpm_bien_formee|]. split; [exact Hn|].
  split; [reflexivity|]. split; [exact ex_cpm_acyclique|].
  split; [exact Hpos|]. split; [reflexivity|].
  destruct (chemins_critiques_duree 7 ex_cpm ex_cpm_graphe ex_cpm_matrice
              ex_cpm_bien_formee Hn eq_refl eq_refl ex_cpm_acyclique Hpos Hfuel)
    as (early & late & margins & T & paths & Hcal & HT & Hpaths & _ & Hp).
  rewrite ex_cpm_calendriers in Hcal. injection Hcal as <- <- <-.
  simpl in HT. injection HT as <-.
  vm_compute in Hpaths. injection Hpaths as <-.
  apply (Hp [0; 1; 3; 4; 5]). by left.
Defined.

(** ** Margins and critical paths *)

Lemma direct_graphe_taches t m p :
  graphe_taches t m -> chemin (arc m) p -> direct (length t + 1) p.
Proof.
  intros Hg Hp Hin. destruct (decide (p = [])) as [->|Hne].
  { by apply elem_of_nil in Hin. }
  destruct (exists_last Hne) as (p' & z & ->).
  rewrite removelast_last in Hin.
  destruct (chemin_elem_source (arc m) p' z Hp _ Hin) as [y Hy].
  apply (gt_region t m _ _ Hg) in Hy. lia.
Qed.

Section Marges.
Variable t : table.
Variable m : matrice.
Variable early : list Z.
Variable late : list ext.
Variable T : Z.
Hypothesis Hg : graphe_taches t m.
Hypothesis Hac : acyclique m.
Hypothesis Hn : 1 <= length t.
Hypothesis Hpos : forall u v w, cell m u v = Some w -> (0 <= w)%Z.
Hypothesis Hd : dates m (length t + 1) early late T.

Lemma tendu_amont : forall v, v < length m ->
  forall e, early !! v = Some e -> late !! v = Some (Fin e) ->
  exists q, chemin (critique m early late) (q ++ [v]) /\
            head (q ++ [v]) = Some 0.
Proof.
  pose proof (gt_carree t m Hg) as Hc.
  apply (sans_circuit_ind (arc m) (length m)
    (fun v => v < length m ->
       forall e, early !! v = Some e -> late !! v = Some (Fin e) ->
       exists q, chemin (critique m early late) (q ++ [v]) /\
                 head (q ++ [v]) = Some 0)
    Hac (fun u v => arc_range m u v Hc)).
  intros v IH Hv e He Hl.
  destruct (decide (v = 0)) as [->|Hne]; [by exists []|].
  assert (Hpred : exists u eu w, cell m u v = Some w /\ early !! u = Some eu /\
                                 e = (eu + w)%Z).
  { destruct (d_early _ _ _ _ _ Hd v Hv) as (e' & He' & _ & _ & Hor).
    rewrite He in He'. injection He' as <-.
    destruct Hor as [->|(u & eu & Hu & Heu & ->)].
    - destruct (cal_predecesseur t m Hg Hac Hn v Hv Hne) as [u Hu].
      pose proof Hu as Hu'. apply arc_is_Some in Hu' as [w Hw].
      destruct (lookup_lt_is_Some_2 early u) as [eu Heu].
      { rewrite (d_early_length _ _ _ _ _ Hd). by apply arc_lt in Hu. }
      pose proof (tot_positif m _ early late T Hd u eu Heu).
      pose proof (tot_arc m _ early late T Hd u v w eu 0%Z Hw Heu He).
      pose proof (Hpos u v w Hw).
      exists u, eu, w. split; [done|]. split; [done|]. lia.
    - pose proof Hu as Hu'. apply arc_is_Some in Hu' as [w Hw].
      exists u, eu, w. by rewrite (weight_cell m u v w Hw). }
  destruct Hpred as (u & eu & w & Hw & Heu & ->).
  assert (Hu : arc m u v) by (apply arc_is_Some; by rewrite Hw).
  assert (Hult : u < length m) by (by apply arc_lt in Hu).
  destruct (cal_late_fini t m early late T Hg Hac Hn Hpos Hd u Hult) as (lu & Hlu & _).
  pose proof (tard_arc m _ early late T Hd u v w _ _ Hw Hlu Hl) as Hle.
  simpl in Hle.
  pose proof (cal_early_late t m early late T Hg Hac Hn Hd u eu lu Hult Heu Hlu).
  assert (lu = eu) as -> by lia.
  destruct (IH u Hu Hult eu Heu Hlu) as (q & Hq & Hh).
  exists (q ++ [u]). split.
  - rewrite <- app_assoc. apply chemin_snoc; [done|].
    exists w, (eu + w)%Z, eu. repeat split; try done. lia.
  - by destruct q.
Qed.

Lemma marge_nulle v :
  v < length m ->
  (zip_with ext_moins late early !! v = Some (Fin 0) <->
   exists e, early !! v = Some e /\ late !! v = Some (Fin e)).
Proof.
  intros Hv. rewrite lookup_zip_with.
  destruct (cal_late_fini t m early late T Hg Hac Hn Hpos Hd v Hv) as (l & Hl & _).
  destruct (lookup_lt_is_Some_2 early v) as [e He].
  { by rewrite (d_early_length _ _ _ _ _ Hd). }
  rewrite Hl, He. simpl. split.
  - intros [= H]. exists e. split; [done|]. f_equal. f_equal. lia.
  - intros (e' & [= <-] & [= ->]). by rewrite Z.sub_diag.
Qed.
End Marges.

(** X15.  On a validated graph (identifiers 1..n with at least one task,
    no negative weight, no circuit) a vertex has margin 0 exactly when it
    lies on one of the critical paths [trouver_chemins_critiques]
    returns. *)
Theorem marge_nulle_ssi_critique fuel t o' m :
  bien_formee t -> 1 <= length t ->
  construire_graphe (charger init t) = Ret o' -> matrix o' = Some m ->
  acyclique m -> (forall u v w, cell m u v = Some w -> (0 <= w)%Z) ->
  length m < fuel ->
  exists early late margins paths,
    calculer_calendriers o' = Ret (Some early, Some late, Some margins) /\
    trouver_chemins_critiques fuel o' (Some early) (Some late) = Ret (Some paths) /\
    forall v, v < length m ->
      (margins !! v = Some (Fin 0) <-> exists p, p ∈ paths /\ v ∈ p).
Proof.
  intros Hbf Hn H Hm Hac Hpos Hfuel.
  pose proof (construire_graphe_taches t o' m Hbf H Hm) as Hg.
  pose proof (gt_carree t m Hg) as Hc.
  pose proof (gt_length t m Hg) as Hlen.
  destruct (charger_init_champs t o' H) as (_ & _ & Ha & Ho).
  destruct (calculer_calendriers_acyclique o' m Hm Hc Hac ltac:(lia)
              ltac:(rewrite Ho; by apply (gt_seul_puits t)))
    as (early & late & T & Hcal & Hd).
  rewrite Ho in Hd.
  destruct (trouver_chemins_critiques_retourne fuel o' m early late Hm)
    as [paths Hpaths]; [lia|apply Hd|apply Hd| | |done|].
  { by apply (dates_sans_debordement m (length t + 1) early late T Hc Hac
                (gt_seul_puits t m Hg Hac Hn) Hd). }
  { apply (sans_circuit_impl _ (arc m)); [|done].
    intros u v. apply critique_arc. }
  pose proof (chemins_critiques_exacts_lemme fuel o' m early late paths Hm Hc Hpaths)
    as Hex.
  rewrite Ha, Ho in Hex.
  pose proof (cal_early_alpha t m early late T Hg Hn Hd) as He0.
  pose proof (cal_late_alpha t m early late T Hg Hac Hn Hpos Hd) as Hl0.
  exists early, late, (zip_with ext_moins late early), paths.
  split; [done|]. split; [done|]. intros v Hv.
  rewrite (marge_nulle t m early late T Hg Hac Hn Hpos Hd v Hv). split.
  - intros (e & He & Hl).
    destruct (tendu_amont t m early late T Hg Hac Hn Hpos Hd v Hv e He Hl)
      as (q & Hq & Hh).
    destruct (tendu_suite t m early late T Hg Hac Hn Hd v Hv e He Hl)
      as (q2 & Hq2 & Hlast & _).
    exists (q ++ v :: q2). split; [|apply elem_of_app; right; by left].
    assert (Hch : chemin (critique m early late) (q ++ v :: q2)).
    { by apply chemin_app. }
    apply Hex. split; [split; [done|split]|].
    + by destruct q.
    + rewrite last_app. by rewrite Hlast.
    + apply (direct_graphe_taches t m); [done|].
      apply (chemin_impl (critique m early late)); [|done].
      intros a b. apply critique_arc.
  - intros (p & Hp & Hvp). apply Hex in Hp as [(Hch & Hh & Hl) _].
    destruct p as [|a p]; [done|]. injection Hh as ->.
    destruct (critique_poids t m early late T Hg Hac Hn Hd p 0 0%Z _ Hch He0 Hl)
      as [_ Hmarge].
    apply elem_of_cons in Hvp as [->|Hvp]; [by exists 0%Z|by apply Hmarge].
Qed.

Lemma marge_nulle_ssi_critique_temoin :
  bien_formee ex_cpm /\ 1 <= length ex_cpm /\
  construire_graphe (charger init ex_cpm) = Ret ex_cpm_graphe /\
  acyclique ex_cpm_matrice /\
  (forall u v w, cell ex_cpm_matrice u v = Some w -> (0 <= w)%Z) /\
  calculer_calendriers ex_cpm_graphe =
    Ret (Some [0; 0; 0; 3; 7; 8]%Z,
         Some [Fin 0; Fin 0; Fin 1; Fin 3; Fin 7; Fin 8],
         Some [Fin 0; Fin 0; Fin 1; Fin 0; Fin 0; Fin 0]) /\
  trouver_chemins_critiques 7 ex_cpm_graphe (Some [0; 0; 0; 3; 7; 8]%Z)
    (Some [Fin 0; Fin 0; Fin 1; Fin 3; Fin 7; Fin 8]) =
    Ret (Some [[0; 1; 3; 4; 5]]) /\
  ~ exists p, p ∈ [[0; 1; 3; 4; 5]] /\ 2 ∈ p.
Proof.
  assert (Hn : 1 <= length ex_cpm) by (simpl; lia).
  assert (Hfuel : length ex_cpm_matrice < 7) by (simpl; lia).
  assert (Hpos : forall u v w, cell ex_cpm_matrice u v = Some w -> (0 <= w)%Z).
  { apply has_negative_spec; [exact ex_cpm_carree|reflexivity]. }
  split; [exact ex_cpm_bien_formee|]. split; [exact Hn|].
  split; [reflexivity|]. split; [exact ex_cpm_acyclique|].
  split; [exact Hpos|]. split; [exact ex_cpm_calendriers|].
  split; [reflexivity|].
  destruct (marge_nulle_ssi_critique 7 ex_cpm ex_cpm_graphe ex_cpm_matrice
              ex_cpm_bien_formee Hn eq_refl eq_refl ex_cpm_acyclique Hpos Hfuel)
    as (early & late & margins & paths & Hcal & Hpaths & Hv).
  rewrite ex_cpm_calendriers in Hcal. injection Hcal as <- <- <-.
  vm_compute in Hpaths. injection Hpaths as <-.
  intros Hex. apply (Hv 2) in Hex; [done|simpl; lia].
Defined.

(** ** Critical paths are the heaviest paths *)

Section Lourds.
Variable t : table.
Variable m : matrice.
Variable early : list Z.
Variable late : list ext.
Variable T : Z.
Hypothesis Hg : graphe_taches t m.
Hypothesis Hac : acyclique m.
Hypothesis Hn : 1 <= length t.
Hypothesis Hpos : forall u v w, cell m u v = Some w -> (0 <= w)%Z.
Hypothesis Hd : dates m (length t + 1) early late T.

Lemma lourd_critique p : forall a ea,
  chemin (arc m) (a :: p) -> last (a :: p) = Some (length t + 1) ->
  early !! a = Some ea -> (ea + poids m (a :: p))%Z = T ->
  chemin (critique m early late) (a :: p) /\ late !! a = Some (Fin ea).
Proof.
  pose proof (gt_carree t m Hg) as Hc.
  induction p as [|y p IH]; intros a ea Hp Hl Ha Hw.
  - simpl in *. injection Hl as ->. rewrite Z.add_0_r in Hw. subst ea.
    split; [done|]. apply (cal_late_omega t m early late T Hg Hn Hd).
  - destruct Hp as [Hay Hp]. rewrite last_cons_cons in Hl.
    destruct (arc_range m a y Hc Hay) as [Halt Hylt].
    destruct (lookup_lt_is_Some_2 early y) as [ey Hy].
    { by rewrite (d_early_length _ _ _ _ _ Hd). }
    pose proof Hay as Hay'. apply arc_is_Some in Hay' as [w Hcw].
    change (poids m (a :: y :: p)) with (weight m a y + poids m (y :: p))%Z in Hw.
    rewrite (weight_cell m a y w Hcw) in Hw.
    pose proof (tot_arc m _ early late T Hd a y w ea ey Hcw Ha Hy).
    assert (Hq : chemin_de (arc m) y (length t + 1) (y :: p)) by done.
    pose proof (tot_chemin m _ early late T Hc Hd (y :: p) y (length t + 1) ey T
                  Hq Hy (d_total _ _ _ _ _ Hd)).
    destruct (IH y ey Hp Hl Hy) as [Hcr Hly]; [lia|].
    destruct (cal_late_fini t m early late T Hg Hac Hn Hpos Hd a Halt)
      as (la & Hla & _).
    pose proof (tard_arc m _ early late T Hd a y w _ _ Hcw Hla Hly) as Hle.
    simpl in Hle.
    pose proof (cal_early_late t m early late T Hg Hac Hn Hd a ea la Halt Ha Hla).
    assert (la = ea) as -> by lia.
    split; [|done]. split; [|done].
    exists w, ey, ea. repeat split; try done. lia.
Qed.

(** Every task ends before the project does. *)
Lemma fin_avant_total : forall u, u < length m ->
  forall eu, early !! u = Some eu -> (eu <= T)%Z /\
  forall v w, cell m u v = Some w -> (eu + w <= T)%Z.
Proof.
  pose proof (gt_carree t m Hg) as Hc.
  apply (sans_circuit_ind (flip (arc m)) (length m)
    (fun u => u < length m ->
       forall eu, early !! u = Some eu -> (eu <= T)%Z /\
       forall v w, cell m u v = Some w -> (eu + w <= T)%Z)
    (sans_circuit_flip _ Hac)).
  { intros u v Huv. destruct (arc_range m v u Hc Huv). done. }
  intros u IH Hu eu Heu.
  assert (Harcs : forall v w, cell m u v = Some w -> (eu + w <= T)%Z).
  { intros v w Hw. assert (Huv : arc m u v) by (apply arc_is_Some; by rewrite Hw).
    destruct (arc_range m u v Hc Huv) as [_ Hv].
    destruct (lookup_lt_is_Some_2 early v) as [ev Hev].
    { by rewrite (d_early_length _ _ _ _ _ Hd). }
    pose proof (tot_arc m _ early late T Hd u v w eu ev Hw Heu Hev).
    destruct (IH v Huv Hv ev Hev) as [? _]. lia. }
  split; [|done].
  destruct (decide (u = length t + 1)) as [->|Hne].
  - pose proof (d_total _ _ _ _ _ Hd) as HT. rewrite HT in Heu.
    injection Heu as ->. lia.
  - destruct (cal_successeur t m Hg Hac Hn u Hu Hne) as [v Hv].
    apply arc_is_Some in Hv as [w Hw].
    pose proof (Harcs v w Hw). pose proof (Hpos u v w Hw). lia.
Qed.
End Lourds.

(** X16.  On a validated graph (identifiers 1..n with at least one task,
    no negative duration, no circuit) the earliest dates are a schedule of
    the tasks: no task starts before a predecessor it lists has ended, and
    every task ends by the total duration [early[omega]]. *)
Theorem calendrier_des_taches t o' m :
  bien_formee t -> 1 <= length t ->
  construire_graphe (charger init t) = Ret o' -> matrix o' = Some m ->
  acyclique m -> (forall u v w, cell m u v = Some w -> (0 <= w)%Z) ->
  exists early late margins T,
    calculer_calendriers o' = Ret (Some early, Some late, Some margins) /\
    early !! omega o' = Some T /\
    (forall k d ps, tasks_get t (Z.of_nat k) = Some (d, ps) ->
       exists ek, early !! k = Some ek /\ (0 <= ek)%Z /\ (ek + d <= T)%Z /\
         forall p dp qs ep,
           Z.of_nat p ∈ ps -> tasks_get t (Z.of_nat p) = Some (dp, qs) ->
           early !! p = Some ep -> (ep + dp <= ek)%Z).
Proof.
  intros Hbf Hn H Hm Hac Hpos.
  pose proof (construire_graphe_taches t o' m Hbf H Hm) as Hg.
  pose proof (gt_carree t m Hg) as Hc.
  pose proof (gt_length t m Hg) as Hlen.
  pose proof (graphe_exact t Hbf o' m H Hm) as Hex.
  destruct (charger_init_champs t o' H) as (_ & _ & Ha & Ho).
  destruct (calculer_calendriers_acyclique o' m Hm Hc Hac ltac:(lia)
              ltac:(rewrite Ho; by apply (gt_seul_puits t)))
    as (early & late & T & Hcal & Hd).
  rewrite Ho in Hd.
  exists early, late, (zip_with ext_moins late early), T.
  split; [done|]. split; [rewrite Ho; apply Hd|].
  intros k d ps Hk.
  pose proof (cle_borne t Hbf _ _ Hk) as Hkb.
  assert (Hklt : k < length m) by lia.
  destruct (lookup_lt_is_Some_2 early k) as [ek Hek].
  { by rewrite (d_early_length _ _ _ _ _ Hd). }
  exists ek. split; [done|].
  split; [by apply (tot_positif m _ early late T Hd k)|]. split.
  - destruct (gt_succ t m Hg k) as [v Hv]; [lia|].
    apply arc_is_Some in Hv as [w Hw].
    destruct (fin_avant_total t m early late T Hg Hac Hn Hpos Hd k Hklt ek Hek)
      as [_ Hfin].
    pose proof (Hfin v w Hw).
    apply Hex in Hw as [(Hz & _)|[(? & ? & ? & _ & _ & Hz)|(_ & [? Hz] & _)]];
      [lia| |]; rewrite Hk in Hz; injection Hz as <- _; done.
  - intros p dp qs ep Hp Hgp Hep.
    apply (tot_arc m _ early late T Hd p k dp ep ek); [|done|done].
    apply Hex. right; left. by exists d, ps, qs.
Qed.

Lemma calendrier_des_taches_temoin :
  bien_formee ex_cpm /\ 1 <= length ex_cpm /\
  construire_graphe (charger init ex_cpm) = Ret ex_cpm_graphe /\
  acyclique ex_cpm_matrice /\
  (forall u v w, cell ex_cpm_matrice u v = Some w -> (0 <= w)%Z) /\
  exists ek, [0; 0; 0; 3; 7; 8]%Z !! 3 = Some ek /\ (ek + 4 <= 8)%Z /\
    forall p dp qs ep,
      Z.of_nat p ∈ [1; 2]%Z -> tasks_get ex_cpm (Z.of_nat p) = Some (dp, qs) ->
      [0; 0; 0; 3; 7; 8]%Z !! p = Some ep -> (ep + dp <= ek)%Z.
Proof.
  assert (Hn : 1 <= length ex_cpm) by (simpl; lia).
  assert (Hpos : forall u v w, cell ex_cpm_matrice u v = Some w -> (0 <= w)%Z).
  { apply has_negative_spec; [exact ex_cpm_carree|reflexivity]. }
  split; [exact ex_cpm_bien_formee|]. split; [exact Hn|].
  split; [reflexivity|]. split; [exact ex_cpm_acyclique|].
  split; [exact Hpos|].
  destruct (calendrier_des_taches ex_cpm ex_cpm_graphe ex_cpm_matrice
              ex_cpm_bien_formee Hn eq_refl eq_refl ex_cpm_acyclique Hpos)
    as (early & late & margins & T & Hcal & HT & Htaches).
  rewrite ex_cpm_calendriers in Hcal. injection Hcal as <- <- <-.
  simpl in HT. injection HT as <-.
  destruct (Htaches 3 4%Z [1; 2]%Z eq_refl) as (ek & Hek & _ & Hfin & Hpred).
  exists ek. done.
Defined.

(** X17.  On a validated graph the paths [trouver_chemins_critiques]
    returns are exactly the heaviest paths from alpha to omega: a walk
    from alpha to omega is returned if and only if the weights of its arcs
    add up to the total duration [early[omega]], which no walk exceeds. *)
Theorem chemins_critiques_plus_lourds fuel t o' m :
  bien_formee t -> 1 <= length t ->
  construire_graphe (charger init t) = Ret o' -> matrix o' = Some m ->
  acyclique m -> (forall u v w, cell m u v = Some w -> (0 <= w)%Z) ->
  length m < fuel ->
  exists early late margins T paths,
    calculer_calendriers o' = Ret (Some early, Some late, Some margins) /\
    early !! omega o' = Some T /\
    trouver_chemins_critiques fuel o' (Some early) (Some late) = Ret (Some paths) /\
    forall p, chemin_de (arc m) (alpha o') (omega o') p ->
      (poids m p <= T)%Z /\ (p ∈ paths <-> poids m p = T).
Proof.
  intros Hbf Hn H Hm Hac Hpos Hfuel.
  pose proof (construire_graphe_taches t o' m Hbf H Hm) as Hg.
  pose proof (gt_carree t m Hg) as Hc.
  pose proof (gt_length t m Hg) as Hlen.
  destruct (charger_init_champs t o' H) as (_ & _ & Ha & Ho).
  destruct (calculer_calendriers_acyclique o' m Hm Hc Hac ltac:(lia)
              ltac:(rewrite Ho; by apply (gt_seul_puits t)))
    as (early & late & T & Hcal & Hd).
  rewrite Ho in Hd.
  destruct (trouver_chemins_critiques_retourne fuel o' m early late Hm)
    as [paths Hpaths]; [lia|apply Hd|apply Hd| | |done|].
  { by apply (dates_sans_debordement m (length t + 1) early late T Hc Hac
                (gt_seul_puits t m Hg Hac Hn) Hd). }
  { apply (sans_circuit_impl _ (arc m)); [|done].
    intros u v. apply critique_arc. }
  pose proof (chemins_critiques_exacts_lemme fuel o' m early late paths Hm Hc Hpaths)
    as Hex.
  rewrite Ha, Ho in *.
  pose proof (cal_early_alpha t m early late T Hg Hn Hd) as He0.
  pose proof (d_total _ _ _ _ _ Hd) as HT.
  exists early, late, (zip_with ext_moins late early), T, paths.
  split; [done|]. split; [done|]. split; [done|].
  intros p Hp.
  pose proof (tot_chemin m _ early late T Hc Hd p 0 (length t + 1) 0%Z T Hp He0 HT)
    as Hle.
  split; [lia|]. split.
  - intros Hin. apply Hex in Hin as [(Hch & Hh & Hl) _].
    destruct p as [|a p]; [done|]. injection Hh as ->.
    destruct (critique_poids t m early late T Hg Hac Hn Hd p 0 0%Z _ Hch He0 Hl)
      as [Hb _].
    rewrite HT in Hb. injection Hb as Hb. by rewrite Hb, Z.add_0_l.
  - intros Hw. destruct Hp as (Hch & Hh & Hl).
    destruct p as [|a p]; [done|]. injection Hh as ->.
    destruct (lourd_critique t m early late T Hg Hac Hn Hpos Hd p 0 0%Z Hch Hl He0)
      as [Hcr _]; [lia|].
    apply Hex. split; [done|].
    by apply (direct_graphe_taches t m).
Qed.

Lemma chemins_critiques_plus_lourds_temoin :
  bien_formee ex_cpm /\ 1 <= length ex_cpm /\
  construire_graphe (charger init ex_cpm) = Ret ex_cpm_graphe /\
  acyclique ex_cpm_matrice /\
  (forall u v w, cell ex_cpm_matrice u v = Some w -> (0 <= w)%Z) /\
  forall p, chemin_de (arc ex_cpm_matrice) 0 5 p ->
    (poids ex_cpm_matrice p <= 8)%Z /\
    (p ∈ [[0; 1; 3; 4; 5]] <-> poids ex_cpm_matrice p = 8%Z).
Proof.
  assert (Hn : 1 <= length ex_cpm) by (simpl; lia).
  assert (Hfuel : length ex_cpm_matrice < 7) by (simpl; lia).
  assert (Hpos : forall u v w, cell ex_cpm_matrice u v = Some w -> (0 <= w)%Z).
  { apply has_negative_spec; [exact ex_cpm_carree|reflexivity]. }
  split; [exact ex_cpm_bien_formee|]. split; [exact Hn|].
  split; [reflexivity|]. split; [exact ex_cpm_acyclique|].
  split; [exact Hpos|].
  destruct (chemins_critiques_plus_lourds 7 ex_cpm ex_cpm_graphe ex_cpm_matrice
              ex_cpm_bien_formee Hn eq_refl eq_refl ex_cpm_acyclique Hpos Hfuel)
    as (early & late & margins & T & paths & Hcal & HT & Hpaths & Hp).
  rewrite ex_cpm_calendriers in Hcal. injection Hcal as <- <- <-.
  simpl in HT. injection HT as <-.
  vm_compute in Hpaths. injection Hpaths as <-.
  exact Hp.
Defined.

(** ** No critical path twice *)

Lemma arcs_ligne_NoDup m early late i js : forall ce ce',
  arcs_ligne m early late i js ce = Ret ce' ->
  NoDup js -> NoDup ce -> (forall j, j ∈ js -> (i, j) ∉ ce) ->
  NoDup ce' /\ forall u v, (u, v) ∈ ce' -> (u, v) ∈ ce \/ u = i.
Proof.
  induction js as [|j js IH]; intros ce ce' H Hjs Hce Hnew; simpl in H.
  - injection H as <-. split; [done|]. intros u v ?. by left.
  - apply obind_Ret in H as (b & _ & H).
    apply NoDup_cons in Hjs as [Hj Hjs].
    destruct b.
    + destruct (IH _ _ H Hjs) as [Hnd Hor].
      * apply NoDup_app. split; [done|]. split; [|apply NoDup_singleton].
        intros x Hx Hx'%list_elem_of_singleton. subst x.
        by apply (Hnew j); [left|].
      * intros j' Hj' Hin. apply elem_of_app in Hin as [Hin|Hin%list_elem_of_singleton].
        -- by apply (Hnew j'); [right|].
        -- injection Hin as ->. done.
      * split; [done|]. intros u v Huv.
        destruct (Hor u v Huv) as [Hin|?]; [|by right].
        apply elem_of_app in Hin as [?|Hin%list_elem_of_singleton]; [by left|].
        injection Hin as -> _. by right.
    + apply (IH _ _ H Hjs Hce). intros j' Hj'. apply Hnew. by right.
Qed.

Lemma arcs_critiques_NoDup m early late rows : forall ce ce',
  arcs_critiques m early late rows ce = Ret ce' ->
  NoDup rows -> NoDup ce -> (forall i j, i ∈ rows -> (i, j) ∉ ce) ->
  NoDup ce'.
Proof.
  induction rows as [|i rows IH]; intros ce ce' H Hrows Hce Hnew; simpl in H.
  - by injection H as <-.
  - apply obind_Ret in H as (ce1 & H1 & H).
    apply NoDup_cons in Hrows as [Hi Hrows].
    destruct (arcs_ligne_NoDup _ _ _ _ _ _ _ H1 (NoDup_seq _ _) Hce) as [Hnd Hor].
    { intros j _. apply Hnew. by left. }
    apply (IH _ _ H Hrows Hnd).
    intros i' j Hi' Hin. destruct (Hor _ _ Hin) as [Hin'| ->]; [|done].
    by apply (Hnew i' j); [right|].
Qed.

Lemma succs_adj_critique size ce u :
  u < size ->
  succs (adj_critique size ce) u = (filter (fun e => e.1 = u) ce).*2.
Proof.
  intros Hu. unfold adj_critique.
  assert (Hgen : forall adj0, u < length adj0 ->
    succs (foldl (fun adj '(u, v) => alter (fun l => l ++ [v]) u adj) adj0 ce) u =
    succs adj0 u ++ (filter (fun e => e.1 = u) ce).*2).
  { induction ce as [|[u' v'] ce IH]; intros adj0 Hl; simpl.
    - by rewrite app_nil_r.
    - rewrite IH by (by rewrite length_alter).
      rewrite filter_cons. simpl. unfold succs at 1.
      destruct (decide (u' = u)) as [->|Hne].
      + rewrite list_lookup_alter_eq.
        destruct (lookup_lt_is_Some_2 adj0 u Hl) as [l Hl0].
        unfold succs. rewrite Hl0. simpl. by rewrite <- app_assoc.
      + rewrite list_lookup_alter_ne by done. done. }
  rewrite Hgen by (by rewrite length_replicate).
  unfold succs. by rewrite lookup_replicate_2.
Qed.

Lemma NoDup_succs_adj_critique size ce u :
  NoDup ce -> NoDup (succs (adj_critique size ce) u).
Proof.
  intros Hce. destruct (decide (u < size)) as [Hu|Hu].
  - rewrite succs_adj_critique by done.
    apply NoDup_fmap_2_strong; [|by apply NoDup_filter].
    intros [a b] [a' b'] Hx Hy Heq.
    apply list_elem_of_filter in Hx as [Hx _].
    apply list_elem_of_filter in Hy as [Hy _]. simpl in *. congruence.
  - unfold succs. rewrite lookup_ge_None_2; [apply NoDup_nil_2|].
    unfold adj_critique.
    assert (Hlen : forall adj0,
      length (foldl (fun adj '(u, v) => alter (fun l => l ++ [v]) u adj) adj0 ce)
      = length adj0).
    { induction ce as [|[u' v'] ce' IH]; intros adj0; simpl; [done|].
      apply NoDup_cons in Hce as [_ Hce].
      rewrite IH by done. by rewrite length_alter. }
    rewrite Hlen, length_replicate. lia.
Qed.

Section SansDoublon.
Variable adj : list (list nat).
Variable om : nat.
Hypothesis adj_nodup : forall u, NoDup (succs adj u).

Lemma parcours_NoDup rec :
  dfs_chemins_sain adj om rec ->
  (forall node p ps p' ps', rec node (p, ps) = Ret (p', ps') ->
     exists new, ps' = ps ++ new /\ NoDup new) ->
  forall vs p ps p' ps',
    NoDup vs -> parcours rec vs (p, ps) = Ret (p', ps') ->
    exists new, ps' = ps ++ new /\ NoDup new.
Proof.
  intros Hsain Hrec. induction vs as [|v vs IH]; intros p ps p' ps' Hvs H; simpl in H.
  - injection H as <- <-. exists []. split; [by rewrite app_nil_r|apply NoDup_nil_2].
  - apply obind_Ret in H as ([p1 ps1] & H1 & H).
    apply NoDup_cons in Hvs as [Hv Hvs].
    destruct (Hsain v p ps p1 ps1 H1) as (-> & new1' & Heq1 & Ht1).
    destruct (Hrec v p ps p ps1 H1) as (new1 & -> & Hnd1).
    apply app_inv_head in Heq1 as <-.
    destruct (parcours_valide adj om rec Hsain _ _ _ _ _ H) as (_ & new2' & Heq2 & Ht2).
    destruct (IH _ _ _ _ Hvs H) as (new2 & -> & Hnd2).
    apply app_inv_head in Heq2 as <-.
    exists (new1 ++ new2). split; [by rewrite app_assoc|].
    apply NoDup_app. split; [done|]. split; [|done].
    intros q Hq1 Hq2.
    destruct (Ht1 q Hq1) as (v1 & r1 & Hv1 & -> & _).
    destruct (Ht2 _ Hq2) as (v2 & r2 & Hv2 & Heq & _).
    apply list_elem_of_singleton in Hv1 as ->.
    apply app_inv_head in Heq. injection Heq as -> _. done.
Qed.

Lemma dfs_chemins_NoDup fuel : forall node p ps p' ps',
  dfs_chemins fuel adj om node (p, ps) = Ret (p', ps') ->
  exists new, ps' = ps ++ new /\ NoDup new.
Proof.
  induction fuel as [|fuel IH]; intros node p ps p' ps' H; [done|].
  simpl in H. apply obind_Ret in H as ([p1 ps1] & H1 & H).
  simpl in H. injection H as <- <-.
  destruct (Nat.eqb_spec node om) as [->|Hne].
  - injection H1 as <- <-. exists [p ++ [om]]. split; [done|apply NoDup_singleton].
  - apply (parcours_NoDup _ (dfs_chemins_valide adj om fuel) IH _ _ _ _ _
             (adj_nodup node) H1).
Qed.
End SansDoublon.

(** X18.  [trouver_chemins_critiques] never returns the same path
    twice. *)
Theorem chemins_critiques_sans_doublon fuel o early late paths :
  trouver_chemins_critiques fuel o (Some early) (Some late) = Ret (Some paths) ->
  NoDup paths.
Proof.
  intros H. unfold trouver_chemins_critiques in H.
  destruct (sans_matrice o); [done|].
  destruct (matrix o) as [m|]; [|done].
  apply obind_Ret in H as (ce & Hce & H).
  apply obind_Ret in H as ([p' ps'] & Hdfs & H).
  simpl in H. injection H as <-.
  apply dfs_chemins_NoDup in Hdfs as (new & -> & Hnd); [done|].
  intros u. apply NoDup_succs_adj_critique.
  apply (arcs_critiques_NoDup _ _ _ _ _ _ Hce (NoDup_seq _ _) (NoDup_nil_2)).
  intros i j _. apply not_elem_of_nil.
Qed.

(** Two tasks of the same duration before a third: two critical paths. *)
Definition ex_deux : table := [(1, (2, [])); (2, (2, [])); (3, (1, [1; 2]))]%Z.

Definition ex_deux_graphe : Ordonnancement :=
  {| tasks := ex_deux;
     matrix := Some [[None; Some 0; Some 0; None; None];
                     [None; None; None; Some 2; None];
                     [None; None; None; Some 2; None];
                     [None; None; None; None; Some 1];
                     [None; None; None; None; None]]%Z;
     n := 3; alpha := 0; omega := 4 |}.

Lemma chemins_critiques_sans_doublon_temoin :
  construire_graphe (charger init ex_deux) = Ret ex_deux_graphe /\
  calculer_calendriers ex_deux_graphe =
    Ret (Some [0; 0; 0; 2; 3]%Z, Some [Fin 0; Fin 0; Fin 0; Fin 2; Fin 3],
         Some [Fin 0; Fin 0; Fin 0; Fin 0; Fin 0]) /\
  trouver_chemins_critiques 6 ex_deux_graphe (Some [0; 0; 0; 2; 3]%Z)
    (Some [Fin 0; Fin 0; Fin 0; Fin 2; Fin 3]) =
    Ret (Some [[0; 1; 3; 4]; [0; 2; 3; 4]]) /\
  NoDup [[0; 1; 3; 4]; [0; 2; 3; 4]].
Proof.
  split; [reflexivity|]. split; [reflexivity|]. split; [reflexivity|].
  exact (chemins_critiques_sans_doublon 6 ex_deux_graphe [0; 0; 0; 2; 3]%Z
           [Fin 0; Fin 0; Fin 0; Fin 2; Fin 3] [[0; 1; 3; 4]; [0; 2; 3; 4]]
           eq_refl).
Defined.

(** ** The menu *)

(** *** The states of the menu *)

(** The matrix, when there is one, is the square matrix of [n + 2]
    vertices, alpha is 0 and omega its last vertex. *)
Definition coherent (o : Ordonnancement) : Prop :=
  alpha o = 0 /\
  match matrix o with
  | None => True
  | Some m => forme (n o + 2) m /\ omega o = n o + 1
  end.

Lemma coherent_init : coherent init.
Proof. done. Qed.

Lemma lire_fichier_champs f o :
  alpha (lire_fichier f o).2 = alpha o /\
  matrix (lire_fichier f o).2 = matrix o /\
  (if (lire_fichier f o).1
   then omega (lire_fichier f o).2 = n (lire_fichier f o).2 + 1
   else n (lire_fichier f o).2 = n o /\ omega (lire_fichier f o).2 = omega o).
Proof.
  unfold lire_fichier. destruct f as [ls|]; [|done].
  by destruct (lire_lignes ls []).2.
Qed.

Lemma tour_coherent fuel choix f o o' :
  coherent o -> tour fuel choix f o = Ret (Encore o') -> coherent o'.
Proof.
  intros [Ha Hm] H. unfold tour in H.
  destruct (String.eqb choix "1").
  { destruct (lire_fichier_champs f o) as (Ha1 & Hm1 & Hno).
    destruct (lire_fichier f o).1.
    - apply obind_Ret in H as (o2 & H2 & H). injection H as <-.
      destruct (construire_graphe_forme _ _ H2) as (m & Hm2 & Hf).
      destruct (construire_graphe_champs _ _ H2) as (_ & Hn2 & Ha2 & Ho2).
      split; [congruence|]. rewrite Hm2, Hn2, Ho2. done.
    - injection H as <-. destruct Hno as [Hn1 Ho1].
      split; [congruence|]. by rewrite Hm1, Hn1, Ho1. }
  assert (Hmeme : forall {A} (c : outcome A),
            (_ ← c; Ret (Encore o)) = Ret (Encore o') -> o' = o).
  { intros A c Hc. apply obind_Ret in Hc as (? & _ & Hc). simpl in Hc.
    by injection Hc. }
  destruct (String.eqb choix "2"); [by injection H as <-|].
  destruct (String.eqb choix "3"); [by apply Hmeme in H as ->|].
  destruct (String.eqb choix "4"); [by apply Hmeme in H as ->|].
  destruct (String.eqb choix "5"); [by apply Hmeme in H as ->|].
  destruct (String.eqb choix "6").
  { apply obind_Ret in H as (cal & _ & H). by apply Hmeme in H as ->. }
  destruct (String.eqb choix "7").
  { destruct (tasks o); [by injection H as <-|].
    apply obind_Ret in H as ([|] & _ & H); simpl in H; [|by injection H as <-].
    apply obind_Ret in H as (? & _ & H).
    apply obind_Ret in H as (? & _ & H). by apply Hmeme in H as ->. }
  destruct (String.eqb choix "8"); [done|]. by injection H as <-.
Qed.

Lemma boucle_menu_coherent fuel entrees : forall o o',
  coherent o -> boucle_menu fuel entrees o = Ret (Some o') -> coherent o'.
Proof.
  induction entrees as [|[choix f] entrees IH]; intros o o' Hco H; simpl in H.
  - by injection H as <-.
  - apply obind_Ret in H as ([o1|] & H1 & H); [|done].
    apply (IH o1); [|done]. by apply (tour_coherent fuel choix f o).
Qed.

Lemma coherent_cas o :
  coherent o ->
  sans_matrice o = true \/
  exists m, matrix o = Some m /\ sans_matrice o = false /\ carree m /\
            length m = n o + 2 /\ omega o < length m.
Proof.
  intros [_ Hm]. unfold sans_matrice. destruct (matrix o) as [m|]; [|by left].
  destruct Hm as [Hf Ho]. pose proof (forme_carree _ _ Hf) as Hc.
  destruct Hf as [Hl _]. destruct m; [simpl in Hl; lia|].
  right. eexists. split; [done|]. split; [done|]. split; [done|].
  split; [done|]. lia.
Qed.

Lemma verifier_proprietes_retourne fuel o :
  coherent o -> n o + 2 <= fuel ->
  exists b, verifier_proprietes fuel o = Ret b /\
    (b = true -> exists m, matrix o = Some m /\ acyclique m).
Proof.
  intros Hco Hfuel.
  destruct (coherent_cas o Hco) as [Hs|(m & Hm & Hs & Hc & Hl & _)].
  { unfold verifier_proprietes. rewrite Hs. by exists false. }
  destruct (verifier_proprietes_verdict fuel o m Hm ltac:(lia) Hc)
    as (Hiff & _ & Htot).
  destruct Htot as [b Hb]; [right; lia|].
  exists b. split; [done|]. intros ->. exists m. split; [done|].
  by apply Hiff.
Qed.

Lemma calculer_rangs_total o : coherent o -> exists r, calculer_rangs o = Ret r.
Proof.
  intros Hco. destruct (coherent_cas o Hco) as [Hs|(m & Hm & _ & _ & Hl & _)].
  - unfold calculer_rangs. rewrite Hs. by eexists.
  - destruct (calculer_rangs_retourne o m Hm) as (ranks & -> & _); [lia|].
    by eexists.
Qed.

Lemma calculer_calendriers_total o :
  coherent o -> (forall m, matrix o = Some m -> petit m) ->
  exists cal, calculer_calendriers o = Ret cal /\
    forall m, matrix o = Some m ->
      exists early late, cal.1.1 = Some early /\ cal.1.2 = Some late /\
                         length early = length m /\ length late = length m /\
                         sans_debordement m early late.
Proof.
  intros Hco Hp. destruct (coherent_cas o Hco) as [Hs|(m & Hm & _ & _ & Hl & Ho)].
  - unfold calculer_calendriers. rewrite Hs. eexists. split; [done|].
    intros m Hm. destruct Hco as [_ Hf]. rewrite Hm in Hf.
    unfold sans_matrice in Hs. rewrite Hm in Hs.
    destruct m; [|done]. destruct Hf as [[Hl _] _]. simpl in Hl. lia.
  - destruct (calculer_calendriers_petit_retourne o m Hm Ho (Hp m Hm))
      as (early & late & margins & Hcal & Hle & Hll & _).
    eexists. split; [exact Hcal|]. intros m' Hm'. rewrite Hm in Hm'.
    injection Hm' as <-. exists early, late.
    split; [done|]. split; [done|]. split; [done|]. split; [done|].
    apply (petit_sans_debordement o m early late margins Hm ltac:(lia)
             (Hp m Hm) Hcal).
Qed.

Lemma tour_sans_echec fuel choix f o :
  coherent o -> choix <> "1" -> choix <> "6" -> n o + 2 < fuel ->
  (choix = "5" \/ choix = "7" -> forall m, matrix o = Some m -> petit m) ->
  tour fuel choix f o = Ret (if String.eqb choix "8" then Fini else Encore o).
Proof.
  intros Hco H1 H6 Hfuel Hp. unfold tour.
  rewrite (proj2 (String.eqb_neq choix "1") H1).
  rewrite (proj2 (String.eqb_neq choix "6") H6).
  destruct (verifier_proprietes_retourne fuel o Hco ltac:(lia))
    as (b & Hb & Hac).
  destruct (calculer_rangs_total o Hco) as (r & Hr).
  destruct (String.eqb_spec choix "2") as [->|_]; [done|].
  destruct (String.eqb_spec choix "3") as [->|_]; [by rewrite Hb|].
  destruct (String.eqb_spec choix "4") as [->|_]; [by rewrite Hr|].
  destruct (String.eqb_spec choix "5") as [->|_].
  { destruct (calculer_calendriers_total o Hco (Hp ltac:(by left)))
      as (cal & -> & _). done. }
  destruct (String.eqb_spec choix "7") as [->|_]; [|by destruct (String.eqb choix "8")].
  destruct (calculer_calendriers_total o Hco (Hp ltac:(by right)))
    as (cal & Hcal & Hlen).
  destruct (tasks o); [done|]. rewrite Hb. simpl.
  destruct b; [|done]. rewrite Hr. simpl. rewrite Hcal. simpl.
  destruct (Hac eq_refl) as (m & Hm & Hacm).
  destruct (Hlen m Hm) as (early & late & -> & -> & Hle & Hll & Hsd).
  destruct (coherent_cas o Hco) as [Hs|(m' & Hm' & _ & _ & Hl & _)].
  { unfold trouver_chemins_critiques. by rewrite Hs. }
  rewrite Hm in Hm'. injection Hm' as <-.
  destruct (trouver_chemins_critiques_retourne fuel o m early late Hm)
    as [paths ->]; try done; try lia.
  apply (sans_circuit_impl _ (arc m)); [|done].
  intros u v. apply critique_arc.
Qed.

Lemma ex_cpm_petit : petit ex_cpm_matrice.
Proof.
  exists 4%Z. split; [lia|]. split; [|vm_compute; reflexivity].
  intros u v w Hw.
  do 6 (destruct u as [|u]; [do 6 (destruct v as [|v];
    [vm_compute in Hw; first [discriminate|injection Hw as <-; lia]|]);
    vm_compute in Hw; discriminate|]).
  vm_compute in Hw. discriminate.
Qed.

(** X19.  Whatever was typed at the menu before, as long as the program
    is still running, the object it holds is coherent (its matrix, if any,
    is square of size [n + 2] with omega its last vertex), and every
    choice other than 1 (load) and 6 (critical paths without validation)
    returns to the menu without an exception and leaves the object as it
    was, provided that Python allows a depth of recursion of more than the
    number of vertices and, for the choices 5 and 7, which compute dates,
    that the weights are small enough for the dates to convert to floats;
    choice 8 ends the program.  Choice 7 searches the critical paths only
    after [verifier_proprietes] accepted the graph. *)
Theorem menu_sans_echec fuel entrees o choix f :
  main fuel entrees = Ret (Some o) ->
  choix <> "1" -> choix <> "6" -> n o + 2 < fuel ->
  (choix = "5" \/ choix = "7" -> forall m, matrix o = Some m -> petit m) ->
  coherent o /\
  tour fuel choix f o = Ret (if String.eqb choix "8" then Fini else Encore o).
Proof.
  intros H H1 H6 Hfuel Hp.
  assert (Hco : coherent o).
  { by apply (boucle_menu_coherent fuel entrees init o coherent_init). }
  split; [done|]. by apply tour_sans_echec.
Qed.

Lemma menu_sans_echec_temoin :
  main 10 [("1", Some [Some [1; 3]; Some [2; 2]; Some [3; 4; 1; 2];
                       Some [4; 1; 3]]%Z); ("5", None)] =
    Ret (Some ex_cpm_graphe) /\
  petit ex_cpm_matrice /\
  tour 10 "7" None ex_cpm_graphe = Ret (Encore ex_cpm_graphe).
Proof.
  assert (Hmain : main 10 [("1", Some [Some [1; 3]; Some [2; 2];
                                       Some [3; 4; 1; 2]; Some [4; 1; 3]]%Z);
                           ("5", None)] = Ret (Some ex_cpm_graphe))
    by (vm_compute; reflexivity).
  split; [exact Hmain|]. split; [exact ex_cpm_petit|].
  refine (proj2 (menu_sans_echec 10
    [("1", Some [Some [1; 3]; Some [2; 2]; Some [3; 4; 1; 2]; Some [4; 1; 3]]%Z);
     ("5", None)] ex_cpm_graphe "7" None Hmain _ _ _ _)).
  - discriminate.
  - discriminate.
  - simpl. lia.
  - intros _ m [= <-]. exact ex_cpm_petit.
Defined.

(** X20.  Choice 1 on the file that lists a table (one task per line,
    distinct identifiers) does what [construire_graphe] does on that table
    loaded in a new object: the graph it returns becomes the object of the
    menu, and an exception it raises (a predecessor that is no task, an
    identifier out of range) is caught by nothing and ends the program. *)
Theorem menu_charge_table fuel t o :
  coherent o -> NoDup (keys t) ->
  tour fuel "1" (Some (map ligne_de t)) o =
  (o' ← construire_graphe (charger init t); Ret (Encore o')).
Proof.
  intros [Ha _] Hnd. unfold tour. simpl.
  unfold lire_fichier. rewrite (lire_lignes_table t []) by done. simpl.
  by rewrite (construire_graphe_champs_seuls _ (charger init t)).
Qed.

Lemma menu_charge_table_temoin :
  coherent ex_cpm_graphe /\ NoDup (keys ex_absent) /\
  tour 10 "1" (Some [Some [1; 1; 9]%Z]) ex_cpm_graphe = Raise (KeyError 9).
Proof.
  assert (Hco : coherent ex_cpm_graphe).
  { split; [reflexivity|]. simpl. split; [|reflexivity].
    split; [reflexivity|]. apply ex_cpm_carree. }
  assert (Hnd : NoDup (keys ex_absent)).
  { apply NoDup_singleton. }
  split; [exact Hco|]. split; [exact Hnd|].
  exact (menu_charge_table 10 ex_absent ex_cpm_graphe Hco Hnd).
Defined.
